(** * mono: the artifact cache engine ([internal/mono/cache.go])

    A shallow embedding of the cache manager of [mono] and the proofs of
    the properties its specification states about it.

    Modelling conventions.

    - A path is the list of its components below the filesystem root;
      the paths the program handles come out of [filepath.Join] and are
      clean (no empty, [.] or [..] component), so [filepath.Join] is
      concatenation, [filepath.Base] the last component and
      [filepath.Dir] everything but the last.  [path_str] gives the
      string the program sees.
    - The filesystem is a tree of directories, regular files and
      symbolic links.  A symbolic link is a leaf holding its target
      string; it is never resolved.
    - Stateful code is a function from a [world] to a result and the
      world it leaves: Go code keeps what it already wrote when it
      returns an error.
    - [crypto/sha256] and [encoding/hex] are implemented, so that keys
      and project identifiers can be computed. *)

From Stdlib Require Import List String Ascii NArith ZArith Lia Bool Arith.
From Stdlib Require Import Strings.Byte RelationClasses.
Import ListNotations.
Open Scope string_scope.
Open Scope list_scope.

Set Implicit Arguments.

(* ------------------------------------------------------------------ *)
(** * crypto/sha256 and encoding/hex *)

Module Sha256.
Local Open Scope N_scope.

Definition w32 (x : N) : N := x mod 4294967296.
Definition add32 (x y : N) : N := w32 (x + y).
Definition rotr (n x : N) : N :=
  N.lor (N.shiftr x n) (w32 (N.shiftl x (32 - n))).
Definition not32 (x : N) : N := N.lxor x 4294967295.

Definition Ch (x y z : N) := N.lxor (N.land x y) (N.land (not32 x) z).
Definition Maj (x y z : N) :=
  N.lxor (N.lxor (N.land x y) (N.land x z)) (N.land y z).
Definition Sigma0 x := N.lxor (N.lxor (rotr 2 x) (rotr 13 x)) (rotr 22 x).
Definition Sigma1 x := N.lxor (N.lxor (rotr 6 x) (rotr 11 x)) (rotr 25 x).
Definition sigma0 x := N.lxor (N.lxor (rotr 7 x) (rotr 18 x)) (N.shiftr x 3).
Definition sigma1 x := N.lxor (N.lxor (rotr 17 x) (rotr 19 x)) (N.shiftr x 10).

(** The constants are the first 32 bits of the fractional parts of the
    cube roots ([K]) and of the square roots ([H0]) of the first
    primes. *)
Definition primes : list N :=
  [2; 3; 5; 7; 11; 13; 17; 19; 23; 29; 31; 37; 41; 43; 47; 53; 59; 61; 67;
   71; 73; 79; 83; 89; 97; 101; 103; 107; 109; 113; 127; 131; 137; 139; 149;
   151; 157; 163; 167; 173; 179; 181; 191; 193; 197; 199; 211; 223; 227;
   229; 233; 239; 241; 251; 257; 263; 269; 271; 277; 281; 283; 293; 307;
   311].

(** The integer cube root, one bit at a time from bit [k - 1] down. *)
Fixpoint icbrt (k : nat) (n r : N) : N :=
  match k with
  | O => r
  | S j =>
      let c := r + 2 ^ N.of_nat j in
      icbrt j n (if c * c * c <=? n then c else r)
  end.

Definition K : list N :=
  Eval vm_compute in map (fun p => w32 (icbrt 36 (p * 2 ^ 96) 0)) primes.

Definition H0 : list N :=
  Eval vm_compute in
    map (fun p => w32 (N.sqrt (p * 2 ^ 64))) (firstn 8 primes).

(** Big-endian encoding of [x] on [n] bytes. *)
Fixpoint be_bytes (n : nat) (x : N) : list N :=
  match n with
  | O => []
  | S m => N.shiftr x (8 * N.of_nat m) mod 256 :: be_bytes m x
  end.

Definition pad (msg : list N) : list N :=
  let len := List.length msg in
  let zeros := ((119 - len mod 64) mod 64)%nat in
  msg ++ [128] ++ repeat 0 zeros ++ be_bytes 8 (8 * N.of_nat len).

Fixpoint words (bs : list N) : list N :=
  match bs with
  | a :: b :: c :: d :: rest =>
      (a * 16777216 + b * 65536 + c * 256 + d) :: words rest
  | _ => []
  end.

(** The message schedule, most recent word first. *)
Fixpoint schedule (n : nat) (rw : list N) : list N :=
  match n with
  | O => rw
  | S m =>
      let w := add32 (add32 (sigma1 (nth 1 rw 0)) (nth 6 rw 0))
                     (add32 (sigma0 (nth 14 rw 0)) (nth 15 rw 0)) in
      schedule m (w :: rw)
  end.

Definition round (st : list N) (kw : N * N) : list N :=
  match st with
  | [a; b; c; d; e; f; g; h] =>
      let t1 := add32 (add32 (add32 h (Sigma1 e)) (Ch e f g))
                      (add32 (fst kw) (snd kw)) in
      let t2 := add32 (Sigma0 a) (Maj a b c) in
      [add32 t1 t2; a; b; c; add32 d t1; e; f; g]
  | _ => st
  end.

Definition compress (h : list N) (block : list N) : list N :=
  let w := rev (schedule 48 (rev (words block))) in
  let st := fold_left round (combine K w) h in
  map (fun p => add32 (fst p) (snd p)) (combine h st).

Fixpoint blocks (n : nat) (bs : list N) : list (list N) :=
  match n with
  | O => []
  | S m => firstn 64 bs :: blocks m (skipn 64 bs)
  end.

Definition digest (msg : list byte) : list byte :=
  let p := pad (map Byte.to_N msg) in
  let h := fold_left compress (blocks (List.length p / 64) p) H0 in
  map (fun x => match Byte.of_N x with Some b => b | None => x00 end)
      (flat_map (be_bytes 4) h).
End Sha256.

Module Hex.
Definition digit (n : N) : ascii :=
  nth (N.to_nat n)
      ["0"; "1"; "2"; "3"; "4"; "5"; "6"; "7";
       "8"; "9"; "a"; "b"; "c"; "d"; "e"; "f"]%char "0"%char.

(** [hex.EncodeToString]: two lowercase digits per byte. *)
Fixpoint EncodeToString (bs : list byte) : string :=
  match bs with
  | [] => ""
  | b :: rest =>
      String (digit (N.div (Byte.to_N b) 16))
        (String (digit (N.modulo (Byte.to_N b) 16)) (EncodeToString rest))
  end.
End Hex.

(** Go's [s[:n]]. *)
Definition str_take (n : nat) (s : string) : string := substring 0 n s.

(* ------------------------------------------------------------------ *)
(** * strings *)

Module strings.
(** [strings.HasPrefix s prefix]. *)
Fixpoint HasPrefix (s pre : string) {struct pre} : bool :=
  match pre with
  | EmptyString => true
  | String a pre' =>
      match s with
      | EmptyString => false
      | String b s' => Ascii.eqb a b && HasPrefix s' pre'
      end
  end.

(** [strings.HasSuffix s suffix]: some tail of [s] is [suffix]. *)
Fixpoint HasSuffix (s suf : string) : bool :=
  String.eqb s suf
  || match s with
     | EmptyString => false
     | String _ s' => HasSuffix s' suf
     end.

(** [strings.Contains s substr]: [substr] starts at some position. *)
Fixpoint Contains (s sub : string) : bool :=
  HasPrefix s sub
  || match s with
     | EmptyString => false
     | String _ s' => Contains s' sub
     end.
End strings.

(* ------------------------------------------------------------------ *)
(** * path/filepath *)

Definition path := list string.

Fixpoint is_prefix (p q : path) : bool :=
  match p, q with
  | [], _ => true
  | x :: p', y :: q' => String.eqb x y && is_prefix p' q'
  | _ :: _, [] => false
  end.

Definition path_eqb (p q : path) : bool := is_prefix p q && is_prefix q p.

Module filepath.
Definition Join (a b : path) : path := a ++ b.

(** The last component; [Base "/"] is ["/"], here the empty path. *)
Definition Base (p : path) : path :=
  match rev p with
  | [] => []
  | x :: _ => [x]
  end.

Definition Dir (p : path) : path := removelast p.

(** [filepath.Rel base target] for a [target] below [base]. *)
Definition Rel (base target : path) : path :=
  skipn (List.length base) target.
End filepath.

(** The absolute path as the program prints and hashes it. *)
Definition path_str (p : path) : string :=
  ("/" ++ String.concat "/" p)%string.

(** A relative path as [filepath.Rel] returns it: [.] for the base itself. *)
Definition rel_str (p : path) : string :=
  match p with
  | [] => "."
  | _ => String.concat "/" p
  end.

(** [p + suffix] on the path string: the suffix extends the last
    component. *)
Definition path_add (p : path) (suffix : string) : path :=
  match rev p with
  | [] => [suffix]
  | x :: r => rev r ++ [(x ++ suffix)%string]
  end.

(* ------------------------------------------------------------------ *)
(** * Errors *)

Inductive errno :=
| ENOENT | EEXIST | ENOTDIR | EISDIR | EXDEV | ENOTEMPTY
| EINVAL | EACCES | EPERM | EWOULDBLOCK.

Definition errno_str (e : errno) : string :=
  match e with
  | ENOENT => "no such file or directory"
  | EEXIST => "file exists"
  | ENOTDIR => "not a directory"
  | EISDIR => "is a directory"
  | EXDEV => "invalid cross-device link"
  | ENOTEMPTY => "directory not empty"
  | EINVAL => "invalid argument"
  | EACCES => "permission denied"
  | EPERM => "operation not permitted"
  | EWOULDBLOCK => "resource temporarily unavailable"
  end.

Definition errno_eqb (a b : errno) : bool :=
  match a, b with
  | ENOENT, ENOENT | EEXIST, EEXIST | ENOTDIR, ENOTDIR | EISDIR, EISDIR
  | EXDEV, EXDEV | ENOTEMPTY, ENOTEMPTY | EINVAL, EINVAL | EACCES, EACCES
  | EPERM, EPERM | EWOULDBLOCK, EWOULDBLOCK => true
  | _, _ => false
  end.

Inductive error :=
| PathError (op : string) (p : path) (e : errno)       (* *fs.PathError *)
| LinkError (op : string) (old new : path) (e : errno) (* *os.LinkError *)
| ExitError (cmd : string)                             (* *exec.ExitError *)
| Errorf (msg : string) (cause : error)                (* fmt.Errorf("msg: %w") *)
| ErrorMsg (msg : string)                              (* fmt.Errorf("msg") *)
| SkipDir.                                             (* filepath.SkipDir *)

(** [err.Error()]. *)
Fixpoint Error (e : error) : string :=
  match e with
  | PathError op p en =>
      (op ++ " " ++ path_str p ++ ": " ++ errno_str en)%string
  | LinkError op a b en =>
      (op ++ " " ++ path_str a ++ " " ++ path_str b ++ ": "
          ++ errno_str en)%string
  | ExitError _ => "exit status 1"
  | Errorf msg c => (msg ++ ": " ++ Error c)%string
  | ErrorMsg msg => msg
  | SkipDir => "skip this directory"
  end.

Definition underlying (e : error) : option errno :=
  match e with
  | PathError _ _ en => Some en
  | LinkError _ _ _ en => Some en
  | _ => None
  end.

Module os_err.
Definition IsNotExist (e : error) : bool :=
  match underlying e with Some ENOENT => true | _ => false end.
Definition IsExist (e : error) : bool :=
  match underlying e with
  | Some EEXIST | Some ENOTEMPTY => true
  | _ => false
  end.
End os_err.

Definition is_SkipDir (e : error) : bool :=
  match e with SkipDir => true | _ => false end.

Inductive result (A : Type) :=
| Ok (a : A)
| Err (e : error).
Arguments Ok {A} a.
Arguments Err {A} e.

(* ------------------------------------------------------------------ *)
(** * The filesystem tree *)

#[local] Set Warnings "-register-all".

Inductive node :=
| File (mode : N) (ino : N) (data : list byte)
| SymLink (target : string)
| Directory (mode : N) (entries : list (string * node)).

(** What [os.Lstat] reports about a node. *)
Inductive info :=
| IFile (mode : N) (ino : N) (data : list byte)
| ISymlink (target : string)
| IDir (mode : N).

Definition info_of (n : node) : info :=
  match n with
  | File m i d => IFile m i d
  | SymLink t => ISymlink t
  | Directory m _ => IDir m
  end.

Definition IsDir (i : info) : bool :=
  match i with IDir _ => true | _ => false end.

Definition is_symlink (i : info) : bool :=
  match i with ISymlink _ => true | _ => false end.

Definition Mode (i : info) : N :=
  match i with
  | IFile m _ _ => m
  | IDir m => m
  | ISymlink _ => 511
  end.

Definition node_is_dir (n : node) : bool := IsDir (info_of n).

(** Directory entries, kept in the lexical order [ReadDir] returns. *)
Fixpoint ent_get (x : string) (es : list (string * node)) : option node :=
  match es with
  | [] => None
  | (y, c) :: r => if String.eqb x y then Some c else ent_get x r
  end.

Fixpoint ent_del (x : string) (es : list (string * node))
  : list (string * node) :=
  match es with
  | [] => []
  | (y, c) :: r =>
      if String.eqb x y then ent_del x r else (y, c) :: ent_del x r
  end.

Fixpoint ent_put (x : string) (c : node) (es : list (string * node))
  : list (string * node) :=
  match es with
  | [] => [(x, c)]
  | (y, d) :: r =>
      if String.eqb x y then (x, c) :: ent_del x r
      else if String.ltb x y then (x, c) :: (y, d) :: ent_del x r
      else (y, d) :: ent_put x c r
  end.

(** Path resolution.  A component below a regular file is [ENOTDIR];
    going through a symbolic link finds nothing, as for a dangling link. *)
Fixpoint resolve (p : path) (n : node) : errno + node :=
  match p with
  | [] => inr n
  | x :: rest =>
      match n with
      | Directory _ es =>
          match ent_get x es with
          | Some c => resolve rest c
          | None => inl ENOENT
          end
      | File _ _ _ => inl ENOTDIR
      | SymLink _ => inl ENOENT
      end
  end.

Definition lookup (p : path) (n : node) : option node :=
  match resolve p n with
  | inr c => Some c
  | inl _ => None
  end.

Definition stat (p : path) (n : node) : option info :=
  option_map info_of (lookup p n).

(** [put p v n]: the entry at [p] becomes [v] ([None] removes it) when
    the parent of [p] is a directory of [n]; the root is never removed. *)
Fixpoint put (p : path) (v : option node) (n : node) : node :=
  match p with
  | [] => match v with Some c => c | None => n end
  | x :: rest =>
      match n with
      | Directory m es =>
          match rest with
          | [] =>
              Directory m
                (match v with
                 | Some c => ent_put x c es
                 | None => ent_del x es
                 end)
          | _ :: _ =>
              match ent_get x es with
              | Some c => Directory m (ent_put x (put rest v c) es)
              | None => n
              end
          end
      | _ => n
      end
  end.

(* ------------------------------------------------------------------ *)
(** * The world and the monad of the program *)

(** The system calls that can change the disk; every one the program
    issues is recorded with the tree it leaves. *)
Inductive syscall :=
| SysMkdir (p : path)
| SysRename (old new : path)
| SysLink (old new : path)
| SysSymlink (target : string) (p : path)
| SysRemoveAll (p : path)
| SysCreate (p : path)
| SysWrite (p : path)
| SysChmod (p : path).

Record world := mkWorld {
  fs : node;                            (* the disk *)
  mounts : list (path * N);             (* mount points and their device *)
  flocked : list path;                  (* files flock'ed by other processes *)
  shell : string -> option (list byte); (* bash -c cmd: stdout, None on failure *)
  userHome : option path;               (* os.UserHomeDir *)
  lookPath : string -> bool;            (* exec.LookPath succeeds *)
  next_ino : N;                         (* next free inode number *)
  trace : list (syscall * node)         (* most recent first *)
}.

Definition M (A : Type) : Type := world -> result A * world.

Definition ret {A} (a : A) : M A := fun w => (Ok a, w).
Definition fail {A} (e : error) : M A := fun w => (Err e, w).
Definition bind {A B} (m : M A) (k : A -> M B) : M B :=
  fun w =>
    match m w with
    | (Ok a, w') => k a w'
    | (Err e, w') => (Err e, w')
    end.
Definition gets {A} (f : world -> A) : M A := fun w => (Ok (f w), w).

(** [err := f()]: the error becomes a value the caller inspects. *)
Definition try {A} (m : M A) : M (result A) :=
  fun w => let (r, w') := m w in (Ok r, w').

(** [defer g()] around [m]. *)
Definition defer {A} (g : M unit) (m : M A) : M A :=
  fun w => let (r, w') := m w in (r, snd (g w')).

Declare Scope go_scope.
Delimit Scope go_scope with go.
Notation "x <- m ;; k" := (bind m (fun x => k))
  (at level 100, m at next level, right associativity) : go_scope.
Notation "m ;; k" := (bind m (fun _ => k))
  (at level 100, right associativity) : go_scope.
Open Scope go_scope.

(** [for _, x := range xs { if err := f(x); err != nil { return err } }] *)
Fixpoint forM {A} (f : A -> M unit) (xs : list A) : M unit :=
  match xs with
  | [] => ret tt
  | x :: rest => f x ;; forM f rest
  end.

(** The device a path lives on: that of the longest mount point above it;
    the root is on device 0. *)
Definition devOf (ms : list (path * N)) (p : path) : N :=
  snd (fold_left
         (fun best m =>
            if is_prefix (fst m) p
               && (List.length (fst best) <=? List.length (fst m))%nat
            then m else best)
         ms ([], 0%N)).

(* ------------------------------------------------------------------ *)
(** * System calls on the tree *)

Definition parent_dir (p : path) (n : node) : errno + unit :=
  match resolve (removelast p) n with
  | inl e => inl e
  | inr (Directory _ _) => inr tt
  | inr (File _ _ _) => inl ENOTDIR
  | inr (SymLink _) => inl ENOENT
  end.

Definition is_root (p : path) : bool :=
  match p with
  | [] => true
  | _ :: _ => false
  end.

Definition fs_mkdir (p : path) (perm : N) (n : node) : errno + node :=
  if is_root p then inl EEXIST
  else
    match parent_dir p n with
    | inl e => inl e
    | inr _ =>
        match lookup p n with
        | Some _ => inl EEXIST
        | None => inr (put p (Some (Directory perm [])) n)
        end
    end.

(** rename(2), after the check [os.Rename] makes first: an existing
    directory at [new] is refused with [EEXIST]. *)
Definition fs_rename (ms : list (path * N)) (old new : path) (n : node)
  : errno + node :=
  match lookup new n with
  | Some (Directory _ _) =>
      match resolve old n with
      | inl e => inl e
      | inr _ => inl EEXIST
      end
  | tgt =>
      if is_root old || is_root new then inl EINVAL
      else
        match parent_dir old n, parent_dir new n with
        | inl e, _ => inl e
        | _, inl e => inl e
        | inr _, inr _ =>
            if negb (N.eqb (devOf ms old) (devOf ms new)) then inl EXDEV
            else
              match resolve old n with
              | inl e => inl e
              | inr src =>
                  if path_eqb old new then inr n
                  else if is_prefix old new then inl EINVAL
                  else if node_is_dir src
                          && match tgt with Some _ => true | None => false end
                  then inl ENOTDIR
                  else inr (put new (Some src) (put old None n))
              end
        end
  end.

Definition fs_link (ms : list (path * N)) (old new : path) (n : node)
  : errno + node :=
  match resolve old n with
  | inl e => inl e
  | inr src =>
      if is_root new then inl EEXIST
      else
        match parent_dir new n with
        | inl e => inl e
        | inr _ =>
            match lookup new n with
            | Some _ => inl EEXIST
            | None =>
                if negb (N.eqb (devOf ms old) (devOf ms new)) then inl EXDEV
                else if node_is_dir src then inl EPERM
                else inr (put new (Some src) n)
            end
        end
  end.

Definition fs_symlink (target : string) (p : path) (n : node)
  : errno + node :=
  if is_root p then inl EEXIST
  else
    match parent_dir p n with
    | inl e => inl e
    | inr _ =>
        match lookup p n with
        | Some _ => inl EEXIST
        | None => inr (put p (Some (SymLink target)) n)
        end
    end.

(** [os.RemoveAll]: a path that does not exist is not an error. *)
Definition fs_remove_all (p : path) (n : node) : errno + node :=
  if is_root p then inl EINVAL
  else
    match resolve p n with
    | inr _ => inr (put p None n)
    | inl ENOENT => inr n
    | inl e => inl e
    end.

(** open(2) with [O_CREATE]; [trunc] is [O_TRUNC]. *)
Definition fs_create (p : path) (perm : N) (trunc : bool) (ino : N)
  (n : node) : errno + node :=
  if is_root p then inl EISDIR
  else
    match parent_dir p n with
    | inl e => inl e
    | inr _ =>
        match lookup p n with
        | Some (Directory _ _) => inl EISDIR
        | Some (SymLink _) => inl ENOENT
        | Some (File m i d) =>
            inr (if trunc then put p (Some (File m i [])) n else n)
        | None => inr (put p (Some (File perm ino [])) n)
        end
    end.

Definition fs_write (p : path) (data : list byte) (n : node)
  : errno + node :=
  match resolve p n with
  | inr (File m i _) => inr (put p (Some (File m i data)) n)
  | inr (Directory _ _) => inl EISDIR
  | inr (SymLink _) => inl ENOENT
  | inl e => inl e
  end.

Definition fs_chmod (p : path) (mode : N) (n : node) : errno + node :=
  match resolve p n with
  | inr (File _ i d) => inr (put p (Some (File mode i d)) n)
  | inr (Directory _ es) => inr (put p (Some (Directory mode es)) n)
  | inr (SymLink _) => inl ENOENT
  | inl e => inl e
  end.

Definition readable (mode : N) : bool := N.testbit mode 8.

(** What [os.Open] returns: a regular file with its content, or a
    directory, which opens but cannot be read. *)
Inductive handle :=
| HFile (data : list byte)
| HDir.

(* ------------------------------------------------------------------ *)
(** * Package os *)

Module os.
(** A system call that may change the disk: it is recorded, with the
    disk it leaves, whether it fails or not. *)
Definition sys (c : syscall) (r : errno + node) (mk : errno -> error)
  : M unit :=
  fun w =>
    match r with
    | inr n =>
        (Ok tt, mkWorld n (mounts w) (flocked w) (shell w) (userHome w)
                  (lookPath w) (next_ino w) ((c, n) :: trace w))
    | inl e =>
        (Err (mk e), mkWorld (fs w) (mounts w) (flocked w) (shell w)
                       (userHome w) (lookPath w) (next_ino w)
                       ((c, fs w) :: trace w))
    end.

Definition Lstat (p : path) : M info :=
  fun w =>
    match resolve p (fs w) with
    | inr n => (Ok (info_of n), w)
    | inl e => (Err (PathError "lstat" p e), w)
    end.

(** [os.Stat] follows symbolic links; the links of the model dangle. *)
Definition Stat (p : path) : M info :=
  fun w =>
    match resolve p (fs w) with
    | inr (SymLink _) => (Err (PathError "stat" p ENOENT), w)
    | inr n => (Ok (info_of n), w)
    | inl e => (Err (PathError "stat" p e), w)
    end.

Definition Readlink (p : path) : M string :=
  fun w =>
    match resolve p (fs w) with
    | inr (SymLink t) => (Ok t, w)
    | inr _ => (Err (PathError "readlink" p EINVAL), w)
    | inl e => (Err (PathError "readlink" p e), w)
    end.

Definition Mkdir (p : path) (perm : N) : M unit :=
  fun w => sys (SysMkdir p) (fs_mkdir p perm (fs w))
               (PathError "mkdir" p) w.

(** [os.MkdirAll], on the reversed path. *)
Fixpoint MkdirAll_rev (rp : list string) (perm : N) : M unit :=
  r <- try (Stat (rev rp)) ;;
  match r with
  | Ok dir =>
      if IsDir dir then ret tt
      else fail (PathError "mkdir" (rev rp) ENOTDIR)
  | Err e0 =>
      match rp with
      | [] => fail e0
      | _ :: parent =>
          MkdirAll_rev parent perm ;;
          r <- try (Mkdir (rev rp) perm) ;;
          match r with
          | Ok _ => ret tt
          | Err e =>
              r1 <- try (Lstat (rev rp)) ;;
              match r1 with
              | Ok dir => if IsDir dir then ret tt else fail e
              | Err _ => fail e
              end
          end
      end
  end.

Definition MkdirAll (p : path) (perm : N) : M unit :=
  MkdirAll_rev (rev p) perm.

Definition Rename (old new : path) : M unit :=
  fun w => sys (SysRename old new) (fs_rename (mounts w) old new (fs w))
               (LinkError "rename" old new) w.

Definition Link (old new : path) : M unit :=
  fun w => sys (SysLink old new) (fs_link (mounts w) old new (fs w))
               (LinkError "link" old new) w.

Definition Symlink (target : string) (p : path) : M unit :=
  fun w => sys (SysSymlink target p) (fs_symlink target p (fs w))
               (fun e => LinkError "symlink" [target] p e) w.

Definition RemoveAll (p : path) : M unit :=
  fun w => sys (SysRemoveAll p) (fs_remove_all p (fs w))
               (PathError "unlinkat" p) w.

(** [os.OpenFile(p, O_CREATE|O_RDWR[|O_TRUNC], perm)]; a file that is
    created takes the next inode number. *)
Definition OpenCreate (p : path) (perm : N) (trunc : bool) : M unit :=
  fun w =>
    match sys (SysCreate p)
              (fs_create p perm trunc (next_ino w) (fs w))
              (PathError "open" p) w with
    | (Ok _, w') =>
        (Ok tt, mkWorld (fs w') (mounts w') (flocked w') (shell w')
                  (userHome w') (lookPath w')
                  (match lookup p (fs w) with
                   | None => N.succ (next_ino w)
                   | Some _ => next_ino w
                   end)
                  (trace w'))
    | r => r
    end.

Definition Create (p : path) : M unit := OpenCreate p 438 true.

(** [os.Open]: the open file, not yet read. *)
Definition Open (p : path) : M handle :=
  fun w =>
    match resolve p (fs w) with
    | inr (File m _ d) =>
        if readable m then (Ok (HFile d), w)
        else (Err (PathError "open" p EACCES), w)
    | inr (Directory _ _) => (Ok HDir, w)
    | inr (SymLink _) => (Err (PathError "open" p ENOENT), w)
    | inl e => (Err (PathError "open" p e), w)
    end.

(** Reading an open file to its end, as [io.Copy] does. *)
Definition ReadAll (p : path) (f : handle) : M (list byte) :=
  match f with
  | HFile d => ret d
  | HDir => fail (PathError "read" p EISDIR)
  end.

Definition Write (p : path) (data : list byte) : M unit :=
  fun w => sys (SysWrite p) (fs_write p data (fs w))
               (PathError "write" p) w.

Definition Chmod (p : path) (mode : N) : M unit :=
  fun w => sys (SysChmod p) (fs_chmod p mode (fs w))
               (PathError "chmod" p) w.

(** [syscall.Flock(fd, LOCK_EX|LOCK_NB)] on the file opened at [p]. *)
Definition Flock (p : path) : M unit :=
  fun w =>
    if existsb (path_eqb p) (flocked w)
    then (Err (PathError "flock" p EWOULDBLOCK), w)
    else (Ok tt, w).

(** [syscall.Flock(fd, LOCK_UN)] and [Close]. *)
Definition Unlock (p : path) : M unit := ret tt.
End os.

(* ------------------------------------------------------------------ *)
(** * filepath.Walk and filepath.WalkDir *)

Section Walk.
Variable A : Type.

(** The callback, with the variables it closes over as an accumulator.
    Every callback of the program returns its errors before it touches
    these variables, so an error leaves the accumulator as it was. *)
Variable fn : path -> info -> A -> M A.

(** The walk of the subtree [n] found at [p].  The subtree is read
    when the walk starts; that is what the walk sees as long as the
    callback does not write below the root of the walk. *)
Fixpoint walkDir (p : path) (n : node) (acc : A) {struct n} : M A :=
  fun w =>
    match fn p (info_of n) acc w with
    | (Err e, w') =>
        if is_SkipDir e && node_is_dir n then (Ok acc, w') else (Err e, w')
    | (Ok acc', w') =>
        match n with
        | Directory _ es =>
            (fix entries (es : list (string * node)) (acc : A)
               {struct es} : M A :=
               match es with
               | [] => ret acc
               | (x, c) :: rest =>
                   fun w =>
                     match walkDir (p ++ [x]) c acc w with
                     | (Ok acc1, w1) => entries rest acc1 w1
                     | (Err e, w1) =>
                         if is_SkipDir e then (Ok acc, w1)
                         else (Err e, w1)
                     end
               end) es acc' w'
        | _ => (Ok acc', w')
        end
    end.

Definition WalkDir (root : path) (acc : A) : M A :=
  fun w =>
    match resolve root (fs w) with
    | inl e => (Err (PathError "lstat" root e), w)
    | inr n =>
        match walkDir root n acc w with
        | (Err e, w') =>
            if is_SkipDir e then (Ok acc, w') else (Err e, w')
        | r => r
        end
    end.
End Walk.

(** [filepath.Walk] visits the same entries in the same order. *)
Definition Walk (root : path) (fn : path -> info -> M unit) : M unit :=
  WalkDir (fun p i _ => fn p i) root tt.

(* ------------------------------------------------------------------ *)
(** * internal/mono/cache.go *)

(** Modelled from the spec: [ArtifactConfig] is declared in config.go,
    which is not part of the sources; the artifact descriptor of the
    specification, [{name, key_files, key_commands, paths}]. *)
Record ArtifactConfig := mkArtifact {
  Name : string;
  KeyFiles : list path;
  KeyCommands : list string;
  Paths : list path
}.

(** Modelled from the spec: [BuildConfig] is declared in config.go as
    well: [build.strategy], [build.download_cache], the optional
    [build.sccache] and [build.artifacts]. *)
Record BuildConfig := mkBuildConfig {
  Strategy : string;
  DownloadCache : bool;
  Sccache : option bool;
  Artifacts : list ArtifactConfig
}.

Record CacheManager := mkCacheManager {
  HomeDir : path;
  LocalCacheDir : path;
  SccacheAvailable : bool
}.

Definition GetMonoHome : M path :=
  fun w =>
    match userHome w with
    | Some home => (Ok (filepath.Join home [".mono"]), w)
    | None => (Err (ErrorMsg "$HOME is not defined"), w)
    end.

Definition detectSccache : M bool := gets (fun w => lookPath w "sccache").

Definition NewCacheManager : M CacheManager :=
  homeDir <- GetMonoHome ;;
  sccache <- detectSccache ;;
  ret (mkCacheManager homeDir (filepath.Join homeDir ["cache_local"]) sccache).

Definition ComputeProjectID (rootPath : path) : string :=
  str_take 12
    (Hex.EncodeToString
       (Sha256.digest (list_byte_of_string (path_str rootPath)))).

Definition GetProjectCacheDir (cm : CacheManager) (rootPath : path) : path :=
  filepath.Join (LocalCacheDir cm) [ComputeProjectID rootPath].

Module Entry.
Record ArtifactCacheEntry := mk {
  Name : string;
  Key : string;
  CachePath : path;
  EnvPaths : list path;
  Hit : bool
}.
End Entry.

(** [hash.Hash]: the bytes written so far; [Sum] digests them. *)
Module hash.
Definition New : list byte := [].
Definition Write (h bs : list byte) : list byte := h ++ bs.
Definition Sum (h : list byte) : list byte := Sha256.digest h.
End hash.

(** [exec.Command("bash", "-c", cmd).Output()]: the command runs in the
    working directory and environment of the process itself. *)
Definition Output (cmd : string) : M (list byte) :=
  fun w =>
    match shell w cmd with
    | Some out => (Ok out, w)
    | None => (Err (ExitError cmd), w)
    end.

(** [fmt.Errorf(msg + ": %w", err)] on the error path of [m]. *)
Definition wrap {A} (msg : string) (m : M A) : M A :=
  fun w =>
    match m w with
    | (Err e, w') => (Err (Errorf msg e), w')
    | r => r
    end.

Fixpoint hashKeyFiles (envPath : path) (keyFiles : list path)
  (h : list byte) : M (list byte) :=
  match keyFiles with
  | [] => ret h
  | keyFile :: rest =>
      let fullPath := filepath.Join envPath keyFile in
      r <- try (os.Open fullPath) ;;
      match r with
      | Err err =>
          if os_err.IsNotExist err then hashKeyFiles envPath rest h
          else fail (Errorf ("failed to read key file " ++ rel_str keyFile)
                            err)
      | Ok f =>
          data <- wrap ("failed to hash key file " ++ rel_str keyFile)
                       (os.ReadAll fullPath f) ;;
          hashKeyFiles envPath rest (hash.Write h data)
      end
  end.

Fixpoint hashKeyCommands (cmds : list string) (h : list byte)
  : M (list byte) :=
  match cmds with
  | [] => ret h
  | cmd :: rest =>
      output <- wrap ("failed to run key command " ++ cmd) (Output cmd) ;;
      hashKeyCommands rest (hash.Write h output)
  end.

Definition ComputeCacheKey (cm : CacheManager) (artifact : ArtifactConfig)
  (envPath : path) : M string :=
  h <- hashKeyFiles envPath (KeyFiles artifact) hash.New ;;
  h <- hashKeyCommands (KeyCommands artifact) h ;;
  ret (str_take 16 (Hex.EncodeToString (hash.Sum h))).

Definition GetArtifactCachePath (cm : CacheManager) (rootPath : path)
  (artifactName key : string) : path :=
  filepath.Join (GetProjectCacheDir cm rootPath) [artifactName; key].

Definition dirExists (p : path) (w : world) : bool :=
  match lookup p (fs w) with
  | Some (Directory _ _) => true
  | _ => false
  end.

Definition fileExists (p : path) (w : world) : bool :=
  match lookup p (fs w) with
  | Some (File _ _ _) => true
  | _ => false
  end.

Fixpoint PrepareArtifactCache (cm : CacheManager)
  (artifacts : list ArtifactConfig) (rootPath envPath : path)
  : M (list Entry.ArtifactCacheEntry) :=
  match artifacts with
  | [] => ret []
  | artifact :: rest =>
      key <- ComputeCacheKey cm artifact envPath ;;
      let cachePath := GetArtifactCachePath cm rootPath (Name artifact) key in
      hit <- gets (dirExists cachePath) ;;
      let envPaths := map (filepath.Join envPath) (Paths artifact) in
      entries <- PrepareArtifactCache cm rest rootPath envPath ;;
      ret (Entry.mk (Name artifact) key cachePath envPaths hit :: entries)
  end.

Definition shouldEnableSccache (cm : CacheManager) (cfg : BuildConfig)
  : bool :=
  match Sccache cfg with
  | Some b => b && SccacheAvailable cm
  | None => SccacheAvailable cm
  end.

Definition EnvVars (cm : CacheManager) (cfg : BuildConfig) : list string :=
  let vars := [] in
  let vars :=
    if shouldEnableSccache cm cfg then vars ++ ["RUSTC_WRAPPER=sccache"]
    else vars in
  vars.

Definition isHardlinkNotSupported (err : error) : bool :=
  strings.Contains (Error err) "cross-device link"
  || strings.Contains (Error err) "operation not supported".

Definition copyFile (src dst : path) : M unit :=
  inp <- os.Open src ;;
  os.Create dst ;;
  data <- os.ReadAll src inp ;;
  os.Write dst data ;;
  info <- os.Stat src ;;
  os.Chmod dst (Mode info).

(** The part of the walk callbacks that [HardlinkTree] and [copyDir]
    share: a symbolic link is made again with the target it has. *)
Definition recreateSymlink (p dstPath : path) : M unit :=
  target <- wrap ("failed to read symlink " ++ path_str p)
                 (os.Readlink p) ;;
  r <- try (os.Symlink target dstPath) ;;
  match r with
  | Err err =>
      if os_err.IsExist err then ret tt
      else fail (Errorf ("failed to create symlink " ++ path_str dstPath) err)
  | Ok _ => ret tt
  end.

Definition linkOrCopy (p dstPath : path) : M unit :=
  r <- try (os.Link p dstPath) ;;
  match r with
  | Err err =>
      if os_err.IsExist err then ret tt
      else if isHardlinkNotSupported err then copyFile p dstPath
      else fail err
  | Ok _ => ret tt
  end.

Definition HardlinkTree (src dst : path) : M unit :=
  Walk src (fun p info =>
    let relPath := filepath.Rel src p in
    let dstPath := filepath.Join dst relPath in
    if IsDir info then os.MkdirAll dstPath (Mode info)
    else if is_symlink info then recreateSymlink p dstPath
    else linkOrCopy p dstPath).

Definition shouldSkipCargoPath (relPath : string) : bool :=
  if strings.HasSuffix relPath ".o" then true
  else if strings.HasSuffix relPath ".d" then true
  else if strings.Contains relPath "/incremental/"
          || strings.HasPrefix relPath "incremental/" then true
  else if String.eqb relPath ".cargo-lock" then true
  else false.

Definition shouldSkipPath (relPath artifactName : string) : bool :=
  if String.eqb artifactName "cargo" then shouldSkipCargoPath relPath
  else false.

(** Modelled from the spec: [FileLogger] is declared in a file that is
    not part of the sources; the optional logger of [seed]. *)
Inductive FileLogger := fileLogger (name : string).

Record SeedOptions := mkSeedOptions {
  ArtifactName : string;
  Logger : option FileLogger;
  NumWorkers : nat;
  OperationName : string
}.

Definition countFiles (src : path) (artifactName : string) : M N :=
  WalkDir (fun p d count =>
    if IsDir d then ret count
    else
      let relPath := filepath.Rel src p in
      if negb (shouldSkipPath (rel_str relPath) artifactName)
      then ret (N.succ count) else ret count) src 0%N.

Record fileEntry := mkFileEntry {
  srcPath : path;
  dstPath : path;
  relPath : path;
  mode : N
}.

Definition linkOrCopyFile (src dst : path) : M unit :=
  srcInfo <- os.Lstat src ;;
  if is_symlink srcInfo then recreateSymlink src dst
  else linkOrCopy src dst.

(** The wait on the clock is not modelled: the call returns what
    [linkOrCopyFile] returns. *)
Definition linkOrCopyFileWithTimeout (src dst : path) : M unit :=
  linkOrCopyFile src dst.

(** The walk callback of [SeedDirectory]; [dirs] and [files] are the
    slices it appends to. *)
Definition seedWalkFn (src dst : path) (opts : SeedOptions)
  (p : path) (d : info) (acc : list (path * N) * list fileEntry)
  : M (list (path * N) * list fileEntry) :=
  let '(dirs, files) := acc in
  let relPath := filepath.Rel src p in
  if IsDir d then
    if shouldSkipPath (rel_str relPath ++ "/") (ArtifactName opts)
    then fail SkipDir
    else ret (dirs ++ [(filepath.Join dst relPath, Mode d)], files)
  else if shouldSkipPath (rel_str relPath) (ArtifactName opts)
  then ret (dirs, files)
  else ret (dirs,
            files ++ [mkFileEntry p (filepath.Join dst relPath) relPath
                                  (Mode d)]).

(** The workers drain the channel in walk order; here one worker does.
    With no error every file of the channel is handled, whatever the
    number of workers; the first error ends the operation. *)
Definition SeedDirectory (src dst : path) (opts : SeedOptions) : M unit :=
  let numWorkers := if (NumWorkers opts =? 0)%nat then 16%nat
                    else NumWorkers opts in
  match Logger opts with
  | Some _ =>
      wrap "failed to count files" (countFiles src (ArtifactName opts)) ;;
      ret tt
  | None => ret tt
  end ;;
  acc <- wrap "failed to walk source directory"
              (WalkDir (seedWalkFn src dst opts) src ([], [])) ;;
  let '(dirs, files) := acc in
  forM (fun dir : path * N =>
          wrap ("failed to create directory " ++ path_str (fst dir))
               (os.MkdirAll (fst dir) (snd dir))) dirs ;;
  forM (fun f =>
          wrap ("failed to link " ++ rel_str (relPath f))
               (linkOrCopyFileWithTimeout (srcPath f) (dstPath f))) files.

Definition StoreToCache (cm : CacheManager)
  (entry : Entry.ArtifactCacheEntry)
  : M unit :=
  wrap "failed to create cache dir"
       (os.MkdirAll (Entry.CachePath entry) 493) ;;
  forM (fun envPath =>
          b <- gets (dirExists envPath) ;;
          if negb b then ret tt
          else
            let cacheDst :=
              filepath.Join (Entry.CachePath entry) (filepath.Base envPath) in
            wrap ("failed to move " ++ path_str envPath ++ " to cache")
                 (os.Rename envPath cacheDst) ;;
            wrap "failed to hardlink back from cache"
                 (HardlinkTree cacheDst envPath))
       (Entry.EnvPaths entry).

Record SyncOptions := mkSyncOptions { HardlinkBack : bool }.

(** The handle is the lock file that was opened, [None] for [nil]. *)
Definition acquireCacheLock (cm : CacheManager) (cachePath : path)
  : M (option path) :=
  let lockPath := path_add cachePath ".lock" in
  os.MkdirAll (filepath.Dir lockPath) 493 ;;
  os.OpenCreate lockPath 420 false ;;
  r <- try (os.Flock lockPath) ;;
  match r with
  | Err _ => ret None
  | Ok _ => ret (Some lockPath)
  end.

Definition releaseCacheLock (cm : CacheManager) (f : option path)
  : M unit :=
  match f with
  | Some p => os.Unlock p
  | None => ret tt
  end.

Definition isBuildInProgress (cm : CacheManager) (envPath : path)
  (artifact : ArtifactConfig) (w : world) : bool :=
  if String.eqb (Name artifact) "cargo"
  then fileExists (filepath.Join envPath ["target"; ".cargo-lock"]) w
  else false.

Definition isCrossDevice (err : error) : bool :=
  strings.Contains (Error err) "cross-device link"
  || strings.Contains (Error err) "invalid cross-device link".

Definition copyDir (src dst : path) : M unit :=
  Walk src (fun p info =>
    let relPath := filepath.Rel src p in
    let dstPath := filepath.Join dst relPath in
    if IsDir info then os.MkdirAll dstPath (Mode info)
    else if is_symlink info then recreateSymlink p dstPath
    else copyFile p dstPath).

Definition copyToCache (cm : CacheManager) (localPath targetInCache : path)
  (hardlinkBack : bool) : M unit :=
  copyDir localPath targetInCache ;;
  if hardlinkBack then ret tt
  else os.RemoveAll localPath.

Definition moveToCache (cm : CacheManager) (localPath cachePath : path)
  (hardlinkBack : bool) : M unit :=
  lock <- acquireCacheLock cm cachePath ;;
  match lock with
  | None => ret tt
  | Some _ =>
      defer (releaseCacheLock cm lock)
        (let targetInCache :=
           filepath.Join cachePath (filepath.Base localPath) in
         b <- gets (dirExists targetInCache) ;;
         if b then ret tt
         else
           os.MkdirAll cachePath 493 ;;
           r <- try (os.Rename localPath targetInCache) ;;
           match r with
           | Err err =>
               if isCrossDevice err
               then copyToCache cm localPath targetInCache hardlinkBack
               else fail err
           | Ok _ =>
               if hardlinkBack then
                 r <- try (HardlinkTree targetInCache localPath) ;;
                 match r with
                 | Err err =>
                     recoverErr <- try (os.Rename targetInCache localPath) ;;
                     cleanupErr <- try (os.RemoveAll cachePath) ;;
                     match recoverErr, cleanupErr with
                     | Err _, _ =>
                         fail (Errorf
                           "failed to hardlink back and recovery failed" err)
                     | Ok _, Err _ =>
                         fail (Errorf
                           "failed to hardlink back, recovered but cleanup failed"
                           err)
                     | Ok _, Ok _ =>
                         fail (Errorf "failed to hardlink back, recovered" err)
                     end
                 | Ok _ => ret tt
                 end
               else ret tt
           end)
  end.

Definition syncArtifact (cm : CacheManager) (artifact : ArtifactConfig)
  (rootPath envPath : path) (opts : SyncOptions) : M unit :=
  busy <- gets (isBuildInProgress cm envPath artifact) ;;
  if busy
  then fail (ErrorMsg ("build in progress, cannot sync " ++ Name artifact))
  else
    key <- wrap ("failed to compute cache key for " ++ Name artifact)
                (ComputeCacheKey cm artifact envPath) ;;
    let cachePath := GetArtifactCachePath cm rootPath (Name artifact) key in
    b <- gets (dirExists cachePath) ;;
    if b then ret tt
    else
      forM (fun p =>
              let localPath := filepath.Join envPath p in
              b <- gets (dirExists localPath) ;;
              if negb b then ret tt
              else wrap ("failed to sync " ++ Name artifact)
                        (moveToCache cm localPath cachePath
                                     (HardlinkBack opts)))
           (Paths artifact).

Definition Sync (cm : CacheManager) (artifacts : list ArtifactConfig)
  (rootPath envPath : path) (opts : SyncOptions) : M unit :=
  forM (fun artifact => syncArtifact cm artifact rootPath envPath opts)
       artifacts.

Definition seedToCache (cm : CacheManager) (sourcePath cachePath : path)
  (artifactName : string) (logger : option FileLogger) : M unit :=
  os.MkdirAll cachePath 493 ;;
  let targetInCache := filepath.Join cachePath (filepath.Base sourcePath) in
  b <- gets (dirExists targetInCache) ;;
  if b then ret tt
  else
    r <- try (SeedDirectory sourcePath targetInCache
                (mkSeedOptions artifactName logger 0 "")) ;;
    match r with
    | Err err =>
        try (os.RemoveAll targetInCache) ;;
        fail err
    | Ok _ => ret tt
    end.

Definition seedArtifactFromRoot (cm : CacheManager)
  (artifact : ArtifactConfig) (rootPath envPath : path)
  (logger : option FileLogger) : M unit :=
  if path_eqb rootPath envPath then ret tt
  else
    envKey <- wrap ("failed to compute cache key for env " ++ Name artifact)
                   (ComputeCacheKey cm artifact envPath) ;;
    let cachePath :=
      GetArtifactCachePath cm rootPath (Name artifact) envKey in
    b <- gets (dirExists cachePath) ;;
    if b then ret tt
    else
      rootKey <- wrap ("failed to compute cache key for root "
                         ++ Name artifact)
                      (ComputeCacheKey cm artifact rootPath) ;;
      if negb (String.eqb envKey rootKey) then ret tt
      else
        busy <- gets (isBuildInProgress cm rootPath artifact) ;;
        if busy then ret tt
        else
          forM (fun p =>
                  let rootArtifact := filepath.Join rootPath p in
                  b <- gets (dirExists rootArtifact) ;;
                  if negb b then ret tt
                  else wrap ("failed to seed " ++ Name artifact
                               ++ " from root")
                            (seedToCache cm rootArtifact cachePath
                                         (Name artifact) logger))
               (Paths artifact).

Definition SeedFromRoot (cm : CacheManager) (artifacts : list ArtifactConfig)
  (rootPath envPath : path) (logger : option FileLogger) : M unit :=
  forM (fun artifact =>
          seedArtifactFromRoot cm artifact rootPath envPath logger)
       artifacts.

(* ------------------------------------------------------------------ *)
(** * The statements of the specification, and the inputs they are
      evaluated on *)

(** ** How a run changes the world *)

(** What the program can learn of the machine besides the disk. *)
Definition same_env (w w' : world) : Prop :=
  mounts w' = mounts w /\ flocked w' = flocked w /\ shell w' = shell w
  /\ userHome w' = userHome w /\ lookPath w' = lookPath w.

(** From [w] to [w']: the system calls issued all satisfy [E], and the
    disk they leave, each of them and the last, is related by [R] to the
    disk of [w]. *)
Definition steps (R : node -> node -> Prop) (E : syscall -> Prop)
  (w w' : world) : Prop :=
  same_env w w' /\ R (fs w) (fs w')
  /\ exists l, trace w' = l ++ trace w
               /\ Forall (fun e => E (fst e) /\ R (fs w) (snd e)) l.

Definition preserves {A} (R : node -> node -> Prop) (E : syscall -> Prop)
  (m : M A) : Prop :=
  forall w r w', m w = (r, w') -> steps R E w w'.

(** Nothing that is on the disk is changed or removed. *)
Definition extends (n n' : node) : Prop :=
  forall q i, stat q n = Some i -> stat q n' = Some i.

(** Only the paths of [S] change. *)
Definition only (S : path -> bool) (n n' : node) : Prop :=
  forall q, S q = false -> stat q n' = stat q n.

Definition comparable (p q : path) : bool := is_prefix p q || is_prefix q p.

Definition any_syscall : syscall -> Prop := fun _ => True.

(** The only change is that paths of [D] that were missing now exist. *)
Definition grows (D : path -> bool) (n n' : node) : Prop :=
  forall q, stat q n' = stat q n \/ (stat q n = None /\ D q = true).

(** Outside the subtree of [dst] the only change is that missing
    ancestors of [dst] now exist. *)
Definition fills (dst : path) (n n' : node) : Prop :=
  forall q, is_prefix dst q = false ->
    stat q n' = stat q n \/ (stat q n = None /\ is_prefix q dst = true).

(** The path a system call writes at. *)
Definition target_of (c : syscall) : path :=
  match c with
  | SysMkdir p | SysRemoveAll p | SysCreate p | SysWrite p | SysChmod p => p
  | SysRename _ new | SysLink _ new => new
  | SysSymlink _ p => p
  end.

Definition is_link (c : syscall) : bool :=
  match c with
  | SysLink _ _ => true
  | _ => false
  end.

Definition is_rename (c : syscall) : bool :=
  match c with
  | SysRename _ _ => true
  | _ => false
  end.

Definition is_remove (c : syscall) : bool :=
  match c with
  | SysRemoveAll _ => true
  | _ => false
  end.

(** A system call that creates or fills an entry at a path of [D], and
    is a link(2) only where [links] allows it. *)
Definition creates (links : bool) (D : path -> bool) (c : syscall) : Prop :=
  D (target_of c) = true /\ is_rename c = false /\ is_remove c = false
  /\ (links = false -> is_link c = false).

(** ** What [SeedDirectory] collects and leaves *)

(** The directories and the files the walk of [SeedDirectory] appends
    for the subtree [n] found at the relative path [rel]. *)
Fixpoint seedCollect (src dst : path) (name : string) (rel : path)
  (n : node) {struct n} : list (path * N) * list fileEntry :=
  match n with
  | Directory m es =>
      if shouldSkipPath (rel_str rel ++ "/") name then ([], [])
      else
        let sub :=
          (fix entries (es : list (string * node)) :=
             match es with
             | [] => ([], [])
             | (x, c) :: r =>
                 let a := seedCollect src dst name (rel ++ [x]) c in
                 let b := entries r in
                 (fst a ++ fst b, snd a ++ snd b)
             end) es in
        ((filepath.Join dst rel, m) :: fst sub, snd sub)
  | _ =>
      if shouldSkipPath (rel_str rel) name then ([], [])
      else ([], [mkFileEntry (filepath.Join src rel) (filepath.Join dst rel)
                             rel (Mode (info_of n))])
  end.

(** No directory lists a name twice. *)
Fixpoint names_nodup (es : list (string * node)) : bool :=
  match es with
  | [] => true
  | (x, _) :: r =>
      negb (existsb (String.eqb x) (map fst r)) && names_nodup r
  end.

Fixpoint wf_node (n : node) : bool :=
  match n with
  | Directory _ es =>
      names_nodup es
      && (fix all (es : list (string * node)) :=
            match es with
            | [] => true
            | (_, c) :: r => wf_node c && all r
            end) es
  | _ => true
  end.

(** [j] is what seeding leaves for a source entry [i] that is not a
    directory: the file itself when it is linked, a file of the same
    mode and content when it is copied, a link to the same target. *)
Definition replica (i j : info) : Prop :=
  match i, j with
  | IFile m _ d, IFile m' _ d' => m = m' /\ d = d'
  | ISymlink t, ISymlink t' => t = t'
  | _, _ => False
  end.

(** The 16 hexadecimal digits the fingerprint keeps of a digest. *)
Definition digest16 (bs : list byte) : string :=
  str_take 16 (Hex.EncodeToString (Sha256.digest bs)).

(** What the fingerprint sees of a key-file: its content, nothing when
    the file is missing, or a file that is there and cannot be read. *)
Inductive keyFileView :=
| KAbsent
| KContent (d : list byte)
| KUnreadable.

Definition viewKeyFile (p : path) (w : world) : keyFileView :=
  match resolve p (fs w) with
  | inr (File m _ d) => if readable m then KContent d else KUnreadable
  | inr (SymLink _) => KAbsent
  | inr (Directory _ _) => KUnreadable
  | inl ENOENT => KAbsent
  | inl _ => KUnreadable
  end.

Definition keyFileBytes (v : keyFileView) : list byte :=
  match v with
  | KContent d => d
  | _ => []
  end.

(** The specification's fingerprint input: the bytes of each key-file
    that exists, in list order, then the standard output of each
    key-command, in list order. *)
Definition fingerprintInput (artifact : ArtifactConfig) (envPath : path)
  (w : world) : list byte :=
  flat_map (fun kf => keyFileBytes (viewKeyFile (filepath.Join envPath kf) w))
           (KeyFiles artifact)
  ++ flat_map (fun c => match shell w c with Some out => out | None => [] end)
              (KeyCommands artifact).

(** The fingerprint can be computed: every key-file is missing or can
    be read, and every key-command exits with status 0. *)
Definition keyFilesReadable (artifact : ArtifactConfig) (envPath : path)
  (w : world) : bool :=
  forallb (fun kf =>
             match viewKeyFile (filepath.Join envPath kf) w with
             | KUnreadable => false
             | _ => true
             end) (KeyFiles artifact).

Definition keyCommandsSucceed (artifact : ArtifactConfig) (w : world)
  : bool :=
  forallb (fun c => match shell w c with Some _ => true | None => false end)
          (KeyCommands artifact).

Definition is_lower_hex (c : ascii) : bool :=
  existsb (Ascii.eqb c)
    ["0"; "1"; "2"; "3"; "4"; "5"; "6"; "7";
     "8"; "9"; "a"; "b"; "c"; "d"; "e"; "f"]%char.

Fixpoint string_forallb (f : ascii -> bool) (s : string) : bool :=
  match s with
  | EmptyString => true
  | String c r => f c && string_forallb f r
  end.

(** The key of a run of [ComputeCacheKey], when it computed one. *)
Definition key_of (r : result string * world) : option string :=
  match fst r with
  | Ok k => Some k
  | Err _ => None
  end.

(** The variables the specification makes [build_env_vars] contribute
    for a strategy other than ["none"]. *)
Definition globalCacheVars (cm : CacheManager) : list string :=
  let g := filepath.Join (HomeDir cm) ["cache_global"] in
  ["CARGO_HOME=" ++ path_str (filepath.Join g ["cargo"]);
   "npm_config_cache=" ++ path_str (filepath.Join g ["npm"]);
   "YARN_CACHE_FOLDER=" ++ path_str (filepath.Join g ["yarn"]);
   "PNPM_HOME=" ++ path_str (filepath.Join g ["pnpm"])]%string.

(** The statement of the specification about [build_env_vars]. *)
Definition buildEnvVarsSpec (cm : CacheManager) (cfg : BuildConfig) : Prop :=
  (Strategy cfg <> "none" ->
   incl (globalCacheVars cm) (EnvVars cm cfg))
  /\ (Strategy cfg = "none" -> EnvVars cm cfg = []).

Definition bytes (s : string) : list byte := list_byte_of_string s.

Module Inputs.
Definition cm : CacheManager :=
  mkCacheManager ["h"; ".mono"] ["h"; ".mono"; "cache_local"] true.

Definition noShell : string -> option (list byte) := fun _ => None.

Definition rustc : string -> option (list byte) :=
  fun c => if String.eqb c "rustc --version"
           then Some (bytes "rustc 1.75.0") else None.

Definition mk (disk : node) (ms : list (path * N))
  (sh : string -> option (list byte)) : world :=
  mkWorld disk ms [] sh (Some ["h"]) (fun _ => true) 100 [].

(** A project [/p] with a workspace [/p/w1]; the manifests agree. *)
Definition projectDisk : node :=
  Directory 493
    [("h", Directory 493 []);
     ("p", Directory 493
        [("Cargo.lock", File 420 1 (bytes "L"));
         ("w1", Directory 493
            [("Cargo.lock", File 420 2 (bytes "L"))])])].

Definition cargo : ArtifactConfig :=
  mkArtifact "cargo" [["Cargo.lock"]; ["rust-toolchain"]]
             ["rustc --version"] [["target"]].

Definition noneConfig : BuildConfig := mkBuildConfig "none" true None [].
End Inputs.

(* ================================================================== *)
(** Paths that the two loops of [SeedDirectory] may create. *)
Definition dirsOf (D : list (path * N)) (q : path) : bool :=
  existsb (fun d => is_prefix q (fst d)) D.

Definition filesOf (F : list fileEntry) (q : path) : bool :=
  existsb (fun f => path_eqb (dstPath f) q) F.

(** The statement of the specification about [seed_tree]: [n] is the
    disk before the call, [n'] the disk after it. *)
Definition seedTreeSpec (src dst : path) (name : string) (n n' : node)
  : Prop :=
  (forall r m i d,
      stat (src ++ r) n = Some (IFile m i d) ->
      shouldSkipPath (rel_str r) name = false ->
      exists m' i' d', stat (dst ++ r) n' = Some (IFile m' i' d'))
  /\ (forall r t,
      stat (src ++ r) n = Some (ISymlink t) ->
      stat (dst ++ r) n' = Some (ISymlink t))
  /\ (forall d x r,
      shouldSkipPath (rel_str d ++ "/") name = true ->
      stat (dst ++ d ++ x :: r) n' = None).

(** What [SeedDirectory] does establish: the skip rules apply to the
    symbolic links as they do to the files. *)
Definition seedMirrored (src dst : path) (name : string) (n n' : node)
  : Prop :=
  (forall r m i d,
      stat (src ++ r) n = Some (IFile m i d) ->
      shouldSkipPath (rel_str r) name = false ->
      exists i', stat (dst ++ r) n' = Some (IFile m i' d))
  /\ (forall r t,
      stat (src ++ r) n = Some (ISymlink t) ->
      shouldSkipPath (rel_str r) name = false ->
      stat (dst ++ r) n' = Some (ISymlink t))
  /\ (forall d x r,
      shouldSkipPath (rel_str d ++ "/") name = true ->
      stat (dst ++ d ++ x :: r) n' = None).

Module SeedInputs.
(** A cargo target directory [/src]: an object file, a library, the
    incremental directory and two symbolic links, one of them named
    like a dependency file. *)
Definition disk : node :=
  Directory 493
    [("src", Directory 493
        [("a.o", File 420 1 (bytes "O"));
         ("good.rlib", File 420 2 (bytes "R"));
         ("incremental", Directory 493 [("s", File 420 3 (bytes "S"))]);
         ("link", SymLink "real");
         ("x.d", SymLink "y")])].

(** The same, with a destination [/dst] that is there already and
    holds another link of the name [link]. *)
Definition diskWithDst : node :=
  Directory 493
    [("dst", Directory 493 [("link", SymLink "elsewhere")]);
     ("src", Directory 493
        [("good.rlib", File 420 2 (bytes "R"));
         ("link", SymLink "real")])].

Definition opts : SeedOptions := mkSeedOptions "cargo" None 0 "".

Definition fresh : world := Inputs.mk disk [] Inputs.noShell.
Definition occupied : world := Inputs.mk diskWithDst [] Inputs.noShell.
End SeedInputs.

(** The advisory lock of the cache entry [cachePath] is held by another
    process: its lock file is there and flock would block. *)
Definition lockHeld (cachePath : path) (w : world) : Prop :=
  existsb (path_eqb (path_add cachePath ".lock")) (flocked w) = true
  /\ fileExists (path_add cachePath ".lock") w = true.

Module LockInputs.
(** The entry [/h/.mono/cache_local/P/npm/K] is being filled by another
    process, which holds [K.lock]; the workspace [/w] has its modules. *)
Definition cachePath : path :=
  ["h"; ".mono"; "cache_local"; "P"; "npm"; "K"].

Definition disk : node :=
  Directory 493
    [("h", Directory 493
        [(".mono", Directory 493
           [("cache_local", Directory 493
              [("P", Directory 493
                 [("npm", Directory 493
                    [("K.lock", File 420 7 [])])])])])]);
     ("w", Directory 493
        [("node_modules", Directory 493
           [("m.js", File 420 8 (bytes "M"))])])].

Definition locked : world :=
  mkWorld disk [] [["h"; ".mono"; "cache_local"; "P"; "npm"; "K.lock"]]
          Inputs.noShell (Some ["h"]) (fun _ => true) 100 [].
End LockInputs.

(** Whatever is not a directory was there before. *)
Definition no_new_leaves (n n' : node) : Prop :=
  forall q i, stat q n' = Some i -> IsDir i = false -> stat q n = Some i.

(** Beneath the cache entry [c], no entry that is not a directory has a
    path, relative to the artifact directory [c/<basename>] it lies in,
    that matches a skip rule of the artifact [name]. *)
Definition entryClean (c : path) (name : string) (n : node) : Prop :=
  forall b r i,
    stat (c ++ b :: r) n = Some i -> IsDir i = false ->
    shouldSkipPath (rel_str r) name = false.


(** What a list of prepared entries says of the hits. *)
Definition hits (r : result (list Entry.ArtifactCacheEntry)) : list bool :=
  match r with
  | Ok es => map Entry.Hit es
  | Err _ => []
  end.

Module RootInputs.
(** The project [/p] with a built [target], and its workspace [/p/w1];
    the manifests agree, so the workspace fingerprint is the root's. *)
Definition disk : node :=
  Directory 493
    [("h", Directory 493 []);
     ("p", Directory 493
        [("Cargo.lock", File 420 1 (bytes "L"));
         ("target", Directory 493
            [("debug", Directory 493
               [("foo.d", File 420 4 (bytes "D"));
                ("foo.o", File 420 5 (bytes "O"));
                ("incremental",
                 Directory 493 [("s.bin", File 420 6 (bytes "S"))]);
                ("libfoo.rlib", File 420 7 (bytes "R"))])]);
         ("w1", Directory 493
            [("Cargo.lock", File 420 2 (bytes "L"))])])].

Definition built : world := Inputs.mk disk [] Inputs.rustc.

(** The cache is on another device than the project, and a library of
    the root's [target] cannot be read: it can be neither linked nor
    copied. *)
Definition unreadableDisk : node :=
  Directory 493
    [("h", Directory 493 []);
     ("p", Directory 493
        [("Cargo.lock", File 420 1 (bytes "L"));
         ("target", Directory 493 [("a.rlib", File 0 3 (bytes "A"))]);
         ("w1", Directory 493
            [("Cargo.lock", File 420 2 (bytes "L"))])])].

Definition unreadable : world :=
  Inputs.mk unreadableDisk [(["h"], 1%N)] Inputs.rustc.

Definition key : string := "a7aca43ff3d0a4b0".

Definition cachePath : path :=
  ["h"; ".mono"; "cache_local"; "00d74baf14ea"; "cargo"; key].

(** A workspace that was built, and the entry [StoreToCache] is given
    for it. *)
Definition workspaceDisk : node :=
  Directory 493
    [("h", Directory 493 []);
     ("p", Directory 493
        [("Cargo.lock", File 420 1 (bytes "L"));
         ("w1", Directory 493
            [("Cargo.lock", File 420 2 (bytes "L"));
             ("target", Directory 493
                [("debug", Directory 493
                   [("foo.o", File 420 5 (bytes "O"));
                    ("libfoo.rlib", File 420 7 (bytes "R"))])])])])].

Definition workspace : world := Inputs.mk workspaceDisk [] Inputs.rustc.

Definition entry : Entry.ArtifactCacheEntry :=
  Entry.mk "cargo" key cachePath [["p"; "w1"; "target"]] false.
End RootInputs.

(** ** Moving a workspace directory into the cache *)

(** The subtree at [t] is as it was. *)
Definition keeps (t : path) (n n' : node) : Prop :=
  forall r, stat (t ++ r) n' = stat (t ++ r) n.



(** The paths the cache side of a move may create: the entry [c], the
    directories above it and its lock file. *)
Definition cacheSide (c : path) (q : path) : bool :=
  is_prefix q c || path_eqb (path_add c ".lock") q.

(** The workspace directories [es] lie apart from the cache entry [c]
    and from each other, and have different names. *)
Definition pathsApart (c : path) (es : list path) : Prop :=
  (forall e, In e es -> comparable e (filepath.Dir c) = false)
  /\ ForallOrdPairs
       (fun a b => comparable a b = false
                   /\ filepath.Base a <> filepath.Base b) es.


(** One round of the loop of [StoreToCache], for the directory [e]. *)
Definition storeStep (c e : path) : M unit :=
  b <- gets (dirExists e) ;;
  if negb b then ret tt
  else
    wrap ("failed to move " ++ path_str e ++ " to cache")
         (os.Rename e (filepath.Join c (filepath.Base e))) ;;
    wrap "failed to hardlink back from cache"
         (HardlinkTree (filepath.Join c (filepath.Base e)) e).

(** ** Running [Sync] again *)


(** Nobody holds the lock of the entry [c]. *)
Definition lockFree (c : path) (w : world) : Prop :=
  existsb (path_eqb (path_add c ".lock")) (flocked w) = false.


Module SyncInputs.

Definition disk : node :=
  Directory 493
    [("h", Directory 493 []);
     ("w", Directory 493
        [("x", Directory 493
           [("t", Directory 493 [("k", File 420 1 (bytes "K"))])]);
         ("y", Directory 493
           [("t", Directory 493 [("m", File 420 2 (bytes "M"))])])])].

Definition start : world := Inputs.mk disk [] Inputs.noShell.

(** An artifact whose key-file lies beside its path. *)
Definition plain : ArtifactConfig :=
  mkArtifact "npm" [["package-lock.json"]] [] [["node_modules"]].

Definition plainDisk : node :=
  Directory 493
    [("h", Directory 493 []);
     ("w", Directory 493
        [("node_modules", Directory 493 [("m.js", File 420 2 (bytes "M"))]);
         ("package-lock.json", File 420 1 (bytes "P"))])].

Definition plainStart : world := Inputs.mk plainDisk [] Inputs.noShell.
End SyncInputs.

(** ** The cross-device copy *)

(** The entries a walk of the subtree [n] found at [p] visits, in the
    order it visits them. *)
Fixpoint entriesOf (p : path) (n : node) {struct n} : list (path * info) :=
  (p, info_of n)
  :: match n with
     | Directory _ es =>
         (fix children (es : list (string * node)) :=
            match es with
            | [] => []
            | (x, c) :: r => entriesOf (p ++ [x]) c ++ children r
            end) es
     | _ => []
     end.

(** The callback of [copyDir]. *)
Definition copyEntry (src dst p : path) (i : info) : M unit :=
  let relPath := filepath.Rel src p in
  let dstPath := filepath.Join dst relPath in
  if IsDir i then os.MkdirAll dstPath (Mode i)
  else if is_symlink i then recreateSymlink p dstPath
  else copyFile p dstPath.

(** No error of [m] is [filepath.SkipDir]. *)
Definition noSkip {A} (m : M A) : Prop :=
  forall w e w', m w = (Err e, w') -> is_SkipDir e = false.

(** [j] is what [copyDir] leaves for a source entry [i]: a directory
    for a directory, a file of the same mode and content for a file, a
    link to the same target for a link. *)
Definition copyOf (i j : info) : Prop :=
  match i, j with
  | IDir _, IDir _ => True
  | _, _ => replica i j
  end.

(** The tree stays one in which no directory lists a name twice. *)
Definition stays_wf (n n' : node) : Prop :=
  wf_node n = true -> wf_node n' = true.

(** Every system call issued from [w] to [w'] satisfies [P]. *)
Definition calls (P : syscall -> Prop) (w w' : world) : Prop :=
  exists l, trace w' = l ++ trace w /\ Forall (fun e => P (fst e)) l.

(** No link(2) is issued. *)
Definition noLinks (w w' : world) : Prop :=
  calls (fun c => is_link c = false) w w'.

(** The statement of the specification for [hardlink_back = true]:
    every file of the cache copy [t] was linked back to its place in
    the workspace directory [l]. *)
Definition linkedBack (l t : path) (w w' : world) : Prop :=
  exists calls,
    trace w' = calls ++ trace w
    /\ forall r m i d,
         stat (t ++ r) (fs w') = Some (IFile m i d) ->
         exists n, In (SysLink (t ++ r) (l ++ r), n) calls.

Module CrossInputs.
(** The workspace of [RootInputs], with the cache home [/h] on another
    device. *)
Definition apart : world :=
  Inputs.mk RootInputs.workspaceDisk [(["h"], 1%N)] Inputs.rustc.
End CrossInputs.

(* ------------------------------------------------------------------ *)
(** * Further statements about the cache manager *)

(** ** Preparing the entries *)

(** [e] is the entry of the artifact [a] for the project [rootPath] and
    the workspace [envPath] on the world [w]: the key is the cache key
    of [a], the cache path is the one of that key, and the hit flag
    says whether the cache path is a directory. *)
Definition entryOf (cm : CacheManager) (rootPath envPath : path) (w : world)
  (a : ArtifactConfig) (e : Entry.ArtifactCacheEntry) : Prop :=
  Entry.Name e = Name a
  /\ key_of (ComputeCacheKey cm a envPath w) = Some (Entry.Key e)
  /\ Entry.CachePath e
     = GetArtifactCachePath cm rootPath (Name a) (Entry.Key e)
  /\ Entry.EnvPaths e = map (filepath.Join envPath) (Paths a)
  /\ Entry.Hit e = dirExists (Entry.CachePath e) w.

(** The key of [a] can be computed. *)
Definition keyComputable (cm : CacheManager) (envPath : path) (w : world)
  (a : ArtifactConfig) : Prop :=
  key_of (ComputeCacheKey cm a envPath w) <> None.

Definition is_ok {A} (r : result A) : bool :=
  match r with
  | Ok _ => true
  | Err _ => false
  end.

(** ** What an operation never does *)

(** From [w] to [w'] nothing that was on the disk is changed or removed,
    nothing appears at a path that is neither above nor below [dst], and
    no system call is a rename or a removal. *)
Definition onlyAdds (dst : path) (w w' : world) : Prop :=
  extends (fs w) (fs w')
  /\ (forall q, comparable dst q = false -> stat q (fs w') = stat q (fs w))
  /\ calls (fun c => is_rename c = false /\ is_remove c = false
                     /\ comparable dst (target_of c) = true) w w'.

(** ** Linking a tree *)

(** The callback of [HardlinkTree]. *)
Definition linkEntry (src dst p : path) (i : info) : M unit :=
  let relPath := filepath.Rel src p in
  let dstPath := filepath.Join dst relPath in
  if IsDir i then os.MkdirAll dstPath (Mode i)
  else if is_symlink i then recreateSymlink p dstPath
  else linkOrCopy p dstPath.

(** Every entry that [src] has on the disk [n] has its copy at the same
    place below [dst] on the disk [n']. *)
Definition mirrors (src dst : path) (n n' : node) : Prop :=
  forall r i, stat (src ++ r) n = Some i ->
    exists j, stat (dst ++ r) n' = Some j /\ copyOf i j.

(* ------------------------------------------------------------------ *)
(** * internal/mono/cache.go: restoring an entry *)

Definition copyDirectory (src dst : path) (artifactName : string)
  (logger : option FileLogger) (operation : string) : M unit :=
  SeedDirectory src dst (mkSeedOptions artifactName logger 0 operation).

(** What [os.ReadDir] reports of an entry. *)
Record DirEntry := mkDirEntry {
  entryName : string;
  entryIsDir : bool
}.

(** [os.ReadDir]: the entries of the directory, in the order of their
    names. *)
Definition os_ReadDir (p : path) : M (list DirEntry) :=
  fun w =>
    match resolve p (fs w) with
    | inr (Directory _ es) =>
        (Ok (map (fun xc => mkDirEntry (fst xc) (node_is_dir (snd xc))) es),
         w)
    | inr (File _ _ _) => (Err (PathError "readdirent" p ENOTDIR), w)
    | inr (SymLink _) => (Err (PathError "open" p ENOENT), w)
    | inl e => (Err (PathError "open" p e), w)
    end.

(** The disk of the model keeps no times and the world has no clock:
    [time.Now] is a constant, and [os.Chtimes], which follows symbolic
    links, is seen by its error only. *)
Definition time_Now : M N := ret 0%N.

Definition os_Chtimes (p : path) (atime mtime : N) : M unit :=
  fun w =>
    match resolve p (fs w) with
    | inr (SymLink _) => (Err (PathError "chtimes" p ENOENT), w)
    | inr _ => (Ok tt, w)
    | inl e => (Err (PathError "chtimes" p e), w)
    end.

(** The first loop of [touchDepFilesParallel]: the files [dep-*] of the
    crate directories, appended to [depFiles]. *)
Fixpoint collectDepFiles (fingerprintDir : path)
  (crateEntries : list DirEntry) (depFiles : list path) : M (list path) :=
  match crateEntries with
  | [] => ret depFiles
  | crateEntry :: rest =>
      if negb (entryIsDir crateEntry)
      then collectDepFiles fingerprintDir rest depFiles
      else
        let crateDir :=
          filepath.Join fingerprintDir [entryName crateEntry] in
        r <- try (os_ReadDir crateDir) ;;
        match r with
        | Err _ => collectDepFiles fingerprintDir rest depFiles
        | Ok fileEntries =>
            collectDepFiles fingerprintDir rest
              (depFiles
                 ++ map (fun fileEntry =>
                           filepath.Join crateDir [entryName fileEntry])
                      (filter (fun fileEntry =>
                                 negb (entryIsDir fileEntry)
                                 && strings.HasPrefix (entryName fileEntry)
                                                      "dep-")
                              fileEntries))
        end
  end.

(** The workers take the files off the channel in the order they were
    collected; here one worker does, and the first error ends the
    operation. *)
Definition touchDepFilesParallel (fingerprintDir : path) (now : N)
  (numWorkers : nat) : M unit :=
  crateEntries <- os_ReadDir fingerprintDir ;;
  let numWorkers := if (numWorkers =? 0)%nat then 8%nat else numWorkers in
  depFiles <- collectDepFiles fingerprintDir crateEntries [] ;;
  match depFiles with
  | [] => ret tt
  | _ => forM (fun p => os_Chtimes p now now) depFiles
  end.

Definition touchCargoFingerprints (cm : CacheManager) (targetDir : path)
  : M unit :=
  now <- time_Now ;;
  forM (fun profile =>
          let fingerprintDir :=
            filepath.Join targetDir [profile; ".fingerprint"] in
          b <- gets (dirExists fingerprintDir) ;;
          if negb b then ret tt
          else touchDepFilesParallel fingerprintDir now 8)
       ["debug"; "release"].

Definition cleanNodeModulesBin (cm : CacheManager) (nodeModulesDir : path)
  : M unit :=
  let binDir := filepath.Join nodeModulesDir [".bin"] in
  b <- gets (dirExists binDir) ;;
  if b
  then wrap ("failed to clean .bin at " ++ path_str binDir)
            (os.RemoveAll binDir)
  else ret tt.

(** The artifacts of the node package managers. *)
Definition isNodeArtifact (artifactName : string) : bool :=
  existsb (String.eqb artifactName) ["npm"; "yarn"; "pnpm"; "bun"].

Definition ApplyPostRestoreFixes (cm : CacheManager) (artifactName : string)
  (envPath : path) : M unit :=
  if String.eqb artifactName "cargo" then touchCargoFingerprints cm envPath
  else if isNodeArtifact artifactName then cleanNodeModulesBin cm envPath
  else ret tt.

Definition RestoreFromCache (cm : CacheManager)
  (entry : Entry.ArtifactCacheEntry) (logger : option FileLogger) : M unit :=
  forM (fun envPath =>
          let srcPath :=
            filepath.Join (Entry.CachePath entry) (filepath.Base envPath) in
          b <- gets (dirExists srcPath) ;;
          let srcPath :=
            if negb b
            then filepath.Join (Entry.CachePath entry) [Entry.Name entry]
            else srcPath in
          wrap ("failed to remove existing " ++ path_str envPath)
               (os.RemoveAll envPath) ;;
          wrap ("failed to restore cache for " ++ Entry.Name entry)
               (copyDirectory srcPath envPath (Entry.Name entry) logger
                              "restoring") ;;
          wrap ("failed to apply post-restore fixes for "
                  ++ Entry.Name entry)
               (ApplyPostRestoreFixes cm (Entry.Name entry) envPath))
       (Entry.EnvPaths entry).

(** ** Statements about [RestoreFromCache] *)

(** One round of the loop of [RestoreFromCache], for the workspace
    directory [envPath]. *)
Definition restoreStep (cm : CacheManager) (entry : Entry.ArtifactCacheEntry)
  (logger : option FileLogger) (envPath : path) : M unit :=
  let srcPath :=
    filepath.Join (Entry.CachePath entry) (filepath.Base envPath) in
  b <- gets (dirExists srcPath) ;;
  let srcPath :=
    if negb b
    then filepath.Join (Entry.CachePath entry) [Entry.Name entry]
    else srcPath in
  wrap ("failed to remove existing " ++ path_str envPath)
       (os.RemoveAll envPath) ;;
  wrap ("failed to restore cache for " ++ Entry.Name entry)
       (copyDirectory srcPath envPath (Entry.Name entry) logger
                      "restoring") ;;
  wrap ("failed to apply post-restore fixes for " ++ Entry.Name entry)
       (ApplyPostRestoreFixes cm (Entry.Name entry) envPath).

(** The directory of the entry that [RestoreFromCache] copies to the
    workspace directory [envPath]. *)
Definition restoreSource (entry : Entry.ArtifactCacheEntry) (envPath : path)
  (w : world) : path :=
  if dirExists (Entry.CachePath entry ++ filepath.Base envPath) w
  then Entry.CachePath entry ++ filepath.Base envPath
  else Entry.CachePath entry ++ [Entry.Name entry].

(** The relative paths that the fix after the restore removes again:
    what lies in the directory [.bin] of a node package manager. *)
Definition fixRemoves (artifactName : string) (r : path) : bool :=
  isNodeArtifact artifactName
  && match r with
     | x :: _ :: _ => String.eqb x ".bin"
     | _ => false
     end.

(** The workspace directories of the entry lie apart from the cache
    entry and from each other. *)
Definition restoreApart (entry : Entry.ArtifactCacheEntry) : Prop :=
  (forall e, In e (Entry.EnvPaths entry) ->
     comparable (Entry.CachePath entry) e = false)
  /\ ForallOrdPairs (fun a b => comparable a b = false)
       (Entry.EnvPaths entry).

Module RestoreInputs.
(** The entry [K] of the node modules of a project, with a directory
    [.bin], and a workspace [/w] whose [node_modules] holds an old
    file. *)
Definition cachePath : path :=
  ["h"; ".mono"; "cache_local"; "P"; "npm"; "K"].

Definition disk : node :=
  Directory 493
    [("h", Directory 493
        [(".mono", Directory 493
           [("cache_local", Directory 493
              [("P", Directory 493
                 [("npm", Directory 493
                    [("K", Directory 493
                       [("node_modules", Directory 493
                          [(".bin", Directory 493
                              [("tool", SymLink "../m/tool.js")]);
                           ("m", Directory 493
                              [("tool.js", File 493 7 (bytes "T"))])])])])])])])]);
     ("w", Directory 493
        [("node_modules", Directory 493
           [("old.js", File 420 8 (bytes "O"))])])].

Definition start : world := Inputs.mk disk [] Inputs.noShell.

Definition entry : Entry.ArtifactCacheEntry :=
  Entry.mk "npm" "K" cachePath [["w"; "node_modules"]] true.


End RestoreInputs.

(* ------------------------------------------------------------------ *)
(** * internal/mono/cache.go: the size of the cache and its removal *)

(** [int64] addition. *)
Definition add64 (a b : Z) : Z :=
  ((a + b + 9223372036854775808) mod 18446744073709551616
   - 9223372036854775808)%Z.

(** [info.Size()] of an entry that is not a directory: the length of
    the content of a file, the length of the target of a symbolic link.
    The size of a directory depends on the system; the program does not
    ask for it. *)
Definition info_Size (i : info) : Z :=
  match i with
  | IFile _ _ d => Z.of_nat (List.length d)
  | ISymlink t => Z.of_nat (String.length t)
  | IDir _ => 0%Z
  end.

Definition calculateDirSize (cm : CacheManager) (p : path) : M Z :=
  WalkDir (fun p d size =>
             if IsDir d then ret size
             else ret (add64 size (info_Size d))) p 0%Z.

Record CacheSizeEntry := mkCacheSizeEntry {
  ProjectID : string;
  Artifact : string;
  CacheKey : string;
  Size : Z
}.

(** The loop of [GetCacheSizes] over the key directories of an
    artifact. *)
Fixpoint sizeKeyDirs (cm : CacheManager) (projectID artifact : string)
  (artifactPath : path) (keyDirs : list DirEntry)
  (entries : list CacheSizeEntry) : M (list CacheSizeEntry) :=
  match keyDirs with
  | [] => ret entries
  | keyDir :: rest =>
      if negb (entryIsDir keyDir)
      then sizeKeyDirs cm projectID artifact artifactPath rest entries
      else
        let cacheKey := entryName keyDir in
        let keyPath := filepath.Join artifactPath [cacheKey] in
        r <- try (calculateDirSize cm keyPath) ;;
        match r with
        | Err _ => sizeKeyDirs cm projectID artifact artifactPath rest entries
        | Ok size =>
            sizeKeyDirs cm projectID artifact artifactPath rest
              (entries ++ [mkCacheSizeEntry projectID artifact cacheKey size])
        end
  end.

(** The loop over the artifact directories of a project. *)
Fixpoint sizeArtifactDirs (cm : CacheManager) (projectID : string)
  (projectPath : path) (artifactDirs : list DirEntry)
  (entries : list CacheSizeEntry) : M (list CacheSizeEntry) :=
  match artifactDirs with
  | [] => ret entries
  | artifactDir :: rest =>
      if negb (entryIsDir artifactDir)
      then sizeArtifactDirs cm projectID projectPath rest entries
      else
        let artifact := entryName artifactDir in
        let artifactPath := filepath.Join projectPath [artifact] in
        r <- try (os_ReadDir artifactPath) ;;
        match r with
        | Err _ => sizeArtifactDirs cm projectID projectPath rest entries
        | Ok keyDirs =>
            entries <- sizeKeyDirs cm projectID artifact artifactPath
                                   keyDirs entries ;;
            sizeArtifactDirs cm projectID projectPath rest entries
        end
  end.

(** The loop over the project directories of the cache. *)
Fixpoint sizeProjectDirs (cm : CacheManager) (projectDirs : list DirEntry)
  (entries : list CacheSizeEntry) : M (list CacheSizeEntry) :=
  match projectDirs with
  | [] => ret entries
  | projectDir :: rest =>
      if negb (entryIsDir projectDir)
      then sizeProjectDirs cm rest entries
      else
        let projectID := entryName projectDir in
        let projectPath := filepath.Join (LocalCacheDir cm) [projectID] in
        r <- try (os_ReadDir projectPath) ;;
        match r with
        | Err _ => sizeProjectDirs cm rest entries
        | Ok artifactDirs =>
            entries <- sizeArtifactDirs cm projectID projectPath
                                        artifactDirs entries ;;
            sizeProjectDirs cm rest entries
        end
  end.

Definition GetCacheSizes (cm : CacheManager) : M (list CacheSizeEntry) :=
  b <- gets (dirExists (LocalCacheDir cm)) ;;
  if negb b then ret []
  else
    projectDirs <- wrap "failed to read cache directory"
                        (os_ReadDir (LocalCacheDir cm)) ;;
    sizeProjectDirs cm projectDirs [].

(** [os.Remove]: unlink(2), or rmdir(2) for a directory, which has to
    be empty; the root cannot be removed. *)
Definition fs_remove (p : path) (n : node) : errno + node :=
  if is_root p then inl EINVAL
  else
    match resolve p n with
    | inr (Directory _ (_ :: _)) => inl ENOTEMPTY
    | inr _ => inr (put p None n)
    | inl e => inl e
    end.

(** The call is recorded as the removal at [p] it is. *)
Definition os_Remove (p : path) : M unit :=
  fun w => os.sys (SysRemoveAll p) (fs_remove p (fs w))
                  (PathError "remove" p) w.

Definition cleanEmptyParentDirs (cm : CacheManager) (p : path) : M unit :=
  r <- try (os_ReadDir p) ;;
  match r with
  | Err _ => ret tt
  | Ok entries =>
      match entries with
      | [] => try (os_Remove p) ;; ret tt
      | _ :: _ => ret tt
      end
  end.

(** [projectID], [artifact] and [cacheKey] are names of directory
    entries, as [GetCacheSizes] reports them. *)
Definition RemoveCacheEntry (cm : CacheManager)
  (projectID artifact cacheKey : string) : M unit :=
  let p := filepath.Join (LocalCacheDir cm) [projectID; artifact; cacheKey] in
  wrap "failed to remove cache entry" (os.RemoveAll p) ;;
  cleanEmptyParentDirs cm
    (filepath.Join (LocalCacheDir cm) [projectID; artifact]) ;;
  cleanEmptyParentDirs cm (filepath.Join (LocalCacheDir cm) [projectID]) ;;
  ret tt.

(** The number of entries and their total size. *)
Definition RemoveAllCache (cm : CacheManager) : M (Z * Z) :=
  entries <- GetCacheSizes cm ;;
  let totalSize :=
    fold_left (fun total entry => add64 total (Size entry)) entries 0%Z in
  wrap "failed to remove cache directory" (os.RemoveAll (LocalCacheDir cm)) ;;
  ret (Z.of_nat (List.length entries), totalSize).

(** ** Statements about the size of the cache *)

(** The bytes below a node: the content of the files and the targets
    of the symbolic links. *)
Fixpoint treeSize (n : node) : Z :=
  match n with
  | File _ _ d => Z.of_nat (List.length d)
  | SymLink t => Z.of_nat (String.length t)
  | Directory _ es =>
      (fix sum (es : list (string * node)) : Z :=
         match es with
         | [] => 0
         | (_, c) :: r => treeSize c + sum r
         end)%Z es
  end.

(** The callback of [calculateDirSize]. *)
Definition sizeFn (p : path) (d : info) (size : Z) : M Z :=
  if IsDir d then ret size else ret (add64 size (info_Size d)).

(** The key directory of an entry of the listing. *)
Definition entryPath (cm : CacheManager) (projectID artifact cacheKey : string)
  : path :=
  LocalCacheDir cm ++ [projectID; artifact; cacheKey].

(** [p] is a directory with no entry. *)
Definition emptyDir (p : path) (n : node) : Prop :=
  exists m, lookup p n = Some (Directory m []).

Module SizeInputs.
(** A cache with the entries [P/cargo/K1], [P/npm/K2] and the lock
    file [P/npm/K2.lock], and a workspace. *)
Definition disk : node :=
  Directory 493
    [("h", Directory 493
        [(".mono", Directory 493
           [("cache_local", Directory 493
              [("P", Directory 493
                 [("cargo", Directory 493
                    [("K1", Directory 493
                       [("target", Directory 493
                          [("a.rlib", File 420 5 (bytes "AAAA"));
                           ("l", SymLink "a.rlib")])])]);
                  ("npm", Directory 493
                    [("K2", Directory 493
                       [("node_modules", Directory 493
                          [("m.js", File 420 6 (bytes "MM"))])]);
                     ("K2.lock", File 420 7 [])])])])])]);
     ("w", Directory 493 [("x", File 420 8 (bytes "X"))])].

Definition start : world := Inputs.mk disk [] Inputs.noShell.
End SizeInputs.

(** ** Storing and restoring *)


(** ** Counting the files to seed *)

(** The callback of [countFiles]. *)
Definition countFn (src : path) (artifactName : string) (p : path) (d : info)
  (count : N) : M N :=
  if IsDir d then ret count
  else
    let relPath := filepath.Rel src p in
    if negb (shouldSkipPath (rel_str relPath) artifactName)
    then ret (N.succ count) else ret count.

(** The entries below [n], found at the relative path [rel], that are
    not directories and match no skip rule. *)
Fixpoint countLeaves (name : string) (rel : path) (n : node) {struct n}
  : nat :=
  match n with
  | Directory _ es =>
      (fix sum (es : list (string * node)) : nat :=
         match es with
         | [] => O
         | (x, c) :: r => (countLeaves name (rel ++ [x]) c + sum r)%nat
         end) es
  | _ => if shouldSkipPath (rel_str rel) name then O else 1%nat
  end.

(** ** The lock file of an entry *)

(** The lock file of the entry [<cache>/<project>/<artifact>/<key>]. *)
Definition lockPath (cm : CacheManager) (pid art key : string) : path :=
  LocalCacheDir cm ++ [pid; art; (key ++ ".lock")%string].

(** * Proofs *)

Unset Implicit Arguments.

Example sha_empty :
  str_take 16 (Hex.EncodeToString (Sha256.digest [])) = "e3b0c44298fc1c14".
Proof. vm_compute. reflexivity. Qed.

Example sha_abc :
  Hex.EncodeToString (Sha256.digest (list_byte_of_string "abc"))
  = "ba7816bf8f01cfea414140de5dae2223b00361a396177a9cb410ff61f20015ad".
Proof. vm_compute. reflexivity. Qed.

Example sha_two_blocks :
  Hex.EncodeToString (Sha256.digest (list_byte_of_string
    "abcdbcdecdefdefgefghfghighijhijkijkljklmklmnlmnomnopnopq"))
  = "248d6a61d20638b8e5c026930c3e6039a33ce45964ff2167f6ecedd419db06c1".
Proof. vm_compute. reflexivity. Qed.


(** ** The monad *)

Lemma bind_ok {A B} {m : M A} (k : A -> M B) {w a w'} :
  m w = (Ok a, w') -> bind m k w = k a w'.
Proof. unfold bind. intros ->. reflexivity. Qed.

Lemma bind_err {A B} {m : M A} (k : A -> M B) {w e w'} :
  m w = (Err e, w') -> bind m k w = (Err e, w').
Proof. unfold bind. intros ->. reflexivity. Qed.

Lemma try_eq {A} {m : M A} {w r w'} :
  m w = (r, w') -> try m w = (Ok r, w').
Proof. unfold try. intros ->. reflexivity. Qed.

Lemma wrap_ok {A} msg {m : M A} {w a w'} :
  m w = (Ok a, w') -> wrap msg m w = (Ok a, w').
Proof. unfold wrap. intros ->. reflexivity. Qed.

Lemma wrap_err {A} msg {m : M A} {w e w'} :
  m w = (Err e, w') -> wrap msg m w = (Err (Errorf msg e), w').
Proof. unfold wrap. intros ->. reflexivity. Qed.

(** ** The fingerprint *)

Lemma Open_view p w :
  match viewKeyFile p w with
  | KContent d => os.Open p w = (Ok (HFile d), w)
  | KAbsent => exists e, os.Open p w = (Err e, w) /\ os_err.IsNotExist e = true
  | KUnreadable =>
      (exists e, os.Open p w = (Err e, w) /\ os_err.IsNotExist e = false)
      \/ os.Open p w = (Ok HDir, w)
  end.
Proof.
  unfold viewKeyFile, os.Open.
  destruct (resolve p (fs w)) as [e|[m i d|t|m es]].
  - destruct e; try (left; eexists; split; [reflexivity|reflexivity]).
    eexists; split; reflexivity.
  - destruct (readable m); [reflexivity|].
    left; eexists; split; reflexivity.
  - eexists; split; reflexivity.
  - right; reflexivity.
Qed.

Lemma hashKeyFiles_readable env kfs : forall h w,
  (forall kf, In kf kfs -> viewKeyFile (filepath.Join env kf) w <> KUnreadable) ->
  hashKeyFiles env kfs h w =
  (Ok (h ++ flat_map
         (fun kf => keyFileBytes (viewKeyFile (filepath.Join env kf) w)) kfs), w).
Proof.
  induction kfs as [|kf kfs IH]; intros h w Hok; simpl.
  - rewrite app_nil_r. reflexivity.
  - assert (Hkf := Hok kf (or_introl eq_refl)).
    assert (Hrest : forall k, In k kfs ->
              viewKeyFile (filepath.Join env k) w <> KUnreadable)
      by (intros k Hk; apply Hok; right; exact Hk).
    generalize (Open_view (filepath.Join env kf) w).
    destruct (viewKeyFile (filepath.Join env kf) w) as [|d|] eqn:V.
    + intros (e & Hopen & Hne).
      rewrite (bind_ok _ (try_eq Hopen)). rewrite Hne.
      rewrite IH by exact Hrest. simpl. reflexivity.
    + intros Hopen.
      rewrite (bind_ok _ (try_eq Hopen)).
      unfold os.ReadAll.
      rewrite (bind_ok (m:=wrap _ (ret d)) _ (w:=w) (a:=d) (w':=w)) by reflexivity.
      rewrite IH by exact Hrest. unfold hash.Write. simpl.
      rewrite app_assoc. reflexivity.
    + congruence.
Qed.

Lemma hashKeyCommands_ok cmds : forall h w,
  (forall c, In c cmds -> shell w c <> None) ->
  hashKeyCommands cmds h w =
  (Ok (h ++ flat_map
         (fun c => match shell w c with Some out => out | None => [] end) cmds),
   w).
Proof.
  induction cmds as [|c cmds IH]; intros h w Hok; simpl.
  - rewrite app_nil_r. reflexivity.
  - assert (Hc := Hok c (or_introl eq_refl)).
    destruct (shell w c) as [out|] eqn:S; [|congruence].
    assert (Hout : wrap ("failed to run key command " ++ c) (Output c) w
                   = (Ok out, w)).
    { apply wrap_ok. unfold Output. rewrite S. reflexivity. }
    rewrite (bind_ok _ Hout).
    rewrite IH by (intros c' Hc'; apply Hok; right; exact Hc').
    unfold hash.Write. rewrite app_assoc. reflexivity.
Qed.

Lemma hashKeyCommands_fail cmds : forall h w,
  (exists c, In c cmds /\ shell w c = None) ->
  exists e, hashKeyCommands cmds h w = (Err e, w).
Proof.
  induction cmds as [|c cmds IH]; intros h w (c0 & Hin & Hc0).
  - destruct Hin.
  - simpl. destruct (shell w c) as [out|] eqn:S.
    + assert (Hout : wrap ("failed to run key command " ++ c) (Output c) w
                     = (Ok out, w)).
      { apply wrap_ok. unfold Output. rewrite S. reflexivity. }
      rewrite (bind_ok _ Hout).
      apply IH. destruct Hin as [<-|Hin]; [congruence|].
      exists c0. split; assumption.
    + eexists. apply bind_err. apply wrap_err.
      unfold Output. rewrite S. reflexivity.
Qed.

(** ** The digest has 32 bytes, its prefix 16 lowercase digits *)

Lemma round_length st kw :
  List.length st = 8%nat -> List.length (Sha256.round st kw) = 8%nat.
Proof.
  intros H.
  do 9 (destruct st as [|? st]; try discriminate H).
  reflexivity.
Qed.

Lemma fold_round_length kws : forall st,
  List.length st = 8%nat ->
  List.length (fold_left Sha256.round kws st) = 8%nat.
Proof.
  induction kws as [|kw kws IH]; intros st H; simpl; [exact H|].
  apply IH. apply round_length. exact H.
Qed.

Lemma compress_length h blk :
  List.length h = 8%nat -> List.length (Sha256.compress h blk) = 8%nat.
Proof.
  intros H. unfold Sha256.compress.
  rewrite length_map, length_combine, fold_round_length by exact H.
  rewrite H. reflexivity.
Qed.

Lemma fold_compress_length bs : forall h,
  List.length h = 8%nat ->
  List.length (fold_left Sha256.compress bs h) = 8%nat.
Proof.
  induction bs as [|b bs IH]; intros h H; simpl; [exact H|].
  apply IH. apply compress_length. exact H.
Qed.

Lemma digest_length msg : List.length (Sha256.digest msg) = 32%nat.
Proof.
  unfold Sha256.digest. rewrite length_map.
  set (h := fold_left _ _ _).
  assert (H : List.length h = 8%nat)
    by (apply fold_compress_length; reflexivity).
  do 9 (destruct h as [|? h]; try discriminate H).
  reflexivity.
Qed.

Lemma digit_lower_hex n : is_lower_hex (Hex.digit n) = true.
Proof.
  unfold Hex.digit.
  destruct (N.to_nat n) as [|k]; [reflexivity|].
  do 15 (destruct k as [|k]; [reflexivity|]).
  destruct k; reflexivity.
Qed.

Lemma hex_lower bs : string_forallb is_lower_hex (Hex.EncodeToString bs) = true.
Proof.
  induction bs as [|b bs IH]; simpl; [reflexivity|].
  rewrite !digit_lower_hex, IH. reflexivity.
Qed.

Lemma hex_length bs :
  String.length (Hex.EncodeToString bs) = (2 * List.length bs)%nat.
Proof. induction bs as [|b bs IH]; simpl; [reflexivity|]. rewrite IH. lia. Qed.

Lemma substring_0_length n : forall s,
  (n <= String.length s)%nat -> String.length (substring 0 n s) = n.
Proof.
  induction n as [|n IH]; intros s H.
  - destruct s; reflexivity.
  - destruct s as [|c s]; simpl in *; [lia|].
    rewrite IH by lia. reflexivity.
Qed.

Lemma substring_0_forallb f n : forall s,
  string_forallb f s = true -> string_forallb f (substring 0 n s) = true.
Proof.
  induction n as [|n IH]; intros s H.
  - destruct s; reflexivity.
  - destruct s as [|c s]; simpl in *; [reflexivity|].
    apply andb_true_iff in H. destruct H as [Hc Hs].
    rewrite Hc, IH by exact Hs. reflexivity.
Qed.



Lemma ComputeCacheKey_ok cm artifact envPath w :
  (forall kf, In kf (KeyFiles artifact) ->
     viewKeyFile (filepath.Join envPath kf) w <> KUnreadable) ->
  (forall c, In c (KeyCommands artifact) -> shell w c <> None) ->
  ComputeCacheKey cm artifact envPath w
  = (Ok (digest16 (fingerprintInput artifact envPath w)), w).
Proof.
  intros Hfiles Hcmds. unfold ComputeCacheKey.
  rewrite (bind_ok _ (hashKeyFiles_readable _ _ _ _ Hfiles)).
  rewrite (bind_ok _ (hashKeyCommands_ok _ _ _ Hcmds)).
  reflexivity.
Qed.

Lemma ComputeCacheKey_command_fails cm artifact envPath w :
  (forall kf, In kf (KeyFiles artifact) ->
     viewKeyFile (filepath.Join envPath kf) w <> KUnreadable) ->
  (exists c, In c (KeyCommands artifact) /\ shell w c = None) ->
  exists e, ComputeCacheKey cm artifact envPath w = (Err e, w).
Proof.
  intros Hfiles Hbad. unfold ComputeCacheKey.
  rewrite (bind_ok _ (hashKeyFiles_readable _ _ _ _ Hfiles)).
  destruct (hashKeyCommands_fail (KeyCommands artifact)
              (hash.New ++ flat_map
                 (fun kf => keyFileBytes
                    (viewKeyFile (filepath.Join envPath kf) w))
                 (KeyFiles artifact)) w Hbad) as (e & He).
  exists e. apply bind_err. exact He.
Qed.


(** Case analysis on membership in a list that is written out. *)
Ltac in_cases H :=
  repeat (destruct H as [H|H]; [subst|]); try contradiction.


(** ** The fingerprint, case by case *)

Lemma hashKeyFiles_unreadable env kfs : forall h w,
  (exists kf, In kf kfs /\ viewKeyFile (filepath.Join env kf) w = KUnreadable) ->
  exists e, hashKeyFiles env kfs h w = (Err e, w).
Proof.
  induction kfs as [|kf kfs IH]; intros h w (k0 & Hin & Hk0).
  - destruct Hin.
  - simpl.
    generalize (Open_view (filepath.Join env kf) w).
    destruct (viewKeyFile (filepath.Join env kf) w) as [|d|] eqn:V.
    + intros (e & Hopen & Hne).
      rewrite (bind_ok _ (try_eq Hopen)). rewrite Hne.
      apply IH. destruct Hin as [<-|Hin]; [congruence|].
      exists k0. split; assumption.
    + intros Hopen.
      rewrite (bind_ok _ (try_eq Hopen)).
      rewrite (bind_ok (m:=wrap _ (os.ReadAll _ (HFile d))) _
                 (w:=w) (a:=d) (w':=w)) by reflexivity.
      apply IH. destruct Hin as [<-|Hin]; [congruence|].
      exists k0. split; assumption.
    + intros [(e & Hopen & Hne)|Hopen].
      * rewrite (bind_ok _ (try_eq Hopen)). rewrite Hne.
        eexists. reflexivity.
      * rewrite (bind_ok _ (try_eq Hopen)).
        eexists. apply bind_err. apply wrap_err. reflexivity.
Qed.

Lemma keyFilesReadable_true artifact env w :
  keyFilesReadable artifact env w = true <->
  (forall kf, In kf (KeyFiles artifact) ->
     viewKeyFile (filepath.Join env kf) w <> KUnreadable).
Proof.
  unfold keyFilesReadable. rewrite forallb_forall. split.
  - intros H kf Hin E. specialize (H kf Hin). rewrite E in H. discriminate.
  - intros H kf Hin. specialize (H kf Hin).
    destruct (viewKeyFile _ w); congruence.
Qed.

Lemma keyFilesReadable_false artifact env w :
  keyFilesReadable artifact env w = false ->
  exists kf, In kf (KeyFiles artifact)
             /\ viewKeyFile (filepath.Join env kf) w = KUnreadable.
Proof.
  unfold keyFilesReadable.
  induction (KeyFiles artifact) as [|kf kfs IH]; simpl; [discriminate|].
  destruct (viewKeyFile (filepath.Join env kf) w) eqn:V; simpl.
  - intros H. destruct (IH H) as (k & Hk & E). exists k. auto.
  - intros H. destruct (IH H) as (k & Hk & E). exists k. auto.
  - intros _. exists kf. auto.
Qed.

Lemma keyCommandsSucceed_true artifact w :
  keyCommandsSucceed artifact w = true <->
  (forall c, In c (KeyCommands artifact) -> shell w c <> None).
Proof.
  unfold keyCommandsSucceed. rewrite forallb_forall. split.
  - intros H c Hin E. specialize (H c Hin). rewrite E in H. discriminate.
  - intros H c Hin. specialize (H c Hin).
    destruct (shell w c); congruence.
Qed.

Lemma keyCommandsSucceed_false artifact w :
  keyCommandsSucceed artifact w = false ->
  exists c, In c (KeyCommands artifact) /\ shell w c = None.
Proof.
  unfold keyCommandsSucceed.
  induction (KeyCommands artifact) as [|c cs IH]; simpl; [discriminate|].
  destruct (shell w c) eqn:S; simpl.
  - intros H. destruct (IH H) as (k & Hk & E). exists k. auto.
  - intros _. exists c. auto.
Qed.

(** [ComputeCacheKey] reads and leaves the world as it is; it returns a
    key exactly when the fingerprint can be computed. *)
Lemma ComputeCacheKey_cases cm artifact env w :
  (keyFilesReadable artifact env w && keyCommandsSucceed artifact w = true
   /\ ComputeCacheKey cm artifact env w
      = (Ok (digest16 (fingerprintInput artifact env w)), w))
  \/ (keyFilesReadable artifact env w && keyCommandsSucceed artifact w = false
      /\ exists e, ComputeCacheKey cm artifact env w = (Err e, w)).
Proof.
  destruct (keyFilesReadable artifact env w) eqn:F.
  - destruct (keyCommandsSucceed artifact w) eqn:C.
    + left. split; [reflexivity|].
      apply ComputeCacheKey_ok.
      * exact (proj1 (keyFilesReadable_true _ _ _) F).
      * exact (proj1 (keyCommandsSucceed_true _ _) C).
    + right. split; [reflexivity|].
      apply ComputeCacheKey_command_fails.
      * exact (proj1 (keyFilesReadable_true _ _ _) F).
      * apply keyCommandsSucceed_false. exact C.
  - right. split; [reflexivity|].
    destruct (hashKeyFiles_unreadable env (KeyFiles artifact) hash.New w
                (keyFilesReadable_false _ _ _ F)) as (e & He).
    exists e. unfold ComputeCacheKey. apply bind_err. exact He.
Qed.

Lemma ComputeCacheKey_world cm artifact env w :
  snd (ComputeCacheKey cm artifact env w) = w.
Proof.
  destruct (ComputeCacheKey_cases cm artifact env w)
    as [[_ ->]|[_ (e & ->)]]; reflexivity.
Qed.







(** ** The compiler-cache environment *)

(** With the strategy ["none"] and sccache installed, [EnvVars] still
    contributes a variable. *)
Lemma EnvVars_none_counterexample :
  ~ buildEnvVarsSpec Inputs.cm Inputs.noneConfig.
Proof.
  intros [_ H]. specialize (H eq_refl). discriminate H.
Qed.

(** C3, as the code has it.  Whatever the strategy, [EnvVars]
    contributes [RUSTC_WRAPPER=sccache] when sccache is on the PATH of
    the process and the configuration does not switch it off, and
    nothing else: none of [CARGO_HOME], [npm_config_cache],
    [YARN_CACHE_FOLDER], [PNPM_HOME] and no [SCCACHE_DIR]. *)
Theorem EnvVars_sccache_only w w' cm cfg :
  NewCacheManager w = (Ok cm, w') ->
  EnvVars cm cfg
  = (if lookPath w "sccache"
        && match Sccache cfg with Some false => false | _ => true end
     then ["RUSTC_WRAPPER=sccache"] else [])
  /\ (forall v, In v (globalCacheVars cm) -> ~ In v (EnvVars cm cfg))
  /\ (forall v, In v (EnvVars cm cfg) ->
        strings.HasPrefix v "SCCACHE_DIR=" = false).
Proof.
  unfold NewCacheManager, GetMonoHome, detectSccache, bind, gets, ret.
  destruct (userHome w) as [home|]; [|discriminate].
  intros E. injection E as <- <-.
  assert (EV : EnvVars
                 (mkCacheManager (filepath.Join home [".mono"])
                    (filepath.Join (filepath.Join home [".mono"])
                       ["cache_local"]) (lookPath w "sccache")) cfg
               = (if lookPath w "sccache"
                     && match Sccache cfg with
                        | Some false => false | _ => true end
                  then ["RUSTC_WRAPPER=sccache"] else [])).
  { unfold EnvVars, shouldEnableSccache. simpl.
    destruct (Sccache cfg) as [[|]|]; destruct (lookPath w "sccache");
      reflexivity. }
  rewrite EV. split; [reflexivity|]. split.
  - intros v Hv Hin.
    destruct (lookPath w "sccache"
              && match Sccache cfg with Some false => false | _ => true end);
      [|destruct Hin].
    destruct Hin as [<-|[]].
    unfold globalCacheVars in Hv. simpl in Hv.
    in_cases Hv; discriminate.
  - intros v Hin.
    destruct (lookPath w "sccache"
              && match Sccache cfg with Some false => false | _ => true end);
      [|destruct Hin].
    destruct Hin as [<-|[]]. reflexivity.
Qed.

Lemma EnvVars_sccache_only_witness :
  EnvVars Inputs.cm Inputs.noneConfig = ["RUSTC_WRAPPER=sccache"].
Proof.
  destruct (EnvVars_sccache_only
              (Inputs.mk Inputs.projectDisk [] Inputs.noShell)
              (Inputs.mk Inputs.projectDisk [] Inputs.noShell)
              Inputs.cm Inputs.noneConfig eq_refl) as [H _].
  exact H.
Defined.

(** ** Paths *)

Lemma is_prefix_refl p : is_prefix p p = true.
Proof. induction p as [|x p IH]; simpl; [reflexivity|]. rewrite String.eqb_refl. exact IH. Qed.

Lemma is_prefix_app p r : is_prefix p (p ++ r) = true.
Proof. induction p as [|x p IH]; simpl; [reflexivity|]. rewrite String.eqb_refl. exact IH. Qed.

Lemma is_prefix_split p : forall q,
  is_prefix p q = true -> q = p ++ skipn (List.length p) q.
Proof.
  induction p as [|x p IH]; intros q H; [reflexivity|].
  destruct q as [|y q]; [discriminate|]. simpl in H.
  apply andb_true_iff in H. destruct H as [E H].
  apply String.eqb_eq in E. subst y. simpl. f_equal. apply IH. exact H.
Qed.

Lemma is_prefix_iff p q : is_prefix p q = true <-> exists r, q = p ++ r.
Proof.
  split.
  - intros H. exists (skipn (List.length p) q). apply is_prefix_split. exact H.
  - intros (r & ->). apply is_prefix_app.
Qed.

Lemma is_prefix_trans p q r :
  is_prefix p q = true -> is_prefix q r = true -> is_prefix p r = true.
Proof.
  rewrite !is_prefix_iff. intros (a & ->) (b & ->).
  exists (a ++ b). rewrite app_assoc. reflexivity.
Qed.

Lemma path_eqb_eq p q : path_eqb p q = true <-> p = q.
Proof.
  unfold path_eqb. split.
  - intros H. apply andb_true_iff in H. destruct H as [H1 H2].
    apply is_prefix_iff in H1. apply is_prefix_iff in H2.
    destruct H1 as (a & ->). destruct H2 as (b & H2).
    rewrite <- app_assoc in H2.
    rewrite <- (app_nil_r p) in H2 at 1.
    apply app_inv_head in H2. symmetry in H2.
    apply app_eq_nil in H2. destruct H2 as [-> _].
    rewrite app_nil_r. reflexivity.
  - intros ->. rewrite is_prefix_refl. reflexivity.
Qed.

Lemma path_eqb_refl p : path_eqb p p = true.
Proof. apply path_eqb_eq. reflexivity. Qed.

Lemma path_eqb_neq p q : path_eqb p q = false <-> p <> q.
Proof.
  split.
  - intros H E. apply path_eqb_eq in E. congruence.
  - intros N. destruct (path_eqb p q) eqn:E; [|reflexivity].
    apply path_eqb_eq in E. contradiction.
Qed.

Lemma skipn_length_app {A} (p r : list A) : skipn (List.length p) (p ++ r) = r.
Proof. induction p as [|x p IH]; simpl; [reflexivity|exact IH]. Qed.

Lemma Rel_Join base r : filepath.Rel base (filepath.Join base r) = r.
Proof. apply skipn_length_app. Qed.

Lemma is_prefix_removelast p q :
  is_prefix p (removelast q) = true -> is_prefix p q = true.
Proof.
  intros H. apply is_prefix_iff in H. destruct H as (r & E).
  destruct q as [|y q] using rev_ind.
  - simpl in E. symmetry in E. apply app_eq_nil in E. destruct E as [-> _].
    reflexivity.
  - rewrite removelast_last in E. subst q.
    rewrite <- app_assoc. apply is_prefix_app.
Qed.

(** Two prefixes of one path are comparable. *)
Lemma is_prefix_comparable p q r :
  is_prefix p r = true -> is_prefix q r = true ->
  is_prefix p q = true \/ is_prefix q p = true.
Proof.
  revert q r. induction p as [|x p IH]; intros q r Hp Hq; [left; reflexivity|].
  destruct q as [|y q]; [right; reflexivity|].
  destruct r as [|z r]; [discriminate|]. simpl in *.
  apply andb_true_iff in Hp. destruct Hp as [E1 Hp].
  apply andb_true_iff in Hq. destruct Hq as [E2 Hq].
  apply String.eqb_eq in E1. apply String.eqb_eq in E2. subst.
  rewrite String.eqb_refl. simpl. eapply IH; eassumption.
Qed.

(** ** Directory entries *)

Lemma ent_get_del_same x es : ent_get x (ent_del x es) = None.
Proof.
  induction es as [|[y c] es IH]; simpl; [reflexivity|].
  destruct (String.eqb x y) eqn:E; [exact IH|].
  simpl. rewrite E. exact IH.
Qed.

Lemma ent_get_del_other x y es :
  x <> y -> ent_get y (ent_del x es) = ent_get y es.
Proof.
  intros N. induction es as [|[z c] es IH]; simpl; [reflexivity|].
  destruct (String.eqb x z) eqn:E.
  - apply String.eqb_eq in E. subst z.
    destruct (String.eqb y x) eqn:E'.
    + apply String.eqb_eq in E'. congruence.
    + exact IH.
  - simpl. rewrite IH. reflexivity.
Qed.

Lemma ent_get_put_same x c es : ent_get x (ent_put x c es) = Some c.
Proof.
  induction es as [|[y d] es IH]; simpl.
  - rewrite String.eqb_refl. reflexivity.
  - destruct (String.eqb x y) eqn:E.
    + simpl. rewrite String.eqb_refl. reflexivity.
    + destruct (String.ltb x y); simpl.
      * rewrite String.eqb_refl. reflexivity.
      * rewrite E. exact IH.
Qed.

Lemma ent_get_put_other x y c es :
  x <> y -> ent_get y (ent_put x c es) = ent_get y es.
Proof.
  intros N.
  assert (Nyx : String.eqb y x = false)
    by (apply String.eqb_neq; congruence).
  induction es as [|[z d] es IH]; simpl.
  - rewrite Nyx. reflexivity.
  - destruct (String.eqb x z) eqn:E.
    + apply String.eqb_eq in E. subst z. simpl. rewrite Nyx.
      apply ent_get_del_other. exact N.
    + destruct (String.ltb x z); simpl.
      * rewrite Nyx. destruct (String.eqb y z); [reflexivity|].
        apply ent_get_del_other. exact N.
      * rewrite IH. reflexivity.
Qed.

(** ** Resolution *)

Lemma resolve_app p : forall n c r,
  resolve p n = inr c -> resolve (p ++ r) n = resolve r c.
Proof.
  induction p as [|x p IH]; intros n c r H; simpl in *.
  - injection H as <-. reflexivity.
  - destruct n as [m i d|t|m es]; try discriminate.
    destruct (ent_get x es) as [c0|]; [|discriminate].
    apply IH. exact H.
Qed.

Lemma resolve_app_err p : forall n e r,
  resolve p n = inl e -> resolve (p ++ r) n = inl e.
Proof.
  induction p as [|x p IH]; intros n e r H; simpl in *.
  - discriminate.
  - destruct n as [m i d|t|m es]; try exact H.
    destruct (ent_get x es) as [c0|]; [|exact H].
    apply IH. exact H.
Qed.

Lemma lookup_app p n c r :
  lookup p n = Some c -> lookup (p ++ r) n = lookup r c.
Proof.
  unfold lookup. destruct (resolve p n) as [e|c0] eqn:E; [discriminate|].
  intros H. injection H as <-. rewrite (resolve_app _ _ _ r E). reflexivity.
Qed.

Lemma lookup_app_none p n r :
  lookup p n = None -> lookup (p ++ r) n = None.
Proof.
  unfold lookup. destruct (resolve p n) as [e|c0] eqn:E; [|discriminate].
  intros _. rewrite (resolve_app_err _ _ _ r E). reflexivity.
Qed.

Lemma stat_app_none p n r : stat p n = None -> stat (p ++ r) n = None.
Proof.
  unfold stat. destruct (lookup p n) eqn:E; [discriminate|].
  intros _. rewrite (lookup_app_none _ _ r E). reflexivity.
Qed.

(** Below something that is not a directory there is nothing. *)
Lemma stat_below_leaf p n i x r :
  stat p n = Some i -> IsDir i = false -> stat (p ++ x :: r) n = None.
Proof.
  unfold stat. destruct (lookup p n) as [c|] eqn:E; [|discriminate].
  simpl. intros H Hd. injection H as <-.
  rewrite (lookup_app _ _ _ (x :: r) E).
  destruct c; [reflexivity|reflexivity|discriminate].
Qed.

(** What is found has its ancestors, and they are directories. *)
Lemma stat_prefix_dir p n r i :
  stat (p ++ r) n = Some i -> r <> [] ->
  exists m, stat p n = Some (IDir m).
Proof.
  intros H Hr. unfold stat in *.
  destruct (lookup p n) as [c|] eqn:E.
  - rewrite (lookup_app _ _ _ r E) in H.
    destruct c as [m j d|t|m es]; [| |exists m; reflexivity];
      destruct r; try congruence; discriminate.
  - rewrite (lookup_app_none _ _ r E) in H. discriminate.
Qed.

Lemma parent_dir_inv p n :
  parent_dir p n = inr tt ->
  exists m es, resolve (removelast p) n = inr (Directory m es).
Proof.
  unfold parent_dir.
  destruct (resolve (removelast p) n) as [e|[m i d|t|m es]]; try discriminate.
  intros _. exists m, es. reflexivity.
Qed.

(** ** [put] *)

Lemma stat_put_other p : forall v n q,
  is_prefix p q = false -> stat q (put p v n) = stat q n.
Proof.
  induction p as [|x rest IH]; intros v n q H; [discriminate|].
  destruct n as [m i d|t|m es]; try reflexivity.
  destruct q as [|y q]; [destruct rest; simpl; [reflexivity|];
    destruct (ent_get x es); reflexivity|].
  simpl in H.
  destruct (String.eqb x y) eqn:E.
  - apply String.eqb_eq in E. subst y. simpl in H.
    destruct rest as [|z rest]; [discriminate|].
    cbn [put]. destruct (ent_get x es) as [c|] eqn:G; [|reflexivity].
    unfold stat, lookup. cbn [resolve].
    rewrite ent_get_put_same, G.
    exact (IH v c q H).
  - apply String.eqb_neq in E.
    destruct rest as [|z rest]; cbn [put].
    + unfold stat, lookup. cbn [resolve].
      destruct v; [rewrite ent_get_put_other|rewrite ent_get_del_other];
        trivial.
    + destruct (ent_get x es) as [c|] eqn:G; [|reflexivity].
      unfold stat, lookup. cbn [resolve].
      rewrite ent_get_put_other by exact E. reflexivity.
Qed.

Lemma resolve_put_some p : forall c n r,
  p <> [] -> parent_dir p n = inr tt ->
  resolve (p ++ r) (put p (Some c) n) = resolve r c.
Proof.
  induction p as [|x rest IH]; intros c n r Hne Hpar; [congruence|].
  destruct (parent_dir_inv _ _ Hpar) as (m0 & es0 & Hres).
  destruct rest as [|y rest].
  - simpl in Hres. injection Hres as ->. simpl.
    rewrite ent_get_put_same. reflexivity.
  - change (removelast (x :: y :: rest)) with (x :: removelast (y :: rest))
      in Hres.
    destruct n as [m i d|t|m es]; try discriminate.
    cbn [resolve] in Hres.
    destruct (ent_get x es) as [c0|] eqn:G; [|discriminate].
    cbn [put app]. rewrite G. cbn [resolve].
    rewrite ent_get_put_same.
    apply (IH c c0 r); [discriminate|].
    unfold parent_dir. rewrite Hres. reflexivity.
Qed.

Lemma resolve_put_none p : forall n r,
  p <> [] -> parent_dir p n = inr tt ->
  resolve (p ++ r) (put p None n) = inl ENOENT.
Proof.
  induction p as [|x rest IH]; intros n r Hne Hpar; [congruence|].
  destruct (parent_dir_inv _ _ Hpar) as (m0 & es0 & Hres).
  destruct rest as [|y rest].
  - simpl in Hres. injection Hres as ->. simpl.
    rewrite ent_get_del_same. reflexivity.
  - change (removelast (x :: y :: rest)) with (x :: removelast (y :: rest))
      in Hres.
    destruct n as [m i d|t|m es]; try discriminate.
    cbn [resolve] in Hres.
    destruct (ent_get x es) as [c0|] eqn:G; [|discriminate].
    cbn [put app]. rewrite G. cbn [resolve].
    rewrite ent_get_put_same.
    apply (IH c0 r); [discriminate|].
    unfold parent_dir. rewrite Hres. reflexivity.
Qed.

Lemma stat_put_some p c n r :
  p <> [] -> parent_dir p n = inr tt ->
  stat (p ++ r) (put p (Some c) n) = stat r c.
Proof.
  intros Hne Hpar. unfold stat, lookup.
  rewrite resolve_put_some by assumption. reflexivity.
Qed.

Lemma lookup_put_some p c n r :
  p <> [] -> parent_dir p n = inr tt ->
  lookup (p ++ r) (put p (Some c) n) = lookup r c.
Proof.
  intros Hne Hpar. unfold lookup.
  rewrite resolve_put_some by assumption. reflexivity.
Qed.

Lemma stat_put_none p n r :
  p <> [] -> parent_dir p n = inr tt ->
  stat (p ++ r) (put p None n) = None.
Proof.
  intros Hne Hpar. unfold stat, lookup.
  rewrite resolve_put_none by assumption. reflexivity.
Qed.

(** The parent of [q] is kept by a [put] that is not above it. *)
Lemma parent_dir_put p v n q :
  is_prefix p q = false -> parent_dir q n = inr tt ->
  parent_dir q (put p v n) = inr tt.
Proof.
  intros H Hpar.
  assert (Hp : is_prefix p (removelast q) = false).
  { destruct (is_prefix p (removelast q)) eqn:E; [|reflexivity].
    apply is_prefix_removelast in E. congruence. }
  pose proof (stat_put_other p v n (removelast q) Hp) as S.
  destruct (parent_dir_inv _ _ Hpar) as (m & es & R).
  unfold stat, lookup in S. rewrite R in S. simpl in S.
  unfold parent_dir.
  destruct (resolve (removelast q) (put p v n)) as [e|[]]; try discriminate.
  reflexivity.
Qed.

(** ** The system calls, seen through [stat] *)

Lemma stat_put_leaf p c n q :
  p <> [] -> parent_dir p n = inr tt -> node_is_dir c = false ->
  stat p n = None \/ (exists i, stat p n = Some i /\ IsDir i = false) ->
  stat q (put p (Some c) n)
  = if path_eqb p q then Some (info_of c) else stat q n.
Proof.
  intros Hne Hpar Hleaf Hold.
  destruct (is_prefix p q) eqn:P.
  - rewrite (is_prefix_split _ _ P).
    set (r := skipn (List.length p) q).
    rewrite stat_put_some by assumption.
    destruct r as [|x r].
    + rewrite app_nil_r, path_eqb_refl. reflexivity.
    + assert (N : path_eqb p (p ++ x :: r) = false).
      { apply path_eqb_neq. intros E.
        rewrite <- (app_nil_r p) in E at 1.
        apply app_inv_head in E. discriminate. }
      rewrite N.
      assert (S : stat (p ++ x :: r) n = None).
      { destruct Hold as [H|(i & H & Hi)].
        - apply stat_app_none. exact H.
        - eapply stat_below_leaf; eassumption. }
      rewrite S. destruct c; [reflexivity|reflexivity|discriminate].
  - rewrite stat_put_other by exact P.
    assert (N : path_eqb p q = false).
    { unfold path_eqb. rewrite P. reflexivity. }
    rewrite N. reflexivity.
Qed.

Lemma lookup_none_stat p n : lookup p n = None <-> stat p n = None.
Proof. unfold stat. destruct (lookup p n); simpl; split; congruence. Qed.

Lemma is_root_false p : is_root p = false -> p <> [].
Proof. destruct p; [discriminate|]. intros _. discriminate. Qed.

Lemma path_eqb_under p x r : path_eqb p (p ++ x :: r) = false.
Proof.
  apply path_eqb_neq. intros E.
  rewrite <- (app_nil_r p) in E at 1.
  apply app_inv_head in E. discriminate.
Qed.

Lemma path_eqb_not_prefix p q : is_prefix p q = false -> path_eqb p q = false.
Proof. intros P. unfold path_eqb. rewrite P. reflexivity. Qed.

Lemma fs_mkdir_spec p perm n n' :
  fs_mkdir p perm n = inr n' ->
  stat p n = None
  /\ forall q, stat q n'
     = if path_eqb p q then Some (IDir perm) else stat q n.
Proof.
  unfold fs_mkdir. destruct (is_root p) eqn:Hr; [discriminate|].
  apply is_root_false in Hr.
  destruct (parent_dir p n) as [e|[]] eqn:Hpar; [discriminate|].
  destruct (lookup p n) eqn:L; [discriminate|].
  intros E. injection E as <-.
  apply lookup_none_stat in L. split; [exact L|].
  intros q.
  destruct (is_prefix p q) eqn:P.
  - rewrite (is_prefix_split _ _ P).
    set (r := skipn (List.length p) q).
    rewrite stat_put_some by assumption.
    destruct r as [|y r].
    + rewrite app_nil_r, path_eqb_refl. reflexivity.
    + rewrite path_eqb_under. rewrite (stat_app_none _ _ (y :: r) L).
      reflexivity.
  - rewrite stat_put_other by exact P.
    rewrite (path_eqb_not_prefix _ _ P). reflexivity.
Qed.

Lemma fs_link_spec ms a b n n' :
  fs_link ms a b n = inr n' ->
  exists src, lookup a n = Some src /\ node_is_dir src = false
    /\ stat b n = None
    /\ devOf ms a = devOf ms b
    /\ forall q, stat q n'
       = if path_eqb b q then Some (info_of src) else stat q n.
Proof.
  unfold fs_link.
  destruct (resolve a n) as [e|src] eqn:R; [discriminate|].
  destruct (is_root b) eqn:Hr; [discriminate|].
  apply is_root_false in Hr.
  destruct (parent_dir b n) as [e|[]] eqn:Hpar; [discriminate|].
  destruct (lookup b n) eqn:L; [discriminate|].
  destruct (N.eqb (devOf ms a) (devOf ms b)) eqn:D; [|discriminate].
  simpl. destruct (node_is_dir src) eqn:Hd; [discriminate|].
  intros E. injection E as <-.
  exists src. apply lookup_none_stat in L.
  split; [unfold lookup; rewrite R; reflexivity|].
  split; [exact Hd|]. split; [exact L|].
  split; [apply N.eqb_eq; exact D|].
  intros q. apply stat_put_leaf; try assumption.
  left. exact L.
Qed.

Lemma fs_symlink_spec target p n n' :
  fs_symlink target p n = inr n' ->
  stat p n = None
  /\ forall q, stat q n'
     = if path_eqb p q then Some (ISymlink target) else stat q n.
Proof.
  unfold fs_symlink. destruct (is_root p) eqn:Hr; [discriminate|].
  apply is_root_false in Hr.
  destruct (parent_dir p n) as [e|[]] eqn:Hpar; [discriminate|].
  destruct (lookup p n) eqn:L; [discriminate|].
  intros E. injection E as <-.
  apply lookup_none_stat in L. split; [exact L|].
  intros q.
  apply (stat_put_leaf p (SymLink target)); try assumption; [reflexivity|].
  left. exact L.
Qed.

Lemma resolve_parent_dir p n c :
  p <> [] -> resolve p n = inr c -> parent_dir p n = inr tt.
Proof.
  intros Hne R. unfold parent_dir.
  rewrite (app_removelast_last "" Hne) in R.
  destruct (resolve (removelast p) n) as [e|d] eqn:E.
  - rewrite (resolve_app_err _ _ _ [last p ""] E) in R. discriminate.
  - rewrite (resolve_app _ _ _ [last p ""] E) in R.
    destruct d; [discriminate|discriminate|reflexivity].
Qed.

Lemma fs_remove_all_spec p n n' :
  fs_remove_all p n = inr n' ->
  forall q, stat q n' = if is_prefix p q then None else stat q n.
Proof.
  unfold fs_remove_all. destruct (is_root p) eqn:Hr; [discriminate|].
  apply is_root_false in Hr.
  destruct (resolve p n) as [e|c] eqn:R.
  - destruct e; try discriminate. intros E. injection E as <-.
    intros q. destruct (is_prefix p q) eqn:P; [|reflexivity].
    rewrite (is_prefix_split _ _ P). unfold stat, lookup.
    rewrite (resolve_app_err _ _ _ _ R). reflexivity.
  - intros E. injection E as <-. intros q.
    assert (Hpar : parent_dir p n = inr tt)
      by (eapply resolve_parent_dir; [exact Hr|exact R]).
    destruct (is_prefix p q) eqn:P.
    + rewrite (is_prefix_split _ _ P).
      apply stat_put_none; [exact Hr|exact Hpar].
    + apply stat_put_other. exact P.
Qed.

Lemma fs_rename_spec ms old new n n' :
  fs_rename ms old new n = inr n' ->
  (exists src, lookup old n = Some src)
  /\ devOf ms old = devOf ms new
  /\ (is_prefix old new = true -> old = new)
  /\ (forall m, stat new n <> Some (IDir m))
  /\ forall q, stat q n'
     = if is_prefix new q
       then stat (old ++ skipn (List.length new) q) n
       else if is_prefix old q then None else stat q n.
Proof.
  unfold fs_rename. intros E.
  assert (Hnd : forall m, stat new n <> Some (IDir m)).
  { intros m S. unfold stat in S.
    destruct (lookup new n) as [[| |]|]; try discriminate.
    destruct (resolve old n); discriminate. }
  assert (E' :
    (if is_root old || is_root new then inl EINVAL
     else
       match parent_dir old n, parent_dir new n with
       | inl e, _ => inl e
       | _, inl e => inl e
       | inr _, inr _ =>
           if negb (N.eqb (devOf ms old) (devOf ms new)) then inl EXDEV
           else
             match resolve old n with
             | inl e => inl e
             | inr src =>
                 if path_eqb old new then inr n
                 else if is_prefix old new then inl EINVAL
                 else if node_is_dir src
                         && match lookup new n with
                            | Some _ => true | None => false end
                 then inl ENOTDIR
                 else inr (put new (Some src) (put old None n))
             end
       end) = inr n').
  { destruct (lookup new n) as [[| |]|]; try exact E.
    destruct (resolve old n); discriminate. }
  clear E.
  destruct (is_root old) eqn:Ro; [discriminate|].
  destruct (is_root new) eqn:Rn; [discriminate|].
  apply is_root_false in Ro. apply is_root_false in Rn. simpl in E'.
  destruct (parent_dir old n) as [e|[]] eqn:Po; [discriminate|].
  destruct (parent_dir new n) as [e|[]] eqn:Pn; [discriminate|].
  destruct (N.eqb (devOf ms old) (devOf ms new)) eqn:D; [|discriminate].
  simpl in E'.
  destruct (resolve old n) as [e|src] eqn:R; [discriminate|].
  split; [exists src; unfold lookup; rewrite R; reflexivity|].
  split; [apply N.eqb_eq; exact D|].
  destruct (path_eqb old new) eqn:EQ.
  - injection E' as <-. apply path_eqb_eq in EQ. subst new.
    split; [reflexivity|]. split; [exact Hnd|].
    intros q. destruct (is_prefix old q) eqn:P; [|reflexivity].
    rewrite <- (is_prefix_split _ _ P). reflexivity.
  - destruct (is_prefix old new) eqn:PO; [discriminate|].
    destruct (node_is_dir src
              && match lookup new n with Some _ => true | None => false end);
      [discriminate|].
    injection E' as <-.
    split; [discriminate|]. split; [exact Hnd|].
    intros q.
    destruct (is_prefix new q) eqn:P.
    + rewrite (is_prefix_split _ _ P) at 1.
      rewrite stat_put_some;
        [unfold stat, lookup; rewrite (resolve_app _ _ _ _ R); reflexivity
        |exact Rn
        |apply parent_dir_put; assumption].
    + rewrite stat_put_other by exact P.
      destruct (is_prefix old q) eqn:P'.
      * rewrite (is_prefix_split _ _ P').
        apply stat_put_none; [exact Ro|exact Po].
      * apply stat_put_other. exact P'.
Qed.

Lemma fs_create_spec p perm trunc ino n n' :
  fs_create p perm trunc ino n = inr n' ->
  forall q, stat q n'
    = if path_eqb p q
      then match stat p n with
           | Some (IFile m i d) => Some (IFile m i (if trunc then [] else d))
           | _ => Some (IFile perm ino [])
           end
      else stat q n.
Proof.
  unfold fs_create. destruct (is_root p) eqn:Hr; [discriminate|].
  apply is_root_false in Hr.
  destruct (parent_dir p n) as [e|[]] eqn:Hpar; [discriminate|].
  destruct (lookup p n) as [[m i d|t|m es]|] eqn:L; try discriminate.
  - assert (S : stat p n = Some (IFile m i d))
      by (unfold stat; rewrite L; reflexivity).
    destruct trunc; intros E; injection E as <-; intros q.
    + rewrite (stat_put_leaf p (File m i []) n q Hr Hpar eq_refl).
      * rewrite S. reflexivity.
      * right. eexists. split; [exact S|reflexivity].
    + rewrite S. destruct (path_eqb p q) eqn:EQ; [|reflexivity].
      apply path_eqb_eq in EQ. subst q. exact S.
  - intros E. injection E as <-. intros q.
    apply lookup_none_stat in L.
    rewrite (stat_put_leaf p (File perm ino []) n q Hr Hpar eq_refl).
    + rewrite L. reflexivity.
    + left. exact L.
Qed.

Lemma fs_write_spec p data n n' :
  fs_write p data n = inr n' ->
  exists m i d, stat p n = Some (IFile m i d)
    /\ forall q, stat q n'
       = if path_eqb p q then Some (IFile m i data) else stat q n.
Proof.
  unfold fs_write.
  destruct (resolve p n) as [e|[m i d|t|m es]] eqn:R; try discriminate.
  intros E. injection E as <-.
  assert (S : stat p n = Some (IFile m i d))
    by (unfold stat, lookup; rewrite R; reflexivity).
  exists m, i, d. split; [exact S|]. intros q.
  destruct p as [|x p].
  - simpl in R. injection R as ->. simpl. destruct q; reflexivity.
  - apply (stat_put_leaf (x :: p) (File m i data)); [discriminate| |reflexivity|].
    + eapply resolve_parent_dir; [discriminate|exact R].
    + right. eexists. split; [exact S|reflexivity].
Qed.

Lemma fs_chmod_file_spec p mode n n' m i d :
  fs_chmod p mode n = inr n' ->
  stat p n = Some (IFile m i d) ->
  forall q, stat q n'
    = if path_eqb p q then Some (IFile mode i d) else stat q n.
Proof.
  unfold fs_chmod, stat, lookup.
  destruct (resolve p n) as [e|[m' i' d'|t|m' es]] eqn:R; try discriminate.
  intros E S. injection E as <-. simpl in S. injection S as -> -> ->.
  intros q.
  destruct p as [|x p].
  - simpl in R. injection R as ->. simpl. destruct q; reflexivity.
  - apply (stat_put_leaf (x :: p) (File mode i d)); [discriminate| |reflexivity|].
    + eapply resolve_parent_dir; [discriminate|exact R].
    + right. eexists.
      split; [unfold stat, lookup; rewrite R; reflexivity|reflexivity].
Qed.

(** ** Induction on the tree *)

Lemma node_ind' (P : node -> Prop) :
  (forall m i d, P (File m i d)) ->
  (forall t, P (SymLink t)) ->
  (forall m es, Forall (fun e => P (snd e)) es -> P (Directory m es)) ->
  forall n, P n.
Proof.
  intros Hf Hs Hd. fix IH 1. intros [m i d|t|m es].
  - apply Hf.
  - apply Hs.
  - apply Hd. induction es as [|[x c] es IHes]; constructor.
    + apply IH.
    + exact IHes.
Qed.

(** ** Runs that keep a relation *)

Lemma same_env_refl w : same_env w w.
Proof. repeat split. Qed.

Lemma same_env_trans w1 w2 w3 :
  same_env w1 w2 -> same_env w2 w3 -> same_env w1 w3.
Proof.
  intros (a1 & a2 & a3 & a4 & a5) (b1 & b2 & b3 & b4 & b5).
  repeat split; congruence.
Qed.

Section Preserves.
Context (R : node -> node -> Prop) {R_pre : PreOrder R}.
Variable E : syscall -> Prop.

Lemma R_refl n : R n n.
Proof. apply PreOrder_Reflexive. Qed.

Lemma R_trans a b c : R a b -> R b c -> R a c.
Proof. apply PreOrder_Transitive. Qed.

Lemma steps_refl w : steps R E w w.
Proof.
  split; [apply same_env_refl|]. split; [apply R_refl|].
  exists []. split; [reflexivity|constructor].
Qed.

Lemma steps_trans w1 w2 w3 :
  steps R E w1 w2 -> steps R E w2 w3 -> steps R E w1 w3.
Proof.
  intros (e1 & r1 & l1 & t1 & f1) (e2 & r2 & l2 & t2 & f2).
  split; [eapply same_env_trans; eassumption|].
  split; [eapply R_trans; eassumption|].
  exists (l2 ++ l1). split.
  - rewrite t2, t1, app_assoc. reflexivity.
  - apply Forall_app. split; [|exact f1].
    eapply Forall_impl; [|exact f2].
    intros e [He Hr]. split; [exact He|].
    eapply R_trans; eassumption.
Qed.

Lemma preserves_ret {A} (a : A) : preserves R E (ret a).
Proof. intros w r w' H. injection H as <- <-. apply steps_refl. Qed.

Lemma preserves_fail {A} e : preserves R E (@fail A e).
Proof. intros w r w' H. injection H as <- <-. apply steps_refl. Qed.

Lemma preserves_gets {A} (f : world -> A) : preserves R E (gets f).
Proof. intros w r w' H. injection H as <- <-. apply steps_refl. Qed.

Lemma preserves_bind {A B} (m : M A) (k : A -> M B) :
  preserves R E m -> (forall a, preserves R E (k a)) ->
  preserves R E (bind m k).
Proof.
  intros Hm Hk w r w' H. unfold bind in H.
  destruct (m w) as [[a|e] w1] eqn:Em.
  - eapply steps_trans; [eapply Hm; exact Em|eapply Hk; exact H].
  - injection H as <- <-. eapply Hm; exact Em.
Qed.

Lemma preserves_try {A} (m : M A) :
  preserves R E m -> preserves R E (try m).
Proof.
  intros Hm w r w' H. unfold try in H.
  destruct (m w) as [r0 w1] eqn:Em. injection H as <- <-.
  eapply Hm; exact Em.
Qed.

Lemma preserves_wrap {A} msg (m : M A) :
  preserves R E m -> preserves R E (wrap msg m).
Proof.
  intros Hm w r w' H. unfold wrap in H.
  destruct (m w) as [[a|e] w1] eqn:Em; injection H as <- <-;
    eapply Hm; exact Em.
Qed.

Lemma preserves_defer {A} (g : M unit) (m : M A) :
  preserves R E g -> preserves R E m -> preserves R E (defer g m).
Proof.
  intros Hg Hm w r w' H. unfold defer in H.
  destruct (m w) as [r0 w1] eqn:Em. injection H as <- <-.
  eapply steps_trans; [eapply Hm; exact Em|].
  destruct (g w1) as [rg wg] eqn:Eg. eapply Hg. exact Eg.
Qed.

Lemma preserves_forM {A} (f : A -> M unit) xs :
  (forall x, In x xs -> preserves R E (f x)) -> preserves R E (forM f xs).
Proof.
  induction xs as [|x xs IH]; intros Hf; simpl.
  - apply preserves_ret.
  - apply preserves_bind; [apply Hf; left; reflexivity|].
    intros _. apply IH. intros y Hy. apply Hf. right. exact Hy.
Qed.

Lemma preserves_if {A} (b : bool) (m1 m2 : M A) :
  preserves R E m1 -> preserves R E m2 ->
  preserves R E (if b then m1 else m2).
Proof. destruct b; auto. Qed.

(** A function that only reads. *)
Lemma preserves_reader {A} (m : M A) :
  (forall w, snd (m w) = w) -> preserves R E m.
Proof.
  intros Hm w r w' H. pose proof (Hm w) as S. rewrite H in S.
  simpl in S. subst w'. apply steps_refl.
Qed.

Lemma preserves_sys c (f : world -> errno + node) mk :
  E c -> (forall w n', f w = inr n' -> R (fs w) n') ->
  preserves R E (fun w => os.sys c (f w) mk w).
Proof.
  intros Hc Hf w r w' H. unfold os.sys in H.
  destruct (f w) as [e|n'] eqn:F; injection H as <- <-.
  - split; [repeat split|]. split; [apply R_refl|].
    exists [(c, fs w)]. split; [reflexivity|].
    constructor; [|constructor]. split; [exact Hc|apply R_refl].
  - split; [repeat split|]. split; [apply Hf; exact F|].
    exists [(c, n')]. split; [reflexivity|].
    constructor; [|constructor]. split; [exact Hc|apply Hf; exact F].
Qed.

Section WalkPreserves.
Variable A : Type.
Variable fn : path -> info -> A -> M A.
Hypothesis fn_ok : forall p i acc, preserves R E (fn p i acc).

Lemma preserves_walkDir n : forall p acc, preserves R E (walkDir fn p n acc).
Proof.
  induction n as [m i d|t|m es IH] using node_ind'.
  1,2: intros p acc w r w' H; simpl in H;
    match type of H with
    | context [fn ?p ?i ?a ?w] =>
        destruct (fn p i a w) as [[acc'|e] w1] eqn:Ef
    end;
    [injection H as <- <-; eapply fn_ok; exact Ef
    |rewrite andb_false_r in H; injection H as <- <-;
     eapply fn_ok; exact Ef].
  intros p acc w r w' H. simpl in H.
  destruct (fn p (IDir m) acc w) as [[acc'|e] w1] eqn:Ef.
  - eapply steps_trans; [eapply fn_ok; exact Ef|].
    clear Ef. revert acc' w1 H.
    induction IH as [|[x c] es Hc _ IHes]; intros acc' w1 H.
    + injection H as <- <-. apply steps_refl.
    + destruct (walkDir fn (p ++ [x]) c acc' w1) as [[acc1|e] w2] eqn:Ew.
      * eapply steps_trans; [eapply Hc; exact Ew|].
        eapply IHes. exact H.
      * assert (S : steps R E w1 w2) by (eapply Hc; exact Ew).
        destruct (is_SkipDir e); injection H as <- <-; exact S.
  - assert (S : steps R E w w1) by (eapply fn_ok; exact Ef).
    match type of H with
    | context [if ?b then _ else _] => destruct b
    end; injection H as <- <-; exact S.
Qed.

Lemma preserves_WalkDir root acc : preserves R E (WalkDir fn root acc).
Proof.
  intros w r w' H. unfold WalkDir in H.
  destruct (resolve root (fs w)) as [e|n].
  - injection H as <- <-. apply steps_refl.
  - destruct (walkDir fn root n acc w) as [[a|e] w1] eqn:Ew.
    + injection H as <- <-. eapply preserves_walkDir. exact Ew.
    + assert (S : steps R E w w1) by (eapply preserves_walkDir; exact Ew).
      destruct (is_SkipDir e); injection H as <- <-; exact S.
Qed.
End WalkPreserves.

End Preserves.

(** ** The relations *)

Lemma extends_refl n : extends n n.
Proof. intros q i H. exact H. Qed.

Lemma extends_trans a b c : extends a b -> extends b c -> extends a c.
Proof. intros H1 H2 q i H. apply H2, H1, H. Qed.

Lemma only_refl S n : only S n n.
Proof. intros q _. reflexivity. Qed.

Lemma only_trans S a b c : only S a b -> only S b c -> only S a c.
Proof. intros H1 H2 q Hq. rewrite (H2 q Hq). apply H1. exact Hq. Qed.

Lemma only_weaken (S S' : path -> bool) n n' :
  (forall q, S q = true -> S' q = true) -> only S n n' -> only S' n n'.
Proof.
  intros Hs H q Hq. apply H.
  destruct (S q) eqn:E; [|reflexivity]. rewrite (Hs q E) in Hq. discriminate.
Qed.

Lemma grows_refl D n : grows D n n.
Proof. intros q. left. reflexivity. Qed.

Lemma grows_trans D a b c : grows D a b -> grows D b c -> grows D a c.
Proof.
  intros H1 H2 q.
  destruct (H1 q) as [E1|[N1 D1]]; destruct (H2 q) as [E2|[N2 D2]].
  - left. congruence.
  - right. split; [congruence|exact D2].
  - right. split; assumption.
  - right. split; assumption.
Qed.

Lemma grows_weaken (D D' : path -> bool) n n' :
  (forall q, D q = true -> D' q = true) -> grows D n n' -> grows D' n n'.
Proof.
  intros Hd H q. destruct (H q) as [E|[N Dq]]; [left; exact E|].
  right. split; [exact N|apply Hd; exact Dq].
Qed.

Lemma grows_extends D n n' : grows D n n' -> extends n n'.
Proof.
  intros H q i S. destruct (H q) as [E|[N _]]; congruence.
Qed.

Lemma grows_only D n n' : grows D n n' -> only D n n'.
Proof.
  intros H q Dq. destruct (H q) as [E|[_ Dq']]; congruence.
Qed.

Lemma fills_refl dst n : fills dst n n.
Proof. intros q _. left. reflexivity. Qed.

Lemma fills_trans dst a b c : fills dst a b -> fills dst b c -> fills dst a c.
Proof.
  intros H1 H2 q Hq.
  destruct (H1 q Hq) as [E1|[N1 D1]]; destruct (H2 q Hq) as [E2|[N2 D2]].
  - left. congruence.
  - right. split; [congruence|exact D2].
  - right. split; assumption.
  - right. split; assumption.
Qed.

Lemma grows_fills dst D n n' :
  (forall q, D q = true -> comparable dst q = true) ->
  grows D n n' -> fills dst n n'.
Proof.
  intros Hd H q Hq. destruct (H q) as [E|[N Dq]]; [left; exact E|].
  right. split; [exact N|].
  apply Hd in Dq. unfold comparable in Dq. rewrite Hq in Dq. exact Dq.
Qed.

Lemma only_fills dst S n n' :
  (forall q, S q = true -> is_prefix dst q = true) ->
  only S n n' -> fills dst n n'.
Proof.
  intros Hs H q Hq. left. apply H.
  destruct (S q) eqn:E; [|reflexivity]. rewrite (Hs q E) in Hq. discriminate.
Qed.

#[export] Instance extends_PreOrder : PreOrder extends :=
  Build_PreOrder _ extends_refl extends_trans.

#[export] Instance only_PreOrder S : PreOrder (only S) :=
  Build_PreOrder _ (only_refl S) (only_trans S).

#[export] Instance grows_PreOrder D : PreOrder (grows D) :=
  Build_PreOrder _ (grows_refl D) (grows_trans D).

#[export] Instance fills_PreOrder dst : PreOrder (fills dst) :=
  Build_PreOrder _ (fills_refl dst) (fills_trans dst).

(** What only changes where nothing was has only grown. *)
Lemma only_grows (S : path -> bool) n n' :
  (forall q, S q = true -> stat q n = None) -> only S n n' -> grows S n n'.
Proof.
  intros Ha H q. destruct (S q) eqn:E.
  - right. split; [apply Ha; exact E|reflexivity].
  - left. apply H. exact E.
Qed.

Lemma steps_weaken (R R' : node -> node -> Prop) (E E' : syscall -> Prop)
  w w' :
  (forall n, R (fs w) n -> R' (fs w) n) -> (forall c, E c -> E' c) ->
  steps R E w w' -> steps R' E' w w'.
Proof.
  intros Hr He (e & r & l & t & f).
  split; [exact e|]. split; [apply Hr; exact r|].
  exists l. split; [exact t|].
  eapply Forall_impl; [|exact f].
  intros x [Hx Rx]. split; [apply He; exact Hx|apply Hr; exact Rx].
Qed.

Lemma preserves_weaken {A} (R R' : node -> node -> Prop)
  (E E' : syscall -> Prop) (m : M A) :
  (forall a b, R a b -> R' a b) -> (forall c, E c -> E' c) ->
  preserves R E m -> preserves R' E' m.
Proof.
  intros Hr He H w r w' Hm.
  eapply steps_weaken; [intros n; apply Hr|exact He|eapply H; exact Hm].
Qed.

Lemma creates_weaken links links' (D D' : path -> bool) c :
  (forall q, D q = true -> D' q = true) ->
  (links = true -> links' = true) ->
  creates links D c -> creates links' D' c.
Proof.
  intros Hd Hl (a & b & c0 & d). repeat split; auto.
  intros Hf. apply d. destruct links; [|reflexivity].
  rewrite Hl in Hf by reflexivity. discriminate.
Qed.

(** ** The system calls that only create *)

Lemma fs_mkdir_grows p perm n n' :
  fs_mkdir p perm n = inr n' -> grows (path_eqb p) n n'.
Proof.
  intros H. destruct (fs_mkdir_spec _ _ _ _ H) as [N S]. intros q.
  rewrite (S q). destruct (path_eqb p q) eqn:E; [|left; reflexivity].
  right. apply path_eqb_eq in E. subst q. split; [exact N|reflexivity].
Qed.

Lemma fs_link_grows ms a b n n' :
  fs_link ms a b n = inr n' -> grows (path_eqb b) n n'.
Proof.
  intros H. destruct (fs_link_spec _ _ _ _ _ H) as (src & _ & _ & N & _ & S).
  intros q. rewrite (S q).
  destruct (path_eqb b q) eqn:E; [|left; reflexivity].
  right. apply path_eqb_eq in E. subst q. split; [exact N|reflexivity].
Qed.

Lemma fs_symlink_grows t p n n' :
  fs_symlink t p n = inr n' -> grows (path_eqb p) n n'.
Proof.
  intros H. destruct (fs_symlink_spec _ _ _ _ H) as [N S]. intros q.
  rewrite (S q). destruct (path_eqb p q) eqn:E; [|left; reflexivity].
  right. apply path_eqb_eq in E. subst q. split; [exact N|reflexivity].
Qed.

Lemma fs_create_only p perm trunc ino n n' :
  fs_create p perm trunc ino n = inr n' -> only (path_eqb p) n n'.
Proof.
  intros H q Hq. rewrite (fs_create_spec _ _ _ _ _ _ H q), Hq. reflexivity.
Qed.

Lemma fs_create_grows p perm ino n n' :
  fs_create p perm false ino n = inr n' -> grows (path_eqb p) n n'.
Proof.
  intros H q. rewrite (fs_create_spec _ _ _ _ _ _ H q).
  destruct (path_eqb p q) eqn:E; [|left; reflexivity].
  apply path_eqb_eq in E. subst q.
  destruct (stat p n) as [[m i d| |]|] eqn:S.
  - left. reflexivity.
  - exfalso. unfold fs_create in H.
    destruct (is_root p); [discriminate|].
    destruct (parent_dir p n) as [|[]]; [discriminate|].
    unfold stat in S.
    destruct (lookup p n) as [[]|]; try discriminate.
  - exfalso. unfold fs_create in H.
    destruct (is_root p); [discriminate|].
    destruct (parent_dir p n) as [|[]]; [discriminate|].
    unfold stat in S.
    destruct (lookup p n) as [[]|]; try discriminate.
  - right. split; reflexivity.
Qed.

Lemma fs_write_only p data n n' :
  fs_write p data n = inr n' -> only (path_eqb p) n n'.
Proof.
  intros H q Hq. destruct (fs_write_spec _ _ _ _ H) as (m & i & d & _ & S).
  rewrite (S q), Hq. reflexivity.
Qed.

Lemma fs_chmod_only p mode n n' :
  fs_chmod p mode n = inr n' -> only (path_eqb p) n n'.
Proof.
  intros H q Hq.
  destruct (stat p n) as [[m i d|t|m]|] eqn:S.
  - rewrite (fs_chmod_file_spec _ _ _ _ _ _ _ H S q), Hq. reflexivity.
  - exfalso. unfold fs_chmod, stat, lookup in *.
    destruct (resolve p n) as [|[]]; discriminate.
  - unfold fs_chmod in H. unfold stat, lookup in S.
    destruct (resolve p n) as [e|[m' i' d'|t|m' es]] eqn:R; try discriminate.
    injection H as <-.
    destruct (is_prefix p q) eqn:P.
    + rewrite (is_prefix_split _ _ P).
      set (r := skipn (List.length p) q).
      assert (Hr : r <> []).
      { intros Er. unfold r in Er.
        pose proof (is_prefix_split _ _ P) as Eq. rewrite Er, app_nil_r in Eq.
        subst q. rewrite path_eqb_refl in Hq. discriminate. }
      destruct p as [|x p].
      * simpl in R. injection R as ->. simpl.
        destruct r; [congruence|reflexivity].
      * rewrite stat_put_some;
          [|discriminate|eapply resolve_parent_dir; [discriminate|exact R]].
        unfold stat, lookup. rewrite (resolve_app _ _ _ r R).
        destruct r; [congruence|reflexivity].
    + apply stat_put_other. exact P.
  - exfalso. unfold fs_chmod, stat, lookup in *.
    destruct (resolve p n) as [|[]]; discriminate.
Qed.

Lemma fs_remove_all_only p n n' :
  fs_remove_all p n = inr n' -> only (is_prefix p) n n'.
Proof.
  intros H q Hq. rewrite (fs_remove_all_spec _ _ _ H q), Hq. reflexivity.
Qed.

Lemma fs_rename_only ms a b n n' :
  fs_rename ms a b n = inr n' ->
  only (fun q => is_prefix a q || is_prefix b q) n n'.
Proof.
  intros H q Hq. apply orb_false_iff in Hq. destruct Hq as [Ha Hb].
  destruct (fs_rename_spec _ _ _ _ _ H) as (_ & _ & _ & _ & S).
  rewrite (S q), Ha, Hb. reflexivity.
Qed.

(** ** Package os: what each call keeps *)

(** Applies a lemma about [preserves] and finds the preorder instance. *)
Ltac papply l :=
  apply l;
  lazymatch goal with
  | |- PreOrder _ => typeclasses eauto
  | _ => idtac
  end.

Lemma creates_at links p c :
  target_of c = p -> is_rename c = false -> is_remove c = false ->
  (links = false -> is_link c = false) ->
  creates links (path_eqb p) c.
Proof.
  intros <- H1 H2 H3. repeat split; try assumption. apply path_eqb_refl.
Qed.

Lemma Lstat_reads p w : snd (os.Lstat p w) = w.
Proof. unfold os.Lstat. destruct (resolve p (fs w)); reflexivity. Qed.

Lemma Stat_reads p w : snd (os.Stat p w) = w.
Proof. unfold os.Stat. destruct (resolve p (fs w)) as [|[]]; reflexivity. Qed.

Lemma Readlink_reads p w : snd (os.Readlink p w) = w.
Proof. unfold os.Readlink. destruct (resolve p (fs w)) as [|[]]; reflexivity. Qed.

Lemma Open_reads p w : snd (os.Open p w) = w.
Proof.
  unfold os.Open. destruct (resolve p (fs w)) as [|[m i d| |]]; try reflexivity.
  destruct (readable m); reflexivity.
Qed.

Lemma ReadAll_reads p f w : snd (os.ReadAll p f w) = w.
Proof. destruct f; reflexivity. Qed.

Lemma Flock_reads p w : snd (os.Flock p w) = w.
Proof. unfold os.Flock. destruct (existsb _ _); reflexivity. Qed.

Lemma Mkdir_grows p perm :
  preserves (grows (path_eqb p)) (creates false (path_eqb p))
    (os.Mkdir p perm).
Proof.
  apply (preserves_sys (grows (path_eqb p)) (creates false (path_eqb p))
           (SysMkdir p)
           (fun w => fs_mkdir p perm (fs w))).
  - apply creates_at; reflexivity.
  - intros w n'. apply fs_mkdir_grows.
Qed.

Lemma Link_grows a b :
  preserves (grows (path_eqb b)) (creates true (path_eqb b)) (os.Link a b).
Proof.
  apply (preserves_sys (grows (path_eqb b)) (creates true (path_eqb b))
           (SysLink a b)
           (fun w => fs_link (mounts w) a b (fs w))).
  - apply creates_at; try reflexivity. discriminate.
  - intros w n'. apply fs_link_grows.
Qed.

Lemma Symlink_grows t p :
  preserves (grows (path_eqb p)) (creates false (path_eqb p))
    (os.Symlink t p).
Proof.
  apply (preserves_sys (grows (path_eqb p)) (creates false (path_eqb p))
           (SysSymlink t p)
           (fun w => fs_symlink t p (fs w))).
  - apply creates_at; reflexivity.
  - intros w n'. apply fs_symlink_grows.
Qed.

Lemma Write_only p data :
  preserves (only (path_eqb p)) (creates false (path_eqb p))
    (os.Write p data).
Proof.
  apply (preserves_sys (only (path_eqb p)) (creates false (path_eqb p))
           (SysWrite p)
           (fun w => fs_write p data (fs w))).
  - apply creates_at; reflexivity.
  - intros w n'. apply fs_write_only.
Qed.

Lemma Chmod_only p mode :
  preserves (only (path_eqb p)) (creates false (path_eqb p))
    (os.Chmod p mode).
Proof.
  apply (preserves_sys (only (path_eqb p)) (creates false (path_eqb p))
           (SysChmod p)
           (fun w => fs_chmod p mode (fs w))).
  - apply creates_at; reflexivity.
  - intros w n'. apply fs_chmod_only.
Qed.

Lemma RemoveAll_only p :
  preserves (only (is_prefix p)) (eq (SysRemoveAll p)) (os.RemoveAll p).
Proof.
  apply (preserves_sys (only (is_prefix p)) (eq (SysRemoveAll p))
           (SysRemoveAll p)
           (fun w => fs_remove_all p (fs w))).
  - reflexivity.
  - intros w n'. apply fs_remove_all_only.
Qed.

Lemma Rename_only a b :
  preserves (only (fun q => is_prefix a q || is_prefix b q))
    (eq (SysRename a b)) (os.Rename a b).
Proof.
  apply (preserves_sys (only (fun q => is_prefix a q || is_prefix b q))
           (eq (SysRename a b)) (SysRename a b)
           (fun w => fs_rename (mounts w) a b (fs w))).
  - reflexivity.
  - intros w n'. apply fs_rename_only.
Qed.

(** [OpenCreate] also takes the next inode number. *)
Lemma OpenCreate_steps (R : node -> node -> Prop) p perm trunc :
  (forall n, R n n) ->
  (forall ino n n', fs_create p perm trunc ino n = inr n' -> R n n') ->
  preserves R (creates false (path_eqb p)) (os.OpenCreate p perm trunc).
Proof.
  intros Hrefl Hr w r w' H. unfold os.OpenCreate, os.sys in H.
  assert (Ec : creates false (path_eqb p) (SysCreate p))
    by (apply creates_at; reflexivity).
  destruct (fs_create p perm trunc (next_ino w) (fs w)) as [e|n'] eqn:F;
    injection H as <- <-.
  - split; [repeat split|]. split; [apply Hrefl|].
    exists [(SysCreate p, fs w)]. split; [reflexivity|].
    constructor; [|constructor]. split; [exact Ec|apply Hrefl].
  - split; [repeat split|]. split; [eapply Hr; exact F|].
    exists [(SysCreate p, n')]. split; [reflexivity|].
    constructor; [|constructor]. split; [exact Ec|eapply Hr; exact F].
Qed.

Lemma OpenCreate_only p perm trunc :
  preserves (only (path_eqb p)) (creates false (path_eqb p))
    (os.OpenCreate p perm trunc).
Proof.
  apply OpenCreate_steps; [apply only_refl|].
  intros ino n n'. apply fs_create_only.
Qed.

Lemma OpenCreate_grows p perm :
  preserves (grows (path_eqb p)) (creates false (path_eqb p))
    (os.OpenCreate p perm false).
Proof.
  apply OpenCreate_steps; [apply grows_refl|].
  intros ino n n'. apply fs_create_grows.
Qed.

Lemma is_prefix_rev_cons q x parent :
  is_prefix q (rev parent) = true -> is_prefix q (rev (x :: parent)) = true.
Proof.
  intros H. simpl. apply is_prefix_iff in H. destruct H as (r & ->).
  rewrite <- app_assoc. apply is_prefix_app.
Qed.

Lemma MkdirAll_rev_grows perm rp :
  preserves (grows (fun q => is_prefix q (rev rp)))
    (creates false (fun q => is_prefix q (rev rp)))
    (os.MkdirAll_rev rp perm).
Proof.
  induction rp as [|x parent IH].
  - simpl. papply preserves_bind.
    + papply preserves_try; papply preserves_reader; apply Stat_reads.
    + intros [dir|e].
      * destruct (IsDir dir); [papply preserves_ret|papply preserves_fail].
      * papply preserves_fail.
  - cbn [os.MkdirAll_rev].
    set (D := fun q => is_prefix q (rev (x :: parent))).
    assert (Hself : forall q, path_eqb (rev (x :: parent)) q = true ->
                              D q = true).
    { intros q Hq. apply path_eqb_eq in Hq. subst q. apply is_prefix_refl. }
    papply preserves_bind.
    + papply preserves_try; papply preserves_reader; apply Stat_reads.
    + intros [dir|e0].
      * destruct (IsDir dir); [papply preserves_ret|papply preserves_fail].
      * papply preserves_bind.
        -- eapply preserves_weaken; [| |exact IH].
           ++ intros a b. apply grows_weaken.
              intros q. apply is_prefix_rev_cons.
           ++ intros c. apply creates_weaken; [|auto].
              intros q. apply is_prefix_rev_cons.
        -- intros _. papply preserves_bind.
           ++ papply preserves_try.
              eapply preserves_weaken; [| |apply Mkdir_grows].
              ** intros a b. apply grows_weaken. exact Hself.
              ** intros c. apply creates_weaken; [exact Hself|auto].
           ++ intros [u|e].
              ** papply preserves_ret.
              ** papply preserves_bind.
                 --- papply preserves_try; papply preserves_reader; apply Lstat_reads.
                 --- intros [dir|e1].
                     +++ destruct (IsDir dir);
                           [papply preserves_ret|papply preserves_fail].
                     +++ papply preserves_fail.
Qed.

Lemma MkdirAll_grows p perm :
  preserves (grows (fun q => is_prefix q p))
    (creates false (fun q => is_prefix q p)) (os.MkdirAll p perm).
Proof.
  unfold os.MkdirAll.
  pose proof (MkdirAll_rev_grows perm (rev p)) as H.
  rewrite rev_involutive in H. exact H.
Qed.

(** ** Copying and linking one entry *)

Lemma copyFile_only src dst :
  preserves (only (path_eqb dst)) (creates false (path_eqb dst))
    (copyFile src dst).
Proof.
  unfold copyFile.
  papply preserves_bind; [papply preserves_reader; apply Open_reads|].
  intros inp. papply preserves_bind; [apply OpenCreate_only|].
  intros _. papply preserves_bind;
    [papply preserves_reader; apply ReadAll_reads|].
  intros data. papply preserves_bind; [apply Write_only|].
  intros _. papply preserves_bind;
    [papply preserves_reader; apply Stat_reads|].
  intros info. apply Chmod_only.
Qed.

Lemma recreateSymlink_grows p dst :
  preserves (grows (path_eqb dst)) (creates false (path_eqb dst))
    (recreateSymlink p dst).
Proof.
  unfold recreateSymlink.
  papply preserves_bind.
  - papply preserves_wrap. papply preserves_reader. apply Readlink_reads.
  - intros target. papply preserves_bind.
    + papply preserves_try. apply Symlink_grows.
    + intros [u|err]; [papply preserves_ret|].
      destruct (os_err.IsExist err);
        [papply preserves_ret|papply preserves_fail].
Qed.

Lemma steps_only_grows (S : path -> bool) E w w' :
  (forall q, S q = true -> stat q (fs w) = None) ->
  steps (only S) E w w' -> steps (grows S) E w w'.
Proof.
  intros Ha. apply steps_weaken; [|auto].
  intros n. apply only_grows. exact Ha.
Qed.

(** A link(2) that fails, and not because the new name exists, had no
    source or had nothing at the new name. *)
Lemma fs_link_fails ms a b n e :
  fs_link ms a b n = inl e -> e <> EEXIST ->
  (exists e', resolve a n = inl e') \/ stat b n = None.
Proof.
  unfold fs_link. intros H Ne.
  destruct (resolve a n) as [e'|src]; [left; exists e'; reflexivity|].
  right.
  destruct (is_root b) eqn:Rb; [congruence|].
  destruct (parent_dir b n) as [e'|[]] eqn:P.
  - unfold parent_dir in P. unfold stat, lookup.
    destruct b as [|x b _] using rev_ind.
    + discriminate Rb.
    + rewrite removelast_last in P.
      destruct (resolve b n) as [e0|c] eqn:R.
      * rewrite (resolve_app_err _ _ _ [x] R). reflexivity.
      * rewrite (resolve_app _ _ _ [x] R).
        destruct c; [reflexivity|reflexivity|discriminate].
  - destruct (lookup b n) eqn:L; [congruence|].
    apply lookup_none_stat. exact L.
Qed.

Lemma sys_fails c r mk w e w' :
  os.sys c r mk w = (Err e, w') ->
  fs w' = fs w /\ exists en, r = inl en /\ e = mk en.
Proof.
  unfold os.sys. destruct r as [en|n]; intros H; [|discriminate].
  injection H as <- <-. split; [reflexivity|]. exists en. auto.
Qed.

Lemma linkOrCopy_grows p dst :
  preserves (grows (path_eqb dst)) (creates true (path_eqb dst))
    (linkOrCopy p dst).
Proof.
  intros w r w' H. unfold linkOrCopy, bind in H.
  destruct (try (os.Link p dst) w) as [[rl|e0] w1] eqn:T;
    [|unfold try in T; destruct (os.Link p dst w); discriminate].
  assert (S1 : steps (grows (path_eqb dst)) (creates true (path_eqb dst))
                 w w1).
  { eapply (preserves_try (grows (path_eqb dst))); [apply Link_grows|exact T]. }
  unfold try in T. destruct (os.Link p dst w) as [rl' w1'] eqn:L.
  injection T as <- <-.
  destruct rl' as [u|err].
  - injection H as <- <-. exact S1.
  - destruct (os_err.IsExist err) eqn:Ex.
    + injection H as <- <-. exact S1.
    + destruct (isHardlinkNotSupported err).
      * apply (steps_trans (grows (path_eqb dst)) _ w w1' w' S1).
        destruct (sys_fails _ _ _ _ _ _ L) as (Efs & en & Fl & ->).
        assert (Ne : en <> EEXIST).
        { intros ->. discriminate Ex. }
        destruct (fs_link_fails _ _ _ _ _ Fl Ne) as [(e' & Rf)|Nd].
        -- unfold copyFile, bind in H. unfold os.Open in H at 1.
           rewrite Efs, Rf in H. injection H as <- <-.
           apply (steps_refl (grows (path_eqb dst))).
        -- apply steps_only_grows.
           ++ intros q Hq. apply path_eqb_eq in Hq. subst q.
              rewrite Efs. exact Nd.
           ++ eapply steps_weaken;
                [intros n Hn; exact Hn| |eapply copyFile_only; exact H].
              intros c. apply creates_weaken; auto.
      * injection H as <- <-. exact S1.
Qed.

Lemma linkOrCopyFile_grows src dst :
  preserves (grows (path_eqb dst)) (creates true (path_eqb dst))
    (linkOrCopyFile src dst).
Proof.
  unfold linkOrCopyFile.
  papply preserves_bind; [papply preserves_reader; apply Lstat_reads|].
  intros srcInfo. destruct (is_symlink srcInfo).
  - eapply preserves_weaken; [| |apply recreateSymlink_grows]; [auto|].
    intros c. apply creates_weaken; auto.
  - apply linkOrCopy_grows.
Qed.

(** ** The walks that write *)

Lemma comparable_prefix_of dst r q :
  is_prefix q (dst ++ r) = true -> comparable dst q = true.
Proof.
  intros H. unfold comparable.
  destruct (is_prefix_comparable dst q (dst ++ r) (is_prefix_app _ _) H)
    as [-> | ->]; [reflexivity|apply orb_true_r].
Qed.

Lemma comparable_eq_under dst r q :
  path_eqb (dst ++ r) q = true -> comparable dst q = true.
Proof.
  intros H. apply path_eqb_eq in H. subst q. unfold comparable.
  rewrite is_prefix_app. reflexivity.
Qed.

Lemma under_eq_under dst r q :
  path_eqb (dst ++ r) q = true -> is_prefix dst q = true.
Proof.
  intros H. apply path_eqb_eq in H. subst q. apply is_prefix_app.
Qed.

Lemma HardlinkTree_grows src dst :
  preserves (grows (comparable dst)) (creates true (comparable dst))
    (HardlinkTree src dst).
Proof.
  unfold HardlinkTree, Walk. papply preserves_WalkDir.
  intros p i [].
  destruct (IsDir i); [|destruct (is_symlink i)].
  - eapply preserves_weaken; [| |apply MkdirAll_grows].
    + intros a b. apply grows_weaken. intros q. apply comparable_prefix_of.
    + intros c. apply creates_weaken; [|auto].
      intros q. apply comparable_prefix_of.
  - eapply preserves_weaken; [| |apply recreateSymlink_grows].
    + intros a b. apply grows_weaken. intros q. apply comparable_eq_under.
    + intros c. apply creates_weaken; [|auto].
      intros q. apply comparable_eq_under.
  - eapply preserves_weaken; [| |apply linkOrCopy_grows].
    + intros a b. apply grows_weaken. intros q. apply comparable_eq_under.
    + intros c. apply creates_weaken; [|auto].
      intros q. apply comparable_eq_under.
Qed.

Lemma copyDir_fills src dst :
  preserves (fills dst) (creates false (comparable dst)) (copyDir src dst).
Proof.
  unfold copyDir, Walk. papply preserves_WalkDir.
  intros p i [].
  destruct (IsDir i); [|destruct (is_symlink i)].
  - eapply preserves_weaken; [| |apply MkdirAll_grows].
    + intros a b. apply grows_fills. intros q. apply comparable_prefix_of.
    + intros c. apply creates_weaken; [|auto].
      intros q. apply comparable_prefix_of.
  - eapply preserves_weaken; [| |apply recreateSymlink_grows].
    + intros a b. apply grows_fills. intros q. apply comparable_eq_under.
    + intros c. apply creates_weaken; [|auto].
      intros q. apply comparable_eq_under.
  - eapply preserves_weaken; [| |apply copyFile_only].
    + intros a b. apply only_fills. intros q. apply under_eq_under.
    + intros c. apply creates_weaken; [|auto].
      intros q. apply comparable_eq_under.
Qed.

(** ** Strings *)

Lemma HasPrefix_app p : forall s t,
  strings.HasPrefix s p = true -> strings.HasPrefix (s ++ t)%string p = true.
Proof.
  induction p as [|c p IH]; intros s t H; [reflexivity|].
  destruct s as [|c' s]; [discriminate|]. simpl in *.
  apply andb_true_iff in H. destruct H as [-> H]. simpl.
  apply IH. exact H.
Qed.

Lemma Contains_app_l s : forall t sub,
  strings.Contains s sub = true -> strings.Contains (s ++ t)%string sub = true.
Proof.
  induction s as [|c s IH]; intros t sub H.
  - simpl in H. rewrite orb_false_r in H.
    destruct sub; [|discriminate].
    destruct t; reflexivity.
  - cbn [strings.Contains] in H.
    change ((String c s ++ t)%string) with (String c (s ++ t)%string).
    cbn [strings.Contains].
    apply orb_true_iff in H. apply orb_true_iff. destruct H as [H|H].
    + left. apply (HasPrefix_app sub (String c s) t H).
    + right. apply IH. exact H.
Qed.

Lemma Contains_app_r s : forall t sub,
  strings.Contains t sub = true -> strings.Contains (s ++ t)%string sub = true.
Proof.
  induction s as [|c s IH]; intros t sub H; [exact H|].
  change ((String c s ++ t)%string) with (String c (s ++ t)%string).
  cbn [strings.Contains]. apply orb_true_iff. right. apply IH. exact H.
Qed.

Lemma append_assoc (a b c : string) :
  ((a ++ b) ++ c = a ++ (b ++ c))%string.
Proof. induction a as [|x a IH]; simpl; [reflexivity|]. rewrite IH. reflexivity. Qed.

Lemma append_nil_r (a : string) : (a ++ "")%string = a.
Proof. induction a as [|x a IH]; simpl; [reflexivity|]. rewrite IH. reflexivity. Qed.

(** A string that ends in a slash does not end in [.o] or [.d] and is
    not [.cargo-lock]. *)
Lemma eqb_slash_2 s a b :
  b <> "/"%char ->
  String.eqb (s ++ "/") (String a (String b "")) = false.
Proof.
  intros Nb. apply String.eqb_neq. intros E.
  destruct s as [|c1 [|c2 [|c3 s]]]; simpl in E; try discriminate.
  injection E as _ E2. congruence.
Qed.

Lemma HasSuffix_slash_2 s a b :
  b <> "/"%char ->
  strings.HasSuffix (s ++ "/") (String a (String b "")) = false.
Proof.
  intros Nb. induction s as [|c s IH].
  - cbn [append strings.HasSuffix].
    change "/" with ("" ++ "/")%string at 1.
    rewrite (eqb_slash_2 "" a b Nb). reflexivity.
  - change ((String c s ++ "/")%string) with (String c (s ++ "/")%string).
    cbn [strings.HasSuffix].
    rewrite IH, orb_false_r.
    exact (eqb_slash_2 (String c s) a b Nb).
Qed.

Lemma last_char_app s c t d :
  (s ++ String c "")%string = (t ++ String d "")%string -> c = d.
Proof.
  revert t. induction s as [|x s IH]; intros t E.
  - destruct t as [|y t]; simpl in E.
    + injection E as ->. reflexivity.
    + injection E as _ E. destruct t; discriminate.
  - destruct t as [|y t]; simpl in E.
    + destruct s; discriminate.
    + injection E as _ E. eapply IH. exact E.
Qed.

Lemma eqb_slash_cargo_lock s :
  String.eqb (s ++ "/") ".cargo-lock" = false.
Proof.
  apply String.eqb_neq. intros E.
  change ".cargo-lock" with (".cargo-loc" ++ "k")%string in E.
  apply last_char_app in E. discriminate.
Qed.

(** A directory that a skip rule matches carries the match to
    everything below it. *)
Lemma shouldSkipCargoPath_below s t :
  shouldSkipCargoPath (s ++ "/") = true ->
  shouldSkipCargoPath (s ++ "/" ++ t) = true.
Proof.
  unfold shouldSkipCargoPath.
  rewrite !HasSuffix_slash_2 by discriminate.
  rewrite eqb_slash_cargo_lock.
  destruct (strings.Contains (s ++ "/") "/incremental/"
            || strings.HasPrefix (s ++ "/") "incremental/") eqn:H;
    [|discriminate].
  intros _.
  assert (H' : strings.Contains (s ++ "/" ++ t) "/incremental/"
               || strings.HasPrefix (s ++ "/" ++ t) "incremental/" = true).
  { rewrite <- append_assoc.
    apply orb_true_iff in H. apply orb_true_iff. destruct H as [H|H].
    - left. apply Contains_app_l. exact H.
    - right. apply HasPrefix_app. exact H. }
  rewrite H'.
  destruct (strings.HasSuffix (s ++ "/" ++ t) ".o"); [reflexivity|].
  destruct (strings.HasSuffix (s ++ "/" ++ t) ".d"); reflexivity.
Qed.

Lemma shouldSkipPath_below s t name :
  shouldSkipPath (s ++ "/") name = true ->
  shouldSkipPath (s ++ "/" ++ t) name = true.
Proof.
  unfold shouldSkipPath. destruct (String.eqb name "cargo"); [|discriminate].
  apply shouldSkipCargoPath_below.
Qed.

Lemma shouldSkipPath_root name : shouldSkipPath "./" name = false.
Proof.
  unfold shouldSkipPath. destruct (String.eqb name "cargo"); reflexivity.
Qed.

Lemma concat_app_cons sep (p : list string) x r :
  p <> [] ->
  String.concat sep (p ++ x :: r)
  = (String.concat sep p ++ sep ++ String.concat sep (x :: r))%string.
Proof.
  induction p as [|a p IH]; intros Hne; [congruence|].
  destruct p as [|b p].
  - reflexivity.
  - change ((a :: b :: p) ++ x :: r) with (a :: ((b :: p) ++ x :: r)).
    change (String.concat sep (a :: (b :: p) ++ x :: r))
      with (a ++ sep ++ String.concat sep ((b :: p) ++ x :: r))%string.
    rewrite IH by discriminate.
    change (String.concat sep (a :: b :: p))
      with (a ++ sep ++ String.concat sep (b :: p))%string.
    rewrite !append_assoc. reflexivity.
Qed.

Lemma rel_str_below (d : path) x r :
  d <> [] ->
  rel_str (d ++ x :: r) = (rel_str d ++ "/" ++ rel_str (x :: r))%string.
Proof.
  intros Hne. unfold rel_str.
  destruct d as [|a d]; [congruence|].
  change ((a :: d) ++ x :: r) with (a :: (d ++ x :: r)).
  exact (concat_app_cons "/" (a :: d) x r Hne).
Qed.

(** Below a directory that is skipped, every path is skipped, as a file
    and as a directory. *)
Lemma skipped_dir_below name (d : path) x r :
  shouldSkipPath (rel_str d ++ "/") name = true ->
  shouldSkipPath (rel_str (d ++ x :: r)) name = true
  /\ shouldSkipPath (rel_str (d ++ x :: r) ++ "/") name = true.
Proof.
  intros H. destruct d as [|a d].
  - simpl in H. rewrite shouldSkipPath_root in H. discriminate.
  - rewrite rel_str_below by discriminate. split.
    + apply shouldSkipPath_below. exact H.
    + rewrite !append_assoc. apply shouldSkipPath_below. exact H.
Qed.

(** ** Walks that only read *)

Lemma walkDir_leaf {A} (fn : path -> info -> A -> M A) p n acc w :
  node_is_dir n = false ->
  walkDir fn p n acc w = fn p (info_of n) acc w.
Proof.
  intros Hd. destruct n as [m i d|t|m es]; [| |discriminate Hd];
    cbn [walkDir info_of];
    match goal with
    | |- context [fn ?p ?i ?a ?w] => destruct (fn p i a w) as [[a'|e] w1]
    end; rewrite ?andb_false_r; reflexivity.
Qed.

Lemma walkDir_reads {A} (fn : path -> info -> A -> M A) :
  (forall p i a w, snd (fn p i a w) = w) ->
  forall n p acc w, snd (walkDir fn p n acc w) = w.
Proof.
  intros Hfn. induction n as [m i d|t|m es IH] using node_ind';
    intros p acc w.
  1,2: rewrite walkDir_leaf by reflexivity; apply Hfn.
  simpl. pose proof (Hfn p (IDir m) acc w) as S.
  destruct (fn p (IDir m) acc w) as [[acc'|e] w1] eqn:Ef; simpl in S; subst w1.
  - clear Ef. revert acc'.
    induction IH as [|[x c] es Hc _ IHes]; intros acc'; [reflexivity|].
    cbn [snd] in Hc.
    pose proof (Hc (p ++ [x]) acc' w) as Sc.
    destruct (walkDir fn (p ++ [x]) c acc' w) as [[acc1|e] w2] eqn:Ew;
      simpl in Sc; subst w2.
    + apply IHes.
    + destruct (is_SkipDir e); reflexivity.
  - destruct (is_SkipDir e && node_is_dir (Directory m es)); reflexivity.
Qed.

Lemma WalkDir_reads {A} (fn : path -> info -> A -> M A) root acc w :
  (forall p i a w, snd (fn p i a w) = w) ->
  snd (WalkDir fn root acc w) = w.
Proof.
  intros Hfn. unfold WalkDir.
  destruct (resolve root (fs w)) as [e|n]; [reflexivity|].
  pose proof (walkDir_reads fn Hfn n root acc w) as S.
  destruct (walkDir fn root n acc w) as [[a|e] w1]; simpl in S; subst w1;
    [reflexivity|destruct (is_SkipDir e); reflexivity].
Qed.

Lemma countFiles_reads src name w : snd (countFiles src name w) = w.
Proof.
  unfold countFiles. apply WalkDir_reads.
  intros p i a w0. destruct (IsDir i); [reflexivity|].
  destruct (negb _); reflexivity.
Qed.

(** ** What the walk of [SeedDirectory] collects *)

Lemma seedCollect_dir src dst name rel m es :
  seedCollect src dst name rel (Directory m es)
  = if shouldSkipPath (rel_str rel ++ "/") name then ([], [])
    else
      let sub :=
        fold_right
          (fun (e : string * node) b =>
             (fst (seedCollect src dst name (rel ++ [fst e]) (snd e)) ++ fst b,
              snd (seedCollect src dst name (rel ++ [fst e]) (snd e)) ++ snd b))
          ([], []) es in
      ((filepath.Join dst rel, m) :: fst sub, snd sub).
Proof.
  cbn [seedCollect].
  destruct (shouldSkipPath (rel_str rel ++ "/") name); [reflexivity|].
  assert (E : forall l,
    (fix entries (es0 : list (string * node)) :
         list (path * N) * list fileEntry :=
       match es0 with
       | [] => ([], [])
       | (x, c) :: r =>
           let a := seedCollect src dst name (rel ++ [x]) c in
           let b := entries r in (fst a ++ fst b, snd a ++ snd b)
       end) l
    = fold_right
        (fun (e : string * node) b =>
           (fst (seedCollect src dst name (rel ++ [fst e]) (snd e)) ++ fst b,
              snd (seedCollect src dst name (rel ++ [fst e]) (snd e)) ++ snd b)) ([], []) l).
  { induction l as [|[x c] l IHl]; [reflexivity|].
    cbn [fold_right]. rewrite <- IHl. reflexivity. }
  rewrite E. reflexivity.
Qed.

Lemma walkDir_seed src dst opts n : forall rel acc w,
  walkDir (seedWalkFn src dst opts) (filepath.Join src rel) n acc w
  = (Ok (fst acc ++ fst (seedCollect src dst (ArtifactName opts) rel n),
         snd acc ++ snd (seedCollect src dst (ArtifactName opts) rel n)), w).
Proof.
  induction n as [m i d|t|m es IH] using node_ind'; intros rel [dirs files] w.
  1,2: rewrite walkDir_leaf by reflexivity;
    cbn [seedCollect]; unfold seedWalkFn;
    rewrite Rel_Join; cbn [info_of IsDir];
    destruct (shouldSkipPath (rel_str rel) (ArtifactName opts));
    cbn [ret fst snd]; rewrite ?app_nil_r; reflexivity.
  rewrite seedCollect_dir. cbn [walkDir].
  unfold seedWalkFn at 1. rewrite Rel_Join. cbn [info_of IsDir].
  destruct (shouldSkipPath (rel_str rel ++ "/") (ArtifactName opts)).
  { cbn. rewrite !app_nil_r. reflexivity. }
  cbn [ret Mode]. cbv zeta.
  set (acc0 := (dirs ++ [(filepath.Join dst rel, m)], files)).
  assert (G : forall acc,
    (fix entries (es0 : list (string * node))
         (acc1 : list (path * N) * list fileEntry) {struct es0} :
         M (list (path * N) * list fileEntry) :=
       match es0 with
       | [] => ret acc1
       | (x, c) :: rest =>
           fun w0 =>
             match
               walkDir (seedWalkFn src dst opts)
                 (filepath.Join src rel ++ [x]) c acc1 w0
             with
             | (Ok acc2, w1) => entries rest acc2 w1
             | (Err e, w1) =>
                 if is_SkipDir e then (Ok acc1, w1) else (Err e, w1)
             end
       end) es acc w
    = (Ok (fst acc ++ fst (fold_right
             (fun (e : string * node) b =>
                (fst (seedCollect src dst (ArtifactName opts)
                           (rel ++ [fst e]) (snd e)) ++ fst b,
              snd (seedCollect src dst (ArtifactName opts)
                           (rel ++ [fst e]) (snd e)) ++ snd b)) ([], []) es),
           snd acc ++ snd (fold_right
             (fun (e : string * node) b =>
                (fst (seedCollect src dst (ArtifactName opts)
                           (rel ++ [fst e]) (snd e)) ++ fst b,
              snd (seedCollect src dst (ArtifactName opts)
                           (rel ++ [fst e]) (snd e)) ++ snd b)) ([], []) es)), w)).
  { induction IH as [|[x c] es Hc _ IHes]; intros acc.
    - cbn. rewrite !app_nil_r. destruct acc; reflexivity.
    - cbn [snd] in Hc. unfold filepath.Join in *.
      cbv beta iota fix. rewrite <- app_assoc.
      rewrite (Hc (rel ++ [x]) acc w).
      rewrite IHes.
      cbn [fold_right fst snd]. rewrite <- !app_assoc. reflexivity. }
  rewrite G. unfold acc0. cbn [fst snd].
  rewrite <- !app_assoc. reflexivity.
Qed.

Lemma In_fold_collect {X} (f : string * node -> list X) es y :
  In y (fold_right (fun e b => f e ++ b) [] es) <->
  exists e, In e es /\ In y (f e).
Proof.
  induction es as [|e es IH]; simpl.
  - split; [intros []|intros (e & [] & _)].
  - rewrite in_app_iff, IH. split.
    + intros [H|(e' & H1 & H2)]; [exists e; auto|exists e'; auto].
    + intros (e' & [<-|H1] & H2); [left; exact H2|right; exists e'; auto].
Qed.

Lemma fst_fold_collect src dst name rel es :
  fst (fold_right
         (fun (e : string * node) b =>
            (fst (seedCollect src dst name (rel ++ [fst e]) (snd e)) ++ fst b,
              snd (seedCollect src dst name (rel ++ [fst e]) (snd e)) ++ snd b)) ([], []) es)
  = fold_right (fun e b =>
      fst (seedCollect src dst name (rel ++ [fst e]) (snd e)) ++ b) [] es.
Proof.
  induction es as [|e es IH]; [reflexivity|].
  cbn [fold_right fst]. rewrite IH. reflexivity.
Qed.

Lemma snd_fold_collect src dst name rel es :
  snd (fold_right
         (fun (e : string * node) b =>
            (fst (seedCollect src dst name (rel ++ [fst e]) (snd e)) ++ fst b,
              snd (seedCollect src dst name (rel ++ [fst e]) (snd e)) ++ snd b)) ([], []) es)
  = fold_right (fun e b =>
      snd (seedCollect src dst name (rel ++ [fst e]) (snd e)) ++ b) [] es.
Proof.
  induction es as [|e es IH]; [reflexivity|].
  cbn [fold_right snd]. rewrite IH. reflexivity.
Qed.

(** Every file collected is at a path that no rule skips. *)
Lemma collect_files_shape src dst name n : forall rel f,
  In f (snd (seedCollect src dst name rel n)) ->
  exists r, srcPath f = src ++ rel ++ r /\ dstPath f = dst ++ rel ++ r
    /\ relPath f = rel ++ r
    /\ shouldSkipPath (rel_str (rel ++ r)) name = false.
Proof.
  induction n as [m i d|t|m es IH] using node_ind'; intros rel f Hin.
  1,2: cbn [seedCollect] in Hin;
    destruct (shouldSkipPath (rel_str rel) name) eqn:Sk;
    [destruct Hin|];
    destruct Hin as [<-|[]]; exists []; rewrite !app_nil_r;
    repeat split; exact Sk.
  rewrite seedCollect_dir in Hin.
  destruct (shouldSkipPath (rel_str rel ++ "/") name); [destruct Hin|].
  cbn [snd] in Hin. rewrite snd_fold_collect in Hin.
  apply In_fold_collect in Hin. destruct Hin as ([x c] & He & Hf).
  rewrite Forall_forall in IH.
  destruct (IH (x, c) He (rel ++ [x]) f Hf) as (r & H1 & H2 & H3 & H4).
  exists (x :: r). rewrite <- !app_assoc in *. auto.
Qed.

(** Every directory collected is at a path that no rule skips. *)
Lemma collect_dirs_shape src dst name n : forall rel d,
  In d (fst (seedCollect src dst name rel n)) ->
  exists r, fst d = dst ++ rel ++ r
    /\ shouldSkipPath (rel_str (rel ++ r) ++ "/") name = false.
Proof.
  induction n as [m i d0|t|m es IH] using node_ind'; intros rel d Hin.
  1,2: cbn [seedCollect] in Hin;
    destruct (shouldSkipPath (rel_str rel) name); destruct Hin.
  rewrite seedCollect_dir in Hin.
  destruct (shouldSkipPath (rel_str rel ++ "/") name) eqn:Sk; [destruct Hin|].
  cbn [fst] in Hin. destruct Hin as [<-|Hin].
  - exists []. rewrite !app_nil_r. split; [reflexivity|exact Sk].
  - rewrite fst_fold_collect in Hin.
    apply In_fold_collect in Hin. destruct Hin as ([x c] & He & Hf).
    rewrite Forall_forall in IH.
    destruct (IH (x, c) He (rel ++ [x]) d Hf) as (r & H1 & H2).
    exists (x :: r). rewrite <- !app_assoc in *. auto.
Qed.

(** ** Well-formed trees *)

Lemma wf_node_dir m es :
  wf_node (Directory m es)
  = names_nodup es && forallb (fun e => wf_node (snd e)) es.
Proof.
  cbn [wf_node]. f_equal.
  induction es as [|[x c] es IH]; [reflexivity|].
  cbn [forallb snd]. rewrite <- IH. reflexivity.
Qed.

Lemma ent_get_In x c es : ent_get x es = Some c -> In (x, c) es.
Proof.
  induction es as [|[y d] es IH]; simpl; [discriminate|].
  destruct (String.eqb x y) eqn:E.
  - apply String.eqb_eq in E. subst y. intros H. injection H as <-. auto.
  - intros H. right. apply IH. exact H.
Qed.

Lemma In_ent_get x c es :
  names_nodup es = true -> In (x, c) es -> ent_get x es = Some c.
Proof.
  induction es as [|[y d] es IH]; intros Hn Hin; [destruct Hin|].
  cbn [names_nodup] in Hn. apply andb_true_iff in Hn. destruct Hn as [Hy Hn].
  destruct Hin as [E|Hin].
  - injection E as -> ->. simpl. rewrite String.eqb_refl. reflexivity.
  - simpl. destruct (String.eqb x y) eqn:E.
    + apply String.eqb_eq in E. subst y. exfalso.
      apply negb_true_iff in Hy.
      assert (Hx : existsb (String.eqb x) (map fst es) = true).
      { apply existsb_exists. exists x. split; [|apply String.eqb_refl].
        apply in_map_iff. exists (x, c). auto. }
      congruence.
    + apply IH; assumption.
Qed.

Lemma wf_node_lookup p : forall n c,
  wf_node n = true -> lookup p n = Some c -> wf_node c = true.
Proof.
  induction p as [|x p IH]; intros n c Hwf H.
  - injection H as <-. exact Hwf.
  - unfold lookup in H. cbn [resolve] in H.
    destruct n as [m i d|t|m es]; try discriminate.
    destruct (ent_get x es) as [c0|] eqn:G; [|discriminate].
    apply (IH c0); [|exact H].
    rewrite wf_node_dir in Hwf. apply andb_true_iff in Hwf.
    destruct Hwf as [_ Hall]. rewrite forallb_forall in Hall.
    apply (Hall (x, c0)). apply ent_get_In. exact G.
Qed.

(** In a well-formed tree the directories collected are found where
    they are created for. *)
Lemma collect_dirs_lookup src dst name n : forall rel d,
  wf_node n = true ->
  In d (fst (seedCollect src dst name rel n)) ->
  exists r m es, fst d = dst ++ rel ++ r
    /\ lookup r n = Some (Directory m es).
Proof.
  induction n as [m i d0|t|m es IH] using node_ind'; intros rel d Hwf Hin.
  1,2: cbn [seedCollect] in Hin;
    destruct (shouldSkipPath (rel_str rel) name); destruct Hin.
  rewrite seedCollect_dir in Hin.
  destruct (shouldSkipPath (rel_str rel ++ "/") name); [destruct Hin|].
  cbn [fst] in Hin. destruct Hin as [<-|Hin].
  - exists [], m, es. rewrite !app_nil_r. split; reflexivity.
  - rewrite fst_fold_collect in Hin.
    apply In_fold_collect in Hin. destruct Hin as ([x c] & He & Hf).
    rewrite wf_node_dir in Hwf. apply andb_true_iff in Hwf.
    destruct Hwf as [Hnd Hall]. rewrite forallb_forall in Hall.
    rewrite Forall_forall in IH.
    destruct (IH (x, c) He (rel ++ [x]) d (Hall _ He) Hf)
      as (r & m' & es' & H1 & H2).
    exists (x :: r), m', es'. rewrite <- !app_assoc in H1.
    split; [exact H1|].
    unfold lookup in *. cbn [resolve].
    rewrite (In_ent_get x c es Hnd He). exact H2.
Qed.

(** Every entry that is not a directory and that no rule skips is
    collected. *)
Lemma collect_complete src dst name n : forall rel r leaf,
  lookup r n = Some leaf -> node_is_dir leaf = false ->
  shouldSkipPath (rel_str (rel ++ r)) name = false ->
  In (mkFileEntry (src ++ rel ++ r) (dst ++ rel ++ r) (rel ++ r)
                  (Mode (info_of leaf)))
     (snd (seedCollect src dst name rel n)).
Proof.
  induction n as [m i d|t|m es IH] using node_ind';
    intros rel r leaf Hl Hd Hs.
  1,2: destruct r as [|x r]; [|discriminate Hl];
    injection Hl as <-; rewrite !app_nil_r in *;
    cbn [seedCollect]; rewrite Hs; left; reflexivity.
  destruct r as [|x r].
  - injection Hl as <-. discriminate Hd.
  - rewrite seedCollect_dir.
    destruct (shouldSkipPath (rel_str rel ++ "/") name) eqn:Sk.
    { destruct (skipped_dir_below name rel x r Sk) as [Hc _]. congruence. }
    cbn [snd]. rewrite snd_fold_collect. apply In_fold_collect.
    unfold lookup in Hl. cbn [resolve] in Hl.
    destruct (ent_get x es) as [c|] eqn:G; [|discriminate].
    exists (x, c). split; [apply ent_get_In; exact G|].
    rewrite Forall_forall in IH.
    pose proof (IH (x, c) (ent_get_In _ _ _ G) (rel ++ [x]) r leaf Hl Hd) as H.
    rewrite <- !app_assoc in H. apply H. exact Hs.
Qed.

(** ** Runs that return without an error *)

Lemma bind_inv {A B} (m : M A) (k : A -> M B) w b w' :
  bind m k w = (Ok b, w') ->
  exists a w1, m w = (Ok a, w1) /\ k a w1 = (Ok b, w').
Proof.
  unfold bind. destruct (m w) as [[a|e] w1]; [|discriminate].
  intros H. exists a, w1. auto.
Qed.

Lemma wrap_inv {A} msg (m : M A) w a w' :
  wrap msg m w = (Ok a, w') -> m w = (Ok a, w').
Proof.
  unfold wrap. destruct (m w) as [[a0|e] w1]; [|discriminate].
  intros H. exact H.
Qed.

Lemma try_inv {A} (m : M A) w r w' :
  try m w = (Ok r, w') -> m w = (r, w').
Proof.
  unfold try. destruct (m w) as [r0 w1]. intros H. injection H as <- <-.
  reflexivity.
Qed.

Lemma forM_cons_inv {A} (f : A -> M unit) x xs w w' :
  forM f (x :: xs) w = (Ok tt, w') ->
  exists w1, f x w = (Ok tt, w1) /\ forM f xs w1 = (Ok tt, w').
Proof.
  cbn [forM]. intros H. apply bind_inv in H.
  destruct H as ([] & w1 & H1 & H2). exists w1. auto.
Qed.

Lemma sys_ok c r mk w w' :
  os.sys c r mk w = (Ok tt, w') ->
  r = inr (fs w') /\ mounts w' = mounts w /\ next_ino w' = next_ino w.
Proof.
  unfold os.sys. destruct r as [e|n]; [discriminate|].
  intros H. injection H as <-. auto.
Qed.

Lemma sys_run c r mk w res w' :
  os.sys c r mk w = (res, w') ->
  same_env w w'
  /\ trace w' = [(c, fs w')] ++ trace w
  /\ match r with
     | inr n => fs w' = n /\ res = Ok tt
     | inl e => fs w' = fs w /\ res = Err (mk e)
     end.
Proof.
  unfold os.sys. destruct r as [e|n]; intros H; injection H as <- <-;
    (split; [repeat split|split; [reflexivity|split; reflexivity]]).
Qed.

Lemma OpenCreate_ok p perm trunc w w' :
  os.OpenCreate p perm trunc w = (Ok tt, w') ->
  fs_create p perm trunc (next_ino w) (fs w) = inr (fs w').
Proof.
  unfold os.OpenCreate, os.sys.
  destruct (fs_create p perm trunc (next_ino w) (fs w)) as [e|n];
    [discriminate|].
  intros H. injection H as <-. reflexivity.
Qed.

Lemma stat_resolve p n i :
  stat p n = Some i -> exists c, resolve p n = inr c /\ info_of c = i.
Proof.
  unfold stat, lookup. destruct (resolve p n) as [e|c]; [discriminate|].
  simpl. intros H. injection H as <-. exists c. auto.
Qed.

Lemma stat_root n : stat [] n = Some (info_of n).
Proof. reflexivity. Qed.

Lemma is_root_stat p n : is_root p = true -> stat p n <> None.
Proof. destruct p; [|discriminate]. intros _. discriminate. Qed.

(** Where nothing is, creating does not fail with [EEXIST]. *)
Lemma fs_symlink_absent t p n e :
  stat p n = None -> fs_symlink t p n = inl e ->
  e <> EEXIST /\ e <> ENOTEMPTY.
Proof.
  intros S. unfold fs_symlink.
  destruct (is_root p) eqn:R; [apply (is_root_stat _ n) in R; congruence|].
  apply lookup_none_stat in S. rewrite S.
  destruct (parent_dir p n) as [e'|[]] eqn:P; [|discriminate].
  intros H. injection H as <-.
  unfold parent_dir in P.
  destruct (resolve (removelast p) n) as [e0|[| |]] eqn:Rs;
    try discriminate; injection P as <-; try (split; discriminate).
  clear S R. revert n Rs. generalize (removelast p) as q.
  induction q as [|x q IH]; intros n Rs; [discriminate|].
  simpl in Rs. destruct n as [| |m es]; try (injection Rs as <-; split; discriminate).
  destruct (ent_get x es); [|injection Rs as <-; split; discriminate].
  eapply IH. exact Rs.
Qed.

Lemma resolve_errno p : forall n e,
  resolve p n = inl e -> e = ENOENT \/ e = ENOTDIR.
Proof.
  induction p as [|x p IH]; intros n e H; [discriminate|].
  simpl in H. destruct n as [| |m es].
  - injection H as <-. auto.
  - injection H as <-. auto.
  - destruct (ent_get x es); [eapply IH; exact H|].
    injection H as <-. auto.
Qed.

Lemma fs_link_absent ms a b n e :
  stat b n = None -> fs_link ms a b n = inl e ->
  e <> EEXIST /\ e <> ENOTEMPTY.
Proof.
  intros S. unfold fs_link.
  destruct (resolve a n) as [e0|src] eqn:Ra.
  { intros H. injection H as <-.
    destruct (resolve_errno _ _ _ Ra) as [-> | ->]; split; discriminate. }
  destruct (is_root b) eqn:R; [apply (is_root_stat _ n) in R; congruence|].
  apply lookup_none_stat in S. rewrite S.
  destruct (parent_dir b n) as [e'|[]] eqn:P.
  - intros H. injection H as <-. unfold parent_dir in P.
    destruct (resolve (removelast b) n) as [e0|[| |]] eqn:Rs;
      try discriminate; injection P as <-; try (split; discriminate).
    destruct (resolve_errno _ _ _ Rs) as [-> | ->]; split; discriminate.
  - destruct (negb (N.eqb (devOf ms a) (devOf ms b)));
      [intros H; injection H as <-; split; discriminate|].
    destruct (node_is_dir src); [|discriminate].
    intros H. injection H as <-. split; discriminate.
Qed.

Lemma Lstat_ok p w i w' :
  os.Lstat p w = (Ok i, w') -> w' = w /\ stat p (fs w) = Some i.
Proof.
  unfold os.Lstat, stat, lookup.
  destruct (resolve p (fs w)) as [e|c]; [discriminate|].
  intros H. injection H as <- <-. auto.
Qed.

Lemma Stat_ok p w i w' :
  os.Stat p w = (Ok i, w') -> w' = w /\ stat p (fs w) = Some i.
Proof.
  unfold os.Stat, stat, lookup.
  destruct (resolve p (fs w)) as [e|[| |]]; try discriminate;
    intros H; injection H as <- <-; auto.
Qed.

Lemma Readlink_ok p w t w' :
  os.Readlink p w = (Ok t, w') ->
  w' = w /\ stat p (fs w) = Some (ISymlink t).
Proof.
  unfold os.Readlink, stat, lookup.
  destruct (resolve p (fs w)) as [e|[| |]]; try discriminate.
  intros H. injection H as <- <-. auto.
Qed.

Lemma Open_ok p w h w' :
  os.Open p w = (Ok h, w') ->
  w' = w
  /\ ((exists m ino data, h = HFile data
         /\ stat p (fs w) = Some (IFile m ino data))
      \/ (h = HDir /\ exists m, stat p (fs w) = Some (IDir m))).
Proof.
  unfold os.Open, stat, lookup.
  destruct (resolve p (fs w)) as [e|[m ino data|t|m es]]; try discriminate.
  - destruct (readable m); [|discriminate].
    intros H. injection H as <- <-. split; [reflexivity|].
    left. exists m, ino, data. auto.
  - intros H. injection H as <- <-. split; [reflexivity|].
    right. split; [reflexivity|]. exists m. reflexivity.
Qed.

Lemma ReadAll_ok p h w data w' :
  os.ReadAll p h w = (Ok data, w') -> w' = w /\ h = HFile data.
Proof.
  destruct h as [d|]; [|discriminate].
  intros H. injection H as <- <-. auto.
Qed.

(** ** What linking or copying one entry leaves *)

Lemma copyFile_post s d w w' :
  copyFile s d w = (Ok tt, w') -> stat d (fs w) = None ->
  exists m ino data ino',
    stat s (fs w) = Some (IFile m ino data)
    /\ stat d (fs w') = Some (IFile m ino' data).
Proof.
  unfold copyFile. intros H Sd.
  apply bind_inv in H. destruct H as (inp & w0 & Ho & H).
  apply Open_ok in Ho. destruct Ho as [-> Ho].
  apply bind_inv in H. destruct H as ([] & w1 & Hc & H).
  apply OpenCreate_ok in Hc.
  pose proof (fs_create_spec _ _ _ _ _ _ Hc) as S1.
  apply bind_inv in H. destruct H as (data & w1' & Hr & H).
  apply ReadAll_ok in Hr. destruct Hr as [-> ->].
  destruct Ho as [(m & ino & data' & E & Ss)|[E _]]; [|discriminate].
  injection E as <-.
  apply bind_inv in H. destruct H as ([] & w2 & Hw & H).
  apply sys_ok in Hw. destruct Hw as [Hw _].
  destruct (fs_write_spec _ _ _ _ Hw) as (m1 & i1 & d1 & Sd1 & S2).
  rewrite (S1 d), path_eqb_refl, Sd in Sd1. injection Sd1 as <- <- <-.
  apply bind_inv in H. destruct H as (info & w2' & Hs & H).
  apply Stat_ok in Hs. destruct Hs as [-> Hs].
  assert (Nds : path_eqb d s = false).
  { apply path_eqb_neq. intros ->. congruence. }
  rewrite (S2 s), Nds, (S1 s), Nds, Ss in Hs. injection Hs as <-.
  apply sys_ok in H. destruct H as [H _].
  pose proof (fs_chmod_file_spec d m (fs w2) (fs w') 438%N (next_ino w) data
                H) as S3.
  rewrite (S2 d), path_eqb_refl in S3. specialize (S3 eq_refl d).
  rewrite path_eqb_refl in S3.
  exists m, ino, data, (next_ino w). split; [exact Ss|exact S3].
Qed.

Lemma recreateSymlink_post s d w w' :
  recreateSymlink s d w = (Ok tt, w') -> stat d (fs w) = None ->
  exists t, stat s (fs w) = Some (ISymlink t)
            /\ stat d (fs w') = Some (ISymlink t).
Proof.
  unfold recreateSymlink. intros H Sd.
  apply bind_inv in H. destruct H as (t & w0 & Hr & H).
  apply wrap_inv in Hr. apply Readlink_ok in Hr. destruct Hr as [-> Ss].
  exists t. split; [exact Ss|].
  apply bind_inv in H. destruct H as (r & w1 & Hl & H).
  apply try_inv in Hl. destruct r as [[]|err].
  - injection H as <-.
    apply sys_ok in Hl. destruct Hl as [Hl _].
    destruct (fs_symlink_spec _ _ _ _ Hl) as [_ S].
    rewrite (S d), path_eqb_refl. reflexivity.
  - exfalso. destruct (sys_fails _ _ _ _ _ _ Hl) as (_ & en & Fl & ->).
    destruct (fs_symlink_absent _ _ _ _ Sd Fl) as [N1 N2].
    unfold os_err.IsExist in H. simpl in H.
    destruct en; try discriminate; congruence.
Qed.

Lemma linkOrCopy_post s d w w' :
  linkOrCopy s d w = (Ok tt, w') -> stat d (fs w) = None ->
  exists i j, stat s (fs w) = Some i /\ stat d (fs w') = Some j
              /\ replica i j.
Proof.
  unfold linkOrCopy. intros H Sd.
  apply bind_inv in H. destruct H as (r & w1 & Hl & H).
  apply try_inv in Hl. destruct r as [[]|err].
  - injection H as <-.
    apply sys_ok in Hl. destruct Hl as [Hl _].
    destruct (fs_link_spec _ _ _ _ _ Hl) as (src & Ls & Hd & _ & _ & S).
    exists (info_of src), (info_of src).
    split; [unfold stat; rewrite Ls; reflexivity|].
    split; [rewrite (S d), path_eqb_refl; reflexivity|].
    destruct src; [split; reflexivity|reflexivity|discriminate Hd].
  - destruct (sys_fails _ _ _ _ _ _ Hl) as (Efs & en & Fl & ->).
    destruct (fs_link_absent _ _ _ _ _ Sd Fl) as [N1 N2].
    assert (Ex : os_err.IsExist (LinkError "link" s d en) = false).
    { unfold os_err.IsExist. simpl. destruct en; congruence. }
    rewrite Ex in H.
    destruct (isHardlinkNotSupported (LinkError "link" s d en));
      [|discriminate].
    rewrite <- Efs in Sd.
    destruct (copyFile_post _ _ _ _ H Sd) as (m & ino & data & ino' & S1 & S2).
    rewrite Efs in S1.
    exists (IFile m ino data), (IFile m ino' data).
    split; [exact S1|]. split; [exact S2|]. split; reflexivity.
Qed.

Lemma linkOrCopyFile_post s d w w' :
  linkOrCopyFile s d w = (Ok tt, w') -> stat d (fs w) = None ->
  exists i j, stat s (fs w) = Some i /\ stat d (fs w') = Some j
              /\ replica i j.
Proof.
  unfold linkOrCopyFile. intros H Sd.
  apply bind_inv in H. destruct H as (i & w0 & Hl & H).
  apply Lstat_ok in Hl. destruct Hl as [-> Ss].
  destruct (is_symlink i).
  - destruct (recreateSymlink_post _ _ _ _ H Sd) as (t & S1 & S2).
    exists (ISymlink t), (ISymlink t). repeat split; assumption.
  - apply linkOrCopy_post; assumption.
Qed.

Lemma MkdirAll_rev_post perm rp w w' :
  os.MkdirAll_rev rp perm w = (Ok tt, w') ->
  (exists m, stat (rev rp) (fs w') = Some (IDir m))
  /\ forall i, stat (rev rp) (fs w) = Some i -> IsDir i = true.
Proof.
  intros H.
  destruct rp as [|x parent]; cbn [os.MkdirAll_rev] in H;
    apply bind_inv in H; destruct H as (r & w0 & Hs & H);
    apply try_inv in Hs.
  - destruct r as [dir|e0]; [|discriminate].
    apply Stat_ok in Hs. destruct Hs as [-> Hs].
    destruct (IsDir dir) eqn:Hd; [|discriminate]. injection H as <-.
    split.
    + destruct dir; try discriminate. eexists. exact Hs.
    + intros i Hi. congruence.
  - destruct r as [dir|e0].
    { apply Stat_ok in Hs. destruct Hs as [-> Hs].
      destruct (IsDir dir) eqn:Hd; [|discriminate]. injection H as <-.
      split.
      - destruct dir; try discriminate. eexists. exact Hs.
      - intros i Hi. congruence. }
    assert (Ew0 : w0 = w).
    { pose proof (Stat_reads (rev (x :: parent)) w) as S.
      rewrite Hs in S. exact S. }
    subst w0.
    apply bind_inv in H. destruct H as ([] & w1 & Hp & H).
    assert (X1 : extends (fs w) (fs w1)).
    { destruct (MkdirAll_rev_grows perm parent w _ _ Hp) as (_ & Gr & _).
      eapply grows_extends. exact Gr. }
    apply bind_inv in H. destruct H as (r2 & w2 & Hm & H).
    apply try_inv in Hm. destruct r2 as [[]|e].
    + injection H as <-.
      apply sys_ok in Hm. destruct Hm as [Hm _].
      destruct (fs_mkdir_spec _ _ _ _ Hm) as [N S].
      split.
      * exists perm. rewrite (S (rev (x :: parent))), path_eqb_refl.
        reflexivity.
      * intros i Hi. apply X1 in Hi. congruence.
    + destruct (sys_fails _ _ _ _ _ _ Hm) as (Efs & _).
      apply bind_inv in H. destruct H as (r1 & w3 & Hl & H).
      apply try_inv in Hl. destruct r1 as [dir|e1]; [|discriminate].
      apply Lstat_ok in Hl. destruct Hl as [-> Hl].
      destruct (IsDir dir) eqn:Hd; [|discriminate]. injection H as <-.
      split.
      * destruct dir; try discriminate. eexists. exact Hl.
      * intros i Hi. apply X1 in Hi. rewrite Efs in Hl. congruence.
Qed.

Lemma MkdirAll_post p perm w w' :
  os.MkdirAll p perm w = (Ok tt, w') ->
  (exists m, stat p (fs w') = Some (IDir m))
  /\ forall i, stat p (fs w) = Some i -> IsDir i = true.
Proof.
  unfold os.MkdirAll. intros H. apply MkdirAll_rev_post in H.
  rewrite rev_involutive in H. exact H.
Qed.

(** ** The two loops of [SeedDirectory] *)

Lemma seed_mkdirs_grows D :
  preserves (grows (dirsOf D)) (creates false (dirsOf D))
    (forM (fun dir : path * N =>
             wrap ("failed to create directory " ++ path_str (fst dir))
                  (os.MkdirAll (fst dir) (snd dir))) D).
Proof.
  papply preserves_forM. intros d Hd. papply preserves_wrap.
  assert (Hw : forall q, is_prefix q (fst d) = true -> dirsOf D q = true).
  { intros q Hq. apply existsb_exists. exists d. auto. }
  eapply preserves_weaken; [| |apply MkdirAll_grows].
  - intros a b. apply grows_weaken. exact Hw.
  - intros c. apply creates_weaken; [exact Hw|auto].
Qed.

Lemma seed_links_grows F :
  preserves (grows (filesOf F)) (creates true (filesOf F))
    (forM (fun f =>
             wrap ("failed to link " ++ rel_str (relPath f))
                  (linkOrCopyFileWithTimeout (srcPath f) (dstPath f))) F).
Proof.
  papply preserves_forM. intros f Hf. papply preserves_wrap.
  assert (Hw : forall q, path_eqb (dstPath f) q = true -> filesOf F q = true).
  { intros q Hq. apply existsb_exists. exists f. auto. }
  unfold linkOrCopyFileWithTimeout.
  eapply preserves_weaken; [| |apply linkOrCopyFile_grows].
  - intros a b. apply grows_weaken. exact Hw.
  - intros c. apply creates_weaken; [exact Hw|auto].
Qed.

(** Once every file of the list is handled, the destination [d] of one
    of them holds a replica of its source [s]. *)
Lemma seed_links_post F : forall w w' s d i,
  forM (fun f =>
          wrap ("failed to link " ++ rel_str (relPath f))
               (linkOrCopyFileWithTimeout (srcPath f) (dstPath f))) F w
  = (Ok tt, w') ->
  (forall f, In f F -> dstPath f = d -> srcPath f = s) ->
  stat s (fs w) = Some i ->
  (stat d (fs w) = None /\ exists f, In f F /\ dstPath f = d)
  \/ (exists j, stat d (fs w) = Some j /\ replica i j) ->
  exists j, stat d (fs w') = Some j /\ replica i j.
Proof.
  induction F as [|f F IH]; intros w w' s d i H Hsrc Ss Inv.
  - injection H as <-.
    destruct Inv as [(_ & f & [] & _)|Inv]. exact Inv.
  - apply forM_cons_inv in H. destruct H as (w1 & H1 & H2).
    apply wrap_inv in H1. unfold linkOrCopyFileWithTimeout in H1.
    destruct (linkOrCopyFile_grows _ _ _ _ _ H1) as (_ & G & _).
    pose proof (grows_extends _ _ _ G) as X.
    apply (IH w1 w' s d i H2).
    + intros f' Hf'. apply Hsrc. right. exact Hf'.
    + apply X. exact Ss.
    + destruct Inv as [(Nd & f0 & Hf0 & Ed)|(j & Sj & Rj)].
      * destruct (path_eqb (dstPath f) d) eqn:E.
        -- apply path_eqb_eq in E. right.
           rewrite <- E in Nd.
           destruct (linkOrCopyFile_post _ _ _ _ H1 Nd)
             as (i' & j & S1 & S2 & Rj).
           rewrite (Hsrc f (or_introl eq_refl) E) in S1.
           assert (i' = i) by congruence. subst i'.
           exists j. rewrite <- E. auto.
        -- left. split.
           ++ destruct (G d) as [Eq|[_ Dq]]; [congruence|congruence].
           ++ exists f0. split; [|exact Ed].
              destruct Hf0 as [<-|Hf0]; [|exact Hf0].
              rewrite Ed, path_eqb_refl in E. discriminate.
      * right. exists j. split; [apply X; exact Sj|exact Rj].
Qed.

Lemma SeedDirectory_inv src dst opts w w' :
  SeedDirectory src dst opts w = (Ok tt, w') ->
  exists n w1,
    resolve src (fs w) = inr n
    /\ forM (fun dir : path * N =>
               wrap ("failed to create directory " ++ path_str (fst dir))
                    (os.MkdirAll (fst dir) (snd dir)))
            (fst (seedCollect src dst (ArtifactName opts) [] n)) w
       = (Ok tt, w1)
    /\ forM (fun f =>
               wrap ("failed to link " ++ rel_str (relPath f))
                    (linkOrCopyFileWithTimeout (srcPath f) (dstPath f)))
            (snd (seedCollect src dst (ArtifactName opts) [] n)) w1
       = (Ok tt, w').
Proof.
  unfold SeedDirectory. intros H.
  apply bind_inv in H. destruct H as ([] & w0 & Hc & H).
  assert (E0 : w0 = w).
  { destruct (Logger opts).
    - apply bind_inv in Hc. destruct Hc as (cnt & w0' & Hc & Hr).
      injection Hr as <-.
      pose proof (countFiles_reads src (ArtifactName opts) w) as S.
      unfold wrap in Hc.
      destruct (countFiles src (ArtifactName opts) w) as [[c|e] wc];
        [|discriminate].
      injection Hc as _ <-. exact S.
    - injection Hc as <-. reflexivity. }
  subst w0.
  apply bind_inv in H. destruct H as ([dirs files] & w0 & Hw & H).
  apply wrap_inv in Hw. unfold WalkDir in Hw.
  destruct (resolve src (fs w)) as [e|n] eqn:R; [discriminate|].
  pose proof (walkDir_seed src dst opts n [] ([], []) w) as Ws.
  unfold filepath.Join in Ws. rewrite app_nil_r in Ws.
  rewrite Ws in Hw. cbn [fst snd app] in Hw. injection Hw as <- <- <-.
  apply bind_inv in H. destruct H as ([] & w1 & Hd & Hf).
  exists n, w1. auto.
Qed.

(** ** [SeedDirectory] mirrors what it does not skip *)

Lemma lookup_leaf r : forall leaf c,
  lookup r leaf = Some c -> node_is_dir leaf = false -> r = [] /\ c = leaf.
Proof.
  intros leaf c H L. destruct r as [|x r].
  - unfold lookup in H. simpl in H. injection H as <-. auto.
  - unfold lookup in H. destruct leaf; simpl in H; discriminate.
Qed.

Lemma stat_lookup p n i :
  stat p n = Some i -> exists c, lookup p n = Some c /\ info_of c = i.
Proof.
  unfold stat. destruct (lookup p n) as [c|]; [|discriminate].
  intros H. injection H as <-. exists c. auto.
Qed.

Lemma resolve_lookup p n c : resolve p n = inr c -> lookup p n = Some c.
Proof. unfold lookup. intros ->. reflexivity. Qed.

Lemma is_prefix_app_inv p a b :
  is_prefix (p ++ a) (p ++ b) = true -> exists t, b = a ++ t.
Proof.
  intros H. apply is_prefix_iff in H. destruct H as (t & E).
  rewrite <- app_assoc in E. apply app_inv_head in E. exists t. exact E.
Qed.

(** A leaf of the source that is not skipped is replicated. *)
Lemma SeedDirectory_leaf src dst opts w w' r i :
  wf_node (fs w) = true ->
  stat dst (fs w) = None ->
  SeedDirectory src dst opts w = (Ok tt, w') ->
  stat (src ++ r) (fs w) = Some i -> IsDir i = false ->
  shouldSkipPath (rel_str r) (ArtifactName opts) = false ->
  exists j, stat (dst ++ r) (fs w') = Some j /\ replica i j.
Proof.
  intros Hwf Hd H Hs Hi Hk.
  destruct (SeedDirectory_inv _ _ _ _ _ H) as (n & w1 & R & HD & HF).
  apply resolve_lookup in R.
  destruct (stat_lookup _ _ _ Hs) as (leaf & Ll & Il).
  rewrite (lookup_app _ _ _ r R) in Ll.
  assert (Ld : node_is_dir leaf = false).
  { unfold node_is_dir. rewrite Il. exact Hi. }
  pose proof (collect_complete src dst (ArtifactName opts) n [] r leaf
                Ll Ld Hk) as Hin.
  cbn [app] in Hin.
  destruct (seed_mkdirs_grows _ _ _ _ HD) as (_ & G & _).
  pose proof (grows_extends _ _ _ G) as X.
  assert (N1 : stat (dst ++ r) (fs w1) = None).
  { destruct (G (dst ++ r)) as [E|[_ Dq]].
    - rewrite E. apply stat_app_none. exact Hd.
    - exfalso. unfold dirsOf in Dq. apply existsb_exists in Dq.
      destruct Dq as (d0 & Hin0 & P).
      destruct (collect_dirs_lookup src dst (ArtifactName opts) n [] d0
                  (wf_node_lookup _ _ _ Hwf R) Hin0)
        as (r' & m & es & E & L').
      cbn [app] in E. rewrite E in P.
      apply is_prefix_app_inv in P. destruct P as (t & ->).
      rewrite (lookup_app _ _ _ t Ll) in L'.
      destruct (lookup_leaf _ _ _ L' Ld) as [_ E'].
      rewrite <- E' in Ld. discriminate. }
  apply (seed_links_post _ w1 w' (src ++ r) (dst ++ r) i HF).
  - intros f Hf Ef.
    destruct (collect_files_shape _ _ _ _ _ _ Hf) as (r0 & Sf & Df & _).
    cbn [app] in Sf, Df. rewrite Df in Ef. apply app_inv_head in Ef.
    subst r0. exact Sf.
  - apply X. exact Hs.
  - left. split; [exact N1|].
    eexists. split; [exact Hin|reflexivity].
Qed.

(** Nothing is created beneath a skipped directory. *)
Lemma SeedDirectory_skips src dst opts w w' d x r :
  stat dst (fs w) = None ->
  SeedDirectory src dst opts w = (Ok tt, w') ->
  shouldSkipPath (rel_str d ++ "/") (ArtifactName opts) = true ->
  stat (dst ++ d ++ x :: r) (fs w') = None.
Proof.
  intros Hd H Hk.
  destruct (SeedDirectory_inv _ _ _ _ _ H) as (n & w1 & R & HD & HF).
  destruct (seed_mkdirs_grows _ _ _ _ HD) as (_ & G & _).
  destruct (seed_links_grows _ _ _ _ HF) as (_ & G' & _).
  assert (N1 : stat (dst ++ d ++ x :: r) (fs w1) = None).
  { destruct (G (dst ++ d ++ x :: r)) as [E|[_ Dq]].
    - rewrite E. apply stat_app_none. exact Hd.
    - exfalso. unfold dirsOf in Dq. apply existsb_exists in Dq.
      destruct Dq as (d0 & Hin0 & P).
      destruct (collect_dirs_shape _ _ _ _ _ _ Hin0) as (r' & E & K).
      cbn [app] in E, K. rewrite E in P.
      apply is_prefix_app_inv in P. destruct P as (t & ->).
      rewrite <- app_assoc in K. cbn [app] in K.
      destruct (skipped_dir_below (ArtifactName opts) d x (r ++ t) Hk)
        as [_ K'].
      congruence. }
  destruct (G' (dst ++ d ++ x :: r)) as [E|[_ Fq]].
  - rewrite E. exact N1.
  - exfalso. unfold filesOf in Fq. apply existsb_exists in Fq.
    destruct Fq as (f & Hf & P). apply path_eqb_eq in P.
    destruct (collect_files_shape _ _ _ _ _ _ Hf) as (r0 & _ & Df & _ & K).
    cbn [app] in Df, K. rewrite Df in P. apply app_inv_head in P.
    subst r0.
    destruct (skipped_dir_below (ArtifactName opts) d x r Hk) as [K' _].
    congruence.
Qed.

(** C2, as the code has it.  When [SeedDirectory] returns without an
    error and the destination did not exist before the call, every
    regular file of the source whose relative path matches no skip rule
    is a file of the same mode and content at the mirrored path of the
    destination, every symbolic link whose relative path matches no skip
    rule is a link to the same target there, and nothing lies beneath a
    skipped directory of the destination.  The disk is a tree in which
    no directory lists a name twice. *)
Theorem SeedDirectory_mirrors src dst opts w w' :
  wf_node (fs w) = true ->
  stat dst (fs w) = None ->
  SeedDirectory src dst opts w = (Ok tt, w') ->
  seedMirrored src dst (ArtifactName opts) (fs w) (fs w').
Proof.
  intros Hwf Hd H. repeat split.
  - intros r m i d Hs Hk.
    destruct (SeedDirectory_leaf _ _ _ _ _ r _ Hwf Hd H Hs eq_refl Hk)
      as (j & Sj & Rj).
    destruct j as [m' i' d'| |]; cbn [replica] in Rj; try contradiction.
    destruct Rj as [<- <-]. exists i'. exact Sj.
  - intros r t Hs Hk.
    destruct (SeedDirectory_leaf _ _ _ _ _ r _ Hwf Hd H Hs eq_refl Hk)
      as (j & Sj & Rj).
    destruct j; cbn [replica] in Rj; try contradiction.
    rewrite Rj. exact Sj.
  - intros d x r Hk. eapply SeedDirectory_skips; eauto.
Qed.

Lemma SeedDirectory_mirrors_witness :
  let w := SeedInputs.fresh in
  let w' := snd (SeedDirectory ["src"] ["dst"] SeedInputs.opts w) in
  seedMirrored ["src"] ["dst"] "cargo" (fs w) (fs w')
  /\ stat ["dst"; "good.rlib"] (fs w') = Some (IFile 420 2 (bytes "R"))
  /\ stat ["dst"; "link"] (fs w') = Some (ISymlink "real").
Proof.
  intros w w'. split; [|split; vm_compute; reflexivity].
  apply (SeedDirectory_mirrors ["src"] ["dst"] SeedInputs.opts w w').
  - vm_compute. reflexivity.
  - vm_compute. reflexivity.
  - vm_compute. reflexivity.
Defined.

(** The statement of the specification fails on two runs that return
    without an error: the link [x.d] matches the rule for dependency
    files and is not recreated; a link that the destination holds
    already keeps its own target. *)
Lemma SeedDirectory_spec_counterexample :
  (let w := SeedInputs.fresh in
   let run := SeedDirectory ["src"] ["dst"] SeedInputs.opts w in
   fst run = Ok tt
   /\ ~ seedTreeSpec ["src"] ["dst"] "cargo" (fs w) (fs (snd run)))
  /\ (let w := SeedInputs.occupied in
      let run := SeedDirectory ["src"] ["dst"] SeedInputs.opts w in
      fst run = Ok tt
      /\ ~ seedTreeSpec ["src"] ["dst"] "cargo" (fs w) (fs (snd run))).
Proof.
  split; cbv zeta; (split; [vm_compute; reflexivity|]).
  - intros (_ & S & _). specialize (S ["x.d"] "y" eq_refl).
    assert (N : stat (["dst"] ++ ["x.d"])
                  (fs (snd (SeedDirectory ["src"] ["dst"] SeedInputs.opts
                              SeedInputs.fresh))) = None)
      by (vm_compute; reflexivity).
    rewrite N in S. discriminate.
  - intros (_ & S & _). specialize (S ["link"] "real" eq_refl).
    assert (N : stat (["dst"] ++ ["link"])
                  (fs (snd (SeedDirectory ["src"] ["dst"] SeedInputs.opts
                              SeedInputs.occupied)))
                = Some (ISymlink "elsewhere"))
      by (vm_compute; reflexivity).
    rewrite N in S. discriminate.
Qed.

(** ** A lock that is held elsewhere *)

Lemma path_add_nonempty p s : path_add p s <> [].
Proof.
  unfold path_add. destruct (rev p) as [|x r]; [discriminate|].
  intros E. apply app_eq_nil in E. destruct E as [_ E]. discriminate.
Qed.

Lemma MkdirAll_existing p perm w m :
  stat p (fs w) = Some (IDir m) -> os.MkdirAll p perm w = (Ok tt, w).
Proof.
  intros S. destruct (stat_resolve _ _ _ S) as (c & R & I).
  unfold os.MkdirAll. rewrite <- (rev_involutive p) in R.
  destruct (rev p) as [|x rp]; cbn [os.MkdirAll_rev];
    unfold bind, try, os.Stat; rewrite R;
    destruct c; try discriminate; reflexivity.
Qed.

Lemma fileExists_stat p w :
  fileExists p w = true -> exists m i d, lookup p (fs w) = Some (File m i d).
Proof.
  unfold fileExists. destruct (lookup p (fs w)) as [[m i d| |]|];
    try discriminate.
  intros _. exists m, i, d. reflexivity.
Qed.

Lemma parent_of_entry p n c :
  p <> [] -> lookup p n = Some c ->
  exists m, stat (filepath.Dir p) n = Some (IDir m).
Proof.
  intros Hne L. unfold filepath.Dir.
  apply (stat_prefix_dir (removelast p) n [last p ""] (info_of c)).
  - rewrite <- (app_removelast_last "" Hne). unfold stat. rewrite L.
    reflexivity.
  - discriminate.
Qed.

Lemma acquireCacheLock_held cm cachePath w :
  lockHeld cachePath w ->
  exists w1, acquireCacheLock cm cachePath w = (Ok None, w1)
             /\ fs w1 = fs w /\ flocked w1 = flocked w.
Proof.
  intros [Hl Hf]. unfold acquireCacheLock.
  set (lockPath := path_add cachePath ".lock") in *.
  destruct (fileExists_stat _ _ Hf) as (m & i & d & L).
  assert (Hne : lockPath <> []) by apply path_add_nonempty.
  destruct (parent_of_entry _ _ _ Hne L) as (pm & Sp).
  rewrite (bind_ok _ (MkdirAll_existing _ 493 _ _ Sp)).
  assert (R : resolve lockPath (fs w) = inr (File m i d)).
  { unfold lookup in L. destruct (resolve lockPath (fs w)); congruence. }
  assert (C : fs_create lockPath 420 false (next_ino w) (fs w) = inr (fs w)).
  { unfold fs_create.
    destruct (is_root lockPath) eqn:Hr;
      [destruct lockPath; [congruence|discriminate]|].
    rewrite (resolve_parent_dir _ _ _ Hne R), L. reflexivity. }
  unfold bind at 1. unfold os.OpenCreate, os.sys. rewrite C, L.
  unfold bind, try, os.Flock. cbn [flocked]. rewrite Hl.
  eexists. split; [reflexivity|]. split; reflexivity.
Qed.

Lemma moveToCache_held cm localPath cachePath hb w :
  lockHeld cachePath w ->
  exists w', moveToCache cm localPath cachePath hb w = (Ok tt, w')
             /\ fs w' = fs w /\ flocked w' = flocked w.
Proof.
  intros H. destruct (acquireCacheLock_held cm _ _ H) as (w1 & A & E).
  exists w1. split; [|exact E].
  unfold moveToCache. rewrite (bind_ok _ A). reflexivity.
Qed.

Lemma lockHeld_same cachePath w w' :
  fs w' = fs w -> flocked w' = flocked w ->
  lockHeld cachePath w -> lockHeld cachePath w'.
Proof.
  unfold lockHeld, fileExists. intros -> ->. auto.
Qed.

Lemma sync_paths_held cm name envPath cachePath hb ps : forall w,
  lockHeld cachePath w ->
  exists w',
    forM (fun p =>
            b <- gets (dirExists (filepath.Join envPath p)) ;;
            if negb b then ret tt
            else wrap ("failed to sync " ++ name)
                      (moveToCache cm (filepath.Join envPath p) cachePath hb))
         ps w = (Ok tt, w')
    /\ fs w' = fs w /\ flocked w' = flocked w.
Proof.
  induction ps as [|p ps IH]; intros w H.
  - exists w. repeat split.
  - cbn [forM].
    assert (S : exists w1,
      (b <- gets (dirExists (filepath.Join envPath p)) ;;
       if negb b then ret tt
       else wrap ("failed to sync " ++ name)
                 (moveToCache cm (filepath.Join envPath p) cachePath hb)) w
      = (Ok tt, w1) /\ fs w1 = fs w /\ flocked w1 = flocked w).
    { unfold bind at 1, gets.
      destruct (negb (dirExists (filepath.Join envPath p) w)).
      - exists w. repeat split.
      - destruct (moveToCache_held cm (filepath.Join envPath p) _ hb _ H)
          as (w1 & Mv & E).
        exists w1. split; [|exact E]. apply wrap_ok. exact Mv. }
    destruct S as (w1 & S1 & Efs & Efl).
    rewrite (bind_ok _ S1).
    destruct (IH w1 (lockHeld_same _ _ _ Efs Efl H)) as (w' & F & Efs' & Efl').
    exists w'. split; [exact F|]. split; congruence.
Qed.

Lemma syncArtifact_held cm artifact rootPath envPath opts key w :
  isBuildInProgress cm envPath artifact w = false ->
  key_of (ComputeCacheKey cm artifact envPath w) = Some key ->
  lockHeld (GetArtifactCachePath cm rootPath (Name artifact) key) w ->
  exists w', syncArtifact cm artifact rootPath envPath opts w = (Ok tt, w')
             /\ fs w' = fs w.
Proof.
  intros Hb Hk Hl. unfold syncArtifact.
  unfold bind at 1, gets. rewrite Hb.
  assert (K : ComputeCacheKey cm artifact envPath w = (Ok key, w)).
  { pose proof (ComputeCacheKey_world cm artifact envPath w) as Ww.
    unfold key_of in Hk.
    destruct (ComputeCacheKey cm artifact envPath w) as [[k|e] w0];
      cbn [fst snd] in *; [|discriminate].
    congruence. }
  rewrite (bind_ok _ (wrap_ok _ K)).
  unfold bind at 1, gets.
  destruct (dirExists _ w).
  - exists w. split; reflexivity.
  - destruct (sync_paths_held cm (Name artifact) envPath _
                (HardlinkBack opts) (Paths artifact) w Hl)
      as (w' & F & Efs & _).
    exists w'. split; [exact F|exact Efs].
Qed.

(** C9.  When the advisory lock of a cache entry is held elsewhere,
    [acquireCacheLock] returns the nil handle and no error,
    [moveToCache] returns no error and leaves the disk as it was, and so
    does [syncArtifact] for an artifact whose key leads to that entry:
    the caller of sync never sees that the lock was unavailable. *)
Theorem lock_unavailable_is_silent cm cachePath w :
  lockHeld cachePath w ->
  (exists w1, acquireCacheLock cm cachePath w = (Ok None, w1)
              /\ fs w1 = fs w)
  /\ (forall localPath hb, exists w',
        moveToCache cm localPath cachePath hb w = (Ok tt, w')
        /\ fs w' = fs w)
  /\ (forall artifact rootPath envPath opts key,
        isBuildInProgress cm envPath artifact w = false ->
        key_of (ComputeCacheKey cm artifact envPath w) = Some key ->
        cachePath = GetArtifactCachePath cm rootPath (Name artifact) key ->
        exists w',
          syncArtifact cm artifact rootPath envPath opts w = (Ok tt, w')
          /\ fs w' = fs w).
Proof.
  intros H. split; [|split].
  - destruct (acquireCacheLock_held cm _ _ H) as (w1 & A & E & _).
    exists w1. auto.
  - intros localPath hb.
    destruct (moveToCache_held cm localPath _ hb _ H) as (w' & Mv & E & _).
    exists w'. auto.
  - intros artifact rootPath envPath opts key Hb Hk ->.
    apply (syncArtifact_held _ _ _ _ _ key); assumption.
Qed.

Lemma lock_unavailable_is_silent_witness :
  lockHeld LockInputs.cachePath LockInputs.locked
  /\ exists w',
       moveToCache Inputs.cm ["w"; "node_modules"] LockInputs.cachePath false
                   LockInputs.locked = (Ok tt, w')
       /\ fs w' = fs LockInputs.locked.
Proof.
  assert (H : lockHeld LockInputs.cachePath LockInputs.locked)
    by (split; vm_compute; reflexivity).
  split; [exact H|].
  exact (proj1 (proj2 (lock_unavailable_is_silent Inputs.cm
                         LockInputs.cachePath LockInputs.locked H))
               ["w"; "node_modules"] false).
Defined.

(** ** Directories only *)

Lemma no_new_leaves_refl n : no_new_leaves n n.
Proof. intros q i H _. exact H. Qed.

Lemma no_new_leaves_trans a b c :
  no_new_leaves a b -> no_new_leaves b c -> no_new_leaves a c.
Proof. intros H1 H2 q i H L. apply H1; [apply H2|]; assumption. Qed.

#[export] Instance no_new_leaves_PreOrder : PreOrder no_new_leaves.
Proof.
  split; [exact no_new_leaves_refl|exact no_new_leaves_trans].
Qed.

Lemma Mkdir_no_new_leaves p perm :
  preserves no_new_leaves any_syscall (os.Mkdir p perm).
Proof.
  apply (preserves_sys no_new_leaves any_syscall (SysMkdir p)
           (fun w => fs_mkdir p perm (fs w))).
  - exact I.
  - intros w n' H q i Hq L. destruct (fs_mkdir_spec _ _ _ _ H) as [_ S].
    rewrite (S q) in Hq. destruct (path_eqb p q); [|exact Hq].
    injection Hq as <-. discriminate.
Qed.

Lemma MkdirAll_rev_no_new_leaves perm rp :
  preserves no_new_leaves any_syscall (os.MkdirAll_rev rp perm).
Proof.
  induction rp as [|x parent IH]; cbn [os.MkdirAll_rev].
  - papply preserves_bind.
    + papply preserves_try; papply preserves_reader; apply Stat_reads.
    + intros [dir|e]; [|papply preserves_fail].
      destruct (IsDir dir); [papply preserves_ret|papply preserves_fail].
  - papply preserves_bind.
    + papply preserves_try; papply preserves_reader; apply Stat_reads.
    + intros [dir|e0].
      { destruct (IsDir dir); [papply preserves_ret|papply preserves_fail]. }
      papply preserves_bind; [exact IH|].
      intros _. papply preserves_bind.
      * papply preserves_try. apply Mkdir_no_new_leaves.
      * intros [u|e]; [papply preserves_ret|].
        papply preserves_bind.
        -- papply preserves_try; papply preserves_reader; apply Lstat_reads.
        -- intros [dir|e1]; [|papply preserves_fail].
           destruct (IsDir dir); [papply preserves_ret|papply preserves_fail].
Qed.

Lemma MkdirAll_no_new_leaves p perm :
  preserves no_new_leaves any_syscall (os.MkdirAll p perm).
Proof. unfold os.MkdirAll. apply MkdirAll_rev_no_new_leaves. Qed.

Lemma seed_mkdirs_no_new_leaves D :
  preserves no_new_leaves any_syscall
    (forM (fun dir : path * N =>
             wrap ("failed to create directory " ++ path_str (fst dir))
                  (os.MkdirAll (fst dir) (snd dir))) D).
Proof.
  papply preserves_forM. intros d _. papply preserves_wrap.
  apply MkdirAll_no_new_leaves.
Qed.

(** ** What a run of [SeedDirectory] may change *)

Lemma dirsOf_comparable src dst name n q :
  dirsOf (fst (seedCollect src dst name [] n)) q = true ->
  comparable dst q = true.
Proof.
  unfold dirsOf. intros H. apply existsb_exists in H.
  destruct H as (d & Hin & P).
  destruct (collect_dirs_shape _ _ _ _ _ _ Hin) as (r & E & _).
  cbn [app] in E. rewrite E in P. eapply comparable_prefix_of. exact P.
Qed.

Lemma filesOf_under src dst name n q :
  filesOf (snd (seedCollect src dst name [] n)) q = true ->
  exists r, q = dst ++ r /\ shouldSkipPath (rel_str r) name = false.
Proof.
  unfold filesOf. intros H. apply existsb_exists in H.
  destruct H as (f & Hin & P). apply path_eqb_eq in P.
  destruct (collect_files_shape _ _ _ _ _ _ Hin) as (r & _ & E & _ & K).
  cbn [app] in E, K. exists r. split; [congruence|exact K].
Qed.

Lemma filesOf_comparable src dst name n q :
  filesOf (snd (seedCollect src dst name [] n)) q = true ->
  comparable dst q = true.
Proof.
  intros H. destruct (filesOf_under _ _ _ _ _ H) as (r & -> & _).
  unfold comparable. rewrite is_prefix_app. reflexivity.
Qed.

Lemma SeedDirectory_grows src dst opts :
  preserves (grows (comparable dst)) (creates true (comparable dst))
    (SeedDirectory src dst opts).
Proof.
  intros w r w' H. unfold SeedDirectory in H.
  set (R := grows (comparable dst)) in *.
  set (E := creates true (comparable dst)) in *.
  unfold bind at 1 in H.
  assert (C : exists rc,
    match Logger opts with
    | Some _ =>
        wrap "failed to count files" (countFiles src (ArtifactName opts)) ;;
        ret tt
    | None => ret tt
    end w = (rc, w)).
  { destruct (Logger opts); [|eexists; reflexivity].
    unfold bind, wrap.
    pose proof (countFiles_reads src (ArtifactName opts) w) as S.
    destruct (countFiles src (ArtifactName opts) w) as [[c|e] wc];
      cbn [snd] in S; subst wc; eexists; reflexivity. }
  destruct C as (rc & C). rewrite C in H.
  destruct rc as [[]|e]; [|injection H as <- <-; apply (steps_refl R E)].
  unfold bind at 1, wrap, WalkDir in H.
  destruct (resolve src (fs w)) as [e|n] eqn:Rs;
    [injection H as <- <-; apply (steps_refl R E)|].
  pose proof (walkDir_seed src dst opts n [] ([], []) w) as Ws.
  unfold filepath.Join in Ws. rewrite app_nil_r in Ws.
  rewrite Ws in H. cbn [fst snd app] in H.
  unfold bind at 1 in H.
  match type of H with
  | context [forM ?f ?D w] => destruct (forM f D w) as [rd w1] eqn:HD
  end.
  assert (S1 : steps R E w w1).
  { eapply steps_weaken; [| |exact (seed_mkdirs_grows _ _ _ _ HD)].
    - intros n0. apply grows_weaken. intros q. apply dirsOf_comparable.
    - intros c. apply creates_weaken; [|auto].
      intros q. apply dirsOf_comparable. }
  destruct rd as [[]|e]; [|injection H as <- <-; exact S1].
  apply (steps_trans R E w w1 w' S1).
  eapply steps_weaken; [| |exact (seed_links_grows _ _ _ _ H)].
  - intros n0. apply grows_weaken. intros q. apply filesOf_comparable.
  - intros c. apply creates_weaken; [|auto].
    intros q. apply filesOf_comparable.
Qed.

(** An entry of the destination that is not a directory after a run,
    whatever the run returns, was there before, or is one of the files
    the run links or copies. *)
Lemma SeedDirectory_leaves src dst opts w r w' q i :
  SeedDirectory src dst opts w = (r, w') ->
  stat q (fs w') = Some i -> IsDir i = false ->
  stat q (fs w) = Some i
  \/ exists r0, q = dst ++ r0
                /\ shouldSkipPath (rel_str r0) (ArtifactName opts) = false.
Proof.
  intros H Hq L. unfold SeedDirectory in H.
  unfold bind at 1 in H.
  assert (C : exists rc,
    match Logger opts with
    | Some _ =>
        wrap "failed to count files" (countFiles src (ArtifactName opts)) ;;
        ret tt
    | None => ret tt
    end w = (rc, w)).
  { destruct (Logger opts); [|eexists; reflexivity].
    unfold bind, wrap.
    pose proof (countFiles_reads src (ArtifactName opts) w) as S.
    destruct (countFiles src (ArtifactName opts) w) as [[c|e] wc];
      cbn [snd] in S; subst wc; eexists; reflexivity. }
  destruct C as (rc & C). rewrite C in H.
  destruct rc as [[]|e]; [|injection H as _ <-; left; exact Hq].
  unfold bind at 1, wrap, WalkDir in H.
  destruct (resolve src (fs w)) as [e|n] eqn:Rs;
    [injection H as _ <-; left; exact Hq|].
  pose proof (walkDir_seed src dst opts n [] ([], []) w) as Ws.
  unfold filepath.Join in Ws. rewrite app_nil_r in Ws.
  rewrite Ws in H. cbn [fst snd app] in H.
  unfold bind at 1 in H.
  match type of H with
  | context [forM ?f ?D w] => destruct (forM f D w) as [rd w1] eqn:HD
  end.
  destruct (seed_mkdirs_no_new_leaves _ _ _ _ HD) as (_ & N1 & _).
  destruct rd as [[]|e];
    [|injection H as _ <-; left; apply N1; assumption].
  destruct (seed_links_grows _ _ _ _ H) as (_ & G & _).
  destruct (G q) as [E|[_ Fq]].
  - left. apply N1; [congruence|exact L].
  - right. eapply filesOf_under. exact Fq.
Qed.

Lemma is_prefix_longer c x r : is_prefix (c ++ x :: r) c = false.
Proof.
  destruct (is_prefix (c ++ x :: r) c) eqn:P; [|reflexivity].
  apply is_prefix_iff in P. destruct P as (t & E).
  apply (f_equal (@List.length string)) in E.
  rewrite !length_app in E. cbn [List.length] in E. lia.
Qed.

Lemma dirExists_stat p w m :
  stat p (fs w) = Some (IDir m) -> dirExists p w = true.
Proof.
  unfold stat, dirExists. destruct (lookup p (fs w)) as [[| |]|];
    cbn; congruence.
Qed.

Lemma Base_nonempty p : p <> [] -> exists x, filepath.Base p = [x].
Proof.
  intros Hne. unfold filepath.Base. destruct (rev p) as [|x r] eqn:E.
  - apply (f_equal (@rev string)) in E. rewrite rev_involutive in E.
    contradiction.
  - exists x. reflexivity.
Qed.

(** ** Seeding a cache entry from the root *)

Lemma entryClean_absent c name n : stat c n = None -> entryClean c name n.
Proof.
  intros H b r i S. rewrite (stat_app_none c n (b :: r) H) in S.
  discriminate.
Qed.

Lemma entryClean_no_new_leaves c name n n' :
  no_new_leaves n n' -> entryClean c name n -> entryClean c name n'.
Proof. intros N C b r i S L. apply (C b r i); [apply N|]; assumption. Qed.

Lemma seedToCache_clean cm src c name logger w r w' :
  src <> [] ->
  seedToCache cm src c name logger w = (r, w') ->
  entryClean c name (fs w) -> entryClean c name (fs w').
Proof.
  intros Hne H Hc. unfold seedToCache in H.
  unfold bind at 1 in H.
  destruct (os.MkdirAll c 493 w) as [rm w1] eqn:Hm.
  destruct (MkdirAll_no_new_leaves _ _ _ _ _ Hm) as (_ & N1 & _).
  pose proof (entryClean_no_new_leaves _ _ _ _ N1 Hc) as C1.
  destruct rm as [[]|e]; [|injection H as _ <-; exact C1].
  unfold bind at 1, gets in H.
  destruct (dirExists (filepath.Join c (filepath.Base src)) w1);
    [injection H as _ <-; exact C1|].
  unfold bind at 1 in H.
  destruct (SeedDirectory src (filepath.Join c (filepath.Base src))
              (mkSeedOptions name logger 0 "") w1) as [rs w2] eqn:Hs.
  rewrite (try_eq Hs) in H.
  assert (C2 : entryClean c name (fs w2)).
  { intros b r0 i S L.
    destruct (SeedDirectory_leaves _ _ _ _ _ _ _ _ Hs S L)
      as [S1|(r1 & E & K)].
    - apply (C1 b r0 i S1 L).
    - destruct (Base_nonempty src Hne) as (x & Bx). rewrite Bx in E.
      unfold filepath.Join in E. rewrite <- app_assoc in E.
      apply app_inv_head in E. cbn [app] in E. injection E as _ ->.
      exact K. }
  destruct rs as [[]|err]; [injection H as _ <-; exact C2|].
  unfold bind at 1 in H.
  destruct (os.RemoveAll (filepath.Join c (filepath.Base src)) w2)
    as [rr w3] eqn:Hr.
  rewrite (try_eq Hr) in H. injection H as _ <-.
  destruct (sys_run _ _ _ _ _ _ Hr) as (_ & _ & F3).
  destruct (fs_remove_all (filepath.Join c (filepath.Base src)) (fs w2))
    as [en|n3] eqn:Fr.
  - destruct F3 as [-> _]. exact C2.
  - destruct F3 as [-> _]. intros b r0 i S L.
    rewrite (fs_remove_all_spec _ _ _ Fr) in S.
    destruct (is_prefix _ _); [discriminate|].
    apply (C2 b r0 i S L).
Qed.

Lemma seed_paths_clean cm artifact rootPath c logger ps : forall w r w',
  rootPath <> [] ->
  forM (fun p =>
          b <- gets (dirExists (filepath.Join rootPath p)) ;;
          if negb b then ret tt
          else wrap ("failed to seed " ++ Name artifact ++ " from root")
                    (seedToCache cm (filepath.Join rootPath p) c
                                 (Name artifact) logger)) ps w
  = (r, w') ->
  entryClean c (Name artifact) (fs w) ->
  entryClean c (Name artifact) (fs w').
Proof.
  induction ps as [|p ps IH]; intros w r w' Hne H Hc.
  - injection H as _ <-. exact Hc.
  - cbn [forM] in H. unfold bind at 1 in H.
    match type of H with
    | context [bind ?m ?k w] => destruct (bind m k w) as [r1 w1] eqn:H1
    end.
    assert (C1 : entryClean c (Name artifact) (fs w1)).
    { unfold bind at 1, gets in H1.
      destruct (negb (dirExists (filepath.Join rootPath p) w));
        [injection H1 as _ <-; exact Hc|].
      unfold wrap in H1.
      destruct (seedToCache cm (filepath.Join rootPath p) c (Name artifact)
                  logger w) as [rs ws] eqn:Hs.
      assert (E : ws = w1) by (destruct rs; congruence). subst ws.
      apply (seedToCache_clean _ _ _ _ _ _ _ _ (fun E =>
               Hne (proj1 (app_eq_nil _ _ E))) Hs Hc). }
    destruct r1 as [[]|e]; [|injection H as _ <-; exact C1].
    apply (IH w1 r w' Hne H C1).
Qed.

(** C4, as the code has it.  The cache entry that a run of
    [seedArtifactFromRoot] creates holds, beneath its directory and
    whatever the run returns, no file and no link whose path relative to
    the seeded artifact directory matches a skip rule of the artifact;
    for cargo these are the paths ending in [.o] or [.d], those through
    [incremental/] and [.cargo-lock]. *)
Theorem seeded_entry_is_clean cm artifact rootPath envPath logger key w r w' :
  rootPath <> [] ->
  key_of (ComputeCacheKey cm artifact envPath w) = Some key ->
  stat (GetArtifactCachePath cm rootPath (Name artifact) key) (fs w) = None ->
  seedArtifactFromRoot cm artifact rootPath envPath logger w = (r, w') ->
  entryClean (GetArtifactCachePath cm rootPath (Name artifact) key)
             (Name artifact) (fs w').
Proof.
  intros Hne Hk Hn H.
  pose proof (entryClean_absent _ (Name artifact) _ Hn) as Hc.
  unfold seedArtifactFromRoot in H.
  destruct (path_eqb rootPath envPath); [injection H as _ <-; exact Hc|].
  assert (K : ComputeCacheKey cm artifact envPath w = (Ok key, w)).
  { pose proof (ComputeCacheKey_world cm artifact envPath w) as Ww.
    unfold key_of in Hk.
    destruct (ComputeCacheKey cm artifact envPath w) as [[k|e] w0];
      cbn [fst snd] in *; [|discriminate].
    congruence. }
  rewrite (bind_ok _ (wrap_ok _ K)) in H.
  unfold bind at 1, gets in H.
  destruct (dirExists _ w); [injection H as _ <-; exact Hc|].
  unfold bind at 1, wrap in H.
  pose proof (ComputeCacheKey_world cm artifact rootPath w) as Ww.
  destruct (ComputeCacheKey cm artifact rootPath w) as [[rootKey|e] w0];
    cbn [snd] in Ww; subst w0; [|injection H as _ <-; exact Hc].
  destruct (negb (key =? rootKey)%string); [injection H as _ <-; exact Hc|].
  unfold bind at 1, gets in H.
  destruct (isBuildInProgress cm rootPath artifact w);
    [injection H as _ <-; exact Hc|].
  exact (seed_paths_clean _ _ _ _ _ _ _ _ _ Hne H Hc).
Qed.

Lemma seeded_entry_is_clean_witness :
  let w := RootInputs.built in
  let run := seedArtifactFromRoot Inputs.cm Inputs.cargo ["p"] ["p"; "w1"]
               None w in
  fst run = Ok tt
  /\ entryClean RootInputs.cachePath "cargo" (fs (snd run))
  /\ stat (RootInputs.cachePath ++ ["target"; "debug"; "libfoo.rlib"])
          (fs (snd run)) = Some (IFile 420 7 (bytes "R"))
  /\ stat (RootInputs.cachePath ++ ["target"; "debug"; "foo.o"])
          (fs (snd run)) = None.
Proof.
  intros w run. split; [vm_compute; reflexivity|].
  split; [|split; vm_compute; reflexivity].
  apply (seeded_entry_is_clean Inputs.cm Inputs.cargo ["p"] ["p"; "w1"]
           None RootInputs.key w (fst run) (snd run)).
  - discriminate.
  - vm_compute. reflexivity.
  - vm_compute. reflexivity.
  - apply surjective_pairing.
Defined.

(** [StoreToCache] and [Sync] move the workspace's [target] whole: the
    object file [debug/foo.o] is in the entry they create. *)
Lemma store_keeps_skipped_counterexample :
  (let run := StoreToCache Inputs.cm RootInputs.entry RootInputs.workspace in
   fst run = Ok tt
   /\ ~ entryClean RootInputs.cachePath "cargo" (fs (snd run)))
  /\ (let run := Sync Inputs.cm [Inputs.cargo] ["p"] ["p"; "w1"]
                   (mkSyncOptions true) RootInputs.workspace in
      fst run = Ok tt
      /\ ~ entryClean RootInputs.cachePath "cargo" (fs (snd run))).
Proof.
  assert (K : shouldSkipPath (rel_str ["debug"; "foo.o"]) "cargo" = true)
    by (vm_compute; reflexivity).
  split; cbv zeta; (split; [vm_compute; reflexivity|]); intros C;
    match type of C with
    | entryClean ?c _ ?n =>
        assert (S : stat (c ++ "target" :: ["debug"; "foo.o"]) n
                    = Some (IFile 420 5 (bytes "O")))
          by (vm_compute; reflexivity)
    end;
    pose proof (C _ _ _ S) as C1; specialize (C1 eq_refl);
    rewrite C1 in K; discriminate.
Qed.

(** ** A seed that fails *)

(** C7 does not hold of the code.  When [SeedDirectory] fails inside
    [seedToCache], the directory that is removed is the artifact
    directory [cachePath/<basename>]; the cache entry [cachePath], which
    the call made before, stays, and it is that directory the hit check
    looks for. *)
Theorem seedToCache_failure_leaves_entry cm src c name logger w w1 e w' :
  src <> [] ->
  os.MkdirAll c 493 w = (Ok tt, w1) ->
  seedToCache cm src c name logger w = (Err e, w') ->
  dirExists c w' = true.
Proof.
  intros Hne Hm H. unfold seedToCache in H.
  rewrite (bind_ok _ Hm) in H.
  destruct (MkdirAll_post _ _ _ _ Hm) as [(m & Sd) _].
  unfold bind at 1, gets in H.
  destruct (dirExists (filepath.Join c (filepath.Base src)) w1);
    [discriminate|].
  unfold bind at 1 in H.
  destruct (SeedDirectory src (filepath.Join c (filepath.Base src))
              (mkSeedOptions name logger 0 "") w1) as [rs w2] eqn:Hs.
  rewrite (try_eq Hs) in H.
  destruct rs as [[]|err]; [discriminate|].
  destruct (SeedDirectory_grows _ _ _ _ _ _ Hs) as (_ & G & _).
  pose proof (grows_extends _ _ _ G _ _ Sd) as S2.
  unfold bind at 1 in H.
  destruct (os.RemoveAll (filepath.Join c (filepath.Base src)) w2)
    as [rr w3] eqn:Hr.
  rewrite (try_eq Hr) in H. injection H as _ <-.
  destruct (RemoveAll_only _ _ _ _ Hr) as (_ & O & _).
  apply (dirExists_stat _ _ m). rewrite <- S2. apply O.
  destruct (Base_nonempty src Hne) as (x & ->).
  apply is_prefix_longer.
Qed.

Lemma seedToCache_failure_leaves_entry_witness :
  let w := RootInputs.unreadable in
  let run := seedToCache Inputs.cm ["p"; "target"] RootInputs.cachePath
               "cargo" None w in
  let top := seedArtifactFromRoot Inputs.cm Inputs.cargo ["p"] ["p"; "w1"]
               None w in
  (exists e, fst run = Err e)
  /\ dirExists RootInputs.cachePath (snd run) = true
  /\ (exists e, fst top = Err e)
  /\ snd top = snd run
  /\ hits (fst (PrepareArtifactCache Inputs.cm [Inputs.cargo] ["p"]
                   ["p"; "w1"] (snd top))) = [true].
Proof.
  intros w run top.
  assert (E : exists e, fst run = Err e)
    by (eexists; vm_compute; reflexivity).
  split; [exact E|].
  split; [|split; [eexists; vm_compute; reflexivity|
                   split; vm_compute; reflexivity]].
  destruct E as (e & E).
  apply (seedToCache_failure_leaves_entry Inputs.cm ["p"; "target"]
           RootInputs.cachePath "cargo" None w
           (snd (os.MkdirAll RootInputs.cachePath 493 w)) e (snd run)).
  - discriminate.
  - vm_compute. reflexivity.
  - rewrite <- E. apply surjective_pairing.
Defined.

(** ** Moving a workspace directory into the cache *)

Lemma keeps_refl t n : keeps t n n.
Proof. intros r. reflexivity. Qed.

Lemma keeps_trans t a b c : keeps t a b -> keeps t b c -> keeps t a c.
Proof. intros H1 H2 r. rewrite (H2 r). apply H1. Qed.

#[export] Instance keeps_PreOrder t : PreOrder (keeps t).
Proof. split; [exact (keeps_refl t)|exact (keeps_trans t)]. Qed.

Lemma grows_keeps D t n n' :
  (forall r, D (t ++ r) = false) -> grows D n n' -> keeps t n n'.
Proof.
  intros Hd G r. destruct (G (t ++ r)) as [E|[_ Dq]]; [exact E|].
  rewrite Hd in Dq. discriminate.
Qed.

Lemma only_keeps S t n n' :
  (forall r, S (t ++ r) = false) -> only S n n' -> keeps t n n'.
Proof. intros Hs O r. apply O. apply Hs. Qed.





(** *** Paths *)

Lemma path_add_last c s :
  c <> [] -> path_add c s = removelast c ++ [(last c "" ++ s)%string].
Proof.
  intros Hne. unfold path_add. destruct (rev c) as [|x r] eqn:E.
  - apply (f_equal (@rev string)) in E. rewrite rev_involutive in E.
    contradiction.
  - apply (f_equal (@rev string)) in E. rewrite rev_involutive in E.
    cbn [rev] in E. subst c. rewrite removelast_last, last_last.
    reflexivity.
Qed.

Lemma Dir_path_add c s : filepath.Dir (path_add c s) = filepath.Dir c.
Proof.
  unfold filepath.Dir. destruct c as [|x c]; [reflexivity|].
  rewrite path_add_last by discriminate. apply removelast_last.
Qed.

Lemma is_prefix_Dir c : is_prefix (filepath.Dir c) c = true.
Proof.
  unfold filepath.Dir. destruct c as [|x c]; [reflexivity|].
  rewrite (app_removelast_last "" (l := x :: c)) at 2 by discriminate.
  apply is_prefix_app.
Qed.

Lemma is_prefix_Dir_lock c :
  is_prefix (filepath.Dir c) (path_add c ".lock") = true.
Proof. rewrite <- (Dir_path_add c ".lock"). apply is_prefix_Dir. Qed.

Lemma comparable_sym a b : comparable a b = comparable b a.
Proof. unfold comparable. apply orb_comm. Qed.

(** Nothing beneath [a] is comparable with a path that is not
    comparable with [a]. *)
Lemma apart_under l a q :
  comparable l a = false -> is_prefix a q = true -> comparable l q = false.
Proof.
  intros H Ha. unfold comparable in *. apply orb_false_iff in H.
  destruct H as [H1 H2]. apply orb_false_iff. split.
  - destruct (is_prefix l q) eqn:P; [|reflexivity].
    destruct (is_prefix_comparable l a q P Ha); congruence.
  - destruct (is_prefix q l) eqn:P; [|reflexivity].
    rewrite (is_prefix_trans _ _ _ Ha P) in H2. discriminate.
Qed.

Lemma apart_app l q r : comparable l q = false -> comparable (l ++ r) q = false
                                                  \/ is_prefix q (l ++ r) = false.
Proof.
  intros H. right. unfold comparable in H. apply orb_false_iff in H.
  destruct H as [H1 H2].
  destruct (is_prefix q (l ++ r)) eqn:P; [|reflexivity].
  destruct (is_prefix_comparable q l (l ++ r) P (is_prefix_app _ _));
    congruence.
Qed.

Lemma apart_not_prefix l q r :
  comparable l q = false -> is_prefix (l ++ r) q = false.
Proof.
  intros H. unfold comparable in H. apply orb_false_iff in H.
  destruct H as [H1 _].
  destruct (is_prefix (l ++ r) q) eqn:P; [|reflexivity].
  rewrite (is_prefix_trans _ _ _ (is_prefix_app l r) P) in H1. discriminate.
Qed.

Lemma apart_not_under l q r :
  comparable l q = false -> is_prefix q (l ++ r) = false.
Proof.
  intros H. destruct (apart_app l q r H) as [C|P]; [|exact P].
  unfold comparable in C. apply orb_false_iff in C. apply C.
Qed.

Lemma apart_comparable l q r :
  comparable l q = false -> comparable q (l ++ r) = false.
Proof.
  intros H. unfold comparable. apply orb_false_iff. split.
  - apply apart_not_under. exact H.
  - apply apart_not_prefix. exact H.
Qed.

Lemma apart_nonempty l a : comparable l a = false -> l <> [] /\ a <> [].
Proof.
  intros H. split; intros ->; unfold comparable in H.
  - discriminate.
  - destruct l; discriminate.
Qed.

Section CacheSide.
Variables l c : path.
Hypothesis apart : comparable l (filepath.Dir c) = false.

Lemma apart_c_nonempty : c <> [].
Proof.
  intros ->. destruct (apart_nonempty _ _ apart) as [_ H]. apply H.
  reflexivity.
Qed.

Lemma apart_entry r : comparable l (c ++ r) = false.
Proof.
  apply (apart_under l (filepath.Dir c)); [exact apart|].
  eapply is_prefix_trans; [apply is_prefix_Dir|apply is_prefix_app].
Qed.

Lemma apart_lock : comparable l (path_add c ".lock") = false.
Proof.
  apply (apart_under l (filepath.Dir c)); [exact apart|].
  apply is_prefix_Dir_lock.
Qed.

Lemma cacheSide_workspace r : cacheSide c (l ++ r) = false.
Proof.
  unfold cacheSide. apply orb_false_iff. split.
  - apply apart_not_prefix. rewrite <- (app_nil_r c). apply apart_entry.
  - apply path_eqb_not_prefix.
    pose proof apart_lock as H. rewrite comparable_sym in H.
    destruct (is_prefix (path_add c ".lock") (l ++ r)) eqn:P; [|reflexivity].
    rewrite (apart_not_under l _ r apart_lock) in P. discriminate.
Qed.

Lemma cacheSide_inside x r : cacheSide c (c ++ x :: r) = false.
Proof.
  unfold cacheSide. rewrite is_prefix_longer. cbn [orb].
  apply path_eqb_neq. rewrite (path_add_last c ".lock" apart_c_nonempty).
  pose proof (app_removelast_last "" apart_c_nonempty) as Ec.
  remember (removelast c) as d. remember (last c "") as z.
  intros E. rewrite Ec in E. rewrite <- app_assoc in E.
  apply app_inv_head in E. cbn [app] in E. discriminate.
Qed.
End CacheSide.

Lemma acquireCacheLock_grows cm c :
  preserves (grows (cacheSide c)) (creates false (cacheSide c))
    (acquireCacheLock cm c).
Proof.
  unfold acquireCacheLock.
  assert (Hp : forall q, is_prefix q (filepath.Dir (path_add c ".lock")) = true
                         -> cacheSide c q = true).
  { intros q Hq. rewrite Dir_path_add in Hq. unfold cacheSide.
    rewrite (is_prefix_removelast _ _ Hq). reflexivity. }
  assert (Hl : forall q, path_eqb (path_add c ".lock") q = true
                         -> cacheSide c q = true).
  { intros q Hq. unfold cacheSide. rewrite Hq. apply orb_true_r. }
  papply preserves_bind.
  - eapply preserves_weaken; [| |apply MkdirAll_grows].
    + intros a b. apply grows_weaken. exact Hp.
    + intros s. apply creates_weaken; [exact Hp|auto].
  - intros _. papply preserves_bind.
    + eapply preserves_weaken; [| |apply OpenCreate_grows].
      * intros a b. apply grows_weaken. exact Hl.
      * intros s. apply creates_weaken; [exact Hl|auto].
    + intros _. papply preserves_bind.
      * papply preserves_try. papply preserves_reader.
        intros w. unfold os.Flock. destruct (existsb _ _); reflexivity.
      * intros [u|e]; papply preserves_ret.
Qed.

Lemma MkdirAll_cacheSide c perm :
  preserves (grows (cacheSide c)) (creates false (cacheSide c))
    (os.MkdirAll c perm).
Proof.
  assert (Hp : forall q, is_prefix q c = true -> cacheSide c q = true).
  { intros q Hq. unfold cacheSide. rewrite Hq. reflexivity. }
  eapply preserves_weaken; [| |apply MkdirAll_grows].
  - intros a b. apply grows_weaken. exact Hp.
  - intros s. apply creates_weaken; [exact Hp|auto].
Qed.

(** *** One directory moved by [moveToCache] *)

Lemma dirExists_lookup p w :
  dirExists p w = true -> exists m es, lookup p (fs w) = Some (Directory m es).
Proof.
  unfold dirExists. destruct (lookup p (fs w)) as [[| |m es]|];
    try discriminate.
  intros _. exists m, es. reflexivity.
Qed.

Lemma stat_none_dirExists p w : stat p (fs w) = None -> dirExists p w = false.
Proof.
  intros H. apply lookup_none_stat in H. unfold dirExists. rewrite H.
  reflexivity.
Qed.

Lemma lookup_resolve p n c : lookup p n = Some c -> resolve p n = inr c.
Proof. unfold lookup. destruct (resolve p n); congruence. Qed.

Lemma lookup_stat p n c : lookup p n = Some c -> stat p n = Some (info_of c).
Proof. unfold stat. intros ->. reflexivity. Qed.

Lemma stat_dir_lookup p n m :
  stat p n = Some (IDir m) -> exists es, lookup p n = Some (Directory m es).
Proof.
  intros H. destruct (stat_lookup _ _ _ H) as (c & L & I).
  destruct c as [| |m' es]; try discriminate. injection I as ->.
  exists es. exact L.
Qed.

Lemma parent_dir_child c x n m :
  stat c n = Some (IDir m) -> parent_dir (c ++ [x]) n = inr tt.
Proof.
  intros H. destruct (stat_dir_lookup _ _ _ H) as (es & L).
  unfold parent_dir. rewrite removelast_last.
  rewrite (lookup_resolve _ _ _ L). reflexivity.
Qed.


Section MoveWhole.
Variable cm : CacheManager.
Variables l c : path.
Variable x : string.
Hypothesis base : filepath.Base l = [x].
Hypothesis apart : comparable l (filepath.Dir c) = false.

Let t := c ++ [x].

Lemma keeps_target_cacheSide n n' : grows (cacheSide c) n n' -> keeps t n n'.
Proof.
  apply grows_keeps. intros r. unfold t. rewrite <- app_assoc.
  apply (cacheSide_inside l c apart).
Qed.

Lemma keeps_workspace_cacheSide n n' :
  grows (cacheSide c) n n' -> keeps l n n'.
Proof. apply grows_keeps. apply (cacheSide_workspace l c apart). Qed.

Lemma apart_target r : comparable l (t ++ r) = false.
Proof. unfold t. rewrite <- app_assoc. apply (apart_entry l c apart). Qed.





End MoveWhole.

(** *** The directories moved by [StoreToCache] *)


Lemma is_prefix_sibling c x y r :
  x <> y -> is_prefix (c ++ [x]) (c ++ y :: r) = false.
Proof.
  intros Hxy. destruct (is_prefix (c ++ [x]) (c ++ y :: r)) eqn:P;
    [|reflexivity].
  apply is_prefix_app_inv in P. destruct P as (t & E).
  cbn [app] in E. injection E as E _. congruence.
Qed.

Lemma storeStep_keeps c e q :
  (forall r, comparable e (q ++ r) = false) ->
  (forall r, is_prefix (filepath.Join c (filepath.Base e)) (q ++ r) = false) ->
  preserves (keeps q) any_syscall (storeStep c e).
Proof.
  intros H1 H2. unfold storeStep.
  papply preserves_bind; [papply preserves_gets|].
  intros b. destruct (negb b); [papply preserves_ret|].
  papply preserves_bind.
  - papply preserves_wrap.
    eapply preserves_weaken; [| |apply Rename_only].
    + intros a b0. apply only_keeps. intros r.
      apply orb_false_iff. split; [|apply H2].
      pose proof (H1 r) as C. unfold comparable in C.
      apply orb_false_iff in C. apply C.
    + intros s _. exact I.
  - intros _. papply preserves_wrap.
    eapply preserves_weaken; [| |apply HardlinkTree_grows].
    + intros a b0. apply grows_keeps. exact H1.
    + intros s _. exact I.
Qed.

Section StoreWhole.
Variables c e0 : path.
Variable x0 : string.
Variable n0 : node.
Hypothesis base0 : filepath.Base e0 = [x0].
Hypothesis apart0 : comparable e0 (filepath.Dir c) = false.

Lemma storeStep_other e :
  comparable e (filepath.Dir c) = false ->
  comparable e e0 = false -> filepath.Base e <> filepath.Base e0 ->
  preserves (keeps (c ++ [x0])) any_syscall (storeStep c e)
  /\ preserves (keeps e0) any_syscall (storeStep c e).
Proof.
  intros Ha Hc Hb.
  destruct (Base_nonempty e (proj1 (apart_nonempty _ _ Ha))) as (x & Bx).
  assert (Hx : x <> x0) by (rewrite Bx, base0 in Hb; congruence).
  split; apply storeStep_keeps.
  - intros r. rewrite <- app_assoc. apply (apart_entry e c Ha).
  - intros r. rewrite Bx. unfold filepath.Join. rewrite <- app_assoc.
    apply is_prefix_sibling. exact Hx.
  - intros r. apply apart_comparable. rewrite comparable_sym. exact Hc.
  - intros r. rewrite Bx. unfold filepath.Join.
    apply apart_not_under. rewrite <- (app_nil_r (c ++ [x])).
    rewrite <- app_assoc. apply (apart_entry e0 c apart0).
Qed.


End StoreWhole.






(** ** Running [Sync] again *)

Lemma key_of_run cm a envPath w key :
  key_of (ComputeCacheKey cm a envPath w) = Some key ->
  ComputeCacheKey cm a envPath w = (Ok key, w).
Proof.
  intros Hk. pose proof (ComputeCacheKey_world cm a envPath w) as Ww.
  unfold key_of in Hk.
  destruct (ComputeCacheKey cm a envPath w) as [[k|e] w0];
    cbn [fst snd] in *; [|discriminate].
  congruence.
Qed.



Lemma acquireCacheLock_free cm c w w1 :
  lockFree c w -> acquireCacheLock cm c w = (Ok None, w1) -> False.
Proof.
  intros Hf H. unfold acquireCacheLock in H.
  apply bind_inv in H. destruct H as ([] & wa & Ha & H).
  apply bind_inv in H. destruct H as ([] & wb & Hb & H).
  destruct (MkdirAll_grows _ _ _ _ _ Ha) as ((_ & Fa & _) & _).
  destruct (OpenCreate_grows _ _ _ _ _ Hb) as ((_ & Fb & _) & _).
  unfold bind, try, os.Flock in H.
  unfold lockFree in Hf. rewrite Fb, Fa, Hf in H. discriminate.
Qed.

Lemma defer_inv {A} (g : M unit) (m : M A) w r w' :
  defer g m w = (r, w') -> exists w0, m w = (r, w0) /\ w' = snd (g w0).
Proof.
  unfold defer. destruct (m w) as [r0 w0]. intros H. injection H as <- <-.
  exists w0. auto.
Qed.

Lemma dirExists_iff_stat p w :
  dirExists p w = true <-> exists m, stat p (fs w) = Some (IDir m).
Proof.
  split.
  - intros H. destruct (dirExists_lookup _ _ H) as (m & es & L).
    exists m. apply lookup_stat in L. exact L.
  - intros (m & S). eapply dirExists_stat. exact S.
Qed.


Lemma dirExists_same p w w' :
  stat p (fs w') = stat p (fs w) -> dirExists p w = true ->
  dirExists p w' = true.
Proof.
  intros E H. apply dirExists_iff_stat in H. destruct H as (m & S).
  apply dirExists_iff_stat. exists m. congruence.
Qed.








(** ** The cross-device copy *)

Lemma noSkip_ret {A} (a : A) : noSkip (ret a).
Proof. intros w e w' H. discriminate. Qed.

Lemma noSkip_fail {A} e : is_SkipDir e = false -> noSkip (@fail A e).
Proof. intros He w e' w' H. injection H as <- _. exact He. Qed.

Lemma noSkip_bind {A B} (m : M A) (k : A -> M B) :
  noSkip m -> (forall a, noSkip (k a)) -> noSkip (bind m k).
Proof.
  intros Hm Hk w e w' H. unfold bind in H.
  destruct (m w) as [[a|e0] w1] eqn:Em.
  - eapply Hk. exact H.
  - injection H as <- _. eapply Hm. exact Em.
Qed.

Lemma noSkip_try_bind {A B} (m : M A) (k : result A -> M B) :
  (forall a, noSkip (k (Ok a))) ->
  (forall e, is_SkipDir e = false -> noSkip (k (Err e))) ->
  noSkip m -> noSkip (bind (try m) k).
Proof.
  intros Hok Herr Hm w e w' H. unfold bind, try in H.
  destruct (m w) as [[a|e0] w1] eqn:Em.
  - eapply Hok. exact H.
  - eapply Herr; [|exact H]. eapply Hm. exact Em.
Qed.

Lemma noSkip_wrap {A} msg (m : M A) : noSkip (wrap msg m).
Proof.
  intros w e w' H. unfold wrap in H.
  destruct (m w) as [[a|e0] w1]; [discriminate|].
  injection H as <- _. reflexivity.
Qed.

Lemma noSkip_sys c (r : world -> errno + node) mk :
  (forall en, is_SkipDir (mk en) = false) ->
  noSkip (fun w => os.sys c (r w) mk w).
Proof.
  intros Hmk w e w' H. unfold os.sys in H. destruct (r w) as [en|n];
    [|discriminate].
  injection H as <- _. apply Hmk.
Qed.

Lemma noSkip_Stat p : noSkip (os.Stat p).
Proof.
  intros w e w' H. unfold os.Stat in H.
  destruct (resolve p (fs w)) as [en|[| |]]; try discriminate;
    injection H as <- _; reflexivity.
Qed.

Lemma noSkip_Lstat p : noSkip (os.Lstat p).
Proof.
  intros w e w' H. unfold os.Lstat in H.
  destruct (resolve p (fs w)) as [en|n]; [|discriminate].
  injection H as <- _. reflexivity.
Qed.

Lemma noSkip_Mkdir p perm : noSkip (os.Mkdir p perm).
Proof.
  apply (noSkip_sys (SysMkdir p) (fun w => fs_mkdir p perm (fs w))).
  reflexivity.
Qed.

Lemma noSkip_MkdirAll_rev perm rp : noSkip (os.MkdirAll_rev rp perm).
Proof.
  induction rp as [|x parent IH]; cbn [os.MkdirAll_rev].
  - apply noSkip_try_bind; [| |apply noSkip_Stat].
    + intros dir. destruct (IsDir dir); [apply noSkip_ret|].
      apply noSkip_fail. reflexivity.
    + intros e He. apply noSkip_fail. exact He.
  - apply noSkip_try_bind; [| |apply noSkip_Stat].
    + intros dir. destruct (IsDir dir); [apply noSkip_ret|].
      apply noSkip_fail. reflexivity.
    + intros e0 _. apply noSkip_bind; [exact IH|]. intros _.
      apply noSkip_try_bind; [| |apply noSkip_Mkdir].
      * intros _. apply noSkip_ret.
      * intros e He. apply noSkip_try_bind; [| |apply noSkip_Lstat].
        -- intros dir. destruct (IsDir dir); [apply noSkip_ret|].
           apply noSkip_fail. exact He.
        -- intros e1 _. apply noSkip_fail. exact He.
Qed.

Lemma noSkip_recreateSymlink p d : noSkip (recreateSymlink p d).
Proof.
  unfold recreateSymlink. apply noSkip_bind; [apply noSkip_wrap|].
  intros t. apply noSkip_try_bind.
  - intros _. apply noSkip_ret.
  - intros e _. destruct (os_err.IsExist e); [apply noSkip_ret|].
    apply noSkip_fail. reflexivity.
  - apply (noSkip_sys (SysSymlink t d) (fun w => fs_symlink t d (fs w))).
    reflexivity.
Qed.

Lemma noSkip_copyFile s d : noSkip (copyFile s d).
Proof.
  unfold copyFile. apply noSkip_bind.
  { intros w e w' H. unfold os.Open in H.
    destruct (resolve s (fs w)) as [en|[m i dat| |]]; try discriminate;
      try (injection H as <- _; reflexivity).
    destruct (readable m); [discriminate|].
    injection H as <- _. reflexivity. }
  intros inp. apply noSkip_bind.
  { intros w e w' H. unfold os.Create, os.OpenCreate in H.
    destruct (os.sys (SysCreate d)
                (fs_create d 438 true (next_ino w) (fs w))
                (PathError "open" d) w) as [[u|e0] w1] eqn:S;
      [discriminate|].
    injection H as <- _.
    exact (noSkip_sys (SysCreate d)
             (fun w0 => fs_create d 438 true (next_ino w0) (fs w0))
             (PathError "open" d) (fun en => eq_refl) _ _ _ S). }
  intros _. apply noSkip_bind.
  { destruct inp; [apply noSkip_ret|apply noSkip_fail; reflexivity]. }
  intros data. apply noSkip_bind.
  { apply (noSkip_sys (SysWrite d) (fun w => fs_write d data (fs w))).
    reflexivity. }
  intros _. apply noSkip_bind; [apply noSkip_Stat|].
  intros i.
  apply (noSkip_sys (SysChmod d) (fun w => fs_chmod d (Mode i) (fs w))).
  reflexivity.
Qed.

Lemma noSkip_copyEntry src dst p i : noSkip (copyEntry src dst p i).
Proof.
  unfold copyEntry. destruct (IsDir i).
  - unfold os.MkdirAll. apply noSkip_MkdirAll_rev.
  - destruct (is_symlink i);
      [apply noSkip_recreateSymlink|apply noSkip_copyFile].
Qed.

Lemma noSkip_forM {A} (f : A -> M unit) xs :
  (forall x, noSkip (f x)) -> noSkip (forM f xs).
Proof.
  intros Hf. induction xs as [|x xs IH]; cbn [forM].
  - apply noSkip_ret.
  - apply noSkip_bind; [apply Hf|]. intros _. exact IH.
Qed.

Lemma forM_app {A} (f : A -> M unit) xs ys w :
  forM f (xs ++ ys) w = (forM f xs ;; forM f ys) w.
Proof.
  revert w. induction xs as [|x xs IH]; intros w; cbn [forM app].
  - reflexivity.
  - unfold bind. destruct (f x w) as [[[]|e] w1]; [|reflexivity].
    rewrite IH. reflexivity.
Qed.

(** A walk whose callback never answers [SkipDir] calls it on every
    entry in turn until one call fails. *)
Lemma walkDir_flat (fn : path -> info -> M unit) n :
  (forall p i, noSkip (fn p i)) ->
  forall p w,
    walkDir (fun p i _ => fn p i) p n tt w
    = forM (fun e => fn (fst e) (snd e)) (entriesOf p n) w.
Proof.
  intros Hns.
  induction n as [m i d|t|m es IH] using node_ind'; intros p w.
  1,2: cbn [walkDir entriesOf forM info_of fst snd]; unfold bind, ret;
    destruct (fn p _ w) as [[[]|e] w1] eqn:Ef; [reflexivity|];
    rewrite andb_false_r; reflexivity.
  cbn [walkDir entriesOf forM info_of fst snd]. unfold bind at 1.
  destruct (fn p (IDir m) w) as [[[]|e] w1] eqn:Ef.
  2:{ rewrite (Hns _ _ _ _ _ Ef). reflexivity. }
  clear Ef w. revert w1.
  induction es as [|[x c] es IHes]; intros w1; [reflexivity|].
  inversion IH as [|a l0 Hc Hes]; subst a l0. cbn [snd] in Hc.
  rewrite forM_app. unfold bind at 1.
  rewrite <- (Hc (p ++ [x]) w1).
  destruct (walkDir (fun p0 i _ => fn p0 i) (p ++ [x]) c tt w1)
    as [[[]|e] w2] eqn:Ew.
  - apply IHes. exact Hes.
  - assert (Ns : is_SkipDir e = false).
    { rewrite (Hc (p ++ [x]) w1) in Ew.
      exact (noSkip_forM _ _ (fun e0 => Hns (fst e0) (snd e0)) _ _ _ Ew). }
    rewrite Ns. reflexivity.
Qed.

Lemma copyDir_flat src dst w n :
  resolve src (fs w) = inr n ->
  copyDir src dst w
  = forM (fun e => copyEntry src dst (fst e) (snd e)) (entriesOf src n) w.
Proof.
  intros R. unfold copyDir, Walk, WalkDir. rewrite R.
  pose proof (walkDir_flat (copyEntry src dst) n
                (noSkip_copyEntry src dst) src w) as F.
  unfold copyEntry in F at 1. rewrite F.
  destruct (forM _ _ w) as [[[]|e] w1] eqn:Ef; [reflexivity|].
  rewrite (noSkip_forM _ _ (fun e0 => noSkip_copyEntry src dst (fst e0)
                                         (snd e0)) _ _ _ Ef).
  reflexivity.
Qed.

Lemma entriesOf_dir p m es :
  entriesOf p (Directory m es)
  = (p, IDir m)
    :: flat_map (fun xc => entriesOf (p ++ [fst xc]) (snd xc)) es.
Proof.
  cbn [entriesOf info_of]. f_equal.
  induction es as [|[x c] es IH]; [reflexivity|].
  cbn [flat_map fst snd]. rewrite <- IH. reflexivity.
Qed.

Lemma entriesOf_head p n : In (p, info_of n) (entriesOf p n).
Proof. destruct n; left; reflexivity. Qed.

Lemma entriesOf_complete r : forall p n c,
  lookup r n = Some c -> In (p ++ r, info_of c) (entriesOf p n).
Proof.
  induction r as [|x r IH]; intros p n c H.
  - injection H as <-. rewrite app_nil_r. apply entriesOf_head.
  - unfold lookup in H. cbn [resolve] in H.
    destruct n as [| |m es]; try discriminate.
    destruct (ent_get x es) as [c'|] eqn:G; [|discriminate].
    rewrite entriesOf_dir. right. apply in_flat_map.
    exists (x, c'). split; [apply ent_get_In; exact G|].
    cbn [fst snd].
    change (p ++ x :: r) with (p ++ [x] ++ r). rewrite app_assoc.
    apply IH. exact H.
Qed.

Lemma entriesOf_sound n : forall p q i,
  wf_node n = true -> In (q, i) (entriesOf p n) ->
  exists r c, q = p ++ r /\ lookup r n = Some c /\ info_of c = i.
Proof.
  induction n as [m ino d|t|m es IH] using node_ind'; intros p q i Hwf Hin.
  1,2: destruct Hin as [E|[]]; injection E as <- <-;
    eexists [], _; rewrite app_nil_r;
    (split; [reflexivity|split; reflexivity]).
  rewrite entriesOf_dir in Hin. destruct Hin as [E|Hin].
  - injection E as <- <-. exists [], (Directory m es).
    rewrite app_nil_r. repeat split; reflexivity.
  - apply in_flat_map in Hin. destruct Hin as ([x c] & Hxc & Hin).
    cbn [fst snd] in Hin.
    rewrite wf_node_dir in Hwf. apply andb_true_iff in Hwf.
    destruct Hwf as [Hn Hall].
    rewrite Forall_forall in IH. rewrite forallb_forall in Hall.
    destruct (IH (x, c) Hxc (p ++ [x]) q i (Hall (x, c) Hxc) Hin)
      as (r & c' & -> & L & I).
    exists (x :: r), c'. split; [rewrite <- app_assoc; reflexivity|].
    split; [|exact I].
    unfold lookup. cbn [resolve]. rewrite (In_ent_get _ _ _ Hn Hxc).
    exact L.
Qed.

Lemma copyFile_over s d w w' :
  copyFile s d w = (Ok tt, w') -> s <> d ->
  stat d (fs w) = None
  \/ (exists m' i' d', stat d (fs w) = Some (IFile m' i' d')) ->
  exists m ino data ino',
    stat s (fs w) = Some (IFile m ino data)
    /\ stat d (fs w') = Some (IFile m ino' data).
Proof.
  unfold copyFile. intros H Nsd Sd.
  apply bind_inv in H. destruct H as (inp & w0 & Ho & H).
  apply Open_ok in Ho. destruct Ho as [-> Ho].
  apply bind_inv in H. destruct H as ([] & w1 & Hc & H).
  apply OpenCreate_ok in Hc.
  pose proof (fs_create_spec _ _ _ _ _ _ Hc) as S1.
  apply bind_inv in H. destruct H as (data & w1' & Hr & H).
  apply ReadAll_ok in Hr. destruct Hr as [-> ->].
  destruct Ho as [(m & ino & data' & E & Ss)|[E _]]; [|discriminate].
  injection E as <-.
  apply bind_inv in H. destruct H as ([] & w2 & Hw & H).
  apply sys_ok in Hw. destruct Hw as [Hw _].
  destruct (fs_write_spec _ _ _ _ Hw) as (m1 & i1 & d1 & Sd1 & S2).
  apply bind_inv in H. destruct H as (info & w2' & Hs & H).
  apply Stat_ok in Hs. destruct Hs as [-> Hs].
  assert (Nds : path_eqb d s = false).
  { apply path_eqb_neq. congruence. }
  rewrite (S2 s), Nds, (S1 s), Nds, Ss in Hs. injection Hs as <-.
  apply sys_ok in H. destruct H as [H _].
  pose proof (fs_chmod_file_spec d m (fs w2) (fs w') m1 i1 data H) as S3.
  rewrite (S2 d), path_eqb_refl in S3. specialize (S3 eq_refl d).
  rewrite path_eqb_refl in S3.
  exists m, ino, data, i1. split; [exact Ss|exact S3].
Qed.

Lemma copyEntry_fills src dst p i :
  preserves (fills dst) (creates false (comparable dst))
    (copyEntry src dst p i).
Proof.
  unfold copyEntry.
  destruct (IsDir i); [|destruct (is_symlink i)].
  - eapply preserves_weaken; [| |apply MkdirAll_grows].
    + intros a b. apply grows_fills. intros q. apply comparable_prefix_of.
    + intros c. apply creates_weaken; [|auto].
      intros q. apply comparable_prefix_of.
  - eapply preserves_weaken; [| |apply recreateSymlink_grows].
    + intros a b. apply grows_fills. intros q. apply comparable_eq_under.
    + intros c. apply creates_weaken; [|auto].
      intros q. apply comparable_eq_under.
  - eapply preserves_weaken; [| |apply copyFile_only].
    + intros a b O q Hq. left. apply O.
      destruct (path_eqb (filepath.Join dst (filepath.Rel src p)) q) eqn:E;
        [|reflexivity].
      apply under_eq_under in E. congruence.
    + intros c. apply creates_weaken; [|auto].
      intros q. apply comparable_eq_under.
Qed.

Lemma fills_keeps src dst n n' :
  comparable src dst = false -> fills dst n n' -> keeps src n n'.
Proof.
  intros Hc F r.
  destruct (F (src ++ r)) as [E|[_ P]].
  - rewrite comparable_sym in Hc. apply apart_not_under.
    rewrite comparable_sym. exact Hc.
  - exact E.
  - rewrite (apart_not_prefix src dst r Hc) in P. discriminate.
Qed.

Section CopyLoop.
Variables src dst : path.
Variable n : node.
Variable w0 : world.
Variable r0 : path.
Variable c0 : node.
Hypothesis apart : comparable src dst = false.
Hypothesis snapshot : lookup src (fs w0) = Some n.
Hypothesis source : lookup r0 n = Some c0.

Let copied (w : world) : Prop :=
  exists j, stat (dst ++ r0) (fs w) = Some j /\ copyOf (info_of c0) j.

Lemma source_stat w r c :
  keeps src (fs w0) (fs w) -> lookup r n = Some c ->
  stat (src ++ r) (fs w) = Some (info_of c).
Proof.
  intros K L. rewrite (K r). unfold stat.
  rewrite (lookup_app _ _ _ r snapshot), L. reflexivity.
Qed.

Lemma src_dst_differ r : src ++ r <> dst ++ r0.
Proof.
  intros E. pose proof (apart_not_prefix src dst r apart) as P.
  pose proof (apart_not_under src dst r apart) as Q.
  rewrite E in Q. rewrite is_prefix_app in Q. discriminate.
Qed.

Lemma copy_step w w1 r c L :
  keeps src (fs w0) (fs w) ->
  lookup r n = Some c ->
  copyEntry src dst (src ++ r) (info_of c) w = (Ok tt, w1) ->
  copied w
  \/ (stat (dst ++ r0) (fs w) = None
      /\ In (src ++ r0, info_of c0) ((src ++ r, info_of c) :: L)) ->
  copied w1
  \/ (stat (dst ++ r0) (fs w1) = None /\ In (src ++ r0, info_of c0) L).
Proof.
  intros K Lr H Inv.
  pose proof (source_stat w r c K Lr) as Ss.
  unfold copyEntry in H. rewrite Rel_Join in H. unfold filepath.Join in H.
  destruct (list_eq_dec string_dec r r0) as [->|Nr].
  - (* the entry itself *)
    left. assert (c = c0) by congruence. subst c.
    destruct c0 as [m ino dat|t|m es]; cbn [info_of IsDir is_symlink] in *.
    + assert (Pre : stat (dst ++ r0) (fs w) = None
                    \/ exists m' i' d',
                         stat (dst ++ r0) (fs w) = Some (IFile m' i' d')).
      { destruct Inv as [(j & Sj & Cj)|[N _]]; [right|left; exact N].
        destruct j as [m' i' d'| |]; cbn in Cj; try contradiction.
        exists m', i', d'. exact Sj. }
      destruct (copyFile_over _ _ _ _ H (src_dst_differ r0) Pre)
        as (m1 & i1 & d1 & i2 & S1 & S2).
      rewrite Ss in S1. injection S1 as <- <- <-.
      exists (IFile m i2 dat). split; [exact S2|]. cbn. auto.
    + destruct Inv as [(j & Sj & Cj)|[N _]].
      * destruct (recreateSymlink_grows _ _ _ _ _ H) as (_ & G & _).
        exists j. split; [apply (grows_extends _ _ _ G); exact Sj|exact Cj].
      * destruct (recreateSymlink_post _ _ _ _ H N) as (t' & S1 & S2).
        rewrite Ss in S1. injection S1 as <-.
        exists (ISymlink t). split; [exact S2|]. cbn. reflexivity.
    + destruct (MkdirAll_post _ _ _ _ H) as [(m' & S') _].
      exists (IDir m'). split; [exact S'|]. cbn. exact I.
  - (* another entry *)
    assert (Nd : dst ++ r <> dst ++ r0).
    { intros E. apply app_inv_head in E. contradiction. }
    assert (Ne : (src ++ r, info_of c) <> (src ++ r0, info_of c0)).
    { intros E. injection E as E _. apply app_inv_head in E. contradiction. }
    destruct (IsDir (info_of c)) eqn:Dc.
    + destruct (MkdirAll_grows _ _ _ _ _ H) as (_ & G & _).
      destruct (MkdirAll_no_new_leaves _ _ _ _ _ H) as (_ & Nl & _).
      destruct Inv as [(j & Sj & Cj)|[N Hin]].
      * left. exists j.
        split; [apply (grows_extends _ _ _ G); exact Sj|exact Cj].
      * destruct (stat (dst ++ r0) (fs w1)) as [j|] eqn:S1.
        -- left. exists j. split; [exact S1|].
           destruct (IsDir j) eqn:Dj.
           ++ destruct (G (dst ++ r0)) as [E|[_ P]]; [congruence|].
              apply is_prefix_app_inv in P. destruct P as (t & ->).
              rewrite (lookup_app _ _ _ t source) in Lr.
              destruct (node_is_dir c0) eqn:D0.
              ** destruct c0; try discriminate. destruct j; try discriminate.
                 cbn. exact I.
              ** destruct (lookup_leaf _ _ _ Lr D0) as [-> _].
                 rewrite app_nil_r in Nr. contradiction.
           ++ rewrite (Nl _ _ S1 Dj) in N. discriminate.
        -- right. split; [reflexivity|].
           destruct Hin as [E|Hin]; [contradiction|exact Hin].
    + assert (O : stat (dst ++ r0) (fs w1) = stat (dst ++ r0) (fs w)
                  /\ extends (fs w) (fs w1)
                  \/ stat (dst ++ r0) (fs w1) = stat (dst ++ r0) (fs w)).
      { right. destruct (is_symlink (info_of c)).
        - destruct (recreateSymlink_grows _ _ _ _ _ H) as (_ & G & _).
          destruct (G (dst ++ r0)) as [E|[_ P]]; [exact E|].
          apply path_eqb_eq in P. contradiction.
        - destruct (copyFile_only _ _ _ _ _ H) as (_ & O & _).
          apply O. apply path_eqb_neq. exact Nd. }
      assert (E : stat (dst ++ r0) (fs w1) = stat (dst ++ r0) (fs w))
        by (destruct O as [[E _]|E]; exact E).
      destruct Inv as [(j & Sj & Cj)|[N Hin]].
      * left. exists j. split; [congruence|exact Cj].
      * right. split; [congruence|].
        destruct Hin as [E'|Hin]; [contradiction|exact Hin].
Qed.

Lemma copy_loop L : forall w w',
  (forall e, In e L ->
     exists r c, fst e = src ++ r /\ lookup r n = Some c
                 /\ info_of c = snd e) ->
  keeps src (fs w0) (fs w) ->
  forM (fun e => copyEntry src dst (fst e) (snd e)) L w = (Ok tt, w') ->
  copied w
  \/ (stat (dst ++ r0) (fs w) = None /\ In (src ++ r0, info_of c0) L) ->
  copied w'.
Proof.
  induction L as [|e L IH]; intros w w' Hs K H Inv.
  - injection H as <-. destruct Inv as [C|[_ []]]. exact C.
  - apply forM_cons_inv in H. destruct H as (w1 & H1 & H2).
    destruct (Hs e (or_introl eq_refl)) as (r & c & Ef & Lr & Ei).
    destruct e as [p i]. cbn [fst snd] in *. subst p i.
    apply (IH w1 w' (fun e He => Hs e (or_intror He))); [|exact H2|].
    + destruct (copyEntry_fills _ _ _ _ _ _ _ H1) as (_ & F & _).
      eapply keeps_trans; [exact K|].
      apply (fills_keeps src dst); assumption.
    + eapply copy_step; eassumption.
Qed.
End CopyLoop.

(** What [copyDir] leaves in a destination that was not there. *)
Lemma copyDir_post src dst w w' r i :
  wf_node (fs w) = true ->
  comparable src dst = false ->
  stat dst (fs w) = None ->
  copyDir src dst w = (Ok tt, w') ->
  stat (src ++ r) (fs w) = Some i ->
  exists j, stat (dst ++ r) (fs w') = Some j /\ copyOf i j.
Proof.
  intros Hwf apart Nd H Ss.
  destruct (stat_lookup _ _ _ Ss) as (c & Lc & Ic).
  destruct (lookup src (fs w)) as [n|] eqn:Ln.
  2:{ rewrite (lookup_app_none _ _ r Ln) in Lc. discriminate. }
  rewrite (lookup_app _ _ _ r Ln) in Lc.
  rewrite (copyDir_flat src dst w n (lookup_resolve _ _ _ Ln)) in H.
  subst i.
  apply (copy_loop src dst n w r c apart Ln Lc (entriesOf src n) w w');
    [|apply keeps_refl|exact H|].
  - intros [q i] Hin. cbn [fst snd].
    apply (entriesOf_sound n src q i (wf_node_lookup _ _ _ Hwf Ln) Hin).
  - right. split; [apply stat_app_none; exact Nd|].
    apply entriesOf_complete. exact Lc.
Qed.

(** *** Directories list every name once *)

Lemma has_ent_del y x es :
  existsb (String.eqb y) (map fst (ent_del x es)) = true ->
  existsb (String.eqb y) (map fst es) = true.
Proof.
  induction es as [|[z c] es IH]; cbn [ent_del]; [trivial|].
  destruct (String.eqb x z); cbn [map fst existsb]; intros H.
  - rewrite (IH H). apply orb_true_r.
  - apply orb_true_iff in H. destruct H as [H|H].
    + rewrite H. reflexivity.
    + rewrite (IH H). apply orb_true_r.
Qed.

Lemma has_ent_del_same x es :
  existsb (String.eqb x) (map fst (ent_del x es)) = false.
Proof.
  induction es as [|[z c] es IH]; cbn [ent_del]; [reflexivity|].
  destruct (String.eqb x z) eqn:E; [exact IH|].
  cbn [map fst existsb]. rewrite E, IH. reflexivity.
Qed.

Lemma names_nodup_ent_del x es :
  names_nodup es = true -> names_nodup (ent_del x es) = true.
Proof.
  induction es as [|[z c] es IH]; cbn [ent_del names_nodup]; [trivial|].
  intros H. apply andb_true_iff in H. destruct H as [Hz Hn].
  destruct (String.eqb x z); [exact (IH Hn)|].
  cbn [names_nodup]. rewrite (IH Hn), andb_true_r.
  apply negb_true_iff. apply negb_true_iff in Hz.
  destruct (existsb (String.eqb z) (map fst (ent_del x es))) eqn:E;
    [|reflexivity].
  rewrite (has_ent_del _ _ _ E) in Hz. discriminate.
Qed.

Lemma has_ent_put y x c es :
  existsb (String.eqb y) (map fst (ent_put x c es)) = true ->
  y = x \/ existsb (String.eqb y) (map fst es) = true.
Proof.
  induction es as [|[z d] es IH]; cbn [ent_put].
  - cbn [map fst existsb]. rewrite orb_false_r. intros H.
    left. apply String.eqb_eq. exact H.
  - destruct (String.eqb x z) eqn:E; [|destruct (String.ltb x z)];
      cbn [map fst existsb]; intros H.
    + apply orb_true_iff in H. destruct H as [H|H].
      * left. apply String.eqb_eq. exact H.
      * right. rewrite (has_ent_del _ _ _ H). apply orb_true_r.
    + apply orb_true_iff in H. destruct H as [H|H].
      * left. apply String.eqb_eq. exact H.
      * right. apply orb_true_iff in H. destruct H as [H|H].
        -- rewrite H. reflexivity.
        -- rewrite (has_ent_del _ _ _ H). apply orb_true_r.
    + apply orb_true_iff in H. destruct H as [H|H].
      * right. rewrite H. reflexivity.
      * destruct (IH H) as [->|H']; [left; reflexivity|].
        right. rewrite H'. apply orb_true_r.
Qed.

Lemma names_nodup_ent_put x c es :
  names_nodup es = true -> names_nodup (ent_put x c es) = true.
Proof.
  induction es as [|[z d] es IH]; cbn [ent_put]; [reflexivity|].
  cbn [names_nodup]. intros H. apply andb_true_iff in H.
  destruct H as [Hz Hn]. apply negb_true_iff in Hz.
  destruct (String.eqb x z) eqn:E; [|destruct (String.ltb x z)].
  - cbn [names_nodup]. rewrite has_ent_del_same.
    rewrite (names_nodup_ent_del x es Hn). reflexivity.
  - cbn [names_nodup map fst existsb]. rewrite E, has_ent_del_same.
    rewrite (names_nodup_ent_del x es Hn), andb_true_r. cbn [orb negb andb].
    apply negb_true_iff.
    destruct (existsb (String.eqb z) (map fst (ent_del x es))) eqn:D;
      [|reflexivity].
    rewrite (has_ent_del _ _ _ D) in Hz. discriminate.
  - cbn [names_nodup]. rewrite (IH Hn), andb_true_r.
    apply negb_true_iff.
    destruct (existsb (String.eqb z) (map fst (ent_put x c es))) eqn:D;
      [|reflexivity].
    destruct (has_ent_put _ _ _ _ D) as [->|D'].
    + rewrite String.eqb_refl in E. discriminate.
    + congruence.
Qed.

Lemma In_ent_del e x es : In e (ent_del x es) -> In e es.
Proof.
  induction es as [|[z d] es IH]; cbn [ent_del]; [trivial|].
  destruct (String.eqb x z); intros H.
  - right. exact (IH H).
  - destruct H as [H|H]; [left; exact H|right; exact (IH H)].
Qed.

Lemma In_ent_put e x c es : In e (ent_put x c es) -> e = (x, c) \/ In e es.
Proof.
  induction es as [|[z d] es IH]; cbn [ent_put].
  - intros [H|[]]. left. symmetry. exact H.
  - destruct (String.eqb x z); [|destruct (String.ltb x z)]; intros H.
    + destruct H as [H|H]; [left; symmetry; exact H|].
      right. right. exact (In_ent_del _ _ _ H).
    + destruct H as [H|[H|H]]; [left; symmetry; exact H|right; left; exact H|].
      right. right. exact (In_ent_del _ _ _ H).
    + destruct H as [H|H]; [right; left; exact H|].
      destruct (IH H) as [E|E]; [left; exact E|right; right; exact E].
Qed.

Lemma wf_put p : forall v n,
  wf_node n = true ->
  (forall c, v = Some c -> wf_node c = true) ->
  wf_node (put p v n) = true.
Proof.
  induction p as [|x rest IH]; intros v n Hn Hv.
  - destruct v as [c|]; [apply Hv; reflexivity|exact Hn].
  - destruct n as [m i d|t|m es]; [exact Hn|exact Hn|].
    rewrite wf_node_dir in Hn. apply andb_true_iff in Hn.
    destruct Hn as [Hd Hall]. rewrite forallb_forall in Hall.
    destruct rest as [|y rest]; cbn [put].
    + destruct v as [c|]; rewrite wf_node_dir; apply andb_true_iff; split.
      * apply names_nodup_ent_put. exact Hd.
      * apply forallb_forall. intros e He.
        destruct (In_ent_put _ _ _ _ He) as [->|Hin];
          [apply Hv; reflexivity|apply Hall; exact Hin].
      * apply names_nodup_ent_del. exact Hd.
      * apply forallb_forall. intros e He. apply Hall.
        exact (In_ent_del _ _ _ He).
    + destruct (ent_get x es) as [c|] eqn:G.
      * rewrite wf_node_dir. apply andb_true_iff. split.
        -- apply names_nodup_ent_put. exact Hd.
        -- apply forallb_forall. intros e He.
           destruct (In_ent_put _ _ _ _ He) as [->|Hin];
             [|apply Hall; exact Hin].
           cbn [snd]. apply IH; [|exact Hv].
           apply (Hall (x, c)). apply ent_get_In. exact G.
      * rewrite wf_node_dir. apply andb_true_iff. split; [exact Hd|].
        apply forallb_forall. exact Hall.
Qed.

Lemma stays_wf_refl n : stays_wf n n.
Proof. intros H. exact H. Qed.

#[export] Instance stays_wf_PreOrder : PreOrder stays_wf.
Proof.
  split; [exact stays_wf_refl|].
  intros a b c H1 H2 H. apply H2, H1, H.
Qed.

Lemma fs_mkdir_wf p perm n n' : fs_mkdir p perm n = inr n' -> stays_wf n n'.
Proof.
  unfold fs_mkdir. destruct (is_root p); [discriminate|].
  destruct (parent_dir p n); [discriminate|].
  destruct (lookup p n); [discriminate|].
  intros H Hwf. injection H as <-. apply wf_put; [exact Hwf|].
  intros c E. injection E as <-. reflexivity.
Qed.

Lemma fs_create_wf p perm trunc ino n n' :
  fs_create p perm trunc ino n = inr n' -> stays_wf n n'.
Proof.
  unfold fs_create. destruct (is_root p); [discriminate|].
  destruct (parent_dir p n); [discriminate|].
  destruct (lookup p n) as [[m i d| |]|]; try discriminate;
    intros H Hwf; injection H as <-.
  - destruct trunc; [|exact Hwf]. apply wf_put; [exact Hwf|].
    intros c E. injection E as <-. reflexivity.
  - apply wf_put; [exact Hwf|].
    intros c E. injection E as <-. reflexivity.
Qed.

Lemma Mkdir_wf p perm : preserves stays_wf any_syscall (os.Mkdir p perm).
Proof.
  apply (preserves_sys stays_wf any_syscall (SysMkdir p)
           (fun w => fs_mkdir p perm (fs w))).
  - exact I.
  - intros w n'. apply fs_mkdir_wf.
Qed.

Lemma MkdirAll_wf p perm : preserves stays_wf any_syscall (os.MkdirAll p perm).
Proof.
  unfold os.MkdirAll. generalize (rev p) as rp. clear p.
  induction rp as [|x parent IH]; cbn [os.MkdirAll_rev].
  - papply preserves_bind.
    + papply preserves_try; papply preserves_reader; apply Stat_reads.
    + intros [dir|e]; [|papply preserves_fail].
      destruct (IsDir dir); [papply preserves_ret|papply preserves_fail].
  - papply preserves_bind.
    + papply preserves_try; papply preserves_reader; apply Stat_reads.
    + intros [dir|e0].
      { destruct (IsDir dir); [papply preserves_ret|papply preserves_fail]. }
      papply preserves_bind; [exact IH|].
      intros _. papply preserves_bind.
      * papply preserves_try. apply Mkdir_wf.
      * intros [u|e]; [papply preserves_ret|].
        papply preserves_bind.
        -- papply preserves_try; papply preserves_reader; apply Lstat_reads.
        -- intros [dir|e1]; [|papply preserves_fail].
           destruct (IsDir dir); [papply preserves_ret|papply preserves_fail].
Qed.

Lemma acquireCacheLock_wf cm c :
  preserves stays_wf any_syscall (acquireCacheLock cm c).
Proof.
  unfold acquireCacheLock.
  papply preserves_bind; [apply MkdirAll_wf|].
  intros _. papply preserves_bind.
  - eapply preserves_weaken;
      [| |apply (OpenCreate_steps stays_wf _ 420 false stays_wf_refl)].
    + auto.
    + intros s _. exact I.
    + intros ino n n'. apply fs_create_wf.
  - intros _. papply preserves_bind.
    + papply preserves_try. papply preserves_reader.
      intros w. unfold os.Flock. destruct (existsb _ _); reflexivity.
    + intros [u|e]; papply preserves_ret.
Qed.

(** *** The move across devices *)

Lemma calls_refl P w : calls P w w.
Proof. exists []. split; [reflexivity|constructor]. Qed.

Lemma calls_trans P w1 w2 w3 : calls P w1 w2 -> calls P w2 w3 -> calls P w1 w3.
Proof.
  intros (l1 & t1 & f1) (l2 & t2 & f2). exists (l2 ++ l1). split.
  - rewrite t2, t1, app_assoc. reflexivity.
  - apply Forall_app. split; assumption.
Qed.

Lemma steps_calls R E (P : syscall -> Prop) w w' :
  (forall c, E c -> P c) -> steps R E w w' -> calls P w w'.
Proof.
  intros Hp (_ & _ & l & t & f). exists l. split; [exact t|].
  eapply Forall_impl; [|exact f]. intros e [Ee _]. apply Hp. exact Ee.
Qed.

Lemma sys_calls (P : syscall -> Prop) c r mk w res w' :
  os.sys c r mk w = (res, w') -> P c -> calls P w w'.
Proof.
  intros H Hp. destruct (sys_run _ _ _ _ _ _ H) as (_ & T & _).
  exists [(c, fs w')]. split; [exact T|]. constructor; [exact Hp|constructor].
Qed.

Lemma creates_no_link D c : creates false D c -> is_link c = false.
Proof. intros (_ & _ & _ & H). apply H. reflexivity. Qed.

Lemma fs_rename_exdev ms l c x n m es mc :
  l <> [] ->
  lookup l n = Some (Directory m es) ->
  stat c n = Some (IDir mc) ->
  stat (c ++ [x]) n = None ->
  devOf ms l <> devOf ms (c ++ [x]) ->
  fs_rename ms l (c ++ [x]) n = inl EXDEV.
Proof.
  intros Hl Ll Sc St Dv. unfold fs_rename.
  apply lookup_none_stat in St. rewrite St.
  assert (Rl : is_root l = false) by (destruct l; [contradiction|reflexivity]).
  assert (Rt : is_root (c ++ [x]) = false) by (destruct c; reflexivity).
  rewrite Rl, Rt. cbn [orb].
  rewrite (resolve_parent_dir _ _ _ Hl (lookup_resolve _ _ _ Ll)).
  rewrite (parent_dir_child _ _ _ _ Sc).
  apply N.eqb_neq in Dv. rewrite Dv. reflexivity.
Qed.

Lemma isCrossDevice_EXDEV a b :
  isCrossDevice (LinkError "rename" a b EXDEV) = true.
Proof.
  unfold isCrossDevice. cbn [Error errno_str].
  rewrite (Contains_app_r "rename"), ?orb_true_l; [reflexivity|].
  apply (Contains_app_r " "). apply Contains_app_r.
  apply (Contains_app_r " "). apply Contains_app_r.
  apply (Contains_app_r ": "). vm_compute. reflexivity.
Qed.

Section CrossDevice.
Variable cm : CacheManager.
Variables l c : path.
Variable x : string.
Hypothesis base : filepath.Base l = [x].
Hypothesis apart : comparable l (filepath.Dir c) = false.

Lemma cross_device_run hb w r w' :
  wf_node (fs w) = true ->
  dirExists l w = true ->
  stat (c ++ [x]) (fs w) = None ->
  lockFree c w ->
  devOf (mounts w) l <> devOf (mounts w) (c ++ [x]) ->
  moveToCache cm l c hb w = (r, w') ->
  (r = Ok tt ->
   forall q i, stat (l ++ q) (fs w) = Some i ->
     exists j, stat ((c ++ [x]) ++ q) (fs w') = Some j /\ copyOf i j)
  /\ noLinks w w'
  /\ (hb = true -> keeps l (fs w) (fs w'))
  /\ (hb = false -> r = Ok tt -> forall q, stat (l ++ q) (fs w') = None).
Proof.
  intros Hwf Hd Ht Hf Hv H.
  set (t := c ++ [x]) in *.
  assert (At : comparable l t = false).
  { pose proof (apart_target l c x apart []) as C.
    rewrite app_nil_r in C. exact C. }
  assert (Kc : forall n, grows (cacheSide c) (fs w) n -> keeps l (fs w) n).
  { intros n. apply (keeps_workspace_cacheSide l c apart). }
  assert (Lc : forall s, creates false (cacheSide c) s -> is_link s = false).
  { intros s. apply creates_no_link. }
  unfold moveToCache in H. rewrite base in H.
  unfold filepath.Join in H. fold t in H.
  unfold bind at 1 in H.
  destruct (acquireCacheLock cm c w) as [rl w1] eqn:A.
  pose proof (acquireCacheLock_grows cm c _ _ _ A) as S1.
  pose proof (acquireCacheLock_wf cm c _ _ _ A) as W1.
  destruct rl as [[lp|]|e].
  3:{ injection H as <- <-. split; [discriminate|].
      split; [exact (steps_calls _ _ _ _ _ Lc S1)|].
      split; [|discriminate].
      intros _. apply Kc. destruct S1 as (_ & G & _). exact G. }
  2:{ exfalso. exact (acquireCacheLock_free _ _ _ _ Hf A). }
  unfold defer in H.
  match type of H with
  | (let (_, _) := ?body w1 in _) = _ =>
      destruct (body w1) as [rb wb] eqn:B
  end.
  cbn in H. injection H as <- <-.
  assert (T1 : stat t (fs w1) = None).
  { destruct S1 as (_ & G1 & _).
    pose proof (keeps_target_cacheSide l c x apart _ _ G1 []) as K.
    rewrite app_nil_r in K. fold t in K. congruence. }
  unfold bind at 1, gets in B. rewrite (stat_none_dirExists _ _ T1) in B.
  unfold bind at 1 in B.
  destruct (os.MkdirAll c 493 w1) as [rm w2] eqn:M.
  pose proof (MkdirAll_cacheSide c 493 _ _ _ M) as S2.
  pose proof (MkdirAll_wf c 493 _ _ _ M) as W2.
  assert (S12 : steps (grows (cacheSide c)) (creates false (cacheSide c))
                  w w2)
    by (apply (steps_trans (grows (cacheSide c)) _ w w1 w2); assumption).
  assert (W12 : steps stays_wf any_syscall w w2)
    by (apply (steps_trans stays_wf _ w w1 w2); assumption).
  pose proof (steps_calls _ _ _ _ _ Lc S12) as C12.
  destruct S12 as (Env2 & G2 & _).
  pose proof (Kc _ G2) as Kl2.
  destruct rm as [[]|e].
  2:{ injection B as <- <-. split; [discriminate|].
      split; [exact C12|]. split; [intros _; exact Kl2|discriminate]. }
  destruct (MkdirAll_post _ _ _ _ M) as [(mc & Sc) _].
  destruct (dirExists_lookup _ _ Hd) as (m & es & Ll).
  apply lookup_stat in Ll. cbn [info_of] in Ll.
  destruct (stat_dir_lookup _ _ _ (grows_extends _ _ _ G2 l _ Ll))
    as (es2 & Ll2).
  assert (T2 : stat t (fs w2) = None).
  { pose proof (keeps_target_cacheSide l c x apart _ _ G2 []) as K.
    rewrite app_nil_r in K. fold t in K. congruence. }
  assert (Dv2 : devOf (mounts w2) l <> devOf (mounts w2) t).
  { destruct Env2 as (-> & _). exact Hv. }
  pose proof (fs_rename_exdev (mounts w2) l c x (fs w2) m es2 mc
                (proj1 (apart_nonempty _ _ apart)) Ll2 Sc T2 Dv2) as Fr.
  fold t in Fr.
  unfold bind at 1 in B.
  destruct (os.Rename l t w2) as [rn w3] eqn:Rn.
  destruct (sys_run _ _ _ _ _ _ Rn) as (Env3 & Tr3 & F3).
  rewrite Fr in F3. destruct F3 as [F3 ->].
  rewrite (try_eq Rn) in B. rewrite isCrossDevice_EXDEV in B.
  assert (C13 : noLinks w w3).
  { eapply calls_trans; [exact C12|].
    eapply sys_calls; [exact Rn|reflexivity]. }
  assert (Kl3 : keeps l (fs w) (fs w3)) by (rewrite F3; exact Kl2).
  assert (W3 : wf_node (fs w3) = true).
  { rewrite F3. destruct W12 as (_ & W & _). exact (W Hwf). }
  assert (T3 : stat t (fs w3) = None) by (rewrite F3; exact T2).
  unfold copyToCache in B. unfold bind at 1 in B.
  destruct (copyDir l t w3) as [rc w4] eqn:Cp.
  pose proof (copyDir_fills l t _ _ _ Cp) as S4.
  assert (C14 : noLinks w w4).
  { eapply calls_trans; [exact C13|].
    apply (steps_calls _ _ _ _ _ (creates_no_link (comparable t)) S4). }
  destruct S4 as (_ & F4 & _).
  assert (Kl4 : keeps l (fs w) (fs w4)).
  { eapply keeps_trans; [exact Kl3|]. exact (fills_keeps l t _ _ At F4). }
  destruct rc as [[]|e].
  2:{ injection B as <- <-. split; [discriminate|].
      split; [exact C14|]. split; [intros _; exact Kl4|discriminate]. }
  assert (Cp4 : forall q i, stat (l ++ q) (fs w) = Some i ->
                  exists j, stat (t ++ q) (fs w4) = Some j /\ copyOf i j).
  { intros q i Sq. apply (copyDir_post l t w3 w4 q i W3 At T3 Cp).
    rewrite (Kl3 q). exact Sq. }
  destruct hb.
  - injection B as <- <-. split; [intros _; exact Cp4|].
    split; [exact C14|]. split; [intros _; exact Kl4|discriminate].
  - destruct (sys_run _ _ _ _ _ _ B) as (_ & _ & F5).
    assert (C15 : noLinks w wb).
    { eapply calls_trans; [exact C14|].
      eapply sys_calls; [exact B|reflexivity]. }
    split; [|split; [exact C15|split; [discriminate|]]].
    + intros ->.
      destruct (fs_remove_all l (fs w4)) as [en|n5] eqn:Fm;
        [destruct F5 as [_ F5]; discriminate|].
      destruct F5 as [E5 _]. intros q i Sq.
      destruct (Cp4 q i Sq) as (j & Sj & Cj). exists j. split; [|exact Cj].
      rewrite E5, (fs_remove_all_spec _ _ _ Fm (t ++ q)).
      pose proof (apart_target l c x apart q) as C. fold t in C.
      unfold comparable in C. apply orb_false_iff in C.
      destruct C as [-> _]. exact Sj.
    + intros _ ->.
      destruct (fs_remove_all l (fs w4)) as [en|n5] eqn:Fm;
        [destruct F5 as [_ F5]; discriminate|].
      destruct F5 as [E5 _]. intros q.
      rewrite E5, (fs_remove_all_spec _ _ _ Fm (l ++ q)), is_prefix_app.
      reflexivity.
Qed.
End CrossDevice.

(** C5, as the code has it.  When [moveToCache] holds the lock and the
    workspace directory is on another device than the cache, the rename
    fails with a cross-device error and the tree is copied into the
    cache entry: if the call returns without an error, every entry of
    the workspace directory has its copy at the mirrored path.  No
    link(2) is issued.  With [hardlinkBack] the workspace directory is
    left as it was; without it, and the call returning no error, the
    workspace directory is removed. *)
Theorem cross_device_move_copies cm l c hb w r w' :
  wf_node (fs w) = true ->
  comparable l (filepath.Dir c) = false ->
  dirExists l w = true ->
  stat (c ++ filepath.Base l) (fs w) = None ->
  lockFree c w ->
  devOf (mounts w) l <> devOf (mounts w) (c ++ filepath.Base l) ->
  moveToCache cm l c hb w = (r, w') ->
  (r = Ok tt ->
   forall q i, stat (l ++ q) (fs w) = Some i ->
     exists j, stat ((c ++ filepath.Base l) ++ q) (fs w') = Some j
               /\ copyOf i j)
  /\ noLinks w w'
  /\ (hb = true -> keeps l (fs w) (fs w'))
  /\ (hb = false -> r = Ok tt -> forall q, stat (l ++ q) (fs w') = None).
Proof.
  intros Hwf apart.
  destruct (Base_nonempty l (proj1 (apart_nonempty _ _ apart))) as (x & Bx).
  rewrite Bx. apply (cross_device_run cm l c x Bx apart hb w r w' Hwf).
Qed.

Lemma cross_device_move_copies_witness :
  let w := CrossInputs.apart in
  let l := ["p"; "w1"; "target"] in
  let run := moveToCache Inputs.cm l RootInputs.cachePath true w in
  fst run = Ok tt
  /\ noLinks w (snd run)
  /\ keeps l (fs w) (fs (snd run))
  /\ exists j, stat (RootInputs.cachePath ++ ["target"; "debug"; "foo.o"])
                    (fs (snd run)) = Some j
               /\ copyOf (IFile 420 5 (bytes "O")) j.
Proof.
  intros w l run.
  assert (R : fst run = Ok tt) by (vm_compute; reflexivity).
  destruct (cross_device_move_copies Inputs.cm l RootInputs.cachePath true w
              (fst run) (snd run)) as (Cp & Nl & Kl & _).
  - vm_compute. reflexivity.
  - vm_compute. reflexivity.
  - vm_compute. reflexivity.
  - vm_compute. reflexivity.
  - vm_compute. reflexivity.
  - vm_compute. discriminate.
  - apply surjective_pairing.
  - split; [exact R|]. split; [exact Nl|]. split; [exact (Kl eq_refl)|].
    apply (Cp R ["debug"; "foo.o"]). vm_compute. reflexivity.
Defined.

(** With [hardlinkBack] the cache copy is not linked back: the files of
    the entry are new, and no link(2) was issued for them. *)
Lemma no_hardlink_back_counterexample :
  let w := CrossInputs.apart in
  let l := ["p"; "w1"; "target"] in
  let run := moveToCache Inputs.cm l RootInputs.cachePath true w in
  fst run = Ok tt
  /\ ~ linkedBack l (RootInputs.cachePath ++ ["target"]) w (snd run).
Proof.
  cbv zeta. split; [vm_compute; reflexivity|].
  intros (cs & T & L).
  cbn [CrossInputs.apart Inputs.mk trace] in T. rewrite app_nil_r in T.
  subst cs.
  destruct (L ["debug"; "foo.o"] 420%N 101%N (bytes "O")) as (n & Hin).
  - vm_compute. reflexivity.
  - assert (F : forallb (fun e => negb (is_link (fst e)))
                  (trace (snd (moveToCache Inputs.cm ["p"; "w1"; "target"]
                                 RootInputs.cachePath true
                                 CrossInputs.apart))) = true)
      by (vm_compute; reflexivity).
    rewrite forallb_forall in F. specialize (F _ Hin).
    cbn [fst is_link negb] in F. discriminate.
Qed.

(* ------------------------------------------------------------------ *)
(** * Further properties of the cache manager *)

(** ** [PrepareArtifactCache] *)

Lemma PrepareArtifactCache_world cm artifacts rootPath envPath w :
  snd (PrepareArtifactCache cm artifacts rootPath envPath w) = w.
Proof.
  induction artifacts as [|a rest IH]; [reflexivity|].
  cbn [PrepareArtifactCache]. unfold bind at 1.
  pose proof (ComputeCacheKey_world cm a envPath w) as K.
  destruct (ComputeCacheKey cm a envPath w) as [[key|e] w0]; simpl in K;
    subst w0; [|reflexivity].
  unfold bind at 1, gets at 1. unfold bind at 1.
  destruct (PrepareArtifactCache cm rest rootPath envPath w)
    as [[es|e] w1]; simpl in IH; subst w1; reflexivity.
Qed.

Lemma PrepareArtifactCache_ok cm rootPath envPath w artifacts : forall es w',
  PrepareArtifactCache cm artifacts rootPath envPath w = (Ok es, w') ->
  Forall2 (entryOf cm rootPath envPath w) artifacts es.
Proof.
  induction artifacts as [|a rest IH]; intros es w' H.
  - injection H as <- _. constructor.
  - cbn [PrepareArtifactCache] in H.
    apply bind_inv in H. destruct H as (key & w0 & Hk & H).
    pose proof (ComputeCacheKey_world cm a envPath w) as K.
    rewrite Hk in K. simpl in K. subst w0.
    apply bind_inv in H. destruct H as (hit & w0 & Hh & H).
    injection Hh as <- <-.
    apply bind_inv in H. destruct H as (rest' & w1 & Hr & H).
    injection H as <- _.
    constructor; [|exact (IH _ _ Hr)].
    unfold entryOf, key_of. rewrite Hk. simpl. repeat split.
Qed.

Lemma PrepareArtifactCache_is_ok cm rootPath envPath w artifacts :
  is_ok (fst (PrepareArtifactCache cm artifacts rootPath envPath w)) = true
  <-> Forall (keyComputable cm envPath w) artifacts.
Proof.
  induction artifacts as [|a rest IH].
  - split; [constructor|reflexivity].
  - cbn [PrepareArtifactCache]. unfold bind at 1.
    pose proof (ComputeCacheKey_world cm a envPath w) as K.
    destruct (ComputeCacheKey cm a envPath w) as [[key|e] w0] eqn:Hk;
      simpl in K; subst w0.
    + unfold bind at 1, gets at 1. unfold bind at 1.
      pose proof (PrepareArtifactCache_world cm rest rootPath envPath w) as W.
      destruct (PrepareArtifactCache cm rest rootPath envPath w)
        as [[es|e] w1] eqn:Hr; simpl in W; subst w1; simpl in *.
      * split; [|reflexivity]. intros _. constructor.
        -- unfold keyComputable, key_of. rewrite Hk. discriminate.
        -- apply IH. reflexivity.
      * split; [discriminate|]. intros F. inversion F; subst.
        apply IH. assumption.
    + simpl. split; [discriminate|]. intros F. inversion F; subst.
      exfalso. apply H1. unfold key_of. rewrite Hk. reflexivity.
Qed.



(** X2.  [PrepareArtifactCache] returns entries exactly when the cache
    key of every artifact can be computed: one artifact whose key fails
    makes the whole call fail, whatever the artifacts before it gave.
    In both cases the world is left as it was. *)
Theorem PrepareArtifactCache_all_or_nothing cm artifacts rootPath envPath w :
  snd (PrepareArtifactCache cm artifacts rootPath envPath w) = w
  /\ (is_ok (fst (PrepareArtifactCache cm artifacts rootPath envPath w))
      = true
      <-> Forall (keyComputable cm envPath w) artifacts).
Proof.
  split.
  - apply PrepareArtifactCache_world.
  - apply PrepareArtifactCache_is_ok.
Qed.

(** ** The project identifier *)

(** X3.  The project identifier is made of 12 lowercase hexadecimal
    digits, whatever the project path. *)
Theorem ComputeProjectID_shape rootPath :
  String.length (ComputeProjectID rootPath) = 12%nat
  /\ string_forallb is_lower_hex (ComputeProjectID rootPath) = true.
Proof.
  unfold ComputeProjectID, str_take. split.
  - apply substring_0_length. rewrite hex_length, digest_length. lia.
  - apply substring_0_forallb, hex_lower.
Qed.

(** ** The tree stays well formed *)

Lemma fs_link_wf ms a b n n' : fs_link ms a b n = inr n' -> stays_wf n n'.
Proof.
  unfold fs_link. destruct (resolve a n) as [e|src] eqn:Ra; [discriminate|].
  destruct (is_root b); [discriminate|].
  destruct (parent_dir b n); [discriminate|].
  destruct (lookup b n); [discriminate|].
  destruct (negb _); [discriminate|].
  destruct (node_is_dir src); [discriminate|].
  intros H Hwf. injection H as <-. apply wf_put; [exact Hwf|].
  intros c E. injection E as <-.
  exact (wf_node_lookup _ _ _ Hwf (resolve_lookup _ _ _ Ra)).
Qed.

Lemma fs_symlink_wf t p n n' : fs_symlink t p n = inr n' -> stays_wf n n'.
Proof.
  unfold fs_symlink. destruct (is_root p); [discriminate|].
  destruct (parent_dir p n); [discriminate|].
  destruct (lookup p n); [discriminate|].
  intros H Hwf. injection H as <-. apply wf_put; [exact Hwf|].
  intros c E. injection E as <-. reflexivity.
Qed.

Lemma fs_remove_all_wf p n n' : fs_remove_all p n = inr n' -> stays_wf n n'.
Proof.
  unfold fs_remove_all. destruct (is_root p); [discriminate|].
  destruct (resolve p n) as [[]|c]; try discriminate;
    intros H Hwf; injection H as <-; [exact Hwf|].
  apply wf_put; [exact Hwf|discriminate].
Qed.

Lemma fs_rename_wf ms a b n n' : fs_rename ms a b n = inr n' -> stays_wf n n'.
Proof.
  unfold fs_rename. intros H Hwf.
  assert (G : forall src, resolve a n = inr src ->
            wf_node (put b (Some src) (put a None n)) = true).
  { intros src Ra. apply wf_put.
    - apply wf_put; [exact Hwf|discriminate].
    - intros c E. injection E as <-.
      exact (wf_node_lookup _ _ _ Hwf (resolve_lookup _ _ _ Ra)). }
  destruct (lookup b n) as [[| |]|];
    try (destruct (resolve a n); discriminate);
    (destruct (is_root a || is_root b); [discriminate|]);
    (destruct (parent_dir a n); [discriminate|]);
    (destruct (parent_dir b n); [discriminate|]);
    (destruct (negb _); [discriminate|]);
    (destruct (resolve a n) as [e|src] eqn:Ra; [discriminate|]);
    (destruct (path_eqb a b); [injection H as <-; exact Hwf|]);
    (destruct (is_prefix a b); [discriminate|]);
    (destruct (node_is_dir src && _); [discriminate|]);
    injection H as <-; apply G; reflexivity.
Qed.

Lemma fs_write_wf p data n n' : fs_write p data n = inr n' -> stays_wf n n'.
Proof.
  unfold fs_write. destruct (resolve p n) as [e|[m i d|t|m es]];
    try discriminate.
  intros H Hwf. injection H as <-. apply wf_put; [exact Hwf|].
  intros c E. injection E as <-. reflexivity.
Qed.

Lemma fs_chmod_wf p mode n n' : fs_chmod p mode n = inr n' -> stays_wf n n'.
Proof.
  unfold fs_chmod. destruct (resolve p n) as [e|[m i d|t|m es]] eqn:Rp;
    try discriminate; intros H Hwf; injection H as <-;
    (apply wf_put; [exact Hwf|]); intros c E; injection E as <-;
    [reflexivity|].
  pose proof (wf_node_lookup _ _ _ Hwf (resolve_lookup _ _ _ Rp)) as W.
  rewrite wf_node_dir in *. exact W.
Qed.

Lemma sys_wf c (f : world -> errno + node) mk :
  (forall w n', f w = inr n' -> stays_wf (fs w) n') ->
  preserves stays_wf any_syscall (fun w => os.sys c (f w) mk w).
Proof.
  intros H. apply (preserves_sys stays_wf any_syscall c f); [exact I|exact H].
Qed.

Lemma Link_wf a b : preserves stays_wf any_syscall (os.Link a b).
Proof.
  apply (sys_wf (SysLink a b) (fun w => fs_link (mounts w) a b (fs w))).
  intros w n'. apply fs_link_wf.
Qed.

Lemma Symlink_wf t p : preserves stays_wf any_syscall (os.Symlink t p).
Proof.
  apply (sys_wf (SysSymlink t p) (fun w => fs_symlink t p (fs w))).
  intros w n'. apply fs_symlink_wf.
Qed.

Lemma RemoveAll_wf p : preserves stays_wf any_syscall (os.RemoveAll p).
Proof.
  apply (sys_wf (SysRemoveAll p) (fun w => fs_remove_all p (fs w))).
  intros w n'. apply fs_remove_all_wf.
Qed.

Lemma Rename_wf a b : preserves stays_wf any_syscall (os.Rename a b).
Proof.
  apply (sys_wf (SysRename a b) (fun w => fs_rename (mounts w) a b (fs w))).
  intros w n'. apply fs_rename_wf.
Qed.

Lemma Write_wf p data : preserves stays_wf any_syscall (os.Write p data).
Proof.
  apply (sys_wf (SysWrite p) (fun w => fs_write p data (fs w))).
  intros w n'. apply fs_write_wf.
Qed.

Lemma Chmod_wf p mode : preserves stays_wf any_syscall (os.Chmod p mode).
Proof.
  apply (sys_wf (SysChmod p) (fun w => fs_chmod p mode (fs w))).
  intros w n'. apply fs_chmod_wf.
Qed.

Lemma OpenCreate_wf p perm trunc :
  preserves stays_wf any_syscall (os.OpenCreate p perm trunc).
Proof.
  eapply preserves_weaken;
    [| |apply (OpenCreate_steps stays_wf p perm trunc stays_wf_refl)].
  - auto.
  - intros s _. exact I.
  - intros ino n n'. apply fs_create_wf.
Qed.

Ltac reads l := papply preserves_reader; intros ?; apply l.

Lemma copyFile_wf s d : preserves stays_wf any_syscall (copyFile s d).
Proof.
  unfold copyFile.
  papply preserves_bind; [reads Open_reads|]. intros inp.
  papply preserves_bind; [apply OpenCreate_wf|]. intros _.
  papply preserves_bind; [reads ReadAll_reads|]. intros data.
  papply preserves_bind; [apply Write_wf|]. intros _.
  papply preserves_bind; [reads Stat_reads|]. intros i.
  apply Chmod_wf.
Qed.

Lemma recreateSymlink_wf p d :
  preserves stays_wf any_syscall (recreateSymlink p d).
Proof.
  unfold recreateSymlink.
  papply preserves_bind; [papply preserves_wrap; reads Readlink_reads|].
  intros t. papply preserves_bind; [papply preserves_try; apply Symlink_wf|].
  intros [u|e]; [papply preserves_ret|].
  destruct (os_err.IsExist e); [papply preserves_ret|papply preserves_fail].
Qed.

Lemma linkOrCopy_wf p d : preserves stays_wf any_syscall (linkOrCopy p d).
Proof.
  unfold linkOrCopy.
  papply preserves_bind; [papply preserves_try; apply Link_wf|].
  intros [u|e]; [papply preserves_ret|].
  destruct (os_err.IsExist e); [papply preserves_ret|].
  destruct (isHardlinkNotSupported e); [apply copyFile_wf|papply preserves_fail].
Qed.

Lemma linkOrCopyFile_wf s d :
  preserves stays_wf any_syscall (linkOrCopyFile s d).
Proof.
  unfold linkOrCopyFile.
  papply preserves_bind; [reads Lstat_reads|]. intros i.
  destruct (is_symlink i); [apply recreateSymlink_wf|apply linkOrCopy_wf].
Qed.

Lemma HardlinkTree_wf src dst :
  preserves stays_wf any_syscall (HardlinkTree src dst).
Proof.
  unfold HardlinkTree, Walk. papply preserves_WalkDir.
  intros p i [].
  destruct (IsDir i); [apply MkdirAll_wf|].
  destruct (is_symlink i); [apply recreateSymlink_wf|apply linkOrCopy_wf].
Qed.

Lemma copyDir_wf src dst : preserves stays_wf any_syscall (copyDir src dst).
Proof.
  unfold copyDir, Walk. papply preserves_WalkDir.
  intros p i [].
  destruct (IsDir i); [apply MkdirAll_wf|].
  destruct (is_symlink i); [apply recreateSymlink_wf|apply copyFile_wf].
Qed.

Lemma seedWalkFn_reads src dst opts p i a w :
  snd (seedWalkFn src dst opts p i a w) = w.
Proof.
  unfold seedWalkFn. destruct a as [dirs files].
  destruct (IsDir i).
  - destruct (shouldSkipPath _ _); reflexivity.
  - destruct (shouldSkipPath _ _); reflexivity.
Qed.

Lemma SeedDirectory_wf src dst opts :
  preserves stays_wf any_syscall (SeedDirectory src dst opts).
Proof.
  unfold SeedDirectory.
  papply preserves_bind.
  { destruct (Logger opts); [|papply preserves_ret].
    papply preserves_bind; [|intros _; papply preserves_ret].
    papply preserves_wrap. reads countFiles_reads. }
  intros _. papply preserves_bind.
  { papply preserves_wrap. papply preserves_reader. intros w.
    apply WalkDir_reads. apply seedWalkFn_reads. }
  intros [dirs files].
  papply preserves_bind.
  - papply preserves_forM. intros d _. papply preserves_wrap.
    apply MkdirAll_wf.
  - intros _. papply preserves_forM. intros f _. papply preserves_wrap.
    apply linkOrCopyFile_wf.
Qed.

(** ** [SeedDirectory] and [HardlinkTree] only add *)

Lemma grows_onlyAdds dst w w' :
  steps (grows (comparable dst)) (creates true (comparable dst)) w w' ->
  onlyAdds dst w w'.
Proof.
  intros S. pose proof S as (_ & G & _). split; [|split].
  - exact (grows_extends _ _ _ G).
  - exact (grows_only _ _ _ G).
  - eapply steps_calls; [|exact S].
    intros c (D & Rn & Rm & _). auto.
Qed.

(** X4.  [SeedDirectory] only adds, whatever it returns: every entry
    that was on the disk, in the source, in the destination or
    elsewhere, is still there afterwards with the mode, the inode and
    the content or target it had; nothing changes at a path that is
    neither above nor below the destination; and no system call it
    issues is a rename or a removal.  In particular a file that is
    already in the destination is never overwritten. *)
Theorem SeedDirectory_only_adds src dst opts w r w' :
  SeedDirectory src dst opts w = (r, w') -> onlyAdds dst w w'.
Proof.
  intros H. apply grows_onlyAdds. exact (SeedDirectory_grows _ _ _ _ _ _ H).
Qed.

Lemma SeedDirectory_only_adds_witness :
  onlyAdds ["dst"]
    SeedInputs.occupied
    (snd (SeedDirectory ["src"] ["dst"] SeedInputs.opts SeedInputs.occupied)).
Proof.
  apply (SeedDirectory_only_adds ["src"] ["dst"] SeedInputs.opts
           SeedInputs.occupied
           (fst (SeedDirectory ["src"] ["dst"] SeedInputs.opts
                   SeedInputs.occupied))).
  apply surjective_pairing.
Defined.

(** X5.  [HardlinkTree] only adds as well, whatever it returns: what was
    on the disk stays as it was, nothing changes at a path that is
    neither above nor below the destination, and it issues no rename and
    no removal. *)
Theorem HardlinkTree_only_adds src dst w r w' :
  HardlinkTree src dst w = (r, w') -> onlyAdds dst w w'.
Proof.
  intros H. apply grows_onlyAdds. exact (HardlinkTree_grows _ _ _ _ _ H).
Qed.

Lemma HardlinkTree_only_adds_witness :
  onlyAdds ["dst"]
    SeedInputs.occupied
    (snd (HardlinkTree ["src"] ["dst"] SeedInputs.occupied)).
Proof.
  apply (HardlinkTree_only_adds ["src"] ["dst"] SeedInputs.occupied
           (fst (HardlinkTree ["src"] ["dst"] SeedInputs.occupied))).
  apply surjective_pairing.
Defined.

(** ** [copyFile] *)



(** ** What [HardlinkTree] leaves *)

Lemma noSkip_linkOrCopy s d : noSkip (linkOrCopy s d).
Proof.
  unfold linkOrCopy. apply noSkip_try_bind.
  - intros _. apply noSkip_ret.
  - intros e Ne. destruct (os_err.IsExist e); [apply noSkip_ret|].
    destruct (isHardlinkNotSupported e); [apply noSkip_copyFile|].
    apply noSkip_fail. exact Ne.
  - apply (noSkip_sys (SysLink s d)
             (fun w => fs_link (mounts w) s d (fs w))).
    reflexivity.
Qed.

Lemma noSkip_linkEntry src dst p i : noSkip (linkEntry src dst p i).
Proof.
  unfold linkEntry. destruct (IsDir i).
  - unfold os.MkdirAll. apply noSkip_MkdirAll_rev.
  - destruct (is_symlink i);
      [apply noSkip_recreateSymlink|apply noSkip_linkOrCopy].
Qed.

Lemma HardlinkTree_flat src dst w n :
  resolve src (fs w) = inr n ->
  HardlinkTree src dst w
  = forM (fun e => linkEntry src dst (fst e) (snd e)) (entriesOf src n) w.
Proof.
  intros R. unfold HardlinkTree, Walk, WalkDir. rewrite R.
  pose proof (walkDir_flat (linkEntry src dst) n
                (noSkip_linkEntry src dst) src w) as F.
  unfold linkEntry in F at 1. rewrite F.
  destruct (forM _ _ w) as [[[]|e] w1] eqn:Ef; [reflexivity|].
  rewrite (noSkip_forM _ _ (fun e0 => noSkip_linkEntry src dst (fst e0)
                                         (snd e0)) _ _ _ Ef).
  reflexivity.
Qed.

Lemma linkEntry_grows src dst p i :
  preserves (grows (comparable dst)) (creates true (comparable dst))
    (linkEntry src dst p i).
Proof.
  unfold linkEntry.
  destruct (IsDir i); [|destruct (is_symlink i)].
  - eapply preserves_weaken; [| |apply MkdirAll_grows].
    + intros a b. apply grows_weaken. intros q. apply comparable_prefix_of.
    + intros c. apply creates_weaken; [|auto].
      intros q. apply comparable_prefix_of.
  - eapply preserves_weaken; [| |apply recreateSymlink_grows].
    + intros a b. apply grows_weaken. intros q. apply comparable_eq_under.
    + intros c. apply creates_weaken; [|auto].
      intros q. apply comparable_eq_under.
  - eapply preserves_weaken; [| |apply linkOrCopy_grows].
    + intros a b. apply grows_weaken. intros q. apply comparable_eq_under.
    + intros c. apply creates_weaken; [|auto].
      intros q. apply comparable_eq_under.
Qed.

Section LinkLoop.
Variables src dst : path.
Variable n : node.
Variable w0 : world.
Variable r0 : path.
Variable c0 : node.
Hypothesis apart : comparable src dst = false.
Hypothesis snapshot : lookup src (fs w0) = Some n.
Hypothesis source : lookup r0 n = Some c0.

Let linked (w : world) : Prop :=
  exists j, stat (dst ++ r0) (fs w) = Some j /\ copyOf (info_of c0) j.

Lemma linked_extends w w1 :
  extends (fs w) (fs w1) -> linked w -> linked w1.
Proof.
  intros X (j & Sj & Cj). exists j. split; [apply X; exact Sj|exact Cj].
Qed.

Lemma link_step w w1 r c L :
  keeps src (fs w0) (fs w) ->
  lookup r n = Some c ->
  linkEntry src dst (src ++ r) (info_of c) w = (Ok tt, w1) ->
  linked w
  \/ (stat (dst ++ r0) (fs w) = None
      /\ In (src ++ r0, info_of c0) ((src ++ r, info_of c) :: L)) ->
  linked w1
  \/ (stat (dst ++ r0) (fs w1) = None /\ In (src ++ r0, info_of c0) L).
Proof.
  intros K Lr H Inv.
  pose proof (source_stat src n w0 snapshot w r c K Lr) as Ss.
  destruct (linkEntry_grows _ _ _ _ _ _ _ H) as (_ & G & _).
  pose proof (grows_extends _ _ _ G) as X.
  destruct Inv as [C|[N Hin]]; [left; exact (linked_extends _ _ X C)|].
  unfold linkEntry in H. rewrite Rel_Join in H. unfold filepath.Join in H.
  destruct (list_eq_dec string_dec r r0) as [->|Nr].
  - (* the entry itself *)
    left. assert (c = c0) by congruence. subst c.
    destruct c0 as [m ino dat|t|m es]; cbn [info_of IsDir is_symlink] in *.
    + destruct (linkOrCopy_post _ _ _ _ H N) as (i & j & S1 & S2 & Rp).
      rewrite Ss in S1. injection S1 as <-.
      exists j. split; [exact S2|].
      destruct j; cbn in Rp |- *; try contradiction; exact Rp.
    + destruct (recreateSymlink_post _ _ _ _ H N) as (t' & S1 & S2).
      rewrite Ss in S1. injection S1 as <-.
      exists (ISymlink t). split; [exact S2|]. cbn. reflexivity.
    + destruct (MkdirAll_post _ _ _ _ H) as [(m' & S') _].
      exists (IDir m'). split; [exact S'|]. cbn. exact I.
  - (* another entry *)
    assert (Nd : dst ++ r <> dst ++ r0).
    { intros E. apply app_inv_head in E. contradiction. }
    assert (Ne : (src ++ r, info_of c) <> (src ++ r0, info_of c0)).
    { intros E. injection E as E _. apply app_inv_head in E. contradiction. }
    assert (Hin' : In (src ++ r0, info_of c0) L).
    { destruct Hin as [E|Hin]; [contradiction|exact Hin]. }
    destruct (IsDir (info_of c)) eqn:Dc.
    + destruct (MkdirAll_grows _ _ _ _ _ H) as (_ & G1 & _).
      destruct (MkdirAll_no_new_leaves _ _ _ _ _ H) as (_ & Nl & _).
      destruct (stat (dst ++ r0) (fs w1)) as [j|] eqn:S1.
      * left. exists j. split; [exact S1|].
        destruct (IsDir j) eqn:Dj.
        -- destruct (G1 (dst ++ r0)) as [E|[_ P]]; [congruence|].
           apply is_prefix_app_inv in P. destruct P as (t & ->).
           rewrite (lookup_app _ _ _ t source) in Lr.
           destruct (node_is_dir c0) eqn:D0.
           ++ destruct c0; try discriminate. destruct j; try discriminate.
              cbn. exact I.
           ++ destruct (lookup_leaf _ _ _ Lr D0) as [-> _].
              rewrite app_nil_r in Nr. contradiction.
        -- rewrite (Nl _ _ S1 Dj) in N. discriminate.
      * right. split; [reflexivity|exact Hin'].
    + right. split; [|exact Hin'].
      assert (E : stat (dst ++ r0) (fs w1) = stat (dst ++ r0) (fs w)).
      { destruct (is_symlink (info_of c)).
        - destruct (recreateSymlink_grows _ _ _ _ _ H) as (_ & G1 & _).
          destruct (G1 (dst ++ r0)) as [E|[_ P]]; [exact E|].
          apply path_eqb_eq in P. contradiction.
        - destruct (linkOrCopy_grows _ _ _ _ _ H) as (_ & G1 & _).
          destruct (G1 (dst ++ r0)) as [E|[_ P]]; [exact E|].
          apply path_eqb_eq in P. contradiction. }
      congruence.
Qed.

Lemma link_loop L : forall w w',
  (forall e, In e L ->
     exists r c, fst e = src ++ r /\ lookup r n = Some c
                 /\ info_of c = snd e) ->
  keeps src (fs w0) (fs w) ->
  forM (fun e => linkEntry src dst (fst e) (snd e)) L w = (Ok tt, w') ->
  linked w
  \/ (stat (dst ++ r0) (fs w) = None /\ In (src ++ r0, info_of c0) L) ->
  linked w'.
Proof.
  induction L as [|e L IH]; intros w w' Hs K H Inv.
  - injection H as <-. destruct Inv as [C|[_ []]]. exact C.
  - apply forM_cons_inv in H. destruct H as (w1 & H1 & H2).
    destruct (Hs e (or_introl eq_refl)) as (r & c & Ef & Lr & Ei).
    destruct e as [p i]. cbn [fst snd] in *. subst p i.
    apply (IH w1 w' (fun e He => Hs e (or_intror He))); [|exact H2|].
    + destruct (linkEntry_grows _ _ _ _ _ _ _ H1) as (_ & G & _).
      eapply keeps_trans; [exact K|].
      apply (grows_keeps (comparable dst) src); [|exact G].
      intros q. apply apart_comparable. exact apart.
    + eapply link_step; eassumption.
Qed.
End LinkLoop.

(** What [HardlinkTree] leaves in a destination that was not there. *)
Lemma HardlinkTree_post src dst w w' :
  wf_node (fs w) = true ->
  comparable src dst = false ->
  stat dst (fs w) = None ->
  HardlinkTree src dst w = (Ok tt, w') ->
  mirrors src dst (fs w) (fs w').
Proof.
  intros Hwf apart Nd H r i Ss.
  destruct (stat_lookup _ _ _ Ss) as (c & Lc & Ic).
  destruct (lookup src (fs w)) as [n|] eqn:Ln.
  2:{ rewrite (lookup_app_none _ _ r Ln) in Lc. discriminate. }
  rewrite (lookup_app _ _ _ r Ln) in Lc.
  rewrite (HardlinkTree_flat src dst w n (lookup_resolve _ _ _ Ln)) in H.
  subst i.
  apply (link_loop src dst n w r c apart Ln Lc (entriesOf src n) w w');
    [|apply keeps_refl|exact H|].
  - intros [q i] Hin. cbn [fst snd].
    apply (entriesOf_sound n src q i (wf_node_lookup _ _ _ Hwf Ln) Hin).
  - right. split; [apply stat_app_none; exact Nd|].
    apply entriesOf_complete. exact Lc.
Qed.

(** ** What [StoreToCache] leaves *)

Lemma storeStep_wf c e : preserves stays_wf any_syscall (storeStep c e).
Proof.
  unfold storeStep.
  papply preserves_bind; [papply preserves_gets|].
  intros b. destruct (negb b); [papply preserves_ret|].
  papply preserves_bind; [papply preserves_wrap; apply Rename_wf|].
  intros _. papply preserves_wrap. apply HardlinkTree_wf.
Qed.

Lemma keeps_self t n n' : keeps t n n' -> stat t n' = stat t n.
Proof. intros K. pose proof (K []) as E. rewrite app_nil_r in E. exact E. Qed.

Lemma dirExists_keeps t w w' :
  keeps t (fs w) (fs w') -> dirExists t w = true -> dirExists t w' = true.
Proof. intros K. apply dirExists_same. apply keeps_self. exact K. Qed.

Lemma mirrors_keeps src dst n0 n n' :
  keeps dst n n' -> mirrors src dst n0 n -> mirrors src dst n0 n'.
Proof.
  intros K Mi r i S. destruct (Mi r i S) as (j & Sj & Cj).
  exists j. split; [rewrite (K r); exact Sj|exact Cj].
Qed.

Section StorePost.
Variables c e0 : path.
Variable x0 : string.
Variable n0 : node.
Hypothesis base0 : filepath.Base e0 = [x0].
Hypothesis apart0 : comparable e0 (filepath.Dir c) = false.

Let t := c ++ [x0].

(** The artifact directory of the entry holds what the workspace
    directory held, and the workspace directory has its entries again. *)
Let stored (n : node) : Prop :=
  (forall q, stat (t ++ q) n = stat (e0 ++ q) n0) /\ mirrors e0 e0 n0 n.

Lemma apart_t_e0 : comparable t e0 = false.
Proof.
  rewrite comparable_sym. unfold t. apply (apart_entry e0 c apart0).
Qed.

Lemma storeStep_self_post w1 w2 :
  wf_node (fs w1) = true ->
  (forall q, stat (t ++ q) (fs w1) = None) ->
  (forall q, stat (e0 ++ q) (fs w1) = stat (e0 ++ q) n0) ->
  dirExists e0 w1 = true ->
  storeStep c e0 w1 = (Ok tt, w2) ->
  stored (fs w2).
Proof.
  intros Hwf A C D H.
  unfold storeStep in H. rewrite base0 in H. unfold filepath.Join in H.
  fold t in H. unfold bind at 1, gets in H. rewrite D in H. cbn [negb] in H.
  apply bind_inv in H. destruct H as ([] & w3 & Rn & Hh).
  apply wrap_inv in Rn. apply wrap_inv in Hh.
  pose proof (Rename_wf _ _ _ _ _ Rn) as (_ & Wf3 & _).
  apply sys_ok in Rn. destruct Rn as (Fr & _).
  destruct (fs_rename_spec _ _ _ _ _ Fr) as (_ & _ & _ & _ & S).
  assert (W3 : forall q, stat (t ++ q) (fs w3) = stat (e0 ++ q) n0).
  { intros q. rewrite (S (t ++ q)), is_prefix_app, skipn_length_app.
    apply C. }
  assert (N3 : stat e0 (fs w3) = None).
  { rewrite (S e0).
    pose proof apart_t_e0 as Ap. unfold comparable in Ap.
    apply orb_false_iff in Ap. destruct Ap as [-> _].
    rewrite is_prefix_refl. reflexivity. }
  pose proof (HardlinkTree_post t e0 w3 w2 (Wf3 Hwf) apart_t_e0 N3 Hh) as Mi.
  destruct (HardlinkTree_grows t e0 _ _ _ Hh) as (_ & G & _).
  assert (Kt : keeps t (fs w3) (fs w2)).
  { apply (grows_keeps (comparable e0) t); [|exact G].
    intros q. unfold t. rewrite <- app_assoc.
    apply (apart_entry e0 c apart0). }
  split.
  - intros q. rewrite (Kt q). apply W3.
  - intros r i Si. apply (Mi r i). rewrite W3. exact Si.
Qed.

Lemma store_others_keep es :
  (forall e, In e es ->
     comparable e (filepath.Dir c) = false
     /\ comparable e e0 = false
     /\ filepath.Base e <> filepath.Base e0) ->
  preserves (keeps t) any_syscall (forM (storeStep c) es)
  /\ preserves (keeps e0) any_syscall (forM (storeStep c) es).
Proof.
  intros H. split; papply preserves_forM; intros e He;
    destruct (H e He) as (Ha & Hc & Hb);
    apply (storeStep_other c e0 x0 base0 apart0 e Ha Hc Hb).
Qed.

Lemma store_loop_post es : forall w1 w',
  forM (storeStep c) es w1 = (Ok tt, w') ->
  (forall e, In e es -> comparable e (filepath.Dir c) = false) ->
  ForallOrdPairs
    (fun a b => comparable a b = false
                /\ filepath.Base a <> filepath.Base b) es ->
  In e0 es ->
  wf_node (fs w1) = true ->
  (forall q, stat (t ++ q) (fs w1) = None) ->
  (forall q, stat (e0 ++ q) (fs w1) = stat (e0 ++ q) n0) ->
  dirExists e0 w1 = true ->
  stored (fs w').
Proof.
  induction es as [|e es IH]; intros w1 w' H Ha Hp Hin Hwf A C D;
    [destruct Hin|].
  apply forM_cons_inv in H. destruct H as (w2 & St & H).
  inversion Hp as [|a l0 Hhd Htl]; subst a l0.
  rewrite Forall_forall in Hhd.
  destruct (list_eq_dec string_dec e e0) as [->|Ne].
  - pose proof (storeStep_self_post w1 w2 Hwf A C D St) as [P1 P2].
    assert (Ho : forall e, In e es ->
              comparable e (filepath.Dir c) = false
              /\ comparable e e0 = false
              /\ filepath.Base e <> filepath.Base e0).
    { intros e He. destruct (Hhd e He) as [Cm Bs].
      split; [apply Ha; right; exact He|].
      split; [rewrite comparable_sym; exact Cm|congruence]. }
    destruct (store_others_keep es Ho) as [Kt Ke].
    destruct (Kt _ _ _ H) as (_ & K1 & _).
    destruct (Ke _ _ _ H) as (_ & K2 & _).
    split.
    + intros q. rewrite (K1 q). apply P1.
    + exact (mirrors_keeps _ _ _ _ _ K2 P2).
  - destruct Hin as [E|Hin]; [contradiction|].
    destruct (Hhd e0 Hin) as [Cm Bs].
    destruct (storeStep_other c e0 x0 base0 apart0 e
                (Ha e (or_introl eq_refl)) Cm Bs) as [Kt Ke].
    destruct (Kt _ _ _ St) as (_ & K1 & _).
    destruct (Ke _ _ _ St) as (_ & K2 & _).
    destruct (storeStep_wf c e _ _ _ St) as (_ & Wf & _).
    apply (IH w2 w' H).
    + intros e' He'. apply Ha. right. exact He'.
    + exact Htl.
    + exact Hin.
    + exact (Wf Hwf).
    + intros q. unfold t. rewrite (K1 q). apply A.
    + intros q. rewrite (K2 q). apply C.
    + exact (dirExists_keeps _ _ _ K2 D).
Qed.
End StorePost.

(** What [StoreToCache] leaves for a workspace directory that existed. *)
Lemma StoreToCache_post cm entry e w w' :
  wf_node (fs w) = true ->
  pathsApart (Entry.CachePath entry) (Entry.EnvPaths entry) ->
  In e (Entry.EnvPaths entry) ->
  dirExists e w = true ->
  stat (Entry.CachePath entry ++ filepath.Base e) (fs w) = None ->
  StoreToCache cm entry w = (Ok tt, w') ->
  (forall r, stat ((Entry.CachePath entry ++ filepath.Base e) ++ r) (fs w')
             = stat (e ++ r) (fs w))
  /\ mirrors e e (fs w) (fs w').
Proof.
  intros Hwf [Ha Hp] Hin D Ht H.
  set (c := Entry.CachePath entry) in *.
  pose proof (Ha e Hin) as apart.
  destruct (Base_nonempty e (proj1 (apart_nonempty _ _ apart))) as (x & Bx).
  rewrite Bx in *.
  unfold StoreToCache in H. fold c in H.
  apply bind_inv in H. destruct H as ([] & w1 & M & H).
  apply wrap_inv in M.
  destruct (MkdirAll_cacheSide c 493 _ _ _ M) as (_ & G1 & _).
  destruct (MkdirAll_wf c 493 _ _ _ M) as (_ & Wf1 & _).
  assert (Kt : keeps (c ++ [x]) (fs w) (fs w1)).
  { apply (grows_keeps (cacheSide c)); [|exact G1].
    intros q. rewrite <- app_assoc. apply (cacheSide_inside e c apart). }
  assert (Ke : keeps e (fs w) (fs w1)).
  { apply (grows_keeps (cacheSide c)); [|exact G1].
    apply (cacheSide_workspace e c apart). }
  apply (store_loop_post c e x (fs w) Bx apart (Entry.EnvPaths entry) w1 w' H
           Ha Hp Hin (Wf1 Hwf)).
  - intros q. rewrite (Kt q). apply stat_app_none. exact Ht.
  - exact Ke.
  - exact (dirExists_keeps _ _ _ Ke D).
Qed.

(** X7.  When [StoreToCache] returns without an error, each workspace
    directory of the entry that existed has been moved to
    [<entry>/<basename>], which holds each of its entries with the mode,
    inode and content or target it had, and the workspace directory has
    every one of its entries again: the directories as directories, the
    files with their mode and content, the links with their target.  The
    workspace directories lie apart from the cache and from each other
    and have different names, [<entry>/<basename>] was free, and no
    directory of the disk lists a name twice. *)
Theorem StoreToCache_stores cm entry e w w' :
  wf_node (fs w) = true ->
  pathsApart (Entry.CachePath entry) (Entry.EnvPaths entry) ->
  In e (Entry.EnvPaths entry) ->
  dirExists e w = true ->
  stat (Entry.CachePath entry ++ filepath.Base e) (fs w) = None ->
  StoreToCache cm entry w = (Ok tt, w') ->
  (forall r, stat ((Entry.CachePath entry ++ filepath.Base e) ++ r) (fs w')
             = stat (e ++ r) (fs w))
  /\ mirrors e e (fs w) (fs w').
Proof.
  intros Hwf Ap Hin D Nt H.
  exact (StoreToCache_post cm entry e w w' Hwf Ap Hin D Nt H).
Qed.

Lemma StoreToCache_stores_witness :
  let w := RootInputs.workspace in
  let w' := snd (StoreToCache Inputs.cm RootInputs.entry w) in
  (forall r, stat ((RootInputs.cachePath ++ ["target"]) ++ r) (fs w')
             = stat (["p"; "w1"; "target"] ++ r) (fs w))
  /\ mirrors ["p"; "w1"; "target"] ["p"; "w1"; "target"] (fs w) (fs w').
Proof.
  cbv zeta.
  apply (StoreToCache_stores Inputs.cm RootInputs.entry
           ["p"; "w1"; "target"] RootInputs.workspace).
  - vm_compute. reflexivity.
  - split.
    + intros e [<-|[]]. vm_compute. reflexivity.
    + constructor; constructor.
  - left. reflexivity.
  - vm_compute. reflexivity.
  - vm_compute. reflexivity.
  - vm_compute. reflexivity.
Defined.

(** X8.  When [HardlinkTree] returns without an error and the
    destination did not exist before the call, every entry of the source
    has its copy at the same place below the destination: a directory
    for a directory, a file of the same mode and content for a file, a
    link to the same target for a link.  The source and the destination
    lie apart, and no directory of the disk lists a name twice. *)
Theorem HardlinkTree_mirrors src dst w w' :
  wf_node (fs w) = true ->
  comparable src dst = false ->
  stat dst (fs w) = None ->
  HardlinkTree src dst w = (Ok tt, w') ->
  mirrors src dst (fs w) (fs w').
Proof.
  intros Hwf Ap Nd H r i S.
  exact (HardlinkTree_post src dst w w' Hwf Ap Nd H r i S).
Qed.

Lemma HardlinkTree_mirrors_witness :
  mirrors ["src"] ["dst"] (fs SeedInputs.fresh)
    (fs (snd (HardlinkTree ["src"] ["dst"] SeedInputs.fresh))).
Proof.
  apply (HardlinkTree_mirrors ["src"] ["dst"] SeedInputs.fresh).
  - vm_compute. reflexivity.
  - vm_compute. reflexivity.
  - vm_compute. reflexivity.
  - vm_compute. reflexivity.
Defined.

(** ** What [SeedDirectory] does not create *)

Lemma apart_differ src dst a b :
  comparable src dst = false -> src ++ a <> dst ++ b.
Proof.
  intros Ap E. pose proof (apart_not_under src dst a Ap) as Q.
  rewrite E in Q. rewrite is_prefix_app in Q. discriminate.
Qed.

Lemma seed_links_sound F : forall w w' d j,
  forM (fun f =>
          wrap ("failed to link " ++ rel_str (relPath f))
               (linkOrCopyFileWithTimeout (srcPath f) (dstPath f))) F w
  = (Ok tt, w') ->
  (forall f, In f F -> filesOf F (srcPath f) = false) ->
  stat d (fs w) = None -> stat d (fs w') = Some j ->
  exists f i, In f F /\ dstPath f = d
              /\ stat (srcPath f) (fs w) = Some i /\ replica i j.
Proof.
  induction F as [|f F IH]; intros w w' d j H Hs Nd Sd.
  - injection H as <-. congruence.
  - apply forM_cons_inv in H. destruct H as (w1 & H1 & H2).
    apply wrap_inv in H1. unfold linkOrCopyFileWithTimeout in H1.
    destruct (linkOrCopyFile_grows _ _ _ _ _ H1) as (_ & G & _).
    destruct (path_eqb (dstPath f) d) eqn:E.
    + apply path_eqb_eq in E. rewrite <- E in Nd.
      destruct (linkOrCopyFile_post _ _ _ _ H1 Nd)
        as (i & j' & S1 & S2 & Rj).
      destruct (seed_links_grows _ _ _ _ H2) as (_ & G2 & _).
      pose proof (grows_extends _ _ _ G2 _ _ S2) as S3.
      rewrite E in S3. assert (j' = j) by congruence. subst j'.
      exists f, i. repeat split; auto. left. reflexivity.
    + assert (N1 : stat d (fs w1) = None).
      { destruct (G d) as [Eq|[_ Dq]]; congruence. }
      assert (Hs' : forall f', In f' F -> filesOf F (srcPath f') = false).
      { intros f' Hf'. pose proof (Hs f' (or_intror Hf')) as X.
        unfold filesOf in X. cbn [existsb] in X.
        apply orb_false_iff in X. apply X. }
      destruct (IH w1 w' d j H2 Hs' N1 Sd) as (f' & i & Hf' & Ed & Si & Rj).
      exists f', i. repeat split; auto; [right; exact Hf'|].
      destruct (G (srcPath f')) as [Eq|[_ Dq]]; [congruence|].
      pose proof (Hs f' (or_intror Hf')) as X.
      unfold filesOf in X. cbn [existsb] in X.
      apply orb_false_iff in X. destruct X as [X _]. congruence.
Qed.

(** An entry of the destination that is not a directory, after a run
    that returned no error into a destination that was not there, is the
    replica of the source entry of the same relative path. *)
Lemma SeedDirectory_sound src dst opts w w' r j :
  comparable src dst = false ->
  stat dst (fs w) = None ->
  SeedDirectory src dst opts w = (Ok tt, w') ->
  stat (dst ++ r) (fs w') = Some j -> IsDir j = false ->
  exists i, stat (src ++ r) (fs w) = Some i /\ replica i j.
Proof.
  intros Ap Hd H Sj Lj.
  destruct (SeedDirectory_inv _ _ _ _ _ H) as (n & w1 & R & HD & HF).
  destruct (seed_mkdirs_grows _ _ _ _ HD) as (_ & G1 & _).
  destruct (seed_mkdirs_no_new_leaves _ _ _ _ HD) as (_ & Nl & _).
  destruct (seed_links_grows _ _ _ _ HF) as (_ & G2 & _).
  assert (N1 : stat (dst ++ r) (fs w1) = None).
  { destruct (stat (dst ++ r) (fs w1)) as [k|] eqn:S1; [|reflexivity].
    destruct (IsDir k) eqn:Dk.
    - pose proof (grows_extends _ _ _ G2 _ _ S1) as S2.
      assert (k = j) by congruence. subst k. congruence.
    - pose proof (Nl _ _ S1 Dk) as S0.
      rewrite (stat_app_none _ _ r Hd) in S0. discriminate. }
  destruct (seed_links_sound _ w1 w' (dst ++ r) j HF) as (f & i & Hf & Ed & Si & Rj);
    [|exact N1|exact Sj|].
  - intros f Hf.
    destruct (collect_files_shape _ _ _ _ _ _ Hf) as (a & Sa & _).
    cbn [app] in Sa.
    destruct (filesOf (snd (seedCollect src dst (ArtifactName opts) [] n))
                (srcPath f)) eqn:Fo; [|reflexivity].
    destruct (filesOf_under _ _ _ _ _ Fo) as (b & Eb & _).
    rewrite Sa in Eb. exfalso. exact (apart_differ src dst a b Ap Eb).
  - destruct (collect_files_shape _ _ _ _ _ _ Hf) as (a & Sa & Da & _).
    cbn [app] in Sa, Da. rewrite Da in Ed. apply app_inv_head in Ed.
    subst a. exists i. split; [|exact Rj].
    rewrite Sa in Si.
    destruct (G1 (src ++ r)) as [Eq|[_ Dq]]; [congruence|].
    apply dirsOf_comparable in Dq.
    rewrite (apart_comparable src dst r Ap) in Dq. discriminate.
Qed.

(** ** [RestoreFromCache] *)

Lemma os_ReadDir_reads p w : snd (os_ReadDir p w) = w.
Proof.
  unfold os_ReadDir. destruct (resolve p (fs w)) as [|[]]; reflexivity.
Qed.

Lemma os_Chtimes_reads p a m w : snd (os_Chtimes p a m w) = w.
Proof.
  unfold os_Chtimes. destruct (resolve p (fs w)) as [|[]]; reflexivity.
Qed.

Lemma bind_reads {A B} (m : M A) (k : A -> M B) w :
  (forall w0, snd (m w0) = w0) -> (forall a w0, snd (k a w0) = w0) ->
  snd (bind m k w) = w.
Proof.
  intros Hm Hk. unfold bind. pose proof (Hm w) as S.
  destruct (m w) as [[a|e] w1]; simpl in S; subst w1; [apply Hk|reflexivity].
Qed.

Lemma try_reads {A} (m : M A) w :
  (forall w0, snd (m w0) = w0) -> snd (try m w) = w.
Proof.
  intros Hm. unfold try. pose proof (Hm w) as S.
  destruct (m w) as [r w1]. exact S.
Qed.

Lemma forM_reads {A} (f : A -> M unit) xs :
  (forall x w0, snd (f x w0) = w0) -> forall w, snd (forM f xs w) = w.
Proof.
  intros Hf. induction xs as [|x xs IH]; intros w; [reflexivity|].
  cbn [forM]. apply bind_reads; [apply Hf|]. intros _. exact IH.
Qed.

Lemma collectDepFiles_reads dir es : forall acc w,
  snd (collectDepFiles dir es acc w) = w.
Proof.
  induction es as [|e es IH]; intros acc w; [reflexivity|].
  cbn [collectDepFiles]. destruct (negb (entryIsDir e)); [apply IH|].
  apply bind_reads.
  - intros w0. apply try_reads. intros w1. apply os_ReadDir_reads.
  - intros [fes|err] w0; apply IH.
Qed.

Lemma touchDepFilesParallel_reads dir now k w :
  snd (touchDepFilesParallel dir now k w) = w.
Proof.
  unfold touchDepFilesParallel. apply bind_reads.
  - intros w0. apply os_ReadDir_reads.
  - intros es w0. apply bind_reads.
    + intros w1. apply collectDepFiles_reads.
    + intros [|p ps] w1; [reflexivity|].
      apply forM_reads. intros x w2. apply os_Chtimes_reads.
Qed.

Lemma touchCargoFingerprints_reads cm dir w :
  snd (touchCargoFingerprints cm dir w) = w.
Proof.
  unfold touchCargoFingerprints. apply bind_reads; [reflexivity|].
  intros now w0. apply forM_reads. intros profile w1.
  apply bind_reads; [reflexivity|].
  intros b w2. destruct (negb b); [reflexivity|].
  apply touchDepFilesParallel_reads.
Qed.

Lemma is_prefix_under_comparable e r q :
  is_prefix (e ++ r) q = true -> comparable e q = true.
Proof.
  intros P. unfold comparable.
  rewrite (is_prefix_trans e (e ++ r) q (is_prefix_app e r) P). reflexivity.
Qed.

Lemma ApplyPostRestoreFixes_only cm name e :
  preserves (only (is_prefix (e ++ [".bin"]))) any_syscall
    (ApplyPostRestoreFixes cm name e).
Proof.
  unfold ApplyPostRestoreFixes.
  destruct (String.eqb name "cargo").
  { papply preserves_reader. intros w. apply touchCargoFingerprints_reads. }
  destruct (isNodeArtifact name); [|papply preserves_ret].
  unfold cleanNodeModulesBin.
  papply preserves_bind; [papply preserves_gets|].
  intros b. destruct b; [|papply preserves_ret].
  papply preserves_wrap.
  eapply preserves_weaken; [| |apply RemoveAll_only].
  - auto.
  - intros s _. exact I.
Qed.

Lemma ApplyPostRestoreFixes_wf cm name e :
  preserves stays_wf any_syscall (ApplyPostRestoreFixes cm name e).
Proof.
  unfold ApplyPostRestoreFixes.
  destruct (String.eqb name "cargo").
  { papply preserves_reader. intros w. apply touchCargoFingerprints_reads. }
  destruct (isNodeArtifact name); [|papply preserves_ret].
  unfold cleanNodeModulesBin.
  papply preserves_bind; [papply preserves_gets|].
  intros b. destruct b; [|papply preserves_ret].
  papply preserves_wrap. apply RemoveAll_wf.
Qed.

Lemma restoreStep_only cm entry logger e :
  preserves (only (comparable e)) any_syscall (restoreStep cm entry logger e).
Proof.
  unfold restoreStep.
  papply preserves_bind; [papply preserves_gets|]. intros b.
  papply preserves_bind.
  { papply preserves_wrap.
    eapply preserves_weaken; [| |apply RemoveAll_only].
    - intros a b0. apply only_weaken. intros q P.
      unfold comparable. rewrite P. reflexivity.
    - intros s _. exact I. }
  intros _. papply preserves_bind.
  { papply preserves_wrap. unfold copyDirectory.
    eapply preserves_weaken; [| |apply SeedDirectory_grows].
    - intros a b0. apply grows_only.
    - intros s _. exact I. }
  intros _. papply preserves_wrap.
  eapply preserves_weaken; [| |apply ApplyPostRestoreFixes_only].
  - intros a b0. apply only_weaken. intros q.
    apply is_prefix_under_comparable.
  - auto.
Qed.

Lemma restoreStep_wf cm entry logger e :
  preserves stays_wf any_syscall (restoreStep cm entry logger e).
Proof.
  unfold restoreStep.
  papply preserves_bind; [papply preserves_gets|]. intros b.
  papply preserves_bind; [papply preserves_wrap; apply RemoveAll_wf|].
  intros _. papply preserves_bind.
  { papply preserves_wrap. unfold copyDirectory. apply SeedDirectory_wf. }
  intros _. papply preserves_wrap. apply ApplyPostRestoreFixes_wf.
Qed.

Lemma RestoreFromCache_steps cm entry logger :
  RestoreFromCache cm entry logger
  = forM (restoreStep cm entry logger) (Entry.EnvPaths entry).
Proof. reflexivity. Qed.

Lemma dirExists_stat_eq p w w' :
  stat p (fs w') = stat p (fs w) -> dirExists p w' = dirExists p w.
Proof.
  intros E. destruct (dirExists p w) eqn:D.
  - exact (dirExists_same p w w' E D).
  - destruct (dirExists p w') eqn:D'; [|reflexivity].
    rewrite (dirExists_same p w' w (eq_sym E) D') in D. discriminate.
Qed.

Lemma cargo_not_node name :
  String.eqb name "cargo" = true -> isNodeArtifact name = false.
Proof. intros E. apply String.eqb_eq in E. subst name. reflexivity. Qed.

(** What the fix after the restore changes. *)
Lemma ApplyPostRestoreFixes_effect cm name e w w' :
  ApplyPostRestoreFixes cm name e w = (Ok tt, w') ->
  forall q, stat q (fs w')
    = if isNodeArtifact name && dirExists (e ++ [".bin"]) w
         && is_prefix (e ++ [".bin"]) q
      then None else stat q (fs w).
Proof.
  intros H q. unfold ApplyPostRestoreFixes in H.
  destruct (String.eqb name "cargo") eqn:Ec.
  { rewrite (cargo_not_node _ Ec). cbn [andb].
    pose proof (touchCargoFingerprints_reads cm e w) as R.
    rewrite H in R. cbn [snd] in R. subst w'. reflexivity. }
  destruct (isNodeArtifact name); [|injection H as <-; reflexivity].
  unfold cleanNodeModulesBin, filepath.Join in H.
  unfold bind at 1, gets in H. cbn [andb].
  destruct (dirExists (e ++ [".bin"]) w) eqn:D.
  - apply wrap_inv in H. apply sys_ok in H. destruct H as (Fb & _).
    cbn [andb]. exact (fs_remove_all_spec _ _ _ Fb q).
  - injection H as <-. reflexivity.
Qed.

Section RestoreLoop.
Variable cm : CacheManager.
Variable entry : Entry.ArtifactCacheEntry.
Variable logger : option FileLogger.
Variable e0 : path.
Variable w0 : world.
Hypothesis apart0 : comparable (Entry.CachePath entry) e0 = false.

Let c := Entry.CachePath entry.
Let name := Entry.Name entry.
Let src := restoreSource entry e0 w0.

(** What the round for [e0] leaves in [e0], as seen from [w0]. *)
Let restored (w' : world) : Prop :=
  (forall r i,
      stat (src ++ r) (fs w0) = Some i -> IsDir i = false ->
      shouldSkipPath (rel_str r) name = false ->
      fixRemoves name r = false ->
      exists j, stat (e0 ++ r) (fs w') = Some j /\ replica i j)
  /\ (forall r j,
      stat (e0 ++ r) (fs w') = Some j -> IsDir j = false ->
      exists i, stat (src ++ r) (fs w0) = Some i /\ replica i j)
  /\ (isNodeArtifact name = true -> dirExists (e0 ++ [".bin"]) w' = false).

Lemma src_under : exists t, src = c ++ t.
Proof.
  unfold src, restoreSource. fold c.
  destruct (dirExists _ _); eexists; reflexivity.
Qed.

Lemma src_apart : comparable src e0 = false.
Proof.
  destruct src_under as (t & ->). rewrite comparable_sym.
  apply apart_comparable. exact apart0.
Qed.

Lemma restoreSource_keeps w :
  keeps c (fs w0) (fs w) -> restoreSource entry e0 w = src.
Proof.
  intros K. unfold src, restoreSource. fold c.
  rewrite (dirExists_stat_eq _ w0 w (K _)). reflexivity.
Qed.

Lemma replica_leaf i j : replica i j -> IsDir j = false.
Proof. destruct i, j; cbn; try contradiction; reflexivity. Qed.

Lemma restoreStep_post w w' :
  wf_node (fs w) = true ->
  keeps c (fs w0) (fs w) ->
  restoreStep cm entry logger e0 w = (Ok tt, w') ->
  restored w'.
Proof.
  intros Hwf K H. unfold restoreStep in H.
  apply bind_inv in H. destruct H as (b & w1' & Hb & H).
  injection Hb as <- <-.
  assert (Es : (if negb (dirExists
                     (filepath.Join (Entry.CachePath entry)
                                    (filepath.Base e0)) w)
                then filepath.Join (Entry.CachePath entry) [Entry.Name entry]
                else filepath.Join (Entry.CachePath entry)
                                   (filepath.Base e0)) = src).
  { rewrite <- (restoreSource_keeps w K). unfold restoreSource, filepath.Join.
    destruct (dirExists _ w); reflexivity. }
  rewrite Es in H. clear Es.
  apply bind_inv in H. destruct H as ([] & w1 & Rm & H).
  apply wrap_inv in Rm.
  destruct (RemoveAll_wf _ _ _ _ Rm) as (_ & Wf1 & _).
  apply sys_ok in Rm. destruct Rm as (Fr & _).
  pose proof (fs_remove_all_spec _ _ _ Fr) as S1.
  apply bind_inv in H. destruct H as ([] & w2 & Sd & H).
  apply wrap_inv in Sd. apply wrap_inv in H. unfold copyDirectory in Sd.
  assert (N1 : stat e0 (fs w1) = None).
  { rewrite (S1 e0), is_prefix_refl. reflexivity. }
  assert (Ks : forall r, stat (src ++ r) (fs w1) = stat (src ++ r) (fs w0)).
  { intros r. rewrite (S1 (src ++ r)).
    rewrite (apart_not_under src e0 r src_apart).
    destruct src_under as (t & ->). rewrite <- app_assoc. apply K. }
  pose proof (ApplyPostRestoreFixes_effect cm _ e0 w2 w' H) as Fx.
  fold name in Fx.
  split; [|split].
  - intros r i Si Li Sk Fr0. rewrite <- Ks in Si.
    destruct (SeedDirectory_leaf src e0 _ w1 w2 r i (Wf1 Hwf) N1 Sd Si Li Sk)
      as (j & Sj & Rj).
    exists j. split; [|exact Rj].
    rewrite (Fx (e0 ++ r)).
    destruct (isNodeArtifact name && dirExists (e0 ++ [".bin"]) w2
              && is_prefix (e0 ++ [".bin"]) (e0 ++ r)) eqn:Cd; [|exact Sj].
    exfalso. apply andb_true_iff in Cd. destruct Cd as [Cd P].
    apply andb_true_iff in Cd. destruct Cd as [Hn D].
    apply is_prefix_app_inv in P. destruct P as (t & ->).
    cbn [app] in *. unfold fixRemoves in Fr0. rewrite Hn in Fr0.
    destruct t as [|y t]; [|cbn in Fr0; discriminate].
    apply dirExists_iff_stat in D. destruct D as (m & D).
    rewrite D in Sj. injection Sj as <-.
    apply replica_leaf in Rj. discriminate.
  - intros r j Sj Lj. rewrite (Fx (e0 ++ r)) in Sj.
    destruct (isNodeArtifact name && dirExists (e0 ++ [".bin"]) w2
              && is_prefix (e0 ++ [".bin"]) (e0 ++ r)); [discriminate|].
    destruct (SeedDirectory_sound src e0 _ w1 w2 r j src_apart N1 Sd Sj Lj)
      as (i & Si & Rj).
    exists i. split; [rewrite <- Ks; exact Si|exact Rj].
  - intros Hn. destruct (dirExists (e0 ++ [".bin"]) w2) eqn:D.
    + apply stat_none_dirExists. rewrite (Fx (e0 ++ [".bin"])).
      rewrite Hn, is_prefix_refl. reflexivity.
    + transitivity (dirExists (e0 ++ [".bin"]) w2); [|exact D].
      apply dirExists_stat_eq.
      rewrite (Fx (e0 ++ [".bin"])), Hn. reflexivity.
Qed.

Lemma restored_keeps w1 w2 :
  keeps e0 (fs w1) (fs w2) -> restored w1 -> restored w2.
Proof.
  intros K (P1 & P2 & P3). split; [|split].
  - intros r i Si Li Sk Fx. destruct (P1 r i Si Li Sk Fx) as (j & Sj & Rj).
    exists j. split; [rewrite (K r); exact Sj|exact Rj].
  - intros r j Sj Lj. rewrite (K r) in Sj. exact (P2 r j Sj Lj).
  - intros Hn. transitivity (dirExists (e0 ++ [".bin"]) w1); [|exact (P3 Hn)].
    apply dirExists_stat_eq. apply K.
Qed.

Lemma restore_other_keeps e :
  comparable c e = false -> comparable e e0 = false ->
  preserves (keeps c) any_syscall (restoreStep cm entry logger e)
  /\ preserves (keeps e0) any_syscall (restoreStep cm entry logger e).
Proof.
  intros Hc He. split.
  - eapply preserves_weaken; [| |apply restoreStep_only].
    + intros a b. apply only_keeps. intros r.
      rewrite comparable_sym. rewrite comparable_sym in Hc.
      rewrite comparable_sym. apply apart_comparable.
      rewrite comparable_sym. exact Hc.
    + auto.
  - eapply preserves_weaken; [| |apply restoreStep_only].
    + intros a b. apply only_keeps. intros r.
      apply apart_comparable. rewrite comparable_sym. exact He.
    + auto.
Qed.

Lemma restore_loop es : forall w w',
  forM (restoreStep cm entry logger) es w = (Ok tt, w') ->
  (forall e, In e es -> comparable c e = false) ->
  ForallOrdPairs (fun a b => comparable a b = false) es ->
  In e0 es ->
  wf_node (fs w) = true ->
  keeps c (fs w0) (fs w) ->
  restored w'.
Proof.
  induction es as [|e es IH]; intros w w' H Ha Hp Hin Hwf K;
    [destruct Hin|].
  apply forM_cons_inv in H. destruct H as (w1 & St & H).
  inversion Hp as [|a l0 Hhd Htl]; subst a l0.
  rewrite Forall_forall in Hhd.
  destruct (list_eq_dec string_dec e e0) as [->|Ne].
  - pose proof (restoreStep_post w w1 Hwf K St) as P1.
    apply (restored_keeps w1 w'); [|exact P1].
    assert (Pk : preserves (keeps e0) any_syscall
                   (forM (restoreStep cm entry logger) es)).
    { papply preserves_forM. intros e He.
      apply restore_other_keeps; [apply Ha; right; exact He|].
      rewrite comparable_sym. apply Hhd. exact He. }
    destruct (Pk _ _ _ H) as (_ & K2 & _). exact K2.
  - destruct Hin as [E|Hin]; [contradiction|].
    destruct (restore_other_keeps e (Ha e (or_introl eq_refl))
                (Hhd e0 Hin)) as [Kc Ke].
    destruct (Kc _ _ _ St) as (_ & K1 & _).
    destruct (restoreStep_wf cm entry logger e _ _ _ St) as (_ & Wf & _).
    apply (IH w1 w' H).
    + intros e' He'. apply Ha. right. exact He'.
    + exact Htl.
    + exact Hin.
    + exact (Wf Hwf).
    + eapply keeps_trans; [exact K|exact K1].
Qed.
End RestoreLoop.

Lemma RestoreFromCache_post cm entry logger e w w' :
  wf_node (fs w) = true ->
  restoreApart entry ->
  In e (Entry.EnvPaths entry) ->
  RestoreFromCache cm entry logger w = (Ok tt, w') ->
  (forall r i,
      stat (restoreSource entry e w ++ r) (fs w) = Some i ->
      IsDir i = false ->
      shouldSkipPath (rel_str r) (Entry.Name entry) = false ->
      fixRemoves (Entry.Name entry) r = false ->
      exists j, stat (e ++ r) (fs w') = Some j /\ replica i j)
  /\ (forall r j,
      stat (e ++ r) (fs w') = Some j -> IsDir j = false ->
      exists i, stat (restoreSource entry e w ++ r) (fs w) = Some i
                /\ replica i j)
  /\ (isNodeArtifact (Entry.Name entry) = true ->
      dirExists (e ++ [".bin"]) w' = false).
Proof.
  intros Hwf [Ha Hp] Hin H. rewrite RestoreFromCache_steps in H.
  exact (restore_loop cm entry logger e w (Ha e Hin) (Entry.EnvPaths entry)
           w w' H Ha Hp Hin Hwf (keeps_refl _ _)).
Qed.


Lemma restoreApart_inputs : restoreApart RestoreInputs.entry.
Proof.
  split.
  - intros e [<-|[]]. vm_compute. reflexivity.
  - constructor; constructor.
Qed.


(** X10.  When [RestoreFromCache] returns without an error, nothing of
    what a workspace directory held before is left in it: every file
    and every symbolic link that is in the workspace directory
    afterwards is the replica of the entry at the same relative path of
    the directory of the cache entry that was restored to it. *)
Theorem RestoreFromCache_replaces cm entry logger e w w' :
  wf_node (fs w) = true ->
  restoreApart entry ->
  In e (Entry.EnvPaths entry) ->
  RestoreFromCache cm entry logger w = (Ok tt, w') ->
  forall r j,
    stat (e ++ r) (fs w') = Some j -> IsDir j = false ->
    exists i, stat (restoreSource entry e w ++ r) (fs w) = Some i
              /\ replica i j.
Proof.
  intros Hwf Ap Hin H.
  exact (proj1 (proj2 (RestoreFromCache_post cm entry logger e w w'
                         Hwf Ap Hin H))).
Qed.

Lemma RestoreFromCache_replaces_witness :
  stat ["w"; "node_modules"; "old.js"] (fs RestoreInputs.start)
  = Some (IFile 420 8 (bytes "O"))
  /\ stat ["w"; "node_modules"; "old.js"]
       (fs (snd (RestoreFromCache Inputs.cm RestoreInputs.entry None
                   RestoreInputs.start)))
     = None
  /\ exists i,
       stat (restoreSource RestoreInputs.entry ["w"; "node_modules"]
               RestoreInputs.start ++ ["m"; "tool.js"])
            (fs RestoreInputs.start) = Some i
       /\ replica i (IFile 493 7 (bytes "T")).
Proof.
  split; [vm_compute; reflexivity|]. split; [vm_compute; reflexivity|].
  apply (RestoreFromCache_replaces Inputs.cm RestoreInputs.entry None
           ["w"; "node_modules"] RestoreInputs.start
           (snd (RestoreFromCache Inputs.cm RestoreInputs.entry None
                   RestoreInputs.start))).
  - vm_compute. reflexivity.
  - exact restoreApart_inputs.
  - left. reflexivity.
  - vm_compute. reflexivity.
  - vm_compute. reflexivity.
  - reflexivity.
Defined.

(** X11.  When [RestoreFromCache] returns without an error for an
    artifact of a node package manager ([npm], [yarn], [pnpm], [bun]),
    no workspace directory of the entry has a directory [.bin], whatever
    the cache entry holds. *)
Theorem RestoreFromCache_cleans_bin cm entry logger e w w' :
  wf_node (fs w) = true ->
  restoreApart entry ->
  In e (Entry.EnvPaths entry) ->
  isNodeArtifact (Entry.Name entry) = true ->
  RestoreFromCache cm entry logger w = (Ok tt, w') ->
  dirExists (e ++ [".bin"]) w' = false.
Proof.
  intros Hwf Ap Hin Hn H.
  exact (proj2 (proj2 (RestoreFromCache_post cm entry logger e w w'
                         Hwf Ap Hin H)) Hn).
Qed.

Lemma RestoreFromCache_cleans_bin_witness :
  dirExists (RestoreInputs.cachePath ++ ["node_modules"; ".bin"])
            RestoreInputs.start = true
  /\ dirExists (["w"; "node_modules"] ++ [".bin"])
       (snd (RestoreFromCache Inputs.cm RestoreInputs.entry None
               RestoreInputs.start)) = false.
Proof.
  split; [vm_compute; reflexivity|].
  apply (RestoreFromCache_cleans_bin Inputs.cm RestoreInputs.entry None
           ["w"; "node_modules"] RestoreInputs.start).
  - vm_compute. reflexivity.
  - exact restoreApart_inputs.
  - left. reflexivity.
  - reflexivity.
  - vm_compute. reflexivity.
Defined.







(** ** [calculateDirSize] *)

Lemma add64_small a b :
  (0 <= a)%Z -> (0 <= b)%Z -> (a + b < 9223372036854775808)%Z ->
  add64 a b = (a + b)%Z.
Proof.
  intros Ha Hb Hs. unfold add64.
  rewrite Z.mod_small by lia. lia.
Qed.

Lemma treeSize_nonneg n : (0 <= treeSize n)%Z.
Proof.
  induction n as [m i d|t|m es IH] using node_ind'; cbn [treeSize]; try lia.
  induction IH as [|[x c] es Hc _ IHes]; [lia|].
  cbn [snd] in Hc. lia.
Qed.

Lemma treeSize_dir m es :
  treeSize (Directory m es)
  = fold_right (fun xc s => (treeSize (snd xc) + s)%Z) 0%Z es.
Proof.
  cbn [treeSize]. induction es as [|[x c] es IH]; [reflexivity|].
  cbn [fold_right snd]. rewrite <- IH. reflexivity.
Qed.

Lemma walkDir_size n : forall p acc w,
  (0 <= acc)%Z -> (acc + treeSize n < 9223372036854775808)%Z ->
  walkDir sizeFn p n acc w = (Ok (acc + treeSize n)%Z, w).
Proof.
  induction n as [m i d|t|m es IH] using node_ind'; intros p acc w Ha Hs.
  - cbn [walkDir info_of sizeFn IsDir]. unfold ret.
    cbn [treeSize] in *. rewrite add64_small by (cbn [info_Size]; lia).
    reflexivity.
  - cbn [walkDir info_of sizeFn IsDir]. unfold ret.
    cbn [treeSize] in *. rewrite add64_small by (cbn [info_Size]; lia).
    reflexivity.
  - rewrite treeSize_dir in *.
    cbn [walkDir info_of sizeFn IsDir]. unfold ret at 1.
    revert acc Ha Hs.
    induction IH as [|[x c] es Hc _ IHes]; intros acc Ha Hs.
    + cbn [fold_right]. rewrite Z.add_0_r. reflexivity.
    + cbn [fold_right snd] in *.
      pose proof (treeSize_nonneg c) as Nc.
      assert (Ns : (0 <= fold_right
                           (fun xc s => (treeSize (snd xc) + s)%Z) 0%Z es)%Z).
      { clear. induction es as [|[y d] es IH]; cbn [fold_right snd]; [lia|].
        pose proof (treeSize_nonneg d). lia. }
      rewrite (Hc (p ++ [x]) acc w Ha) by lia.
      rewrite IHes by lia. f_equal. f_equal. lia.
Qed.

Lemma calculateDirSize_run cm p w n :
  lookup p (fs w) = Some n ->
  (treeSize n < 9223372036854775808)%Z ->
  calculateDirSize cm p w = (Ok (treeSize n), w).
Proof.
  intros L Hs. unfold calculateDirSize, WalkDir.
  rewrite (lookup_resolve _ _ _ L).
  change (fun (p0 : path) (d : info) (size : Z) =>
            if IsDir d then ret size else ret (add64 size (info_Size d)))
    with sizeFn.
  rewrite (walkDir_size n p 0%Z w) by lia. reflexivity.
Qed.

Lemma calculateDirSize_reads cm p w : snd (calculateDirSize cm p w) = w.
Proof.
  unfold calculateDirSize. apply WalkDir_reads.
  intros q i a w0. destruct (IsDir i); reflexivity.
Qed.

(** X14.  [calculateDirSize] of a path that exists returns the number of
    bytes below it, the content of the files and the targets of the
    symbolic links, directories counting nothing, and leaves the world
    as it was.  The total fits a signed 64-bit integer. *)
Theorem calculateDirSize_total cm p w n :
  lookup p (fs w) = Some n ->
  (treeSize n < 9223372036854775808)%Z ->
  calculateDirSize cm p w = (Ok (treeSize n), w).
Proof. intros L Hs. exact (calculateDirSize_run cm p w n L Hs). Qed.

Lemma calculateDirSize_total_witness :
  calculateDirSize Inputs.cm
    ["h"; ".mono"; "cache_local"; "P"; "cargo"; "K1"] SizeInputs.start
  = (Ok 10%Z, SizeInputs.start).
Proof.
  apply (calculateDirSize_total Inputs.cm
           ["h"; ".mono"; "cache_local"; "P"; "cargo"; "K1"] SizeInputs.start
           (Directory 493
              [("target", Directory 493
                  [("a.rlib", File 420 5 (bytes "AAAA"));
                   ("l", SymLink "a.rlib")])])).
  - vm_compute. reflexivity.
  - vm_compute. reflexivity.
Defined.

(** ** [GetCacheSizes] *)

Lemma os_ReadDir_ok p w ds w' :
  os_ReadDir p w = (Ok ds, w') ->
  w' = w
  /\ exists m es,
       lookup p (fs w) = Some (Directory m es)
       /\ ds = map (fun xc => mkDirEntry (fst xc) (node_is_dir (snd xc))) es.
Proof.
  unfold os_ReadDir, lookup.
  destruct (resolve p (fs w)) as [e|[m i d|t|m es]]; try discriminate.
  intros H. injection H as <- <-. split; [reflexivity|].
  exists m, es. split; reflexivity.
Qed.

Lemma os_ReadDir_dir p w m es :
  lookup p (fs w) = Some (Directory m es) ->
  os_ReadDir p w
  = (Ok (map (fun xc => mkDirEntry (fst xc) (node_is_dir (snd xc))) es), w).
Proof.
  intros L. unfold os_ReadDir. rewrite (lookup_resolve _ _ _ L). reflexivity.
Qed.

(** In a tree that lists no name twice, [ReadDir] reports a directory
    of the name [x] exactly when the path of that name is a directory. *)
Lemma os_ReadDir_child p w ds x :
  wf_node (fs w) = true ->
  os_ReadDir p w = (Ok ds, w) ->
  In (mkDirEntry x true) ds <-> dirExists (p ++ [x]) w = true.
Proof.
  intros Hwf H. apply os_ReadDir_ok in H.
  destruct H as (_ & m & es & L & ->).
  pose proof (wf_node_lookup _ _ _ Hwf L) as Wd.
  rewrite wf_node_dir in Wd. apply andb_true_iff in Wd.
  destruct Wd as [Nd _].
  unfold dirExists. rewrite (lookup_app _ _ _ [x] L).
  unfold lookup. cbn [resolve]. split.
  - intros Hin. apply in_map_iff in Hin.
    destruct Hin as ([y c] & E & Hin). cbn [fst snd] in E.
    injection E as -> Dc. rewrite (In_ent_get _ _ _ Nd Hin).
    destruct c; try discriminate. reflexivity.
  - destruct (ent_get x es) as [c|] eqn:G; [|discriminate].
    intros D. apply in_map_iff. exists (x, c). cbn [fst snd].
    split; [|apply ent_get_In; exact G].
    destruct c; try discriminate. reflexivity.
Qed.

Lemma dirExists_parent p x w :
  dirExists (p ++ [x]) w = true -> dirExists p w = true.
Proof.
  intros D. apply dirExists_iff_stat in D. destruct D as (m & S).
  destruct (stat_prefix_dir p (fs w) [x] _ S) as (m' & S'); [discriminate|].
  apply dirExists_iff_stat. exists m'. exact S'.
Qed.

Lemma dirExists_ReadDir p w :
  dirExists p w = true -> exists ds, os_ReadDir p w = (Ok ds, w).
Proof.
  intros D. destruct (dirExists_lookup _ _ D) as (m & es & L).
  eexists. apply (os_ReadDir_dir _ _ _ _ L).
Qed.

Section SizeLoops.
Variable cm : CacheManager.
Variable w : world.

(** The entry that the listing has for the key directory [kd]. *)
Let keyEntry (pid art : string) (artifactPath : path) (kd : DirEntry)
  (e : CacheSizeEntry) : Prop :=
  entryIsDir kd = true
  /\ exists size,
       calculateDirSize cm (artifactPath ++ [entryName kd]) w = (Ok size, w)
       /\ e = mkCacheSizeEntry pid art (entryName kd) size.

Lemma sizeKeyDirs_run pid art artifactPath keyDirs : forall acc,
  exists found,
    sizeKeyDirs cm pid art artifactPath keyDirs acc w = (Ok (acc ++ found), w)
    /\ forall e, In e found <->
         exists kd, In kd keyDirs /\ keyEntry pid art artifactPath kd e.
Proof.
  induction keyDirs as [|kd rest IH]; intros acc.
  - exists []. rewrite app_nil_r. split; [reflexivity|].
    intros e. split; [intros []|intros (kd & [] & _)].
  - cbn [sizeKeyDirs]. destruct (entryIsDir kd) eqn:Dk; cbn [negb].
    2:{ destruct (IH acc) as (found & Hr & Hin). exists found.
        split; [exact Hr|]. intros e. rewrite Hin. split.
        - intros (k & Hk & Ke). exists k. split; [right; exact Hk|exact Ke].
        - intros (k & [<-|Hk] & Ke); [|exists k; auto].
          destruct Ke as [Ke _]. congruence. }
    unfold bind at 1, try at 1, filepath.Join.
    pose proof (calculateDirSize_reads cm (artifactPath ++ [entryName kd]) w)
      as Rd.
    destruct (calculateDirSize cm (artifactPath ++ [entryName kd]) w)
      as [[size|err] w1] eqn:Cs; cbn [snd] in Rd; subst w1.
    + destruct (IH (acc ++ [mkCacheSizeEntry pid art (entryName kd) size]))
        as (found & Hr & Hin).
      exists (mkCacheSizeEntry pid art (entryName kd) size :: found).
      split; [rewrite Hr, <- app_assoc; reflexivity|].
      intros e. cbn [In]. rewrite Hin. split.
      * intros [<-|(k & Hk & Ke)].
        -- exists kd. split; [left; reflexivity|].
           split; [exact Dk|]. exists size. split; [exact Cs|reflexivity].
        -- exists k. split; [right; exact Hk|exact Ke].
      * intros (k & [<-|Hk] & Ke); [left|right; exists k; auto].
        destruct Ke as (_ & size' & Cs' & ->). congruence.
    + destruct (IH acc) as (found & Hr & Hin). exists found.
      split; [exact Hr|]. intros e. rewrite Hin. split.
      * intros (k & Hk & Ke). exists k. split; [right; exact Hk|exact Ke].
      * intros (k & [<-|Hk] & Ke); [|exists k; auto].
        destruct Ke as (_ & size' & Cs' & _). congruence.
Qed.

Let artifactEntry (pid : string) (projectPath : path) (ad : DirEntry)
  (e : CacheSizeEntry) : Prop :=
  entryIsDir ad = true
  /\ exists keyDirs kd,
       os_ReadDir (projectPath ++ [entryName ad]) w = (Ok keyDirs, w)
       /\ In kd keyDirs
       /\ keyEntry pid (entryName ad) (projectPath ++ [entryName ad]) kd e.

Lemma sizeArtifactDirs_run pid projectPath artifactDirs : forall acc,
  exists found,
    sizeArtifactDirs cm pid projectPath artifactDirs acc w
    = (Ok (acc ++ found), w)
    /\ forall e, In e found <->
         exists ad, In ad artifactDirs /\ artifactEntry pid projectPath ad e.
Proof.
  induction artifactDirs as [|ad rest IH]; intros acc.
  - exists []. rewrite app_nil_r. split; [reflexivity|].
    intros e. split; [intros []|intros (k & [] & _)].
  - cbn [sizeArtifactDirs]. destruct (entryIsDir ad) eqn:Da; cbn [negb].
    2:{ destruct (IH acc) as (found & Hr & Hin). exists found.
        split; [exact Hr|]. intros e. rewrite Hin. split.
        - intros (k & Hk & Ke). exists k. split; [right; exact Hk|exact Ke].
        - intros (k & [<-|Hk] & Ke); [|exists k; auto].
          destruct Ke as [Ke _]. congruence. }
    unfold bind at 1, try at 1, filepath.Join.
    pose proof (os_ReadDir_reads (projectPath ++ [entryName ad]) w) as Rd.
    destruct (os_ReadDir (projectPath ++ [entryName ad]) w)
      as [[keyDirs|err] w1] eqn:Ra; cbn [snd] in Rd; subst w1.
    + destruct (sizeKeyDirs_run pid (entryName ad)
                  (projectPath ++ [entryName ad]) keyDirs acc)
        as (f1 & Hr1 & Hin1).
      unfold bind at 1. rewrite Hr1.
      destruct (IH (acc ++ f1)) as (f2 & Hr2 & Hin2).
      exists (f1 ++ f2). split; [rewrite Hr2, <- app_assoc; reflexivity|].
      intros e. rewrite in_app_iff, Hin1, Hin2. split.
      * intros [(kd & Hk & Ke)|(k & Hk & Ke)].
        -- exists ad. split; [left; reflexivity|].
           split; [exact Da|]. exists keyDirs, kd. auto.
        -- exists k. split; [right; exact Hk|exact Ke].
      * intros (k & [<-|Hk] & Ke); [left|right; exists k; auto].
        destruct Ke as (_ & kds & kd & Ra' & Hk & Ke).
        assert (kds = keyDirs) by congruence. subst kds.
        exists kd. auto.
    + destruct (IH acc) as (found & Hr & Hin). exists found.
      split; [exact Hr|]. intros e. rewrite Hin. split.
      * intros (k & Hk & Ke). exists k. split; [right; exact Hk|exact Ke].
      * intros (k & [<-|Hk] & Ke); [|exists k; auto].
        destruct Ke as (_ & kds & kd & Ra' & _). congruence.
Qed.

Let projectEntry (pd : DirEntry) (e : CacheSizeEntry) : Prop :=
  entryIsDir pd = true
  /\ exists artifactDirs ad,
       os_ReadDir (LocalCacheDir cm ++ [entryName pd]) w = (Ok artifactDirs, w)
       /\ In ad artifactDirs
       /\ artifactEntry (entryName pd) (LocalCacheDir cm ++ [entryName pd])
            ad e.

Lemma sizeProjectDirs_run projectDirs : forall acc,
  exists found,
    sizeProjectDirs cm projectDirs acc w = (Ok (acc ++ found), w)
    /\ forall e, In e found <->
         exists pd, In pd projectDirs /\ projectEntry pd e.
Proof.
  induction projectDirs as [|pd rest IH]; intros acc.
  - exists []. rewrite app_nil_r. split; [reflexivity|].
    intros e. split; [intros []|intros (k & [] & _)].
  - cbn [sizeProjectDirs]. destruct (entryIsDir pd) eqn:Dp; cbn [negb].
    2:{ destruct (IH acc) as (found & Hr & Hin). exists found.
        split; [exact Hr|]. intros e. rewrite Hin. split.
        - intros (k & Hk & Ke). exists k. split; [right; exact Hk|exact Ke].
        - intros (k & [<-|Hk] & Ke); [|exists k; auto].
          destruct Ke as [Ke _]. congruence. }
    unfold bind at 1, try at 1, filepath.Join.
    pose proof (os_ReadDir_reads (LocalCacheDir cm ++ [entryName pd]) w) as Rd.
    destruct (os_ReadDir (LocalCacheDir cm ++ [entryName pd]) w)
      as [[artifactDirs|err] w1] eqn:Ra; cbn [snd] in Rd; subst w1.
    + destruct (sizeArtifactDirs_run (entryName pd)
                  (LocalCacheDir cm ++ [entryName pd]) artifactDirs acc)
        as (f1 & Hr1 & Hin1).
      unfold bind at 1. rewrite Hr1.
      destruct (IH (acc ++ f1)) as (f2 & Hr2 & Hin2).
      exists (f1 ++ f2). split; [rewrite Hr2, <- app_assoc; reflexivity|].
      intros e. rewrite in_app_iff, Hin1, Hin2. split.
      * intros [(ad & Hk & Ke)|(k & Hk & Ke)].
        -- exists pd. split; [left; reflexivity|].
           split; [exact Dp|]. exists artifactDirs, ad. auto.
        -- exists k. split; [right; exact Hk|exact Ke].
      * intros (k & [<-|Hk] & Ke); [left|right; exists k; auto].
        destruct Ke as (_ & ads & ad & Ra' & Hk & Ke).
        assert (ads = artifactDirs) by congruence. subst ads.
        exists ad. auto.
    + destruct (IH acc) as (found & Hr & Hin). exists found.
      split; [exact Hr|]. intros e. rewrite Hin. split.
      * intros (k & Hk & Ke). exists k. split; [right; exact Hk|exact Ke].
      * intros (k & [<-|Hk] & Ke); [|exists k; auto].
        destruct Ke as (_ & ads & ad & Ra' & _). congruence.
Qed.

Lemma dirEntry_eta d : entryIsDir d = true -> d = mkDirEntry (entryName d) true.
Proof. destruct d as [x b]. cbn. intros ->. reflexivity. Qed.

Lemma GetCacheSizes_run :
  wf_node (fs w) = true ->
  exists es,
    GetCacheSizes cm w = (Ok es, w)
    /\ forall pid art key size,
         In (mkCacheSizeEntry pid art key size) es
         <-> dirExists (entryPath cm pid art key) w = true
             /\ calculateDirSize cm (entryPath cm pid art key) w
                = (Ok size, w).
Proof.
  intros Hwf. unfold GetCacheSizes. unfold bind at 1, gets at 1.
  destruct (dirExists (LocalCacheDir cm) w) eqn:DL; cbn [negb].
  2:{ exists []. split; [reflexivity|]. intros pid art key size.
      split; [intros []|]. intros [D _]. exfalso.
      unfold entryPath in D.
      change [pid; art; key] with ([pid] ++ [art] ++ [key]) in D.
      rewrite !app_assoc in D.
      apply dirExists_parent, dirExists_parent, dirExists_parent in D.
      congruence. }
  destruct (dirExists_ReadDir _ _ DL) as (pds & Rp).
  unfold bind at 1, wrap at 1. rewrite Rp.
  destruct (sizeProjectDirs_run pds []) as (es & Hr & Hin).
  exists es. split; [exact Hr|].
  intros pid art key size. rewrite Hin. unfold entryPath.
  change [pid; art; key] with ([pid] ++ [art] ++ [key]).
  rewrite !app_assoc. split.
  - intros (pd & Hpd & Dp & ads & ad & Ra & Had & Da & kds & kd & Rk & Hkd
            & Dk & sz & Cs & E).
    injection E as -> -> -> ->.
    rewrite (dirEntry_eta kd Dk) in Hkd.
    apply (os_ReadDir_child _ _ _ _ Hwf Rk) in Hkd.
    split; [exact Hkd|exact Cs].
  - intros [D Cs].
    pose proof (dirExists_parent _ _ _ D) as Da.
    pose proof (dirExists_parent _ _ _ Da) as Dp.
    destruct (dirExists_ReadDir _ _ Dp) as (ads & Ra).
    destruct (dirExists_ReadDir _ _ Da) as (kds & Rk).
    exists (mkDirEntry pid true).
    split; [apply (os_ReadDir_child _ _ _ _ Hwf Rp); exact Dp|].
    split; [reflexivity|]. cbn [entryName].
    exists ads, (mkDirEntry art true).
    split; [exact Ra|].
    split; [apply (os_ReadDir_child _ _ _ _ Hwf Ra); exact Da|].
    split; [reflexivity|]. cbn [entryName].
    exists kds, (mkDirEntry key true).
    split; [exact Rk|].
    split; [apply (os_ReadDir_child _ _ _ _ Hwf Rk); exact D|].
    split; [reflexivity|]. cbn [entryName].
    exists size. split; [exact Cs|reflexivity].
Qed.
End SizeLoops.

(** X15.  On a disk where no directory lists a name twice,
    [GetCacheSizes] returns a listing and leaves the world as it was;
    the listing has an entry [(project, artifact, key, size)] exactly
    when [<cache>/<project>/<artifact>/<key>] is a directory and [size]
    is what [calculateDirSize] gives for it.  Files in the place of a
    directory, as the lock files of the entries, are not listed; a cache
    directory that is missing gives the empty listing. *)
Theorem GetCacheSizes_lists cm w :
  wf_node (fs w) = true ->
  exists es,
    GetCacheSizes cm w = (Ok es, w)
    /\ forall pid art key size,
         In (mkCacheSizeEntry pid art key size) es
         <-> dirExists (entryPath cm pid art key) w = true
             /\ calculateDirSize cm (entryPath cm pid art key) w
                = (Ok size, w).
Proof. intros Hwf. exact (GetCacheSizes_run cm w Hwf). Qed.

Lemma GetCacheSizes_lists_witness :
  GetCacheSizes Inputs.cm SizeInputs.start
  = (Ok [mkCacheSizeEntry "P" "cargo" "K1" 10;
         mkCacheSizeEntry "P" "npm" "K2" 2], SizeInputs.start)
  /\ exists es,
       GetCacheSizes Inputs.cm SizeInputs.start = (Ok es, SizeInputs.start)
       /\ forall pid art key size,
            In (mkCacheSizeEntry pid art key size) es
            <-> dirExists (entryPath Inputs.cm pid art key) SizeInputs.start
                = true
                /\ calculateDirSize Inputs.cm (entryPath Inputs.cm pid art key)
                     SizeInputs.start
                   = (Ok size, SizeInputs.start).
Proof.
  split; [vm_compute; reflexivity|].
  apply (GetCacheSizes_lists Inputs.cm SizeInputs.start).
  vm_compute. reflexivity.
Defined.

(** ** [RemoveCacheEntry] *)

Lemma fs_remove_spec p n n' :
  fs_remove p n = inr n' ->
  p <> []
  /\ (exists c, lookup p n = Some c
                /\ (node_is_dir c = true -> exists m, c = Directory m []))
  /\ n' = put p None n
  /\ forall q, stat q n' = if is_prefix p q then None else stat q n.
Proof.
  unfold fs_remove. destruct (is_root p) eqn:Hr; [discriminate|].
  apply is_root_false in Hr.
  destruct (resolve p n) as [e|c] eqn:R; [discriminate|].
  intros E.
  assert (E' : n' = put p None n
               /\ (node_is_dir c = true -> exists m, c = Directory m [])).
  { destruct c as [m i d|t|m [|x es]]; try discriminate;
      injection E as <-; split; try reflexivity; try discriminate.
    intros _. exists m. reflexivity. }
  destruct E' as [-> Hc]. split; [exact Hr|].
  split; [exists c; split; [apply resolve_lookup; exact R|exact Hc]|].
  split; [reflexivity|]. intros q.
  assert (Hpar : parent_dir p n = inr tt)
    by (eapply resolve_parent_dir; [exact Hr|exact R]).
  destruct (is_prefix p q) eqn:P.
  - rewrite (is_prefix_split _ _ P).
    apply stat_put_none; [exact Hr|exact Hpar].
  - apply stat_put_other. exact P.
Qed.

Lemma lookup_empty_dir p n m x r :
  lookup p n = Some (Directory m []) -> stat (p ++ x :: r) n = None.
Proof.
  intros L. unfold stat. rewrite (lookup_app _ _ _ (x :: r) L).
  reflexivity.
Qed.

(** What [cleanEmptyParentDirs] does: nothing, or it removes the
    directory [p], which was empty. *)
Lemma cleanEmptyParentDirs_effect cm p w r w' :
  cleanEmptyParentDirs cm p w = (r, w') ->
  r = Ok tt
  /\ ((fs w' = fs w /\ (p = [] \/ ~ emptyDir p (fs w)))
      \/ (p <> [] /\ emptyDir p (fs w)
          /\ forall q, stat q (fs w')
               = if is_prefix p q then None else stat q (fs w))).
Proof.
  unfold cleanEmptyParentDirs, emptyDir. intros H.
  unfold bind at 1, try at 1 in H.
  pose proof (os_ReadDir_reads p w) as Rd.
  destruct (os_ReadDir p w) as [[ds|err] w1] eqn:R; cbn [snd] in Rd; subst w1.
  2:{ injection H as <- <-. split; [reflexivity|]. left.
      split; [reflexivity|]. right. intros (m & L).
      rewrite (os_ReadDir_dir _ _ _ _ L) in R. discriminate. }
  apply os_ReadDir_ok in R. destruct R as (_ & m & es & L & ->).
  destruct es as [|xc es]; cbn [map] in H.
  2:{ injection H as <- <-. split; [reflexivity|]. left.
      split; [reflexivity|]. right. intros (m' & L'). congruence. }
  unfold bind at 1, try at 1, os_Remove in H.
  destruct (os.sys (SysRemoveAll p) (fs_remove p (fs w))
              (PathError "remove" p) w) as [r1 w1] eqn:S.
  injection H as <- <-. split; [reflexivity|].
  destruct (sys_run _ _ _ _ _ _ S) as (_ & _ & F).
  destruct (fs_remove p (fs w)) as [e|n1] eqn:Fr.
  - destruct F as [F _]. left. split; [exact F|]. left.
    unfold fs_remove in Fr. destruct p; [reflexivity|].
    cbn [is_root] in Fr. rewrite (lookup_resolve _ _ _ L) in Fr.
    discriminate.
  - destruct F as [F _]. right.
    destruct (fs_remove_spec _ _ _ Fr) as (Np & _ & _ & Sp).
    split; [exact Np|]. split; [exists m; exact L|].
    rewrite F. exact Sp.
Qed.

Section RemoveEntry.
Variable cm : CacheManager.
Variables pid art key : string.

Let L := LocalCacheDir cm.
Let E := L ++ [pid; art; key].
Let A := L ++ [pid; art].
Let P := L ++ [pid].

Lemma E_is : E = A ++ [key].
Proof. unfold E, A. rewrite <- app_assoc. reflexivity. Qed.

Lemma A_is : A = P ++ [art].
Proof. unfold A, P. rewrite <- app_assoc. reflexivity. Qed.

Lemma RemoveCacheEntry_inv w r w' :
  RemoveCacheEntry cm pid art key w = (r, w') ->
  (exists e, r = Err e /\ fs w' = fs w)
  \/ exists w1 w2,
       r = Ok tt
       /\ fs_remove_all E (fs w) = inr (fs w1)
       /\ cleanEmptyParentDirs cm A w1 = (Ok tt, w2)
       /\ cleanEmptyParentDirs cm P w2 = (Ok tt, w').
Proof.
  unfold RemoveCacheEntry, filepath.Join. fold L E A P. intros H.
  unfold bind at 1, wrap at 1 in H.
  destruct (os.RemoveAll E w) as [r1 w1] eqn:R.
  destruct (sys_run _ _ _ _ _ _ R) as (_ & _ & F).
  destruct (fs_remove_all E (fs w)) as [e|n1] eqn:Fr.
  - destruct F as [F ->]. injection H as <- <-. left.
    eexists. split; [reflexivity|exact F].
  - destruct F as [F ->]. right.
    unfold bind at 1 in H.
    destruct (cleanEmptyParentDirs cm A w1) as [r2 w2] eqn:C1.
    destruct (cleanEmptyParentDirs_effect _ _ _ _ _ C1) as [-> _].
    unfold bind at 1 in H.
    destruct (cleanEmptyParentDirs cm P w2) as [r3 w3] eqn:C2.
    destruct (cleanEmptyParentDirs_effect _ _ _ _ _ C2) as [-> _].
    injection H as <- <-.
    exists w1, w2. rewrite F. auto.
Qed.

(** A directory that [cleanEmptyParentDirs] removes has nothing below
    it: at any other path the disk is as it was. *)
Lemma clean_elsewhere p w r w' q :
  cleanEmptyParentDirs cm p w = (r, w') ->
  q <> p -> stat q (fs w') = stat q (fs w).
Proof.
  intros H Nq.
  destruct (cleanEmptyParentDirs_effect _ _ _ _ _ H)
    as [_ [[F _]|(_ & (m & Le) & S)]]; [rewrite F; reflexivity|].
  rewrite (S q). destruct (is_prefix p q) eqn:Pq; [|reflexivity].
  apply is_prefix_iff in Pq. destruct Pq as ([|x t] & ->).
  - rewrite app_nil_r in Nq. contradiction.
  - symmetry. exact (lookup_empty_dir _ _ _ _ _ Le).
Qed.

Lemma under_E_not_A r : E ++ r <> A.
Proof.
  rewrite E_is, <- app_assoc. intros H.
  rewrite <- (app_nil_r A) in H at 2. apply app_inv_head in H.
  discriminate.
Qed.

Lemma under_E_not_P r : E ++ r <> P.
Proof.
  rewrite E_is, A_is, <- !app_assoc. intros H.
  rewrite <- (app_nil_r P) in H at 2. apply app_inv_head in H.
  discriminate.
Qed.

Lemma RemoveCacheEntry_gone w w' :
  RemoveCacheEntry cm pid art key w = (Ok tt, w') ->
  forall r, stat (E ++ r) (fs w') = None.
Proof.
  intros H r.
  destruct (RemoveCacheEntry_inv _ _ _ H)
    as [(e & Er & _)|(w1 & w2 & _ & Fr & C1 & C2)]; [discriminate|].
  rewrite (clean_elsewhere _ _ _ _ _ C2 (under_E_not_P r)).
  rewrite (clean_elsewhere _ _ _ _ _ C1 (under_E_not_A r)).
  rewrite (fs_remove_all_spec _ _ _ Fr), is_prefix_app. reflexivity.
Qed.

Lemma RemoveCacheEntry_frame w r w' q :
  RemoveCacheEntry cm pid art key w = (r, w') ->
  is_prefix E q = false -> q <> A -> q <> P ->
  stat q (fs w') = stat q (fs w).
Proof.
  intros H Pq Na Np.
  destruct (RemoveCacheEntry_inv _ _ _ H)
    as [(e & _ & F)|(w1 & w2 & _ & Fr & C1 & C2)]; [rewrite F; reflexivity|].
  rewrite (clean_elsewhere _ _ _ _ _ C2 Np).
  rewrite (clean_elsewhere _ _ _ _ _ C1 Na).
  rewrite (fs_remove_all_spec _ _ _ Fr), Pq. reflexivity.
Qed.

Lemma is_prefix_E_sibling x r : x <> key -> is_prefix E (A ++ x :: r) = false.
Proof.
  intros Hx. rewrite E_is. apply is_prefix_sibling. congruence.
Qed.

Lemma RemoveCacheEntry_parents w r w' :
  RemoveCacheEntry cm pid art key w = (r, w') ->
  (stat A (fs w') = stat A (fs w)
   \/ forall x t, x <> key -> stat (A ++ x :: t) (fs w) = None)
  /\ (stat P (fs w') = stat P (fs w)
      \/ forall x t, x <> art -> stat (P ++ x :: t) (fs w) = None).
Proof.
  intros H.
  destruct (RemoveCacheEntry_inv _ _ _ H)
    as [(e & _ & F)|(w1 & w2 & _ & Fr & C1 & C2)];
    [rewrite F; split; left; reflexivity|].
  pose proof (fs_remove_all_spec _ _ _ Fr) as S1.
  assert (NA : is_prefix E A = false).
  { rewrite E_is. apply (is_prefix_longer A key []). }
  assert (NP : is_prefix E P = false).
  { rewrite E_is, A_is, <- app_assoc. apply (is_prefix_longer P art [key]). }
  assert (APne : A <> P).
  { rewrite A_is. intros X. rewrite <- (app_nil_r P) in X at 2.
    apply app_inv_head in X. discriminate. }
  split.
  - destruct (cleanEmptyParentDirs_effect _ _ _ _ _ C1)
      as [_ [[F _]|(_ & (m & Le) & S)]].
    + left. rewrite (clean_elsewhere _ _ _ _ _ C2 APne), F, S1, NA.
      reflexivity.
    + right. intros x t Hx.
      pose proof (lookup_empty_dir _ _ _ x t Le) as N.
      rewrite S1, (is_prefix_E_sibling x t Hx) in N. exact N.
  - destruct (cleanEmptyParentDirs_effect _ _ _ _ _ C2)
      as [_ [[F _]|(_ & (m & Le) & S)]].
    + left. rewrite F.
      rewrite (clean_elsewhere _ _ _ _ _ C1 (fun X => APne (eq_sym X))).
      rewrite S1, NP. reflexivity.
    + right. intros x t Hx.
      pose proof (lookup_empty_dir _ _ _ x t Le) as N.
      assert (Nq : P ++ x :: t <> A).
      { rewrite A_is. intros X. apply app_inv_head in X. congruence. }
      rewrite (clean_elsewhere _ _ _ _ _ C1 Nq), S1 in N.
      assert (Pq : is_prefix E (P ++ x :: t) = false).
      { destruct (is_prefix E (P ++ x :: t)) eqn:Pe; [|reflexivity].
        rewrite E_is, A_is, <- app_assoc in Pe.
        apply is_prefix_app_inv in Pe. destruct Pe as (u & Eu).
        cbn [app] in Eu. congruence. }
      rewrite Pq in N. exact N.
Qed.


End RemoveEntry.

Lemma GetArtifactCachePath_entryPath cm rootPath name key :
  GetArtifactCachePath cm rootPath name key
  = entryPath cm (ComputeProjectID rootPath) name key.
Proof.
  unfold GetArtifactCachePath, GetProjectCacheDir, entryPath, filepath.Join.
  rewrite <- app_assoc. reflexivity.
Qed.

(** X16.  When [RemoveCacheEntry] returns without an error for the
    project identifier of [rootPath], nothing is left at the cache path
    of that artifact and key, so that the hit check of
    [PrepareArtifactCache] for them fails afterwards. *)
Theorem RemoveCacheEntry_then_miss cm rootPath name key w w' :
  RemoveCacheEntry cm (ComputeProjectID rootPath) name key w = (Ok tt, w') ->
  (forall r,
      stat (GetArtifactCachePath cm rootPath name key ++ r) (fs w') = None)
  /\ dirExists (GetArtifactCachePath cm rootPath name key) w' = false.
Proof.
  intros H. rewrite GetArtifactCachePath_entryPath.
  pose proof (RemoveCacheEntry_gone cm _ _ _ _ _ H) as G.
  split; [exact G|].
  apply stat_none_dirExists. pose proof (G []) as G0.
  rewrite app_nil_r in G0. exact G0.
Qed.

Lemma RemoveCacheEntry_then_miss_witness :
  let w1 := snd (StoreToCache Inputs.cm RootInputs.entry RootInputs.workspace)
  in
  let w2 := snd (RemoveCacheEntry Inputs.cm (ComputeProjectID ["p"]) "cargo"
                   RootInputs.key w1) in
  dirExists (GetArtifactCachePath Inputs.cm ["p"] "cargo" RootInputs.key) w1
  = true
  /\ (forall r,
        stat (GetArtifactCachePath Inputs.cm ["p"] "cargo" RootInputs.key
                ++ r) (fs w2) = None)
  /\ dirExists (GetArtifactCachePath Inputs.cm ["p"] "cargo" RootInputs.key)
       w2 = false.
Proof.
  cbv zeta. split; [vm_compute; reflexivity|].
  apply (RemoveCacheEntry_then_miss Inputs.cm ["p"] "cargo" RootInputs.key
           (snd (StoreToCache Inputs.cm RootInputs.entry
                   RootInputs.workspace))).
  vm_compute. reflexivity.
Defined.





(** ** [RemoveAllCache] *)

Lemma sizeKeyDirs_reads cm pid art ap kds : forall acc w,
  snd (sizeKeyDirs cm pid art ap kds acc w) = w.
Proof.
  induction kds as [|kd kds IH]; intros acc w; [reflexivity|].
  cbn [sizeKeyDirs]. destruct (negb (entryIsDir kd)); [apply IH|].
  apply bind_reads.
  - intros w0. apply try_reads. intros w1. apply calculateDirSize_reads.
  - intros [size|err] w0; apply IH.
Qed.

Lemma sizeArtifactDirs_reads cm pid pp ads : forall acc w,
  snd (sizeArtifactDirs cm pid pp ads acc w) = w.
Proof.
  induction ads as [|ad ads IH]; intros acc w; [reflexivity|].
  cbn [sizeArtifactDirs]. destruct (negb (entryIsDir ad)); [apply IH|].
  apply bind_reads.
  - intros w0. apply try_reads. intros w1. apply os_ReadDir_reads.
  - intros [kds|err] w0; [|apply IH].
    apply bind_reads; [intros w1; apply sizeKeyDirs_reads|].
    intros es w1. apply IH.
Qed.

Lemma sizeProjectDirs_reads cm pds : forall acc w,
  snd (sizeProjectDirs cm pds acc w) = w.
Proof.
  induction pds as [|pd pds IH]; intros acc w; [reflexivity|].
  cbn [sizeProjectDirs]. destruct (negb (entryIsDir pd)); [apply IH|].
  apply bind_reads.
  - intros w0. apply try_reads. intros w1. apply os_ReadDir_reads.
  - intros [ads|err] w0; [|apply IH].
    apply bind_reads; [intros w1; apply sizeArtifactDirs_reads|].
    intros es w1. apply IH.
Qed.

Lemma GetCacheSizes_reads cm w : snd (GetCacheSizes cm w) = w.
Proof.
  unfold GetCacheSizes. apply bind_reads; [reflexivity|].
  intros b w0. destruct (negb b); [reflexivity|].
  apply bind_reads.
  - intros w1. unfold wrap. pose proof (os_ReadDir_reads (LocalCacheDir cm) w1).
    destruct (os_ReadDir (LocalCacheDir cm) w1) as [[ds|e] w2]; assumption.
  - intros pds w1. apply sizeProjectDirs_reads.
Qed.

Lemma RemoveAllCache_inv cm w n total w' :
  RemoveAllCache cm w = (Ok (n, total), w') ->
  exists es,
    GetCacheSizes cm w = (Ok es, w)
    /\ n = Z.of_nat (List.length es)
    /\ total = fold_left (fun t e => add64 t (Size e)) es 0%Z
    /\ fs_remove_all (LocalCacheDir cm) (fs w) = inr (fs w').
Proof.
  unfold RemoveAllCache. intros H.
  apply bind_inv in H. destruct H as (es & w1 & G & H).
  pose proof (GetCacheSizes_reads cm w) as Rd. rewrite G in Rd.
  cbn [snd] in Rd. subst w1.
  apply bind_inv in H. destruct H as ([] & w2 & Rm & H).
  injection H as <- <- <-.
  apply wrap_inv in Rm. apply sys_ok in Rm. destruct Rm as (Fr & _).
  exists es. auto.
Qed.

(** X19.  When [RemoveAllCache] returns without an error, the two
    numbers it returns are the number of the entries that
    [GetCacheSizes] listed before the removal and the sum of their
    sizes; nothing is left at or below the cache directory, every other
    path of the disk is as it was, and [GetCacheSizes] then returns the
    empty listing. *)
Theorem RemoveAllCache_empties cm w n total w' :
  RemoveAllCache cm w = (Ok (n, total), w') ->
  (exists es,
      GetCacheSizes cm w = (Ok es, w)
      /\ n = Z.of_nat (List.length es)
      /\ total = fold_left (fun t e => add64 t (Size e)) es 0%Z)
  /\ (forall r, stat (LocalCacheDir cm ++ r) (fs w') = None)
  /\ (forall q, is_prefix (LocalCacheDir cm) q = false ->
        stat q (fs w') = stat q (fs w))
  /\ GetCacheSizes cm w' = (Ok [], w').
Proof.
  intros H. destruct (RemoveAllCache_inv _ _ _ _ _ H) as (es & G & En & Et & Fr).
  pose proof (fs_remove_all_spec _ _ _ Fr) as S.
  assert (N : forall r, stat (LocalCacheDir cm ++ r) (fs w') = None).
  { intros r. rewrite S, is_prefix_app. reflexivity. }
  split; [exists es; auto|]. split; [exact N|]. split.
  - intros q Pq. rewrite S, Pq. reflexivity.
  - unfold GetCacheSizes, bind at 1, gets at 1.
    pose proof (N []) as N0. rewrite app_nil_r in N0.
    rewrite (stat_none_dirExists _ _ N0). reflexivity.
Qed.

Lemma RemoveAllCache_empties_witness :
  let w := SizeInputs.start in
  let w' := snd (RemoveAllCache Inputs.cm w) in
  RemoveAllCache Inputs.cm w = (Ok (2%Z, 12%Z), w')
  /\ (exists es,
        GetCacheSizes Inputs.cm w = (Ok es, w)
        /\ 2%Z = Z.of_nat (List.length es)
        /\ 12%Z = fold_left (fun t e => add64 t (Size e)) es 0%Z)
  /\ (forall r, stat (LocalCacheDir Inputs.cm ++ r) (fs w') = None)
  /\ (forall q, is_prefix (LocalCacheDir Inputs.cm) q = false ->
        stat q (fs w') = stat q (fs w))
  /\ GetCacheSizes Inputs.cm w' = (Ok [], w').
Proof.
  cbv zeta. split; [vm_compute; reflexivity|].
  apply (RemoveAllCache_empties Inputs.cm SizeInputs.start 2%Z 12%Z).
  vm_compute. reflexivity.
Defined.

(** X20.  After [RemoveAllCache] returned without an error, every
    entry that [PrepareArtifactCache] returns is a miss, whatever the
    artifacts, the project and the workspace. *)
Theorem RemoveAllCache_then_no_hit cm w n total w' artifacts rootPath envPath
  es w'' :
  RemoveAllCache cm w = (Ok (n, total), w') ->
  PrepareArtifactCache cm artifacts rootPath envPath w' = (Ok es, w'') ->
  Forall (fun e => Entry.Hit e = false) es.
Proof.
  intros H Hp.
  destruct (RemoveAllCache_inv _ _ _ _ _ H) as (_ & _ & _ & _ & Fr).
  pose proof (fs_remove_all_spec _ _ _ Fr) as S.
  pose proof (PrepareArtifactCache_ok _ _ _ _ _ _ _ Hp) as F2.
  clear Hp. induction F2 as [|a e l l' He _ IH]; constructor; [|exact IH].
  destruct He as (_ & _ & Ec & _ & Eh). rewrite Eh, Ec.
  apply stat_none_dirExists. rewrite S.
  unfold GetArtifactCachePath, GetProjectCacheDir, filepath.Join.
  rewrite <- app_assoc, is_prefix_app. reflexivity.
Qed.

Lemma RemoveAllCache_then_no_hit_witness :
  let w1 := snd (StoreToCache Inputs.cm RootInputs.entry RootInputs.workspace)
  in
  let w2 := snd (RemoveAllCache Inputs.cm w1) in
  hits (fst (PrepareArtifactCache Inputs.cm [Inputs.cargo] ["p"] ["p"; "w1"]
               w1)) = [true]
  /\ exists es,
       PrepareArtifactCache Inputs.cm [Inputs.cargo] ["p"] ["p"; "w1"] w2
       = (Ok es, w2)
       /\ Forall (fun e => Entry.Hit e = false) es.
Proof.
  cbv zeta. split; [vm_compute; reflexivity|].
  eexists. split; [vm_compute; reflexivity|].
  apply (RemoveAllCache_then_no_hit Inputs.cm
           (snd (StoreToCache Inputs.cm RootInputs.entry RootInputs.workspace))
           1%Z 2%Z
           (snd (RemoveAllCache Inputs.cm
                   (snd (StoreToCache Inputs.cm RootInputs.entry
                           RootInputs.workspace))))
           [Inputs.cargo] ["p"] ["p"; "w1"] _
           (snd (RemoveAllCache Inputs.cm
                   (snd (StoreToCache Inputs.cm RootInputs.entry
                           RootInputs.workspace))))).
  - vm_compute. reflexivity.
  - vm_compute. reflexivity.
Defined.

(** ** [SeedDirectory] creates replicas only *)

(** X21.  When [SeedDirectory] returns without an error and the
    destination did not exist before the call, every file and every
    symbolic link that is in the destination afterwards is the replica
    of the source entry at the same relative path, and that path matches
    no skip rule of the artifact.  The source and the destination lie
    apart. *)
Theorem SeedDirectory_replicas_only src dst opts w w' r j :
  comparable src dst = false ->
  stat dst (fs w) = None ->
  SeedDirectory src dst opts w = (Ok tt, w') ->
  stat (dst ++ r) (fs w') = Some j -> IsDir j = false ->
  (exists i, stat (src ++ r) (fs w) = Some i /\ replica i j)
  /\ shouldSkipPath (rel_str r) (ArtifactName opts) = false.
Proof.
  intros Ap Nd H Sj Lj. split.
  - exact (SeedDirectory_sound src dst opts w w' r j Ap Nd H Sj Lj).
  - destruct (SeedDirectory_leaves src dst opts w _ w' _ j H Sj Lj)
      as [S0|(r0 & E & K)].
    + rewrite (stat_app_none _ _ r Nd) in S0. discriminate.
    + apply app_inv_head in E. subst r0. exact K.
Qed.

Lemma SeedDirectory_replicas_only_witness :
  (exists i,
      stat (["src"] ++ ["good.rlib"]) (fs SeedInputs.fresh) = Some i
      /\ replica i (IFile 420 2 (bytes "R")))
  /\ shouldSkipPath (rel_str ["good.rlib"]) (ArtifactName SeedInputs.opts)
     = false.
Proof.
  apply (SeedDirectory_replicas_only ["src"] ["dst"] SeedInputs.opts
           SeedInputs.fresh
           (snd (SeedDirectory ["src"] ["dst"] SeedInputs.opts
                   SeedInputs.fresh))).
  - vm_compute. reflexivity.
  - vm_compute. reflexivity.
  - vm_compute. reflexivity.
  - vm_compute. reflexivity.
  - reflexivity.
Defined.

(** ** Storing, then restoring *)






(** ** [countFiles] *)

Lemma countLeaves_dir name rel m es :
  countLeaves name rel (Directory m es)
  = fold_right (fun xc s => (countLeaves name (rel ++ [fst xc]) (snd xc) + s)%nat)
      O es.
Proof.
  cbn [countLeaves]. induction es as [|[x c] es IH]; [reflexivity|].
  cbn [fold_right fst snd]. rewrite <- IH. reflexivity.
Qed.

Lemma walkDir_count src name n : forall rel acc w,
  walkDir (countFn src name) (src ++ rel) n acc w
  = (Ok (acc + N.of_nat (countLeaves name rel n))%N, w).
Proof.
  induction n as [m i d|t|m es IH] using node_ind'; intros rel acc w.
  1,2: rewrite walkDir_leaf by reflexivity;
    unfold countFn; cbn [info_of IsDir countLeaves];
    unfold filepath.Rel; rewrite skipn_length_app;
    destruct (shouldSkipPath (rel_str rel) name); cbn [negb]; unfold ret;
    f_equal; f_equal; lia.
  rewrite countLeaves_dir. cbn [walkDir info_of]. unfold countFn at 1.
  cbn [IsDir]. unfold ret at 1.
  revert acc. induction IH as [|[x c] es Hc _ IHes]; intros acc.
  - cbn [fold_right]. unfold ret. f_equal. f_equal. lia.
  - cbn [snd fst fold_right] in *.
    rewrite <- (app_assoc src rel [x]). rewrite (Hc (rel ++ [x]) acc w).
    rewrite IHes. f_equal. f_equal. lia.
Qed.

Lemma collect_skipped_none name n : forall rel,
  (node_is_dir n = true -> shouldSkipPath (rel_str rel ++ "/") name = true) ->
  (node_is_dir n = false -> shouldSkipPath (rel_str rel) name = true) ->
  countLeaves name rel n = O.
Proof.
  induction n as [m i d|t|m es IH] using node_ind'; intros rel Hd Hl.
  1,2: cbn [countLeaves]; rewrite (Hl eq_refl); reflexivity.
  rewrite countLeaves_dir. specialize (Hd eq_refl). clear Hl.
  induction IH as [|[x c] es Hc _ IHes]; [reflexivity|].
  cbn [fold_right fst snd] in *.
  destruct (skipped_dir_below name rel x [] Hd) as [S1 S2].
  rewrite (Hc (rel ++ [x])); [exact IHes|intros _; exact S2|intros _; exact S1].
Qed.

Lemma countLeaves_collect src dst name n : forall rel,
  countLeaves name rel n
  = List.length (snd (seedCollect src dst name rel n)).
Proof.
  induction n as [m i d|t|m es IH] using node_ind'; intros rel.
  1,2: cbn [countLeaves seedCollect];
    destruct (shouldSkipPath (rel_str rel) name); reflexivity.
  rewrite seedCollect_dir.
  destruct (shouldSkipPath (rel_str rel ++ "/") name) eqn:Sk.
  - cbn [snd List.length].
    apply collect_skipped_none; [intros _; exact Sk|discriminate].
  - cbv zeta. cbn [snd]. rewrite countLeaves_dir.
    induction IH as [|[x c] es Hc _ IHes]; [reflexivity|].
    cbn [fold_right fst snd] in *. rewrite length_app, <- IHes, <- Hc.
    reflexivity.
Qed.

(** X23.  [countFiles] returns the number of the files and symbolic
    links that [SeedDirectory] links or copies for the same source and
    artifact: the entries of the source that are not directories and
    match no skip rule, those below a skipped directory left out.  The
    world is left as it was. *)
Theorem countFiles_counts_seeded src dst name w n :
  lookup src (fs w) = Some n ->
  countFiles src name w
  = (Ok (N.of_nat (List.length (snd (seedCollect src dst name [] n)))), w).
Proof.
  intros L. unfold countFiles, WalkDir. rewrite (lookup_resolve _ _ _ L).
  pose proof (walkDir_count src name n [] 0%N w) as W.
  rewrite app_nil_r in W. unfold countFn in W. rewrite W.
  rewrite (countLeaves_collect src dst). reflexivity.
Qed.

Lemma countFiles_counts_seeded_witness :
  countFiles ["src"] "cargo" SeedInputs.fresh = (Ok 2%N, SeedInputs.fresh).
Proof.
  apply (countFiles_counts_seeded ["src"] ["dst"] "cargo" SeedInputs.fresh
           (Directory 493
              [("a.o", File 420 1 (bytes "O"));
               ("good.rlib", File 420 2 (bytes "R"));
               ("incremental", Directory 493 [("s", File 420 3 (bytes "S"))]);
               ("link", SymLink "real");
               ("x.d", SymLink "y")])).
  vm_compute. reflexivity.
Defined.

(** ** Seeding touches the cache only *)

Lemma under_comparable L t q :
  comparable (L ++ t) q = true -> comparable L q = true.
Proof.
  unfold comparable. intros H. apply orb_true_iff in H.
  destruct H as [H|H].
  - rewrite (is_prefix_trans L (L ++ t) q (is_prefix_app L t) H). reflexivity.
  - exact (comparable_prefix_of L t q H).
Qed.

Lemma seedToCache_fills cm L t src name logger :
  preserves (fills L) any_syscall (seedToCache cm src (L ++ t) name logger).
Proof.
  unfold seedToCache, filepath.Join.
  papply preserves_bind.
  { eapply preserves_weaken; [| |apply MkdirAll_grows].
    - intros a b. apply grows_fills. intros q. apply comparable_prefix_of.
    - intros s _. exact I. }
  intros _. papply preserves_bind; [papply preserves_gets|].
  intros b. destruct b; [papply preserves_ret|].
  papply preserves_bind.
  { papply preserves_try.
    eapply preserves_weaken; [| |apply SeedDirectory_grows].
    - intros a b. apply grows_fills. intros q.
      rewrite <- app_assoc. apply under_comparable.
    - intros s _. exact I. }
  intros [u|err]; [papply preserves_ret|].
  papply preserves_bind; [|intros _; papply preserves_fail].
  papply preserves_try.
  eapply preserves_weaken; [| |apply RemoveAll_only].
  - intros a b. apply only_fills. intros q P.
    rewrite <- app_assoc in P.
    exact (is_prefix_trans L _ q (is_prefix_app L _) P).
  - intros s _. exact I.
Qed.

Lemma reads_ComputeCacheKey cm a env w :
  snd (ComputeCacheKey cm a env w) = w.
Proof. apply ComputeCacheKey_world. Qed.

Lemma wrap_reads {A} msg (m : M A) w :
  snd (m w) = w -> snd (wrap msg m w) = w.
Proof. unfold wrap. destruct (m w) as [[a|e] w1]; auto. Qed.

Lemma seedArtifactFromRoot_fills cm a rootPath envPath logger :
  preserves (fills (LocalCacheDir cm)) any_syscall
    (seedArtifactFromRoot cm a rootPath envPath logger).
Proof.
  unfold seedArtifactFromRoot.
  destruct (path_eqb rootPath envPath); [papply preserves_ret|].
  papply preserves_bind.
  { papply preserves_reader. intros w. apply wrap_reads.
    apply ComputeCacheKey_world. }
  intros envKey. papply preserves_bind; [papply preserves_gets|].
  intros b. destruct b; [papply preserves_ret|].
  papply preserves_bind.
  { papply preserves_reader. intros w. apply wrap_reads.
    apply ComputeCacheKey_world. }
  intros rootKey. destruct (negb _); [papply preserves_ret|].
  papply preserves_bind; [papply preserves_gets|].
  intros busy. destruct busy; [papply preserves_ret|].
  papply preserves_forM. intros p _.
  papply preserves_bind; [papply preserves_gets|].
  intros b. destruct (negb b); [papply preserves_ret|].
  papply preserves_wrap.
  unfold GetArtifactCachePath, GetProjectCacheDir, filepath.Join.
  rewrite <- app_assoc. apply seedToCache_fills.
Qed.

(** X24.  Whatever [SeedFromRoot] returns, outside the local cache
    directory the only change of the disk is that missing directories
    above the cache directory now exist: the root project and the
    workspace are left as they were. *)
Theorem SeedFromRoot_touches_cache_only cm artifacts rootPath envPath logger
  w r w' :
  SeedFromRoot cm artifacts rootPath envPath logger w = (r, w') ->
  forall q, is_prefix (LocalCacheDir cm) q = false ->
    stat q (fs w') = stat q (fs w)
    \/ (stat q (fs w) = None /\ is_prefix q (LocalCacheDir cm) = true).
Proof.
  intros H.
  assert (P : preserves (fills (LocalCacheDir cm)) any_syscall
                (SeedFromRoot cm artifacts rootPath envPath logger)).
  { unfold SeedFromRoot. papply preserves_forM. intros a _.
    apply seedArtifactFromRoot_fills. }
  destruct (P _ _ _ H) as (_ & F & _). exact F.
Qed.

Lemma SeedFromRoot_touches_cache_only_witness :
  let w := RootInputs.built in
  let w' := snd (SeedFromRoot Inputs.cm [Inputs.cargo] ["p"] ["p"; "w1"] None
                   w) in
  dirExists RootInputs.cachePath w' = true
  /\ (stat ["p"; "target"; "debug"; "libfoo.rlib"] (fs w')
      = stat ["p"; "target"; "debug"; "libfoo.rlib"] (fs w)
      \/ (stat ["p"; "target"; "debug"; "libfoo.rlib"] (fs w) = None
          /\ is_prefix ["p"; "target"; "debug"; "libfoo.rlib"]
               (LocalCacheDir Inputs.cm) = true)).
Proof.
  cbv zeta. split; [vm_compute; reflexivity|].
  apply (SeedFromRoot_touches_cache_only Inputs.cm [Inputs.cargo] ["p"]
           ["p"; "w1"] None RootInputs.built
           (fst (SeedFromRoot Inputs.cm [Inputs.cargo] ["p"] ["p"; "w1"] None
                   RootInputs.built))).
  - apply surjective_pairing.
  - reflexivity.
Defined.

(** ** Seeding needs the key of the root *)

(** X25.  [seedArtifactFromRoot] seeds from the root only when the
    cache key of the workspace is the cache key of the root: when the
    two keys differ, it returns without an error and leaves the world
    as it was. *)
Theorem seedArtifactFromRoot_needs_same_key cm a rootPath envPath logger w
  envKey rootKey :
  key_of (ComputeCacheKey cm a envPath w) = Some envKey ->
  key_of (ComputeCacheKey cm a rootPath w) = Some rootKey ->
  envKey <> rootKey ->
  seedArtifactFromRoot cm a rootPath envPath logger w = (Ok tt, w).
Proof.
  intros Ke Kr Ne. unfold seedArtifactFromRoot.
  destruct (path_eqb rootPath envPath); [reflexivity|].
  rewrite (bind_ok _ (wrap_ok _ (key_of_run _ _ _ _ _ Ke))).
  unfold bind at 1, gets at 1.
  destruct (dirExists _ w); [reflexivity|].
  rewrite (bind_ok _ (wrap_ok _ (key_of_run _ _ _ _ _ Kr))).
  apply String.eqb_neq in Ne. rewrite Ne. reflexivity.
Qed.

Lemma seedArtifactFromRoot_needs_same_key_witness :
  seedArtifactFromRoot Inputs.cm SyncInputs.plain ["w"] ["h"] None
    SyncInputs.plainStart
  = (Ok tt, SyncInputs.plainStart).
Proof.
  apply (seedArtifactFromRoot_needs_same_key Inputs.cm SyncInputs.plain
           ["w"] ["h"] None SyncInputs.plainStart
           "e3b0c44298fc1c14" "5c62e091b8c0565f").
  - vm_compute. reflexivity.
  - vm_compute. reflexivity.
  - discriminate.
Defined.

(** ** A build in progress *)

(** X26.  While the lock file [target/.cargo-lock] of a workspace is
    there, [syncArtifact] refuses to move the cargo artifact of the
    workspace: it returns the error [build in progress, cannot sync
    cargo] and leaves the world as it was.  While the lock file of the
    root is there, [seedArtifactFromRoot] leaves the world as it was,
    whatever it returns. *)
Theorem build_in_progress_blocks cm a rootPath envPath opts logger w :
  Name a = "cargo" ->
  (fileExists (envPath ++ ["target"; ".cargo-lock"]) w = true ->
   syncArtifact cm a rootPath envPath opts w
   = (Err (ErrorMsg "build in progress, cannot sync cargo"), w))
  /\ (fileExists (rootPath ++ ["target"; ".cargo-lock"]) w = true ->
      snd (seedArtifactFromRoot cm a rootPath envPath logger w) = w).
Proof.
  intros Hn. split; intros Hl.
  - unfold syncArtifact, bind at 1, gets at 1, isBuildInProgress.
    rewrite Hn. cbn [String.eqb Ascii.eqb Bool.eqb andb].
    unfold filepath.Join. rewrite Hl. reflexivity.
  - unfold seedArtifactFromRoot.
    destruct (path_eqb rootPath envPath); [reflexivity|].
    unfold bind at 1, wrap at 1.
    pose proof (ComputeCacheKey_world cm a envPath w) as Re.
    destruct (ComputeCacheKey cm a envPath w) as [[envKey|e] w1];
      cbn [snd] in Re; subst w1; [|reflexivity].
    unfold bind at 1, gets at 1.
    destruct (dirExists _ w); [reflexivity|].
    unfold bind at 1, wrap at 1.
    pose proof (ComputeCacheKey_world cm a rootPath w) as Rr.
    destruct (ComputeCacheKey cm a rootPath w) as [[rootKey|e] w1];
      cbn [snd] in Rr; subst w1; [|reflexivity].
    destruct (negb _); [reflexivity|].
    unfold bind at 1, gets at 1, isBuildInProgress.
    rewrite Hn. cbn [String.eqb Ascii.eqb Bool.eqb andb].
    unfold filepath.Join. rewrite Hl. reflexivity.
Qed.

Lemma build_in_progress_blocks_witness :
  let w :=
    Inputs.mk
      (Directory 493
         [("h", Directory 493 []);
          ("p", Directory 493
             [("target", Directory 493
                 [(".cargo-lock", File 420 3 []);
                  ("debug", Directory 493 [])])])])
      [] Inputs.rustc in
  syncArtifact Inputs.cm Inputs.cargo ["p"] ["p"] (mkSyncOptions true) w
  = (Err (ErrorMsg "build in progress, cannot sync cargo"), w)
  /\ snd (seedArtifactFromRoot Inputs.cm Inputs.cargo ["p"] ["p"; "w1"] None
            w) = w.
Proof.
  cbv zeta.
  match goal with
  | |- syncArtifact _ _ _ _ _ ?w = _ /\ _ =>
      destruct (build_in_progress_blocks Inputs.cm Inputs.cargo ["p"] ["p"]
                  (mkSyncOptions true) None w eq_refl) as [Hs _];
      destruct (build_in_progress_blocks Inputs.cm Inputs.cargo ["p"]
                  ["p"; "w1"] (mkSyncOptions true) None w eq_refl) as [_ Hr]
  end.
  split; [apply Hs|apply Hr]; vm_compute; reflexivity.
Defined.

(** ** The lock file stays *)

Lemma stat_fileExists p w m i d :
  stat p (fs w) = Some (IFile m i d) -> fileExists p w = true.
Proof.
  unfold stat, fileExists. destruct (lookup p (fs w)) as [[| |]|];
    try discriminate. reflexivity.
Qed.

Lemma fileExists_iff_stat p w :
  fileExists p w = true <-> exists m i d, stat p (fs w) = Some (IFile m i d).
Proof.
  split.
  - intros H. destruct (fileExists_stat _ _ H) as (m & i & d & L).
    exists m, i, d. apply lookup_stat in L. exact L.
  - intros (m & i & d & S). exact (stat_fileExists _ _ _ _ _ S).
Qed.

Lemma fileExists_extends p w w' :
  extends (fs w) (fs w') -> fileExists p w = true -> fileExists p w' = true.
Proof.
  intros X H. apply fileExists_iff_stat in H. destruct H as (m & i & d & S).
  apply fileExists_iff_stat. exists m, i, d. apply X. exact S.
Qed.

Lemma fileExists_same p w w' :
  stat p (fs w') = stat p (fs w) -> fileExists p w = true ->
  fileExists p w' = true.
Proof.
  intros E H. apply fileExists_iff_stat in H. destruct H as (m & i & d & S).
  apply fileExists_iff_stat. exists m, i, d. congruence.
Qed.

(** Once [acquireCacheLock] returns without an error, the lock file is
    there. *)
Lemma acquireCacheLock_creates cm c w lock w' :
  acquireCacheLock cm c w = (Ok lock, w') ->
  fileExists (path_add c ".lock") w' = true.
Proof.
  unfold acquireCacheLock. intros H.
  apply bind_inv in H. destruct H as ([] & wa & Ha & H).
  apply bind_inv in H. destruct H as ([] & wb & Hb & H).
  apply OpenCreate_ok in Hb.
  pose proof (fs_create_spec _ _ _ _ _ _ Hb (path_add c ".lock")) as S.
  rewrite path_eqb_refl in S.
  assert (F : fileExists (path_add c ".lock") wb = true).
  { apply fileExists_iff_stat.
    destruct (stat (path_add c ".lock") (fs wa)) as [[m i d| |]|];
      eexists _, _, _; exact S. }
  unfold bind, try in H. pose proof (Flock_reads (path_add c ".lock") wb) as Rd.
  destruct (os.Flock (path_add c ".lock") wb) as [[u|e] w1];
    cbn [snd] in Rd; subst w1; injection H as _ <-; exact F.
Qed.

Lemma moveToCache_keeps_lock cm l c hb w w' :
  comparable l (filepath.Dir c) = false ->
  moveToCache cm l c hb w = (Ok tt, w') ->
  fileExists (path_add c ".lock") w' = true.
Proof.
  intros apart H.
  destruct (Base_nonempty l (proj1 (apart_nonempty _ _ apart))) as (x & Bx).
  set (lk := path_add c ".lock") in *.
  assert (Nl : is_prefix l lk = false).
  { pose proof (apart_lock l c apart) as C. unfold comparable in C.
    apply orb_false_iff in C. apply C. }
  assert (Nt : is_prefix (c ++ [x]) lk = false).
  { destruct (is_prefix (c ++ [x]) lk) eqn:P; [|reflexivity].
    apply is_prefix_iff in P. destruct P as (t & E).
    pose proof (cacheSide_inside l c apart x t) as C.
    unfold cacheSide in C. apply orb_false_iff in C. destruct C as [_ C].
    apply path_eqb_neq in C. exfalso. apply C. fold lk. rewrite E.
    rewrite <- app_assoc. reflexivity. }
  unfold moveToCache in H. rewrite Bx in H. unfold filepath.Join in H.
  apply bind_inv in H. destruct H as (lock & w1 & A & H).
  pose proof (acquireCacheLock_creates _ _ _ _ _ A) as F1. fold lk in F1.
  destruct lock as [lp|]; [|injection H as <-; exact F1].
  apply defer_inv in H. destruct H as (w0 & B & ->). cbn [releaseCacheLock].
  unfold os.Unlock, ret. cbn [snd].
  unfold bind at 1, gets in B.
  destruct (dirExists (c ++ [x]) w1) eqn:Dt; [injection B as <-; exact F1|].
  apply bind_inv in B. destruct B as ([] & w2 & M & B).
  destruct (MkdirAll_grows _ _ _ _ _ M) as (_ & G2 & _).
  pose proof (fileExists_extends lk _ _ (grows_extends _ _ _ G2) F1) as F2.
  apply bind_inv in B. destruct B as (rn & w3 & Rn & B).
  apply try_inv in Rn.
  destruct (sys_run _ _ _ _ _ _ Rn) as (_ & _ & R3).
  assert (F3 : fileExists lk w3 = true).
  { destruct (fs_rename (mounts w2) l (c ++ [x]) (fs w2)) as [en|n3] eqn:Fr.
    - destruct R3 as [E3 _]. apply (fileExists_same lk w2 w3); [|exact F2].
      rewrite E3. reflexivity.
    - destruct R3 as [E3 _]. apply (fileExists_same lk w2 w3); [|exact F2].
      rewrite E3.
      destruct (fs_rename_spec _ _ _ _ _ Fr) as (_ & _ & _ & _ & S).
      rewrite (S lk), Nt, Nl. reflexivity. }
  destruct rn as [[]|err].
  - destruct hb; [|injection B as <-; exact F3].
    apply bind_inv in B. destruct B as (rh & w4 & Hh & B).
    apply try_inv in Hh.
    destruct rh as [[]|e].
    + injection B as <-.
      destruct (HardlinkTree_grows _ _ _ _ _ Hh) as (_ & G4 & _).
      exact (fileExists_extends lk _ _ (grows_extends _ _ _ G4) F3).
    + exfalso. apply bind_inv in B. destruct B as (rr & w5 & _ & B).
      apply bind_inv in B. destruct B as (rc & w6 & _ & B).
      destruct rr, rc; discriminate.
  - destruct (isCrossDevice err); [|discriminate].
    unfold copyToCache in B.
    apply bind_inv in B. destruct B as ([] & w4 & Cp & B).
    destruct (copyDir_fills _ _ _ _ _ Cp) as (_ & F4 & _).
    assert (F4' : fileExists lk w4 = true).
    { apply (fileExists_same lk w3 w4); [|exact F3].
      apply fileExists_iff_stat in F3. destruct F3 as (m & i & d & S3).
      destruct (F4 lk Nt) as [E|[N _]]; [exact E|congruence]. }
    destruct hb; [injection B as <-; exact F4'|].
    destruct (sys_run _ _ _ _ _ _ B) as (_ & _ & F5).
    destruct (fs_remove_all l (fs w4)) as [en|n5] eqn:Fr.
    + destruct F5 as [E5 _]. apply (fileExists_same lk w4 w0); [|exact F4'].
      rewrite E5. reflexivity.
    + destruct F5 as [E5 _]. apply (fileExists_same lk w4 w0); [|exact F4'].
      rewrite E5, (fs_remove_all_spec _ _ _ Fr lk), Nl. reflexivity.
Qed.

Lemma path_add_entryPath cm pid art key :
  path_add (entryPath cm pid art key) ".lock" = lockPath cm pid art key.
Proof.
  unfold entryPath, lockPath.
  change [pid; art; key] with ([pid; art] ++ [key]).
  change [pid; art; (key ++ ".lock")%string]
    with ([pid; art] ++ [(key ++ ".lock")%string]).
  rewrite !app_assoc.
  rewrite path_add_last.
  - rewrite removelast_last, last_last. reflexivity.
  - intros E. apply app_eq_nil in E. destruct E as [_ E]. discriminate.
Qed.

Lemma append_neq (s t : string) : t <> "" -> (s ++ t)%string <> s.
Proof.
  intros Nt. induction s as [|a s IH]; cbn.
  - exact Nt.
  - intros E. injection E as E. exact (IH E).
Qed.

(** X27.  The lock file of an entry is never removed.  When
    [moveToCache] returns without an error, the lock file [<key>.lock]
    is there beside the entry; and [RemoveCacheEntry] of that entry,
    whatever it returns, leaves the lock file and with it the artifact
    directory: the directory of the artifact is not pruned once [Sync]
    has made an entry in it. *)
Theorem lock_file_outlives_entry cm pid art key l hb w w1 r w2 :
  comparable l (filepath.Dir (entryPath cm pid art key)) = false ->
  moveToCache cm l (entryPath cm pid art key) hb w = (Ok tt, w1) ->
  RemoveCacheEntry cm pid art key w1 = (r, w2) ->
  fileExists (lockPath cm pid art key) w1 = true
  /\ fileExists (lockPath cm pid art key) w2 = true
  /\ dirExists (LocalCacheDir cm ++ [pid; art]) w2 = true.
Proof.
  intros apart Hm Hr.
  pose proof (moveToCache_keeps_lock _ _ _ _ _ _ apart Hm) as F1.
  rewrite path_add_entryPath in F1. split; [exact F1|].
  set (A := LocalCacheDir cm ++ [pid; art]) in *.
  assert (El : lockPath cm pid art key = A ++ [(key ++ ".lock")%string]).
  { unfold lockPath, A. rewrite <- app_assoc. reflexivity. }
  assert (Ee : entryPath cm pid art key = A ++ [key]).
  { unfold entryPath, A. rewrite <- app_assoc. reflexivity. }
  assert (Nk : (key ++ ".lock")%string <> key)
    by (apply append_neq; discriminate).
  assert (S2 : stat (lockPath cm pid art key) (fs w2)
               = stat (lockPath cm pid art key) (fs w1)).
  { apply (RemoveCacheEntry_frame cm pid art key w1 r w2 _ Hr).
    - fold (entryPath cm pid art key). rewrite Ee, El.
      apply is_prefix_sibling. congruence.
    - fold A. rewrite El. intros X. rewrite <- (app_nil_r A) in X at 2.
      apply app_inv_head in X. discriminate.
    - rewrite El. unfold A. rewrite <- app_assoc. intros X.
      apply app_inv_head in X. discriminate. }
  split; [exact (fileExists_same _ _ _ S2 F1)|].
  apply fileExists_iff_stat in F1. destruct F1 as (m & i & d & Sl).
  destruct (stat_prefix_dir A (fs w1) [(key ++ ".lock")%string] _
              (eq_trans (f_equal (fun p => stat p (fs w1)) (eq_sym El)) Sl))
    as (ma & Sa); [discriminate|].
  destruct (RemoveCacheEntry_parents cm pid art key w1 r w2 Hr) as [[E|N] _].
  - fold A in E. apply dirExists_iff_stat. exists ma. congruence.
  - fold A in N. specialize (N (key ++ ".lock")%string [] Nk).
    rewrite <- El in N. congruence.
Qed.

Lemma lock_file_outlives_entry_witness :
  let c := entryPath Inputs.cm "P" "cargo" "K" in
  let w1 := snd (moveToCache Inputs.cm ["p"; "w1"; "target"] c true
                   RootInputs.workspace) in
  let w2 := snd (RemoveCacheEntry Inputs.cm "P" "cargo" "K" w1) in
  dirExists c w1 = true
  /\ dirExists c w2 = false
  /\ fileExists (lockPath Inputs.cm "P" "cargo" "K") w1 = true
  /\ fileExists (lockPath Inputs.cm "P" "cargo" "K") w2 = true
  /\ dirExists (LocalCacheDir Inputs.cm ++ ["P"; "cargo"]) w2 = true.
Proof.
  cbv zeta. split; [vm_compute; reflexivity|]. split; [vm_compute; reflexivity|].
  apply (lock_file_outlives_entry Inputs.cm "P" "cargo" "K"
           ["p"; "w1"; "target"] true RootInputs.workspace
           (snd (moveToCache Inputs.cm ["p"; "w1"; "target"]
                   (entryPath Inputs.cm "P" "cargo" "K") true
                   RootInputs.workspace))
           (fst (RemoveCacheEntry Inputs.cm "P" "cargo" "K"
                   (snd (moveToCache Inputs.cm ["p"; "w1"; "target"]
                           (entryPath Inputs.cm "P" "cargo" "K") true
                           RootInputs.workspace))))).
  - vm_compute. reflexivity.
  - vm_compute. reflexivity.
  - apply surjective_pairing.
Defined.
